(** * Graph minors: quotient graphs and node/edge contraction

    A shallow embedding of [networkx/algorithms/minors.py]
    ([equivalence_classes], [quotient_graph], [contracted_nodes],
    [contracted_edge], [blockmodel]) together with the properties of the
    design document that concern it.

    The file has three parts:
    - the data model (attribute values, graphs, exceptions);
    - the functions of [minors.py], first on graphs whose attribute
      dictionaries are plain values, then once more over a store of
      dictionary objects, where object identity and sharing are visible;
    - the theorems. *)

From stdpp Require Import gmap strings list fin_maps.

Set Warnings "-register-all".

(** ** Exceptions and fallible computations *)

(** The exceptions that the functions of [minors.py], or the graph methods
    they call, may raise.  [NetworkXException] is the one raised by
    [quotient_graph] on an invalid partition, [ValueError] the one raised
    by [contracted_edge] on a missing edge. *)
Inductive error : Type :=
  | NetworkXException
  | NetworkXError
  | ValueError
  | KeyError
  | TypeError
  | StopIteration
  | RecursionError.

#[global] Instance error_eq_dec : EqDecision error.
Proof. solve_decision. Defined.

Inductive result (A : Type) : Type :=
  | Ok (a : A)
  | Err (e : error).
Arguments Ok {A} a.
Arguments Err {A} e.

#[global] Instance result_ret : MRet result := @Ok.
#[global] Instance result_bind : MBind result :=
  λ A B f m, match m with Ok a => f a | Err e => Err e end.
#[global] Instance result_fmap : FMap result :=
  λ A B f m, match m with Ok a => Ok (f a) | Err e => Err e end.

#[global] Instance result_eq_dec `{EqDecision A} : EqDecision (result A).
Proof. solve_decision. Defined.

Definition is_Ok {A} (r : result A) : Prop := ∃ a, r = Ok a.

(** [any(f(x) for x in l)]: the generator is consumed left to right and
    [any] stops at the first true element, so an exception raised by a
    later element is never seen. *)
Fixpoint any_r {A} (f : A → result bool) (l : list A) : result bool :=
  match l with
  | [] => Ok false
  | x :: l' => r ← f x; if (r : bool) then Ok true else any_r f l'
  end.

(** A list comprehension whose body may raise. *)
Fixpoint mapM_r {A B} (f : A → result B) (l : list A) : result (list B) :=
  match l with
  | [] => Ok []
  | x :: l' => y ← f x; ys ← mapM_r f l'; Ok (y :: ys)
  end.

(** ** Graph classes and graphs *)

(** The four graph classes of the library; [type(G)] is [g_class G]. *)
Inductive graph_class : Type :=
  | ClsGraph
  | ClsDiGraph
  | ClsMultiGraph
  | ClsMultiDiGraph.

#[global] Instance graph_class_eq_dec : EqDecision graph_class.
Proof. solve_decision. Defined.

Definition cls_directed (c : graph_class) : bool :=
  match c with ClsDiGraph | ClsMultiDiGraph => true | _ => false end.

Definition cls_multigraph (c : graph_class) : bool :=
  match c with ClsMultiGraph | ClsMultiDiGraph => true | _ => false end.

(** An edge with its key (always [0] in a simple graph) and its attribute
    payload.  An undirected edge is stored once, in the orientation in which
    it was added. *)
Record Edge (N A : Type) : Type := mkEdge {
  e_src : N;
  e_dst : N;
  e_key : nat;
  e_data : A;
}.
Arguments mkEdge {N A} _ _ _ _.
Arguments e_src {N A} _.
Arguments e_dst {N A} _.
Arguments e_key {N A} _.
Arguments e_data {N A} _.

(** Modelled from the spec: the Graph abstraction of section 6 (the graph
    classes themselves are not among the sources).  A graph is its class,
    its nodes with their attribute payload, in iteration order, and its
    edges.  The payload type [A] is the attribute dictionary itself in the
    value-level model and a reference to a dictionary object in the store
    model. *)
Record Graph (N A : Type) : Type := mkGraph {
  g_class : graph_class;
  g_node : list (N * A);
  g_edge : list (Edge N A);
}.
Arguments mkGraph {N A} _ _ _.
Arguments g_class {N A} _.
Arguments g_node {N A} _.
Arguments g_edge {N A} _.

(** ** Structural graph queries, for any payload *)

Section structure.
Context {N A : Type} `{EqDecision N}.
Implicit Types (G : Graph N A) (e : Edge N A) (u v n : N).

Definition is_directed G : bool := cls_directed (g_class G).
Definition is_multigraph G : bool := cls_multigraph (g_class G).

(** [type(G)()] *)
Definition empty_graph (c : graph_class) : Graph N A := mkGraph c [] [].

(** [list(G)], also the order of [for v in G]. *)
Definition nodes G : list N := (g_node G).*1.

(** [n in G] *)
Definition has_node G n : bool := bool_decide (n ∈ nodes G).

(** [len(G)] *)
Definition number_of_nodes G : nat := length (g_node G).

(** [G.number_of_edges()] *)
Definition number_of_edges G : nat := length (g_edge G).

(** [G.node[n]] *)
Definition node_attr G n : result A :=
  match list_find (λ p, p.1 = n) (g_node G) with
  | Some (_, (_, a)) => Ok a
  | None => Err KeyError
  end.

(** Whether the stored edge [e] joins [u] to [v]: in that direction in a
    directed graph, in either in an undirected one. *)
Definition joins (directed : bool) u v e : bool :=
  bool_decide (e_src e = u ∧ e_dst e = v)
  || (negb directed && bool_decide (e_src e = v ∧ e_dst e = u)).

Definition incident n e : bool :=
  bool_decide (e_src e = n) || bool_decide (e_dst e = n).

(** The keys of [G[u]] (successors in a directed graph), given [u in G]. *)
Definition neighbors G u : list N :=
  remove_dups
    (flat_map (λ e,
       (if decide (e_src e = u) then [e_dst e] else [])
       ++ (if negb (is_directed G) && bool_decide (e_dst e = u)
           then [e_src e] else []))
     (g_edge G)).

(** [G[u]]: raises [KeyError] when [u] is not a node. *)
Definition adj G u : result (list N) :=
  if has_node G u then Ok (neighbors G u) else Err KeyError.

(** [v in G[u]] *)
Definition in_adj G u v : result bool :=
  nbrs ← adj G u; Ok (bool_decide (v ∈ nbrs)).

(** [G.has_edge(u, v)]: a missing node gives [False], not an exception. *)
Definition has_edge G u v : bool :=
  existsb (joins (is_directed G) u v) (g_edge G).

(** [G.nbunch_iter(nbunch)] for a collection: the members that are nodes
    of [G]; others are skipped silently. *)
Definition nbunch_iter G (nbunch : list N) : list N :=
  filter (λ n, n ∈ nodes G) nbunch.

(** The out-edges [(n, nbr, d)] of the nodes of [bunch], node by node. *)
Definition out_edges_iter G (bunch : list N) : list (N * N * A) :=
  flat_map (λ n,
    flat_map (λ e,
      if decide (e_src e = n) then [(n, e_dst e, e_data e)] else [])
    (g_edge G)) bunch.

(** The in-edges [(pred, n, d)] of the nodes of [bunch]. *)
Definition in_edges_iter G (bunch : list N) : list (N * N * A) :=
  flat_map (λ n,
    flat_map (λ e,
      if decide (e_dst e = n) then [(e_src e, n, e_data e)] else [])
    (g_edge G)) bunch.

(** What the stored edge [e] contributes when the iteration over an
    undirected graph is at node [n]: the triple [(n, nbr, d)] when [e] is an
    edge at [n] and its other end [nbr] has not been [seen]. *)
Definition report_edge (seen : list N) n e : list (N * N * A) :=
  if decide (e_src e = n) then
    (if decide (e_dst e ∈ seen) then [] else [(n, e_dst e, e_data e)])
  else if decide (e_dst e = n) then
    (if decide (e_src e ∈ seen) then [] else [(n, e_src e, e_data e)])
  else [].

(** The edges met from node [n] in an undirected graph, as [(n, nbr, d)],
    leaving out the neighbours already [seen]. *)
Definition edges_from_unseen G (seen : list N) n : list (N * N * A) :=
  flat_map (report_edge seen n) (g_edge G).

(** Iteration over the edges at [bunch] in an undirected graph: every node
    of the bunch reports its edges, and is then marked as seen so that an
    edge between two nodes of the bunch is reported once. *)
Fixpoint undirected_edges_iter G (seen bunch : list N) : list (N * N * A) :=
  match bunch with
  | [] => []
  | n :: rest =>
      edges_from_unseen G seen n ++ undirected_edges_iter G (n :: seen) rest
  end.

(** [G.edges(nbunch, data=True)] for a collection [nbunch]. *)
Definition edges_data G (nbunch : list N) : list (N * N * A) :=
  if is_directed G then out_edges_iter G (nbunch_iter G nbunch)
  else undirected_edges_iter G [] (nbunch_iter G nbunch).

(** [G.edges(v, data=True)], [G.out_edges(v, data=True)] and
    [G.in_edges(v, data=True)] for a single node [v]: the library raises
    [NetworkXError] when [v] is not a node. *)
Definition edges_data_at G v : result (list (N * N * A)) :=
  if has_node G v then Ok (edges_data G [v]) else Err NetworkXError.

Definition out_edges_data_at G v : result (list (N * N * A)) :=
  if has_node G v then Ok (out_edges_iter G [v]) else Err NetworkXError.

Definition in_edges_data_at G v : result (list (N * N * A)) :=
  if has_node G v then Ok (in_edges_iter G [v]) else Err NetworkXError.

(** [G.remove_node(n)]: the node goes, and every edge at it. *)
Definition remove_node G n : result (Graph N A) :=
  if has_node G n then
    Ok (mkGraph (g_class G)
          (filter (λ p, p.1 ≠ n) (g_node G))
          (filter (λ e, incident n e = false) (g_edge G)))
  else Err NetworkXError.

(** [G.subgraph(nbunch)]: a new graph of the same class on the nodes of
    [nbunch] that are in [G], with the edges of [G] between them.  The
    attribute payloads are those of [G] itself, not copies. *)
Definition subgraph G (nbunch : list N) : Graph N A :=
  let bunch := nbunch_iter G nbunch in
  mkGraph (g_class G)
    (omap (λ n, match node_attr G n with Ok a => Some (n, a) | Err _ => None end)
          bunch)
    (filter (λ e, e_src e ∈ bunch ∧ e_dst e ∈ bunch) (g_edge G)).

(** Renaming of the nodes by [f], keeping payloads and edges. *)
Definition map_nodes {N'} (f : N → N') G : Graph N' A :=
  mkGraph (g_class G)
    (map (λ p, (f p.1, p.2)) (g_node G))
    (map (λ e, mkEdge (f (e_src e)) (f (e_dst e)) (e_key e) (e_data e))
         (g_edge G)).

(** The first key that [MultiGraph.add_edge] finds free:
    [key = len(keydict); while key in keydict: key += 1]. *)
Fixpoint next_free (fuel k : nat) (keys : list nat) : nat :=
  match fuel with
  | 0 => k
  | S fuel' => if decide (k ∈ keys) then next_free fuel' (S k) keys else k
  end.

Definition edge_keys G u v : list nat :=
  e_key <$> filter (λ e, joins (is_directed G) u v e = true) (g_edge G).

Definition new_edge_key G u v : nat :=
  let keys := edge_keys G u v in
  next_free (S (length keys)) (length keys) keys.

(** Well-formed graphs: node names are unique, edges join nodes, a simple
    graph has at most one edge between two nodes and parallel edges of a
    multigraph have different keys. *)
Definition same_slot G (e1 e2 : Edge N A) : Prop :=
  joins (is_directed G) (e_src e1) (e_dst e1) e2 = true ∧ e_key e1 = e_key e2.

Record wf_graph G : Prop := {
  wf_nodes : NoDup (nodes G);
  wf_ends : ∀ e, e ∈ g_edge G → e_src e ∈ nodes G ∧ e_dst e ∈ nodes G;
  wf_slots : ∀ i j e1 e2,
    g_edge G !! i = Some e1 → g_edge G !! j = Some e2 →
    same_slot G e1 e2 → i = j;
  wf_simple : is_multigraph G = false → ∀ e, e ∈ g_edge G → e_key e = 0;
}.
End structure.

(** ** Attribute values *)

(** Keys of the dictionaries that occur: attribute names, the integer keys
    of parallel edges, and node names (in a contraction record). *)
Inductive akey (V : Type) : Type :=
  | KStr (s : string)
  | KInt (k : nat)
  | KNode (v : V).
Arguments KStr {V} s.
Arguments KInt {V} k.
Arguments KNode {V} v.

#[global] Instance akey_eq_dec `{EqDecision V} : EqDecision (akey V).
Proof. solve_decision. Defined.

#[global] Instance akey_countable `{Countable V} : Countable (akey V).
Proof.
  refine (inj_countable'
    (λ k, match k with
          | KStr s => inl s | KInt z => inr (inl z) | KNode v => inr (inr v)
          end)
    (λ x, match x with
          | inl s => KStr s | inr (inl z) => KInt z | inr (inr v) => KNode v
          end) _).
  intros []; reflexivity.
Defined.

(** Attribute values: integers, strings, dictionaries and graph objects.
    Floating-point numbers are not represented; the one float that
    [minors.py] produces, the density of a block, is left to a parameter. *)
Inductive value (V : Type) `{Countable V} : Type :=
  | VInt (z : Z)
  | VStr (s : string)
  | VDict (d : gmap (akey V) (value V))
  | VGraph (g : Graph V (gmap (akey V) (value V))).
Arguments VInt {V _ _} z.
Arguments VStr {V _ _} s.
Arguments VDict {V _ _} d.
Arguments VGraph {V _ _} g.

(** An attribute dictionary. *)
Abbreviation attrs V := (gmap (akey V) (value V)).

(** ** Graph updates on attribute dictionaries held by value *)

Section attr_graphs.
Context {V : Type} `{Countable V}.
Context {N : Type} `{EqDecision N}.
Implicit Types (G : Graph N (attrs V)) (u v n : N) (d dd : attrs V).

(** [old.update(new)] *)
Definition dict_update (old new : attrs V) : attrs V := new ∪ old.

(** [G.copy()]: a deep copy; on values it is the identity. *)
Definition copy G : Graph N (attrs V) := G.

(** One step of [G.add_nodes_from] for a pair [(n, ndict)]: a new node
    gets a new dictionary holding [ndict], a known node has its
    dictionary updated. *)
Definition add_node G n (ndict : attrs V) : Graph N (attrs V) :=
  if has_node G n then
    mkGraph (g_class G)
      (map (λ p, if decide (p.1 = n) then (p.1, dict_update p.2 ndict) else p)
           (g_node G))
      (g_edge G)
  else
    mkGraph (g_class G) (g_node G ++ [(n, dict_update ∅ ndict)]) (g_edge G).

(** [G.add_nodes_from(pairs)] *)
Definition add_nodes_from G (pairs : list (N * attrs V)) : Graph N (attrs V) :=
  foldl (λ g p, add_node g p.1 p.2) G pairs.

(** The endpoints of a new edge become nodes, with empty attributes, when
    they are not nodes yet. *)
Definition ensure_node G n : Graph N (attrs V) :=
  if has_node G n then G
  else mkGraph (g_class G) (g_node G ++ [(n, ∅)]) (g_edge G).

(** One step of [G.add_edges_from] for a triple [(u, v, dd)].  In a
    multigraph the edge is new and gets the next free key.  In a simple
    graph an edge already joining [u] and [v] has its dictionary updated;
    otherwise the edge is new. *)
Definition add_edge G u v dd : Graph N (attrs V) :=
  let G := ensure_node (ensure_node G u) v in
  if is_multigraph G then
    mkGraph (g_class G) (g_node G)
      (g_edge G ++ [mkEdge u v (new_edge_key G u v) (dict_update ∅ dd)])
  else if has_edge G u v then
    mkGraph (g_class G) (g_node G)
      (map (λ e, if joins (is_directed G) u v e
                 then mkEdge (e_src e) (e_dst e) (e_key e)
                        (dict_update (e_data e) dd)
                 else e)
           (g_edge G))
  else
    mkGraph (g_class G) (g_node G)
      (g_edge G ++ [mkEdge u v 0 (dict_update ∅ dd)]).

(** [G.add_edges_from(triples)] *)
Definition add_edges_from G (triples : list (N * N * attrs V)) :
    Graph N (attrs V) :=
  foldl (λ g t, add_edge g t.1.1 t.1.2 t.2) G triples.

(** [G.get_edge_data(u, v, default)].  In a simple graph this is the
    attribute dictionary of the edge.  In a multigraph it is the
    dictionary of the parallel edges, from key to attribute dictionary. *)
Definition get_edge_data G u v (default : attrs V) : attrs V :=
  let es := filter (λ e, joins (is_directed G) u v e = true) (g_edge G) in
  match es with
  | [] => default
  | e :: _ =>
      if is_multigraph G then
        list_to_map ((λ e, (KInt (e_key e), VDict (e_data e))) <$> es)
      else e_data e
  end.

(** [H.node[n][k] = x] *)
Definition set_node_attr G n (k : akey V) (x : value V) : Graph N (attrs V) :=
  mkGraph (g_class G)
    (map (λ p, if decide (p.1 = n) then (p.1, <[k := x]> p.2) else p)
         (g_node G))
    (g_edge G).
End attr_graphs.

(** ** The functions of [minors.py] *)

(** Modelled from the spec: [arbitrary_element] of the library's utilities,
    the "arbitrary representative" of a block.  On a list it is the first
    element; on an empty one the iterator is exhausted. *)
Definition arbitrary_element {A} (l : list A) : result A :=
  match l with
  | x :: _ => Ok x
  | [] => Err StopIteration
  end.

(** The inner [for block in blocks: ... else: ...] loop of
    [equivalence_classes]: [y] joins the first block whose representative is
    related to it, or starts a block of its own. *)
Fixpoint place_in_blocks {A} (relation : A → A → bool) (y : A)
    (blocks : list (list A)) : result (list (list A)) :=
  match blocks with
  | [] => Ok [[y]]
  | block :: rest =>
      x ← arbitrary_element block;
      if relation x y then Ok ((block ++ [y]) :: rest)
      else rest' ← place_in_blocks relation y rest; Ok (block :: rest')
  end.

(** The outer loop, from the blocks built so far. *)
Fixpoint collect_blocks {A} (relation : A → A → bool) (blocks : list (list A))
    (iterable : list A) : result (list (list A)) :=
  match iterable with
  | [] => Ok blocks
  | y :: rest =>
      blocks' ← place_in_blocks relation y blocks;
      collect_blocks relation blocks' rest
  end.

Definition equivalence_classes `{Countable A} (iterable : list A)
    (relation : A → A → bool) : result (gset (gset A)) :=
  blocks ← collect_blocks relation [] iterable;
  Ok (list_to_set ((list_to_set <$> blocks) : list (gset A))).

(** [itertools.product(l, k)] *)
Definition product {A B} (l : list A) (k : list B) : list (A * B) :=
  flat_map (λ a, pair a <$> k) l.

(** [itertools.combinations(l, 2)] *)
Fixpoint combinations2 {A} (l : list A) : list (A * A) :=
  match l with
  | [] => []
  | x :: l' => (pair x <$> l') ++ combinations2 l'
  end.

(** [itertools.permutations(l, 2)]: every element with every element at
    another position, in the order of the first. *)
Fixpoint permutations2_from {A} (before after : list A) : list (A * A) :=
  match after with
  | [] => []
  | x :: after' =>
      (pair x <$> (before ++ after'))
      ++ permutations2_from (before ++ [x]) after'
  end.

Definition permutations2 {A} (l : list A) : list (A * A) :=
  permutations2_from [] l.

Section minors_structure.
Context {V : Type} `{Countable V}.
Context {A : Type}.
Implicit Types (G : Graph V A) (b c : gset V) (u v w : V).

(** [sum(1 for b in partition if v in b)] *)
Definition count_blocks (partition : list (gset V)) v : nat :=
  length (filter (λ b, v ∈ b) partition).

(** The check of [quotient_graph]:
    [any(sum(1 for b in partition if v in b) != 1 for v in G)]. *)
Definition bad_partition G (partition : list (gset V)) : bool :=
  existsb (λ v, negb (count_blocks partition v =? 1)) (nodes G).

(** The default [edge_relation]:
    [any(v in G[u] for u, v in product(b, c))]. *)
Definition default_edge_relation G b c : result bool :=
  any_r (λ uv, in_adj G uv.1 uv.2) (product (elements b) (elements c)).

(** [edge_relation], the default one when the caller gave none. *)
Definition the_edge_relation G
    (edge_relation : option (gset V → gset V → bool)) :
    gset V → gset V → result bool :=
  match edge_relation with
  | Some r => λ b c, Ok (r b c)
  | None => default_edge_relation G
  end.

(** The test of the default [edge_data] on an edge [(u, v, d)]:
    [(u in b and v in c) or (u in c and v in b)]. *)
Definition crosses b c (t : V * V * A) : bool :=
  (bool_decide (t.1.1 ∈ b) && bool_decide (t.1.2 ∈ c))
  || (bool_decide (t.1.1 ∈ c) && bool_decide (t.1.2 ∈ b)).

(** [permutations(H, 2) if H.is_directed() else combinations(H, 2)] *)
Definition block_pairs (H : Graph (gset V) A) : list (gset V * gset V) :=
  if is_directed H then permutations2 (nodes H) else combinations2 (nodes H).

(** The class of the quotient: [type(create_using)] or [type(G)]. *)
Definition quotient_class G (create_using : option graph_class) : graph_class :=
  match create_using with
  | Some cls => cls
  | None => g_class G
  end.

(** [{b: i for i, b in enumerate(partition)}]: a block listed twice keeps
    its last index. *)
Definition block_labels (partition : list (gset V)) : gmap (gset V) nat :=
  foldl (λ m ib, <[ib.2 := ib.1]> m) ∅ (imap pair partition).

(** Modelled from the spec: [nx.relabel_nodes(H, labels)], step 7 of the
    quotient construction: every node key is replaced by its label and
    attribute data stays with its node and its edge.  A node without a
    label would keep its name; the quotient has none, and [0] stands in. *)
Definition relabel_nodes (H : Graph (gset V) A)
    (labels : gmap (gset V) nat) : Graph nat A :=
  map_nodes (λ b, default 0 (labels !! b)) H.

(** The node type of the quotient: blocks, or integers after relabeling. *)
Definition qnode (relabel : bool) : Type := if relabel then nat else gset V.

(** The condition [self_loops or w != u] of the three generators of
    [contracted_nodes]. *)
Definition keeps (self_loops : bool) u w : bool :=
  self_loops || bool_decide (w ≠ u).

(** [((w, u, d) for w, x, d in ins if self_loops or w != u)] *)
Definition rerouted_in (self_loops : bool) u
    (ins : list (V * V * A)) : list (V * V * A) :=
  (λ t, (t.1.1, u, t.2)) <$> filter (λ t, keeps self_loops u t.1.1 = true) ins.

(** [((u, w, d) for x, w, d in outs if self_loops or w != u)] *)
Definition rerouted_out (self_loops : bool) u
    (outs : list (V * V * A)) : list (V * V * A) :=
  (λ t, (u, t.1.2, t.2)) <$> filter (λ t, keeps self_loops u t.1.2 = true) outs.

(** The generator [new_edges] of [contracted_nodes]; it reads [G]. *)
Definition new_edges G u v (self_loops : bool) :
    result (list (V * V * A)) :=
  if is_directed G then
    ins ← in_edges_data_at G v;
    outs ← out_edges_data_at G v;
    Ok (rerouted_in self_loops u ins ++ rerouted_out self_loops u outs)
  else
    es ← edges_data_at G v;
    Ok (rerouted_out self_loops u es).

End minors_structure.

Section minors.
Context {V : Type} `{Countable V}.

(** [networkx.density], which yields a float: a parameter. *)
Variable density : Graph V (attrs V) → value V.

Implicit Types (G : Graph V (attrs V)) (b c : gset V) (u v w : V).

(** The default [node_data]. *)
Definition default_node_data G b : attrs V :=
  let S := subgraph G (elements b) in
  <[KStr "graph" := VGraph S]>
    (<[KStr "nnodes" := VInt (Z.of_nat (number_of_nodes S))]>
      (<[KStr "nedges" := VInt (Z.of_nat (number_of_edges S))]>
        (<[KStr "density" := density S]> ∅))).

(** [d.get('weight', 1)], as a summand of [sum]: only numbers add up. *)
Definition weight_of (d : attrs V) : result Z :=
  match d !! KStr "weight" with
  | None => Ok 1%Z
  | Some (VInt z) => Ok z
  | Some _ => Err TypeError
  end.

(** [sum(d.get('weight', 1) for d in edgedata)], from the running total. *)
Fixpoint sum_weights (total : Z) (edgedata : list (attrs V)) : result Z :=
  match edgedata with
  | [] => Ok total
  | d :: rest => w ← weight_of d; sum_weights (total + w) rest
  end.

(** The default [edge_data]. *)
Definition default_edge_data G b c : result (attrs V) :=
  let edgedata :=
    snd <$> filter (λ t, crosses b c t = true)
                   (edges_data G (elements (b ∪ c))) in
  w ← sum_weights 0 edgedata;
  Ok (<[KStr "weight" := VInt w]> ∅).

(** The edges that a multigraph quotient receives for the block pair
    [(b, c)]:
    [(b, c, G.get_edge_data(u, v, default={}))
       for u, v in product(b, c) if v in G[u]]. *)
Definition multi_edges G b c : result (list (gset V * gset V * attrs V)) :=
  (λ ls, concat ls) <$>
    mapM_r (λ uv,
        r ← in_adj G uv.1 uv.2;
        Ok (if (r : bool) then [(b, c, get_edge_data G uv.1 uv.2 ∅)] else []))
      (product (elements b) (elements c)).

(** [edge_data], the default one when the caller gave none. *)
Definition the_edge_data G
    (edge_data : option (gset V → gset V → attrs V)) :
    gset V → gset V → result (attrs V) :=
  match edge_data with
  | Some f => λ b c, Ok (f b c)
  | None => default_edge_data G
  end.

(** The edges for a multigraph quotient: the chain, over the adjacent
    block pairs, of their [multi_edges]. *)
Definition multigraph_edges G (rel : gset V → gset V → result bool)
    (pairs : list (gset V * gset V)) :
    result (list (gset V * gset V * attrs V)) :=
  (λ ls, concat ls) <$>
    mapM_r (λ bc,
        r ← rel bc.1 bc.2;
        if (r : bool) then multi_edges G bc.1 bc.2 else Ok [])
      pairs.

(** The edges for a simple quotient:
    [((b, c, edge_data(b, c)) for (b, c) in block_pairs
       if edge_relation(b, c))]. *)
Definition simple_edges (rel : gset V → gset V → result bool)
    (data : gset V → gset V → result (attrs V))
    (pairs : list (gset V * gset V)) :
    result (list (gset V * gset V * attrs V)) :=
  (λ ls, concat ls) <$>
    mapM_r (λ bc,
        r ← rel bc.1 bc.2;
        if (r : bool) then d ← data bc.1 bc.2; Ok [(bc.1, bc.2, d)]
        else Ok [])
      pairs.

(** The graph [H] of [quotient_graph] when the blocks have been added:
    [H = type(create_using)() if create_using is not None else type(G)()],
    then [H.add_nodes_from((b, node_data(b)) for b in partition)] with the
    default [node_data] when the caller gave none. *)
Definition block_graph G (partition : list (gset V))
    (node_data : option (gset V → attrs V))
    (create_using : option graph_class) : Graph (gset V) (attrs V) :=
  let H : Graph (gset V) (attrs V) :=
    empty_graph (quotient_class G create_using) in
  let node_data := default (default_node_data G) node_data in
  add_nodes_from H ((λ b, (b, node_data b)) <$> partition).

(** [quotient_graph] up to and including [H.add_edges_from(edges)], for a
    partition that is already a list of blocks. *)
Definition quotient_blocks G (partition : list (gset V))
    (edge_relation : option (gset V → gset V → bool))
    (node_data : option (gset V → attrs V))
    (edge_data : option (gset V → gset V → attrs V))
    (create_using : option graph_class) :
    result (Graph (gset V) (attrs V)) :=
  if bad_partition G partition then Err NetworkXException else
  let H := block_graph G partition node_data create_using in
  let edge_relation := the_edge_relation G edge_relation in
  let edge_data := the_edge_data G edge_data in
  let block_pairs := block_pairs H in
  edges ←
    (if is_multigraph H then multigraph_edges G edge_relation block_pairs
     else simple_edges edge_relation edge_data block_pairs);
  Ok (add_edges_from H edges).

(** [quotient_graph].  [partition] is a relation or a list of blocks;
    [create_using] is consulted through [type(create_using)] only and is
    given by its class. *)
Definition quotient_graph G
    (partition : (V → V → bool) + list (gset V))
    (edge_relation : option (gset V → gset V → bool))
    (node_data : option (gset V → attrs V))
    (edge_data : option (gset V → gset V → attrs V))
    (relabel : bool) (create_using : option graph_class) :
    result (Graph (qnode relabel) (attrs V)) :=
  partition ←
    match partition with
    | inl relation => elements <$> equivalence_classes (nodes G) relation
    | inr blocks => Ok blocks
    end;
  H ← quotient_blocks G partition edge_relation node_data edge_data
        create_using;
  Ok (match relabel return Graph (qnode relabel) (attrs V) with
      | true => relabel_nodes H (block_labels partition)
      | false => H
      end).

(** [contracted_nodes] *)
Definition contracted_nodes G u v (self_loops : bool) :
    result (Graph V (attrs V)) :=
  let H := copy G in
  edges ← new_edges G u v self_loops;
  v_data ← node_attr H v;
  H ← remove_node H v;
  let H := add_edges_from H edges in
  u_data ← node_attr H u;
  match u_data !! KStr "contraction" with
  | Some (VDict record) =>
      Ok (set_node_attr H u (KStr "contraction")
            (VDict (<[KNode v := VDict v_data]> record)))
  | Some _ => Err TypeError
  | None =>
      Ok (set_node_attr H u (KStr "contraction")
            (VDict (<[KNode v := VDict v_data]> ∅)))
  end.

Definition identified_nodes := contracted_nodes.

(** [contracted_edge] *)
Definition contracted_edge G (edge : V * V) (self_loops : bool) :
    result (Graph V (attrs V)) :=
  if negb (has_edge G edge.1 edge.2) then Err ValueError
  else contracted_nodes G edge.1 edge.2 self_loops.

(** [blockmodel] *)
Definition blockmodel G (partition : list (gset V)) (multigraph : bool) :
    result (Graph nat (attrs V)) :=
  if multigraph then
    quotient_graph G (inr partition) None None None true (Some ClsMultiGraph)
  else
    quotient_graph G (inr partition) None None None true None.
End minors.


(** * The same functions over a store of objects

    In the value-level model above a dictionary is its contents, and a copy
    of a graph is the graph.  What a call does to the objects it was given
    cannot be read off such a model.  Here dictionaries and graphs are
    objects in a store, a graph refers to the attribute dictionaries of its
    nodes and edges by location, and so does a dictionary to the
    dictionaries and graphs among its values; the graph methods allocate
    objects and update them in place. *)

(** Locations of objects. *)
Abbreviation loc := nat.

(** Attribute values in the store: dictionaries and graphs are references. *)
Inductive hvalue (V : Type) : Type :=
  | HInt (z : Z)
  | HStr (s : string)
  | HDict (l : loc)
  | HGraph (l : loc).
Arguments HInt {V} z.
Arguments HStr {V} s.
Arguments HDict {V} l.
Arguments HGraph {V} l.

(** The contents of a dictionary object. *)
Abbreviation hattrs V := (gmap (akey V) (hvalue V)).

(** Objects: dictionaries, and graphs on the nodes of the input graph, on
    blocks of such nodes, or on integers. *)
Inductive object (V : Type) `{Countable V} : Type :=
  | ODict (d : hattrs V)
  | OGraph (g : Graph V loc)
  | OBlockGraph (g : Graph (gset V) loc)
  | OIntGraph (g : Graph nat loc).
Arguments ODict {V _ _} d.
Arguments OGraph {V _ _} g.
Arguments OBlockGraph {V _ _} g.
Arguments OIntGraph {V _ _} g.

Abbreviation store V := (gmap loc (object V)).

(** The dictionary argument of an update: an existing object, read when the
    update is made, or a dictionary made for the occasion. *)
Inductive dict_arg (V : Type) `{Countable V} : Type :=
  | ByRef (l : loc)
  | ByValue (d : hattrs V).
Arguments ByRef {V _ _} l.
Arguments ByValue {V _ _} d.

Section store_monad.
Context {V : Type} `{Countable V}.

(** Computations on the store; an exception leaves the store as it was when
    it was raised. *)
Definition M (A : Type) : Type := store V → result A * store V.

Definition ret_st {A} (a : A) : M A := λ σ, (Ok a, σ).

Definition raise {A} (e : error) : M A := λ σ, (Err e, σ).

Definition lift {A} (r : result A) : M A := λ σ, (r, σ).

Definition bind_st {A B} (m : M A) (k : A → M B) : M B :=
  λ σ, match m σ with
       | (Ok a, σ') => k a σ'
       | (Err e, σ') => (Err e, σ')
       end.

(** A new object, at a location not in use. *)
Definition alloc (o : object V) : M loc :=
  λ σ, let l := fresh (dom σ) in (Ok l, <[l := o]> σ).

(** Update in place of the object at [l]. *)
Definition write (l : loc) (o : object V) : M unit :=
  λ σ, (Ok (), <[l := o]> σ).

Definition read_dict (l : loc) : M (hattrs V) :=
  λ σ, match σ !! l with
       | Some (ODict d) => (Ok d, σ)
       | _ => (Err TypeError, σ)
       end.

Definition read_graph (l : loc) : M (Graph V loc) :=
  λ σ, match σ !! l with
       | Some (OGraph g) => (Ok g, σ)
       | _ => (Err TypeError, σ)
       end.
End store_monad.
Arguments M V {_ _} A.


Notation "'let*' x := m 'in' k" := (bind_st m (λ x, k))
  (at level 10, x name, m at level 100, k at level 200,
   format "'[v' 'let*'  x  :=  m  'in'  '/' k ']'").

Section store_graphs.
Context {V : Type} `{Countable V}.

(** A list comprehension over the store. *)
Fixpoint mapM_st {A B} (f : A → M V B) (l : list A) : M V (list B) :=
  match l with
  | [] => ret_st []
  | x :: l' =>
      let* y := f x in
      let* ys := mapM_st f l' in
      ret_st (y :: ys)
  end.

(** A loop threading a value. *)
Fixpoint foldM_st {A B} (f : B → A → M V B) (b : B) (l : list A) : M V B :=
  match l with
  | [] => ret_st b
  | x :: l' => let* b' := f b x in foldM_st f b' l'
  end.

(** The contents of a dictionary argument, at the time of the update. *)
Definition read_arg (a : dict_arg V) : M V (hattrs V) :=
  match a with
  | ByRef l => read_dict l
  | ByValue d => ret_st d
  end.

(** *** Deep copy *)

(** [copy.deepcopy] of a dictionary, given the copy of values. *)
Definition copy_dict_with (cp : hvalue V → M V (hvalue V)) (l : loc) : M V loc :=
  let* d := read_dict l in
  let* entries :=
    mapM_st (λ kv, let* x := cp kv.2 in ret_st (kv.1, x)) (map_to_list d) in
  alloc (ODict (list_to_map entries)).

(** [copy.deepcopy] of a graph on the nodes of the input graph. *)
Definition copy_graph_with (cp : hvalue V → M V (hvalue V)) (g : loc) : M V loc :=
  let* gr := read_graph g in
  let* ns :=
    mapM_st (λ na, let* l' := copy_dict_with cp na.2 in ret_st (na.1, l'))
      (g_node gr) in
  let* es :=
    mapM_st (λ e, let* l' := copy_dict_with cp (e_data e) in
                  ret_st (mkEdge (e_src e) (e_dst e) (e_key e) l'))
      (g_edge gr) in
  alloc (OGraph (mkGraph (g_class gr) ns es)).

(** [copy.deepcopy] of a value.  The copy recurses into dictionaries and
    graphs; Python bounds the depth of the recursion and raises when the
    bound is reached, which is what the fuel stands for.  Objects that are
    reached twice are copied twice here. *)
Fixpoint deepcopy_value (fuel : nat) (x : hvalue V) : M V (hvalue V) :=
  match fuel with
  | 0 => raise RecursionError
  | S fuel' =>
      match x with
      | HInt _ | HStr _ => ret_st x
      | HDict l =>
          let* l' := copy_dict_with (deepcopy_value fuel') l in
          ret_st (HDict l')
      | HGraph g =>
          let* g' := copy_graph_with (deepcopy_value fuel') g in
          ret_st (HGraph g')
      end
  end.

(** [sys.getrecursionlimit()] *)
Definition recursion_limit : nat := 1000.

(** Modelled from the spec: [G.copy()], the full deep copy of section 6. *)
Definition copy_st (G : loc) : M V loc :=
  copy_graph_with (deepcopy_value recursion_limit) G.
End store_graphs.

Section store_updates.
Context {V : Type} `{Countable V}.
Context {N : Type} `{EqDecision N}.
Implicit Types (g : Graph N loc) (u v n : N).

(** One step of [add_nodes_from], as [add_node] above: a new node gets a
    new dictionary object, a known node has its own dictionary updated. *)
Definition add_node_st g n (ndict : hattrs V) : M V (Graph N loc) :=
  match node_attr g n with
  | Ok l =>
      let* d := read_dict l in
      let* _ := write l (ODict (ndict ∪ d)) in
      ret_st g
  | Err _ =>
      let* l := alloc (ODict (ndict ∪ ∅)) in
      ret_st (mkGraph (g_class g) (g_node g ++ [(n, l)]) (g_edge g))
  end.

Definition ensure_node_st g n : M V (Graph N loc) :=
  if has_node g n then ret_st g
  else
    let* l := alloc (ODict ∅) in
    ret_st (mkGraph (g_class g) (g_node g ++ [(n, l)]) (g_edge g)).

(** One step of [add_edges_from], as [add_edge] above.  The dictionary
    [dd] is read when the edge is added; an edge of a simple graph that is
    there already has its own dictionary updated. *)
Definition add_edge_st g u v (dd : dict_arg V) : M V (Graph N loc) :=
  let* g := ensure_node_st g u in
  let* g := ensure_node_st g v in
  let* d := read_arg dd in
  if is_multigraph g then
    let* l := alloc (ODict (d ∪ ∅)) in
    ret_st (mkGraph (g_class g) (g_node g)
              (g_edge g ++ [mkEdge u v (new_edge_key g u v) l]))
  else
    match list_find (λ e, joins (is_directed g) u v e = true) (g_edge g) with
    | Some (_, e) =>
        let* old := read_dict (e_data e) in
        let* _ := write (e_data e) (ODict (d ∪ old)) in
        ret_st g
    | None =>
        let* l := alloc (ODict (d ∪ ∅)) in
        ret_st (mkGraph (g_class g) (g_node g) (g_edge g ++ [mkEdge u v 0 l]))
    end.

Definition add_edges_from_st g (triples : list (N * N * dict_arg V)) :
    M V (Graph N loc) :=
  foldM_st (λ g t, add_edge_st g t.1.1 t.1.2 t.2) g triples.

(** [G.get_edge_data(u, v, default={})] as an argument of an update: the
    dictionary object of the edge in a simple graph; in a multigraph, the
    dictionary from the keys of the parallel edges to their dictionary
    objects. *)
Definition get_edge_data_st g u v : dict_arg V :=
  let es := filter (λ e, joins (is_directed g) u v e = true) (g_edge g) in
  match es with
  | [] => ByValue ∅
  | e :: _ =>
      if is_multigraph g then
        ByValue (list_to_map ((λ e, (KInt (e_key e), HDict (e_data e))) <$> es))
      else ByRef (e_data e)
  end.
End store_updates.


Section store_minors.
Context {V : Type} `{Countable V}.

(** [networkx.density] again, on a graph of the store. *)
Variable density_st : Graph V loc → hvalue V.

Implicit Types (g : Graph V loc) (b c : gset V) (u v : V).

(** The default [node_data]: the subgraph is a new graph object that
    shares the attribute dictionaries of [G]. *)
Definition default_node_data_st g b : M V (hattrs V) :=
  let S := subgraph g (elements b) in
  let* s := alloc (OGraph S) in
  ret_st (<[KStr "graph" := HGraph s]>
           (<[KStr "nnodes" := HInt (Z.of_nat (number_of_nodes S))]>
             (<[KStr "nedges" := HInt (Z.of_nat (number_of_edges S))]>
               (<[KStr "density" := density_st S]> ∅)))).

Definition the_node_data_st g (node_data : option (gset V → hattrs V)) b :
    M V (hattrs V) :=
  match node_data with
  | Some f => ret_st (f b)
  | None => default_node_data_st g b
  end.

Definition weight_of_st (d : hattrs V) : result Z :=
  match d !! KStr "weight" with
  | None => Ok 1%Z
  | Some (HInt z) => Ok z
  | Some _ => Err TypeError
  end.

(** The default [edge_data]: the dictionaries of the edges are read one
    after the other. *)
Definition default_edge_data_st g b c : M V (hattrs V) :=
  let edgedata :=
    snd <$> filter (λ t, crosses b c t = true)
                   (edges_data g (elements (b ∪ c))) in
  let* total :=
    foldM_st (λ total l,
        let* d := read_dict l in
        let* w := lift (weight_of_st d) in
        ret_st (total + w)%Z)
      0%Z edgedata in
  ret_st (<[KStr "weight" := HInt total]> ∅).

Definition the_edge_data_st g (edge_data : option (gset V → gset V → hattrs V))
    b c : M V (hattrs V) :=
  match edge_data with
  | Some f => ret_st (f b c)
  | None => default_edge_data_st g b c
  end.

(** The edges that a multigraph quotient receives for the block pair
    [(b, c)]; their dictionaries are those that [G.get_edge_data] hands
    out. *)
Definition multi_edges_st g b c :
    result (list (gset V * gset V * dict_arg V)) :=
  (λ ls, concat ls) <$>
    mapM_r (λ uv,
        r ← in_adj g uv.1 uv.2;
        Ok (if (r : bool) then [(b, c, get_edge_data_st g uv.1 uv.2)] else []))
      (product (elements b) (elements c)).

(** The edges of the quotient for one pair of blocks. *)
Definition pair_edges_st g (multigraph : bool)
    (edge_data : option (gset V → gset V → hattrs V)) b c :
    M V (list (gset V * gset V * dict_arg V)) :=
  if multigraph then lift (multi_edges_st g b c)
  else
    let* d := the_edge_data_st g edge_data b c in
    ret_st [(b, c, ByValue d)].

(** [nx.relabel_nodes(H, labels)]: a new graph object whose attribute
    dictionaries are copies of those of [H]. *)
Definition relabel_nodes_st (h : Graph (gset V) loc)
    (labels : gmap (gset V) nat) : M V loc :=
  let* ns :=
    mapM_st (λ na,
        let* d := read_dict na.2 in
        let* l := alloc (ODict d) in
        ret_st (default 0 (labels !! na.1), l))
      (g_node h) in
  let* es :=
    mapM_st (λ e,
        let* d := read_dict (e_data e) in
        let* l := alloc (ODict d) in
        ret_st (mkEdge (default 0 (labels !! e_src e))
                  (default 0 (labels !! e_dst e)) (e_key e) l))
      (g_edge h) in
  alloc (OIntGraph (mkGraph (g_class h) ns es)).

(** [quotient_graph] on the graph object [G]; the result is the location
    of the quotient.  The functions that the caller supplies are taken to
    read and write no object. *)
Definition quotient_graph_st (G : loc)
    (partition : (V → V → bool) + list (gset V))
    (edge_relation : option (gset V → gset V → bool))
    (node_data : option (gset V → hattrs V))
    (edge_data : option (gset V → gset V → hattrs V))
    (relabel : bool) (create_using : option graph_class) : M V loc :=
  let* g := read_graph G in
  let* partition :=
    lift (match partition with
          | inl relation => elements <$> equivalence_classes (nodes g) relation
          | inr blocks => Ok blocks
          end) in
  if bad_partition g partition then raise NetworkXException else
  let* H := alloc (OBlockGraph (empty_graph (quotient_class g create_using))) in
  let* h :=
    foldM_st (λ h b,
        let* ndict := the_node_data_st g node_data b in
        add_node_st h b ndict)
      (empty_graph (quotient_class g create_using)) partition in
  let* _ := write H (OBlockGraph h) in
  let* h :=
    foldM_st (λ h bc,
        let* r := lift (the_edge_relation g edge_relation bc.1 bc.2) in
        if (r : bool) then
          let* edges := pair_edges_st g (is_multigraph h) edge_data bc.1 bc.2 in
          add_edges_from_st h edges
        else ret_st h)
      h (block_pairs h) in
  let* _ := write H (OBlockGraph h) in
  if relabel then relabel_nodes_st h (block_labels partition)
  else ret_st H.

(** [contracted_nodes] on the graph object [G]. *)
Definition contracted_nodes_st (G : loc) u v (self_loops : bool) : M V loc :=
  let* H := copy_st G in
  let* g := read_graph G in
  let* edges := lift (new_edges g u v self_loops) in
  let* h := read_graph H in
  let* v_data := lift (node_attr h v) in
  let* h := lift (remove_node h v) in
  let* _ := write H (OGraph h) in
  let* h := add_edges_from_st h ((λ t, (t.1.1, t.1.2, ByRef t.2)) <$> edges) in
  let* _ := write H (OGraph h) in
  let* u_data := lift (node_attr h u) in
  let* ud := read_dict u_data in
  match ud !! KStr "contraction" with
  | Some (HDict record) =>
      let* old := read_dict record in
      let* _ := write record (ODict (<[KNode v := HDict v_data]> old)) in
      ret_st H
  | Some _ => raise TypeError
  | None =>
      let* record := alloc (ODict (<[KNode v := HDict v_data]> ∅)) in
      let* _ :=
        write u_data (ODict (<[KStr "contraction" := HDict record]> ud)) in
      ret_st H
  end.

(** [contracted_edge] on the graph object [G]. *)
Definition contracted_edge_st (G : loc) (edge : V * V) (self_loops : bool) :
    M V loc :=
  let* g := read_graph G in
  if negb (has_edge g edge.1 edge.2) then raise ValueError
  else contracted_nodes_st G edge.1 edge.2 self_loops.

(** [blockmodel] on the graph object [G]. *)
Definition blockmodel_st (G : loc) (partition : list (gset V))
    (multigraph : bool) : M V loc :=
  if multigraph then
    quotient_graph_st G (inr partition) None None None true (Some ClsMultiGraph)
  else
    quotient_graph_st G (inr partition) None None None true None.
End store_minors.

(** ** Notions used to state the properties *)

(** Appending an element unless it is there already: the effect, on the
    list of node names, of adding a node. *)
Definition add_new `{EqDecision A} (l : list A) (x : A) : list A :=
  if decide (x ∈ l) then l else l ++ [x].

(** The distinct elements of [l], in the order of their first occurrence,
    after those of [acc]. *)
Definition add_all_new `{EqDecision A} (acc l : list A) : list A :=
  foldl add_new acc l.

(** A computation raises only exceptions of a given kind. *)
Definition raises_only {A} (P : error → Prop) (r : result A) : Prop :=
  ∀ e, r = Err e → P e.

(** The payload of the first entry for [n] in a list of nodes: what
    [node_attr] reads. *)
Definition attr_of {N A} `{EqDecision N} (l : list (N * A)) (n : N) : result A :=
  match list_find (λ p, p.1 = n) l with
  | Some (_, (_, a)) => Ok a
  | None => Err KeyError
  end.

(** The contraction record among the attributes [d] of a node, empty when
    there is none. *)
Definition contraction_record `{Countable V} (d : attrs V) : attrs V :=
  match d !! KStr "contraction" with
  | Some (VDict record) => record
  | _ => ∅
  end.

Section spec_notions.
Context {V : Type} `{Countable V}.
Context {A : Type}.
Implicit Types (G : Graph V A) (u v : V).

(** [(u, v)] is an edge of [G]: some stored edge goes from [u] to [v], or,
    when [G] is undirected, from [v] to [u]. *)
Definition edge_in G u v : Prop :=
  ∃ e, e ∈ g_edge G ∧
    ((e_src e = u ∧ e_dst e = v)
     ∨ (is_directed G = false ∧ e_src e = v ∧ e_dst e = u)).

(** The output template that the design document ascribes to
    [blockmodel]: the multigraph variant matching the variant of [G] when
    [multigraph] is set, a simple graph otherwise. *)
Definition documented_template G (multigraph : bool) : graph_class :=
  match multigraph, is_directed G with
  | true, true => ClsMultiDiGraph
  | true, false => ClsMultiGraph
  | false, true => ClsDiGraph
  | false, false => ClsGraph
  end.
End spec_notions.

Section partition_notions.
Context {V : Type} `{Countable V}.
Implicit Types (G : Graph V (attrs V)) (P : list (gset V)).

(** The weight [w] that an edge with the attribute dictionary [d] counts
    for in a sum of weights: the number under its [weight] attribute, and
    one when it has no such attribute. *)
Definition weighs (d : attrs V) (w : Z) : Prop :=
  d !! KStr "weight" = Some (VInt w)
  ∨ (d !! KStr "weight" = None ∧ w = 1%Z).

(** Every weight attribute of [G] is a number, so that weights add up. *)
Definition numeric_weights G : Prop :=
  ∀ e, e ∈ g_edge G → is_Ok (weight_of (e_data e)).

(** A partition of the nodes of [G] in the sense of the data model: the
    blocks are non-empty sets of nodes of [G], and every node of [G] lies
    in exactly one of them. *)
Record valid_partition G P : Prop := {
  vp_nonempty : ∀ b, b ∈ P → b ≠ ∅;
  vp_nodes : ∀ b v, b ∈ P → v ∈ b → v ∈ nodes G;
  vp_once : ∀ v, v ∈ nodes G → count_blocks P v = 1;
}.
End partition_notions.

(** [adds_empty_blocks P P']: the list [P'] is [P] with empty blocks
    inserted, any number of them and anywhere. *)
Inductive adds_empty_blocks `{Countable V} :
    list (gset V) → list (gset V) → Prop :=
  | aeb_nil : adds_empty_blocks [] []
  | aeb_keep b P P' :
      adds_empty_blocks P P' → adds_empty_blocks (b :: P) (b :: P')
  | aeb_add P P' :
      adds_empty_blocks P P' → adds_empty_blocks P (∅ :: P').

Section equivalence_notions.
Context `{Countable A}.
Implicit Types (l : list A) (relation : A → A → bool).

(** [relation] is reflexive, symmetric and transitive on the elements of
    [l]. *)
Record equivalence_on l relation : Prop := {
  eqv_refl : ∀ x, x ∈ l → relation x x = true;
  eqv_sym : ∀ x y, x ∈ l → y ∈ l → relation x y = true → relation y x = true;
  eqv_trans : ∀ x y z, x ∈ l → y ∈ l → z ∈ l →
    relation x y = true → relation y z = true → relation x z = true;
}.

(** The elements of [l] related to [x]. *)
Definition class_of l relation (x : A) : gset A :=
  list_to_set (filter (λ y, relation x y = true) l).

(** The blocks under construction in [equivalence_classes] are in good
    order when every block has a first element that is related to all
    elements of the block, and is not related to the first element of any
    later block; all elements come from [l]. *)
Fixpoint good_blocks l relation (blocks : list (list A)) : Prop :=
  match blocks with
  | [] => True
  | block :: rest =>
      (∃ h t, block = h :: t
              ∧ ∀ x, x ∈ block → x ∈ l ∧ relation h x = true)
      ∧ (∀ block' h h', block' ∈ rest → head block = Some h →
           head block' = Some h' → relation h h' = false)
      ∧ good_blocks l relation rest
  end.

(** [x] is in one of the blocks. *)
Definition in_blocks (x : A) (blocks : list (list A)) : Prop :=
  ∃ block, block ∈ blocks ∧ x ∈ block.

(** A block under construction has a first element, and every later
    element was found related to it. *)
Definition led_by relation (block : list A) : Prop :=
  ∃ h t, block = h :: t ∧ ∀ y, y ∈ t → relation h y = true.
End equivalence_notions.

Section edge_notions.
Context {V : Type} `{Countable V}.
Context {A : Type}.
Implicit Types (G : Graph V A) (b c : gset V) (e : Edge V A).

(** The stored edge [e] goes between the blocks [b] and [c], one way or
    the other. *)
Definition crossing b c e : Prop :=
  (e_src e ∈ b ∧ e_dst e ∈ c) ∨ (e_src e ∈ c ∧ e_dst e ∈ b).

#[global] Instance crossing_dec b c e : Decision (crossing b c e).
Proof. unfold crossing. apply _. Defined.

(** The stored edge [e] goes from [b] to [c]; in an undirected graph, in
    either orientation. *)
Definition runs_between (directed : bool) b c e : Prop :=
  (e_src e ∈ b ∧ e_dst e ∈ c)
  ∨ (directed = false ∧ e_src e ∈ c ∧ e_dst e ∈ b).

#[global] Instance runs_between_dec directed b c e :
  Decision (runs_between directed b c e).
Proof. unfold runs_between. apply _. Defined.

(** The edges of [G] crossing between [b] and [c], each as often as it is
    an edge of [G]. *)
Definition crossing_edges G b c : list (Edge V A) :=
  filter (crossing b c) (g_edge G).

(** All that a single stored edge contributes to the iteration over an
    undirected graph at the nodes of [bunch]. *)
Fixpoint edge_reports (seen bunch : list V) e : list (V * V * A) :=
  match bunch with
  | [] => []
  | n :: rest => report_edge seen n e ++ edge_reports (n :: seen) rest e
  end.
End edge_notions.

Section multigraph_notions.
Context {V : Type} `{Countable V}.

(** What the multigraph mode of [quotient_graph] puts on the edges that it
    adds for a pair of blocks: one dictionary for each adjacent pair of
    nodes, in the order of [product(b, c)]. *)
Definition pair_data (G : Graph V (attrs V)) (bc : gset V * gset V) :
    list (attrs V) :=
  flat_map (λ uv, if has_edge G uv.1 uv.2
                  then [get_edge_data G uv.1 uv.2 ∅] else [])
    (product (elements bc.1) (elements bc.2)).
End multigraph_notions.

(** The sum of a list of integers. *)
Definition sum_list_Z (ws : list Z) : Z := foldr Z.add 0%Z ws.

Section pair_notions.
Context {N : Type} `{EqDecision N}.
Implicit Types (p q : N * N) (l : list (N * N)).

(** Two pairs of nodes stand for the same edge slot: they are equal, or, in
    an undirected graph, one is the other reversed. *)
Definition same_pair (directed : bool) p q : Prop :=
  p = q ∨ (directed = false ∧ p = (q.2, q.1)).

#[global] Instance same_pair_dec directed p q :
  Decision (same_pair directed p q).
Proof. unfold same_pair. apply _. Defined.

(** No two pairs of the list stand for the same edge slot. *)
Fixpoint apart (directed : bool) l : Prop :=
  match l with
  | [] => True
  | p :: l' => (∀ q, q ∈ l' → ¬ same_pair directed p q) ∧ apart directed l'
  end.
End pair_notions.

(** A check that the edges of a graph join nodes of the graph. *)
Definition ends_are_nodes {N A} `{EqDecision N} (G : Graph N A) : bool :=
  forallb (λ e, has_node G (e_src e) && has_node G (e_dst e)) (g_edge G).

Section store_notions.
Context {V : Type} `{Countable V}.
Implicit Types (σ τ : store V).

(** A computation that leaves every object it finds as it is: it may
    allocate, and read, but it does not update. *)
Definition alloc_only {A} (m : M V A) : Prop := ∀ σ, σ ⊆ (m σ).2.

(** A computation that leaves the objects of [τ] as they are, whenever it
    is started in a store that extends [τ] and satisfies [P]; when it
    returns a value, [Q] holds of the value and the final store. *)
Definition preserves τ {A} (P : store V → Prop) (m : M V A)
    (Q : A → store V → Prop) : Prop :=
  ∀ σ, τ ⊆ σ → P σ →
    τ ⊆ (m σ).2 ∧ ∀ a, (m σ).1 = Ok a → Q a (m σ).2.

(** The objects that a value refers to directly do not exist in [σ]. *)
Definition fresh_value σ (x : hvalue V) : Prop :=
  match x with
  | HDict c | HGraph c => σ !! c = None
  | _ => True
  end.

(** A way to copy values that allocates only, and whose copies refer to
    new objects. *)
Definition good_copier (cp : hvalue V → M V (hvalue V)) : Prop :=
  (∀ x, alloc_only (cp x))
  ∧ (∀ x σ x' σ', cp x σ = (Ok x', σ') → fresh_value σ x').

Context {N : Type}.
Implicit Types (h : Graph N loc).

(** The attribute dictionaries of [h] are objects of [σ] that did not
    exist in [τ]. *)
Definition owned τ σ h : Prop :=
  (∀ n l, (n, l) ∈ g_node h → τ !! l = None ∧ is_Some (σ !! l))
  ∧ (∀ e, e ∈ g_edge h → τ !! e_data e = None ∧ is_Some (σ !! e_data e)).

(** No node of [h] shares its attribute dictionary with an edge. *)
Definition apart_locs h : Prop :=
  ∀ n l e, (n, l) ∈ g_node h → e ∈ g_edge h → l ≠ e_data e.

(** The dictionaries among the attribute values of the nodes of [h] did not
    exist in [τ]. *)
Definition closed τ σ h : Prop :=
  ∀ n l d k c, (n, l) ∈ g_node h → σ !! l = Some (ODict d) →
    d !! k = Some (HDict c) → τ !! c = None.

(** The attribute map at [l], if [l] is a dictionary. *)
Definition dict_at σ (l : loc) : option (hattrs V) :=
  match σ !! l with
  | Some (ODict d) => Some d
  | _ => None
  end.

(** What a graph consists of: its class, its nodes and its edges, each with
    its attribute map as the store has it. *)
Definition contents σ h :
    graph_class * list (N * option (hattrs V))
    * list (N * N * nat * option (hattrs V)) :=
  (g_class h,
   (λ na, (na.1, dict_at σ na.2)) <$> g_node h,
   (λ e, (e_src e, e_dst e, e_key e, dict_at σ (e_data e))) <$> g_edge h).

(** The attribute dictionaries of [h] are objects of [σ]. *)
Definition dicts_exist σ h : Prop :=
  (∀ n l, (n, l) ∈ g_node h → is_Some (σ !! l))
  ∧ (∀ e, e ∈ g_edge h → is_Some (σ !! e_data e)).

(** What a graph [h] that a call builds keeps through the graph methods: its
    dictionaries are its own, none is shared between a node and an edge
    and, when [strict], the dictionaries among the attribute values of its
    nodes are not those of the caller. *)
Definition kept (strict : bool) τ σ h : Prop :=
  owned τ σ h ∧ apart_locs h ∧ (strict = true → closed τ σ h).
End store_notions.

Section values_of_objects.
Context {V : Type} `{!EqDecision V, !Countable V}.
Implicit Types (σ : store V).

(** The value that [x] stands for in [σ], read to the depth [depth]: a
    reference to a dictionary or a graph is replaced by its contents. *)
Fixpoint value_at (depth : nat) σ (x : hvalue V) : value V :=
  match depth with
  | 0 => VInt 0
  | S depth' =>
      let dict l : attrs V :=
        match σ !! l with
        | Some (ODict d) => value_at depth' σ <$> d
        | _ => ∅
        end in
      match x with
      | HInt z => VInt z
      | HStr s => VStr s
      | HDict l => VDict (dict l)
      | HGraph l =>
          match σ !! l with
          | Some (OGraph g) =>
              VGraph (mkGraph (g_class g)
                        ((λ na, (na.1, dict na.2)) <$> g_node g)
                        ((λ e, mkEdge (e_src e) (e_dst e) (e_key e)
                                 (dict (e_data e))) <$> g_edge g))
          | _ => VGraph (empty_graph ClsGraph)
          end
      end
  end.

(** The attribute dictionary that the object at [l] stands for. *)
Definition attrs_at (depth : nat) σ (l : loc) : attrs V :=
  match σ !! l with
  | Some (ODict d) => value_at depth σ <$> d
  | _ => ∅
  end.

(** The graph with its attribute dictionaries by value. *)
Definition graph_at {N} (depth : nat) σ (g : Graph N loc) : Graph N (attrs V) :=
  mkGraph (g_class g)
    ((λ na, (na.1, attrs_at depth σ na.2)) <$> g_node g)
    ((λ e, mkEdge (e_src e) (e_dst e) (e_key e) (attrs_at depth σ (e_data e)))
       <$> g_edge g).

(** The graph on nodes that the object at [G] stands for, and the graph on
    blocks. *)
Definition node_graph_at (depth : nat) σ (G : loc) :
    option (Graph V (attrs V)) :=
  match σ !! G with
  | Some (OGraph g) => Some (graph_at depth σ g)
  | _ => None
  end.

Definition block_graph_at (depth : nat) σ (G : loc) :
    option (Graph (gset V) (attrs V)) :=
  match σ !! G with
  | Some (OBlockGraph g) => Some (graph_at depth σ g)
  | _ => None
  end.
End values_of_objects.

Section input_graphs.
Context {V : Type} `{!EqDecision V, !Countable V}.
Implicit Types (σ : store V).

(** The graph of the caller at [G], every attribute dictionary of which
    is in the store. *)
Definition input_graph σ (G : loc) (g : Graph V loc) : Prop :=
  σ !! G = Some (OGraph g) ∧ dicts_exist σ g.

(** After a call that ends in the store [σ'], the graph object at [G] has
    the nodes, the edges and the attribute maps that it had in [σ], and
    every object of [σ] is what it was. *)
Definition untouched σ (G : loc) (g : Graph V loc) σ' : Prop :=
  σ' !! G = Some (OGraph g) ∧ contents σ' g = contents σ g ∧ σ ⊆ σ'.
End input_graphs.

(** ** Concrete graphs *)

Module Examples.
(** A stand-in for the density of a block; no property depends on it. *)
Definition no_density : Graph nat (attrs nat) → value nat := λ _, VInt 0.

(** A graph on the given nodes, without node attributes. *)
Definition graph_of (cls : graph_class) (ns : list nat)
    (es : list (nat * nat * nat * attrs nat)) : Graph nat (attrs nat) :=
  mkGraph cls ((λ n, (n, ∅)) <$> ns)
    ((λ t, mkEdge t.1.1.1 t.1.1.2 t.1.2 t.2) <$> es).

Definition weight (z : Z) : attrs nat := {[ KStr "weight" := VInt z ]}.

(** The path [0-1-2-3-4-5] and its partition into three pairs. *)
Definition path6 : Graph nat (attrs nat) :=
  graph_of ClsGraph [0; 1; 2; 3; 4; 5]
    [(0, 1, 0, ∅); (1, 2, 0, ∅); (2, 3, 0, ∅); (3, 4, 0, ∅); (4, 5, 0, ∅)].

Definition pairs6 : list (gset nat) := [{[0; 1]}; {[2; 3]}; {[4; 5]}].

(** The cycle [0-1-2-3-4-0]. *)
Definition cycle5 : Graph nat (attrs nat) :=
  graph_of ClsGraph [0; 1; 2; 3; 4]
    [(0, 1, 0, ∅); (1, 2, 0, ∅); (2, 3, 0, ∅); (3, 4, 0, ∅); (4, 0, 0, ∅)].

(** The directed graph with the single edge [0 → 1]. *)
Definition arrow : Graph nat (attrs nat) :=
  graph_of ClsDiGraph [0; 1] [(0, 1, 0, ∅)].

Definition singletons : list (gset nat) := [{[0]}; {[1]}].

(** Two nodes, the second one with a self-loop. *)
Definition looped : Graph nat (attrs nat) :=
  graph_of ClsGraph [0; 1] [(1, 1, 0, ∅)].

(** A multigraph with two parallel edges between its two nodes, of
    weights 5 and 7. *)
Definition doubled : Graph nat (attrs nat) :=
  graph_of ClsMultiGraph [0; 1] [(0, 1, 0, weight 5); (0, 1, 1, weight 7)].

(** A [node_data] function that gives no attributes. *)
Definition no_data : gset nat → attrs nat := λ _, ∅.

(** The quotient of the path by its three pairs, as [quotient_graph]
    computes it without node attributes. *)
Definition path6_quotient : Graph (gset nat) (attrs nat) :=
  Eval vm_compute in
    match quotient_graph no_density path6 (inr pairs6)
            None (Some no_data) None false None with
    | Ok H => H
    | Err _ => empty_graph ClsGraph
    end.

(** A store with the graph [1 — 2] at location [0]; the edge has weight
    [5], and node [2] records an earlier contraction. *)
Definition no_density_st : Graph nat loc → hvalue nat := λ _, HInt 0.
Definition edge12 : Graph nat loc :=
  mkGraph ClsGraph [(1, 1); (2, 2)] [mkEdge 1 2 0 3].
Definition edge_store : store nat :=
  <[0 := OGraph edge12]>
    (<[1 := ODict ∅]>
      (<[2 := ODict {[ KStr "contraction" := HDict 4 ]}]>
        (<[3 := ODict {[ KStr "weight" := HInt 5 ]}]>
          (<[4 := ODict ∅]> ∅)))).

(** The same graph with its dictionaries by value. *)
Definition edge12_value : Graph nat (attrs nat) :=
  mkGraph ClsGraph
    [(1, ∅); (2, {[ KStr "contraction" := VDict ∅ ]})]
    [mkEdge 1 2 0 (weight 5)].

(** The cycle with [1] merged into [0], without self-loops. *)
Definition cycle5_contracted : Graph nat (attrs nat) :=
  Eval vm_compute in
    match contracted_nodes cycle5 0 1 false with
    | Ok H => H
    | Err _ => empty_graph ClsGraph
    end.

(** The same quotient with its nodes relabelled. *)
Definition path6_relabelled : Graph nat (attrs nat) :=
  Eval vm_compute in
    match quotient_graph no_density path6 (inr pairs6)
            None (Some no_data) None true None with
    | Ok H => H
    | Err _ => empty_graph ClsGraph
    end.

(** Two blocks, the first of which has a member that is no node of the
    path. *)
Definition stray_blocks : list (gset nat) := [{[9]}; {[0; 1; 2; 3; 4; 5]}].

(** The two parallel edges after the contraction of their end points:
    two self-loops. *)
Definition doubled_contracted : Graph nat (attrs nat) :=
  Eval vm_compute in
    match contracted_nodes doubled 0 1 true with
    | Ok H => H
    | Err _ => empty_graph ClsGraph
    end.

(** The square [0-1-2-3-0] with weights on its edges, its two halves, and
    the quotient of the square by the halves as a multigraph. *)
Definition square : Graph nat (attrs nat) :=
  graph_of ClsGraph [0; 1; 2; 3]
    [(0, 1, 0, weight 1); (1, 2, 0, weight 5); (2, 3, 0, weight 2);
     (3, 0, 0, weight 7)].

Definition square_halves : list (gset nat) := [{[0; 1]}; {[2; 3]}].

Definition square_quotient : Graph (gset nat) (attrs nat) :=
  Eval vm_compute in
    match quotient_graph no_density square (inr square_halves)
            None (Some no_data) None false (Some ClsMultiGraph) with
    | Ok H => H
    | Err _ => empty_graph ClsMultiGraph
    end.

(** The block model of the square on its halves. *)
Definition square_blockmodel : Graph nat (attrs nat) :=
  Eval vm_compute in
    match blockmodel no_density square square_halves false with
    | Ok H => H
    | Err _ => empty_graph ClsGraph
    end.

(** The block model of the square on its halves, as a multigraph. *)
Definition square_multi_blockmodel : Graph nat (attrs nat) :=
  Eval vm_compute in
    match blockmodel no_density square square_halves true with
    | Ok H => H
    | Err _ => empty_graph ClsMultiGraph
    end.

(** The quotient of the square by its halves as a simple graph, without
    node attributes. *)
Definition square_simple_quotient : Graph (gset nat) (attrs nat) :=
  Eval vm_compute in
    match quotient_graph no_density square (inr square_halves)
            None (Some no_data) None false None with
    | Ok H => H
    | Err _ => empty_graph ClsGraph
    end.
End Examples.
(** * Properties *)

(** An equation between closed terms, by evaluation of both sides. *)
Ltac by_evaluation :=
  match goal with |- ?l = ?r => exact (@eq_refl _ r <: l = r) end.

(** ** Fallible computations *)

Lemma bind_Ok {A B} (m : result A) (f : A → result B) (y : B) :
  m ≫= f = Ok y ↔ ∃ x, m = Ok x ∧ f x = Ok y.
Proof.
  destruct m as [x|e]; simpl; split.
  - eauto.
  - intros (x' & [= <-] & Hf); done.
  - done.
  - intros (x' & [=] & _).
Qed.

Lemma bind_Err {A B} (m : result A) (f : A → result B) (e : error) :
  m ≫= f = Err e ↔ m = Err e ∨ ∃ x, m = Ok x ∧ f x = Err e.
Proof.
  destruct m as [x|e']; simpl; split.
  - eauto.
  - intros [[=]|(x' & [= <-] & Hf)]; done.
  - intros [= <-]; eauto.
  - intros [[= <-]|(x' & [=] & _)]; done.
Qed.

Lemma fmap_Ok {A B} (f : A → B) (m : result A) (y : B) :
  f <$> m = Ok y ↔ ∃ x, m = Ok x ∧ y = f x.
Proof.
  destruct m as [x|e]; simpl; split.
  - intros [= <-]; eauto.
  - intros (x' & [= <-] & ->); done.
  - done.
  - intros (x' & [=] & _).
Qed.

Lemma fmap_Err {A B} (f : A → B) (m : result A) (e : error) :
  f <$> m = Err e ↔ m = Err e.
Proof. destruct m; simpl; split; congruence. Qed.

Lemma is_Ok_Ok {A} (a : A) : is_Ok (Ok a).
Proof. by exists a. Qed.

Lemma not_is_Ok_Err {A} (e : error) : ¬ is_Ok (@Err A e).
Proof. intros [a [=]]. Qed.

Lemma raises_only_Ok {A} P (a : A) : raises_only P (Ok a).
Proof. intros e [=]. Qed.

Lemma raises_only_bind {A B} P (m : result A) (f : A → result B) :
  raises_only P m → (∀ x, m = Ok x → raises_only P (f x)) →
  raises_only P (m ≫= f).
Proof.
  intros Hm Hf e [He|(x & Hx & He)]%bind_Err; [by apply Hm|by eapply Hf].
Qed.

Lemma raises_only_fmap {A B} P (m : result A) (f : A → B) :
  raises_only P m → raises_only P (f <$> m).
Proof. intros Hm e He%fmap_Err. by apply Hm. Qed.

Lemma raises_only_any_r {A} P (f : A → result bool) (l : list A) :
  (∀ x, x ∈ l → raises_only P (f x)) → raises_only P (any_r f l).
Proof.
  induction l as [|x l IH]; intros Hf; simpl.
  - apply raises_only_Ok.
  - apply raises_only_bind.
    + apply Hf. left.
    + intros [] _; [apply raises_only_Ok|].
      apply IH. intros y Hy. apply Hf. by right.
Qed.

Lemma raises_only_mapM_r {A B} P (f : A → result B) (l : list A) :
  (∀ x, x ∈ l → raises_only P (f x)) → raises_only P (mapM_r f l).
Proof.
  induction l as [|x l IH]; intros Hf; simpl.
  - apply raises_only_Ok.
  - apply raises_only_bind; [apply Hf; left|].
    intros y _. apply raises_only_bind.
    + apply IH. intros z Hz. apply Hf. by right.
    + intros ys _. apply raises_only_Ok.
Qed.

Lemma mapM_r_Ok {A B} (f : A → result B) (l : list A) (ys : list B) :
  mapM_r f l = Ok ys ↔ Forall2 (λ x y, f x = Ok y) l ys.
Proof.
  revert ys. induction l as [|x l IH]; intros ys; simpl.
  - split; [intros [= <-]; constructor|by inversion 1].
  - rewrite bind_Ok. split.
    + intros (y & Hy & (ys' & Hys & [= <-])%bind_Ok).
      constructor; [done|by apply IH].
    + inversion 1 as [|? y ? ys' Hy Hys]; subst.
      exists y. split; [done|]. apply bind_Ok. exists ys'.
      split; [by apply IH|done].
Qed.

Lemma mapM_r_is_Ok {A B} (f : A → result B) (l : list A) :
  is_Ok (mapM_r f l) ↔ Forall (λ x, is_Ok (f x)) l.
Proof.
  induction l as [|x l IH]; simpl.
  - split; [constructor|intros _; apply is_Ok_Ok].
  - rewrite Forall_cons, <-IH. split.
    + intros [ys (y & Hy & (ys' & Hys & _)%bind_Ok)%bind_Ok].
      split; [by exists y|by exists ys'].
    + intros [[y Hy] [ys Hys]]. exists (y :: ys).
      rewrite Hy; simpl. by rewrite Hys.
Qed.

Lemma any_r_Ok_pure {A} (f : A → bool) (l : list A) :
  any_r (λ x, Ok (f x)) l = Ok (existsb f l).
Proof.
  induction l as [|x l IH]; simpl; [done|].
  destruct (f x); simpl; [done|apply IH].
Qed.

(** ** Lists *)

Lemma elem_of_flat_map {A B} (f : A → list B) (l : list A) (y : B) :
  y ∈ flat_map f l ↔ ∃ x, x ∈ l ∧ y ∈ f x.
Proof.
  rewrite list_elem_of_In, in_flat_map. split.
  - intros (x & Hx%list_elem_of_In & Hy%list_elem_of_In). eauto.
  - intros (x & Hx & Hy). exists x. by rewrite <-!list_elem_of_In.
Qed.

Lemma filter_ext_elem {A} (P Q : A → Prop)
    `{!∀ x, Decision (P x), !∀ x, Decision (Q x)} (l : list A) :
  (∀ x, x ∈ l → P x ↔ Q x) → filter P l = filter Q l.
Proof.
  induction l as [|x l IH]; intros HPQ; [done|].
  rewrite !filter_cons, IH by (intros y Hy; apply HPQ; by right).
  destruct (decide (P x)) as [HP|HP].
  - rewrite decide_True; [done|]. apply HPQ; [left|done].
  - rewrite decide_False; [done|]. intros HQ. apply HP, HPQ; [left|done].
Qed.

(** ** Node names under the graph updates *)

Section add_new.
Context `{EqDecision A}.
Implicit Types (l acc : list A) (x y : A).

Lemma elem_of_add_new l x y : y ∈ add_new l x ↔ y ∈ l ∨ y = x.
Proof.
  unfold add_new. case_decide as Hx.
  - split; [by left|]. intros [?| ->]; done.
  - rewrite elem_of_app, list_elem_of_singleton. done.
Qed.

Lemma NoDup_add_new l x : NoDup l → NoDup (add_new l x).
Proof.
  intros Hl. unfold add_new. case_decide as Hx; [done|].
  apply NoDup_app. split_and!; [done| |apply NoDup_singleton].
  intros y Hy ->%list_elem_of_singleton. done.
Qed.

Lemma elem_of_add_all_new acc l y : y ∈ add_all_new acc l ↔ y ∈ acc ∨ y ∈ l.
Proof.
  unfold add_all_new. revert acc. induction l as [|x l IH]; intros acc; simpl.
  - rewrite elem_of_nil. tauto.
  - rewrite IH, elem_of_add_new, elem_of_cons. tauto.
Qed.

Lemma NoDup_add_all_new acc l : NoDup acc → NoDup (add_all_new acc l).
Proof.
  unfold add_all_new. revert acc. induction l as [|x l IH]; intros acc Hacc; simpl.
  - done.
  - apply IH. by apply NoDup_add_new.
Qed.

Lemma add_all_new_NoDup acc l : NoDup (acc ++ l) → add_all_new acc l = acc ++ l.
Proof.
  unfold add_all_new. revert acc. induction l as [|x l IH]; intros acc Hnd; simpl.
  - by rewrite app_nil_r.
  - assert (x ∉ acc) as Hx.
    { apply NoDup_app in Hnd as (_ & Hnd & _). intros Hx.
      apply (Hnd x Hx). left. }
    unfold add_new at 2. rewrite decide_False by done.
    rewrite IH; [by rewrite <-app_assoc|]. by rewrite <-app_assoc.
Qed.

Lemma filter_add_new (P : A → Prop) `{∀ x, Decision (P x)} l x :
  filter P (add_new l x) = if decide (P x) then add_new (filter P l) x else filter P l.
Proof.
  unfold add_new. case_decide as Hx.
  - case_decide as HP; [|done].
    rewrite decide_True; [done|]. apply list_elem_of_filter. done.
  - rewrite filter_app. simpl. unfold filter at 2; simpl.
    case_decide as HP.
    + rewrite decide_False; [done|].
      rewrite list_elem_of_filter. tauto.
    + by rewrite app_nil_r.
Qed.

Lemma filter_add_all_new (P : A → Prop) `{∀ x, Decision (P x)} acc l :
  filter P (add_all_new acc l) = add_all_new (filter P acc) (filter P l).
Proof.
  unfold add_all_new. revert acc. induction l as [|x l IH]; intros acc; simpl.
  - done.
  - rewrite IH, filter_add_new. rewrite filter_cons.
    case_decide; done.
Qed.
End add_new.

Section node_names.
Context {V : Type} `{Countable V}.
Context {N : Type} `{EqDecision N}.
Implicit Types (G : Graph N (attrs V)) (u v n : N).

Lemma number_of_nodes_length G : number_of_nodes G = length (nodes G).
Proof. unfold number_of_nodes, nodes. by rewrite length_fmap. Qed.

Lemma has_node_true G n : has_node G n = true ↔ n ∈ nodes G.
Proof. unfold has_node. apply bool_decide_eq_true. Qed.

Lemma has_node_false G n : has_node G n = false ↔ n ∉ nodes G.
Proof. unfold has_node. apply bool_decide_eq_false. Qed.

Lemma g_class_add_node G n d : g_class (add_node G n d) = g_class G.
Proof. unfold add_node. by destruct (has_node G n). Qed.

Lemma g_edge_add_node G n d : g_edge (add_node G n d) = g_edge G.
Proof. unfold add_node. by destruct (has_node G n). Qed.

Lemma nodes_add_node G n d : nodes (add_node G n d) = add_new (nodes G) n.
Proof.
  unfold add_node, add_new, has_node, nodes.
  destruct (decide (n ∈ (g_node G).*1)) as [Hn|Hn].
  - rewrite bool_decide_eq_true_2 by done. simpl.
    rewrite <-list_fmap_compose. apply list_fmap_ext.
    intros i [m a] _. simpl. by case_decide.
  - rewrite bool_decide_eq_false_2 by done. simpl.
    by rewrite fmap_app.
Qed.

Lemma g_class_add_nodes_from G ps : g_class (add_nodes_from G ps) = g_class G.
Proof.
  unfold add_nodes_from. revert G. induction ps as [|p ps IH]; intros G; simpl.
  - done.
  - by rewrite IH, g_class_add_node.
Qed.

Lemma g_edge_add_nodes_from G ps : g_edge (add_nodes_from G ps) = g_edge G.
Proof.
  unfold add_nodes_from. revert G. induction ps as [|p ps IH]; intros G; simpl.
  - done.
  - by rewrite IH, g_edge_add_node.
Qed.

Lemma nodes_add_nodes_from G ps :
  nodes (add_nodes_from G ps) = add_all_new (nodes G) ps.*1.
Proof.
  unfold add_nodes_from, add_all_new. revert G.
  induction ps as [|p ps IH]; intros G; simpl.
  - done.
  - by rewrite IH, nodes_add_node.
Qed.

Lemma g_class_ensure_node G n : g_class (ensure_node G n) = g_class G.
Proof. unfold ensure_node. by destruct (has_node G n). Qed.

Lemma g_edge_ensure_node G n : g_edge (ensure_node G n) = g_edge G.
Proof. unfold ensure_node. by destruct (has_node G n). Qed.

Lemma nodes_ensure_node G n : nodes (ensure_node G n) = add_new (nodes G) n.
Proof.
  unfold ensure_node, add_new, has_node.
  destruct (decide (n ∈ nodes G)) as [Hn|Hn].
  - by rewrite bool_decide_eq_true_2.
  - rewrite bool_decide_eq_false_2 by done. unfold nodes; simpl.
    by rewrite fmap_app.
Qed.

Lemma ensure_node_present G n : n ∈ nodes G → ensure_node G n = G.
Proof. intros Hn. unfold ensure_node. by rewrite (proj2 (has_node_true G n) Hn). Qed.

Lemma g_class_add_edge G u v d : g_class (add_edge G u v d) = g_class G.
Proof.
  unfold add_edge.
  repeat match goal with |- context [if ?b then _ else _] => destruct b end;
    simpl; by rewrite !g_class_ensure_node.
Qed.

Lemma g_node_add_edge G u v d :
  g_node (add_edge G u v d) = g_node (ensure_node (ensure_node G u) v).
Proof.
  unfold add_edge.
  repeat match goal with |- context [if ?b then _ else _] => destruct b end;
    done.
Qed.

Lemma nodes_add_edge G u v d :
  nodes (add_edge G u v d) = add_new (add_new (nodes G) u) v.
Proof.
  unfold nodes at 1. rewrite g_node_add_edge.
  fold (nodes (ensure_node (ensure_node G u) v)).
  by rewrite !nodes_ensure_node.
Qed.

Lemma g_class_add_edges_from G ts : g_class (add_edges_from G ts) = g_class G.
Proof.
  unfold add_edges_from. revert G. induction ts as [|t ts IH]; intros G; simpl.
  - done.
  - by rewrite IH, g_class_add_edge.
Qed.

Lemma nodes_add_edges_from G ts :
  nodes (add_edges_from G ts)
  = add_all_new (nodes G) (flat_map (λ t, [t.1.1; t.1.2]) ts).
Proof.
  unfold add_edges_from, add_all_new. revert G.
  induction ts as [|t ts IH]; intros G; simpl.
  - done.
  - by rewrite IH, nodes_add_edge.
Qed.

Lemma g_node_add_edges_from_present G ts :
  (∀ t, t ∈ ts → t.1.1 ∈ nodes G ∧ t.1.2 ∈ nodes G) →
  g_node (add_edges_from G ts) = g_node G.
Proof.
  unfold add_edges_from. revert G.
  induction ts as [|t ts IH]; intros G Hts; simpl.
  - done.
  - destruct (Hts t) as [Hu Hv]; [left|].
    assert (g_node (add_edge G t.1.1 t.1.2 t.2) = g_node G) as Hg.
    { rewrite g_node_add_edge.
      rewrite (ensure_node_present G t.1.1) by done.
      by rewrite ensure_node_present. }
    rewrite IH.
    + done.
    + intros t' Ht'. unfold nodes. rewrite Hg. apply Hts. by right.
Qed.
End node_names.

(** ** Pairs of blocks *)

Lemma filter_none {A} (P : A → Prop) `{∀ x, Decision (P x)} (l : list A) :
  (∀ x, x ∈ l → ¬ P x) → filter P l = [].
Proof.
  induction l as [|x l IH]; intros Hl; [done|].
  rewrite filter_cons_False by (apply Hl; left).
  apply IH. intros y Hy. apply Hl. by right.
Qed.

Section pairs.
Context {A : Type}.
Implicit Types (l before after : list A) (x y : A).

Lemma elem_of_combinations2 l x y : (x, y) ∈ combinations2 l → x ∈ l ∧ y ∈ l.
Proof.
  induction l as [|z l IH]; simpl; [by intros ?%elem_of_nil|].
  rewrite elem_of_app, list_elem_of_fmap.
  intros [(y' & [= -> ->] & Hy)|Hxy].
  - split; [left|by right].
  - destruct (IH Hxy). split; by right.
Qed.

Lemma elem_of_permutations2_from before after x y :
  (x, y) ∈ permutations2_from before after → x ∈ after ∧ y ∈ before ++ after.
Proof.
  revert before. induction after as [|z after IH]; intros before; simpl.
  - by intros ?%elem_of_nil.
  - rewrite elem_of_app, list_elem_of_fmap.
    intros [(y' & [= -> ->] & Hy)|Hxy].
    + split; [left|]. revert Hy. rewrite !elem_of_app, elem_of_cons. tauto.
    + destruct (IH _ Hxy) as [Hx Hy]. split; [by right|].
      revert Hy. rewrite !elem_of_app, !elem_of_cons, elem_of_nil. tauto.
Qed.

Lemma elem_of_permutations2 l x y : (x, y) ∈ permutations2 l → x ∈ l ∧ y ∈ l.
Proof. intros Hxy. by apply elem_of_permutations2_from in Hxy. Qed.

Lemma combinations2_filter (P : A → Prop) `{∀ x, Decision (P x)} l :
  combinations2 (filter P l)
  = filter (λ xy, P xy.1 ∧ P xy.2) (combinations2 l).
Proof.
  induction l as [|z l IH]; simpl; [done|].
  rewrite filter_cons, filter_app, <-IH.
  case_decide as Hz; simpl.
  - f_equal. clear IH. induction l as [|w l IH]; simpl; [done|].
    rewrite !filter_cons. simpl. case_decide as Hw.
    + rewrite decide_True by done. simpl. by f_equal.
    + rewrite decide_False by tauto. done.
  - rewrite (filter_none _ (pair z <$> l)); [done|].
    intros xy (w & -> & _)%list_elem_of_fmap. simpl. tauto.
Qed.

Lemma fmap_pair_filter (P : A → Prop) `{∀ x, Decision (P x)} z l :
  P z →
  pair z <$> filter P l = filter (λ xy : A * A, P xy.1 ∧ P xy.2) (pair z <$> l).
Proof.
  intros Hz. induction l as [|w l IH]; simpl; [done|].
  rewrite !filter_cons. simpl. case_decide as Hw.
  - rewrite decide_True by done. simpl. by f_equal.
  - rewrite decide_False by tauto. done.
Qed.

Lemma permutations2_from_filter (P : A → Prop) `{∀ x, Decision (P x)}
    before after :
  permutations2_from (filter P before) (filter P after)
  = filter (λ xy, P xy.1 ∧ P xy.2) (permutations2_from before after).
Proof.
  revert before. induction after as [|z after IH]; intros before; simpl; [done|].
  rewrite filter_cons, filter_app, <-IH.
  case_decide as Hz; simpl.
  - rewrite <-fmap_pair_filter by done.
    rewrite !filter_app. rewrite filter_cons, decide_True by done.
    by rewrite filter_nil.
  - rewrite (filter_none _ (pair z <$> _)).
    + simpl. rewrite filter_app, filter_cons, decide_False by done.
      by rewrite filter_nil, app_nil_r.
    + intros xy (w & -> & _)%list_elem_of_fmap. simpl. tauto.
Qed.

Lemma permutations2_filter (P : A → Prop) `{∀ x, Decision (P x)} l :
  permutations2 (filter P l) = filter (λ xy, P xy.1 ∧ P xy.2) (permutations2 l).
Proof. unfold permutations2. by rewrite <-permutations2_from_filter. Qed.
End pairs.

(** ** The quotient graph: partition check, nodes and exceptions *)

Section quotient_facts.
Context {V : Type} `{!EqDecision V, !Countable V}.
Variable density : Graph V (attrs V) → value V.
Implicit Types (G : Graph V (attrs V)) (P : list (gset V)) (b c : gset V).
Implicit Types (H : Graph (gset V) (attrs V)).

Lemma bad_partition_true G P :
  bad_partition G P = true ↔ ∃ v, v ∈ nodes G ∧ count_blocks P v ≠ 1.
Proof.
  unfold bad_partition. rewrite existsb_exists. split.
  - intros (v & Hv%list_elem_of_In & Hc). exists v. split; [done|].
    apply negb_true_iff, Nat.eqb_neq in Hc. done.
  - intros (v & Hv & Hc). exists v. split; [by apply list_elem_of_In|].
    by apply negb_true_iff, Nat.eqb_neq.
Qed.

Lemma bad_partition_false G P :
  bad_partition G P = false ↔ ∀ v, v ∈ nodes G → count_blocks P v = 1.
Proof.
  rewrite <-not_true_iff_false, bad_partition_true. split.
  - intros Hno v Hv. destruct (decide (count_blocks P v = 1)); [done|].
    destruct Hno; eauto.
  - intros Hall (v & Hv & Hc). by apply Hc, Hall.
Qed.

Lemma concat_elem_of {A} (ls : list (list A)) (x : A) :
  x ∈ concat ls ↔ ∃ l, l ∈ ls ∧ x ∈ l.
Proof.
  induction ls as [|l ls IH]; simpl.
  - split; [by intros ?%elem_of_nil|by intros (l & ?%elem_of_nil & _)].
  - rewrite elem_of_app, IH. split.
    + intros [Hx|(l' & Hl' & Hx)]; [exists l; split; [left|done]|].
      exists l'. split; [by right|done].
    + intros (l' & [->|Hl']%elem_of_cons & Hx); [by left|right; eauto].
Qed.

Lemma multi_edges_ends G b c ts t :
  multi_edges G b c = Ok ts → t ∈ ts → t.1.1 = b ∧ t.1.2 = c.
Proof.
  unfold multi_edges. intros (ls & Hls%mapM_r_Ok & ->)%fmap_Ok.
  intros (l & Hl & Ht)%concat_elem_of.
  apply list_elem_of_lookup in Hl as [i Hl].
  destruct (Forall2_lookup_r _ _ _ _ _ Hls Hl) as (uv & _ & Huv).
  apply bind_Ok in Huv as ([] & _ & [= <-]).
  - apply list_elem_of_singleton in Ht as ->. done.
  - by apply elem_of_nil in Ht.
Qed.

Lemma multigraph_edges_ends G rel pairs ts t :
  multigraph_edges G rel pairs = Ok ts → t ∈ ts → (t.1.1, t.1.2) ∈ pairs.
Proof.
  unfold multigraph_edges. intros (ls & Hls%mapM_r_Ok & ->)%fmap_Ok.
  intros (l & Hl & Ht)%concat_elem_of.
  apply list_elem_of_lookup in Hl as [i Hl].
  destruct (Forall2_lookup_r _ _ _ _ _ Hls Hl) as (bc & Hbc & Hstep).
  apply bind_Ok in Hstep as ([] & _ & Hl').
  - destruct (multi_edges_ends _ _ _ _ _ Hl' Ht) as [-> ->].
    destruct bc. by eapply list_elem_of_lookup_2.
  - injection Hl' as <-. by apply elem_of_nil in Ht.
Qed.

Lemma simple_edges_ends (rel : gset V → gset V → result bool)
    (data : gset V → gset V → result (attrs V)) pairs ts t :
  simple_edges rel data pairs = Ok ts → t ∈ ts → (t.1.1, t.1.2) ∈ pairs.
Proof.
  unfold simple_edges. intros (ls & Hls%mapM_r_Ok & ->)%fmap_Ok.
  intros (l & Hl & Ht)%concat_elem_of.
  apply list_elem_of_lookup in Hl as [i Hl].
  destruct (Forall2_lookup_r _ _ _ _ _ Hls Hl) as (bc & Hbc & Hstep).
  apply bind_Ok in Hstep as ([] & _ & Hl').
  - apply bind_Ok in Hl' as (d & _ & [= <-]).
    apply list_elem_of_singleton in Ht as ->. simpl.
    destruct bc. by eapply list_elem_of_lookup_2.
  - injection Hl' as <-. by apply elem_of_nil in Ht.
Qed.

Lemma block_pairs_ends {A} (H : Graph (gset V) A) b c :
  (b, c) ∈ block_pairs H → b ∈ nodes H ∧ c ∈ nodes H.
Proof.
  unfold block_pairs. destruct (is_directed H).
  - apply elem_of_permutations2.
  - apply elem_of_combinations2.
Qed.

Lemma nodes_block_graph G P nd cu :
  nodes (block_graph density G P nd cu) = add_all_new [] P.
Proof.
  unfold block_graph. rewrite nodes_add_nodes_from.
  rewrite <-list_fmap_compose. simpl.
  by rewrite list_fmap_id.
Qed.

Lemma g_class_block_graph G P nd cu :
  g_class (block_graph density G P nd cu) = quotient_class G cu.
Proof. unfold block_graph. by rewrite g_class_add_nodes_from. Qed.

Lemma quotient_blocks_Ok G P er nd ed cu H :
  quotient_blocks density G P er nd ed cu = Ok H ↔
  bad_partition G P = false ∧
  ∃ edges,
    (if cls_multigraph (quotient_class G cu)
     then multigraph_edges G (the_edge_relation G er)
            (block_pairs (block_graph density G P nd cu))
     else simple_edges (the_edge_relation G er) (the_edge_data G ed)
            (block_pairs (block_graph density G P nd cu))) = Ok edges ∧
    H = add_edges_from (block_graph density G P nd cu) edges.
Proof.
  unfold quotient_blocks. fold (block_graph density G P nd cu).
  unfold is_multigraph. rewrite g_class_block_graph.
  destruct (bad_partition G P).
  - split; [done|]. by intros [[=] _].
  - rewrite bind_Ok. split.
    + intros (edges & Hedges & [= <-]). eauto.
    + intros (_ & edges & Hedges & ->). eauto.
Qed.

Lemma quotient_blocks_nodes G P er nd ed cu H :
  quotient_blocks density G P er nd ed cu = Ok H →
  g_class H = quotient_class G cu ∧
  g_node H = g_node (block_graph density G P nd cu) ∧
  nodes H = add_all_new [] P.
Proof.
  intros (_ & edges & Hedges & ->)%quotient_blocks_Ok.
  rewrite g_class_add_edges_from, g_class_block_graph.
  assert (g_node (add_edges_from (block_graph density G P nd cu) edges)
          = g_node (block_graph density G P nd cu)) as Hn.
  { apply g_node_add_edges_from_present. intros t Ht.
    apply (block_pairs_ends (block_graph density G P nd cu)).
    destruct (cls_multigraph _).
    - by eapply multigraph_edges_ends.
    - by eapply simple_edges_ends. }
  split_and!; [done|done|].
  unfold nodes at 1. rewrite Hn. apply nodes_block_graph.
Qed.

(** Apart from the partition check, the exceptions of [quotient_graph] on
    a list of blocks are the [KeyError] of [G[u]] and the [TypeError] of
    [sum]. *)
Lemma in_adj_raises G u v : raises_only (λ e, e = KeyError) (in_adj G u v).
Proof.
  unfold in_adj, adj. destruct (has_node G u); simpl.
  - apply raises_only_Ok.
  - by intros e [= <-].
Qed.

Lemma default_edge_relation_raises G b c :
  raises_only (λ e, e = KeyError) (default_edge_relation G b c).
Proof.
  unfold default_edge_relation. apply raises_only_any_r.
  intros uv _. apply in_adj_raises.
Qed.

Lemma the_edge_relation_raises G er b c :
  raises_only (λ e, e = KeyError) (the_edge_relation G er b c).
Proof.
  destruct er; simpl; [apply raises_only_Ok|apply default_edge_relation_raises].
Qed.

Lemma multi_edges_raises G b c :
  raises_only (λ e, e = KeyError) (multi_edges G b c).
Proof.
  unfold multi_edges. apply raises_only_fmap, raises_only_mapM_r.
  intros uv _. apply raises_only_bind; [apply in_adj_raises|].
  intros r _. apply raises_only_Ok.
Qed.

Lemma sum_weights_raises total (ds : list (attrs V)) :
  raises_only (λ e, e = TypeError) (sum_weights total ds).
Proof.
  revert total. induction ds as [|d ds IH]; intros total; simpl.
  - apply raises_only_Ok.
  - apply raises_only_bind; [|by intros].
    unfold weight_of. destruct (d !! _) as [[]|];
      (apply raises_only_Ok || by intros e [= <-]).
Qed.

Lemma the_edge_data_raises G ed b c :
  raises_only (λ e, e = TypeError) (the_edge_data G ed b c).
Proof.
  destruct ed; simpl; [apply raises_only_Ok|].
  unfold default_edge_data. apply raises_only_bind.
  - apply sum_weights_raises.
  - intros w _. apply raises_only_Ok.
Qed.

Lemma raises_only_weaken {A} (P Q : error → Prop) (r : result A) :
  (∀ e, P e → Q e) → raises_only P r → raises_only Q r.
Proof. intros HPQ Hr e He. by apply HPQ, Hr. Qed.

Lemma quotient_blocks_raises G P er nd ed cu e :
  quotient_blocks density G P er nd ed cu = Err e →
  (e = NetworkXException ∧ bad_partition G P = true)
  ∨ (bad_partition G P = false ∧ (e = KeyError ∨ e = TypeError)).
Proof.
  unfold quotient_blocks. destruct (bad_partition G P).
  - intros [= <-]. by left.
  - intros He. right. split; [done|]. revert e He.
    change (raises_only (λ e, e = KeyError ∨ e = TypeError)
      (edges ←
         (if is_multigraph (block_graph density G P nd cu)
          then multigraph_edges G (the_edge_relation G er)
                 (block_pairs (block_graph density G P nd cu))
          else simple_edges (the_edge_relation G er) (the_edge_data G ed)
                 (block_pairs (block_graph density G P nd cu)));
       Ok (add_edges_from (block_graph density G P nd cu) edges))).
    apply raises_only_bind; [|intros; apply raises_only_Ok].
    destruct (is_multigraph _).
    + apply raises_only_fmap, raises_only_mapM_r. intros bc _.
      apply raises_only_bind.
      * eapply raises_only_weaken, the_edge_relation_raises. tauto.
      * intros [] _; [|apply raises_only_Ok].
        eapply raises_only_weaken, multi_edges_raises. tauto.
    + apply raises_only_fmap, raises_only_mapM_r. intros bc _.
      apply raises_only_bind.
      * eapply raises_only_weaken, the_edge_relation_raises. tauto.
      * intros [] _; [|apply raises_only_Ok].
        apply raises_only_bind; [|intros; apply raises_only_Ok].
        eapply raises_only_weaken, the_edge_data_raises. tauto.
Qed.
End quotient_facts.

(** ** The quotient graph: when it is built *)

Section quotient_success.
Context {V : Type} `{!EqDecision V, !Countable V}.
Variable density : Graph V (attrs V) → value V.
Implicit Types (G : Graph V (attrs V)) (P : list (gset V)) (b c : gset V).

Lemma any_r_is_Ok {A} (f : A → result bool) (l : list A) :
  (∀ x, x ∈ l → is_Ok (f x)) → is_Ok (any_r f l).
Proof.
  induction l as [|x l IH]; intros Hf; simpl; [apply is_Ok_Ok|].
  destruct (Hf x) as [[] ->]; [left| |]; simpl; [apply is_Ok_Ok|].
  apply IH. intros y Hy. apply Hf. by right.
Qed.

Lemma elem_of_product {A B} (l : list A) (k : list B) x y :
  (x, y) ∈ product l k ↔ x ∈ l ∧ y ∈ k.
Proof.
  unfold product. rewrite elem_of_flat_map. split.
  - intros (a & Ha & Hxy).
    apply list_elem_of_fmap in Hxy as (y' & [= -> ->] & Hy). done.
  - intros [Hx Hy]. exists x. split; [done|].
    apply list_elem_of_fmap. eauto.
Qed.

Lemma in_adj_is_Ok G u v : u ∈ nodes G → is_Ok (in_adj G u v).
Proof.
  intros Hu. unfold in_adj, adj.
  rewrite (proj2 (has_node_true G u) Hu). simpl. apply is_Ok_Ok.
Qed.

Lemma default_edge_relation_is_Ok G b c :
  (∀ u, u ∈ b → u ∈ nodes G) → is_Ok (default_edge_relation G b c).
Proof.
  intros Hb. unfold default_edge_relation. apply any_r_is_Ok.
  intros [u v] [Hu _]%elem_of_product. apply in_adj_is_Ok, Hb.
  by apply elem_of_elements.
Qed.

Lemma multi_edges_is_Ok G b c :
  (∀ u, u ∈ b → u ∈ nodes G) → is_Ok (multi_edges G b c).
Proof.
  intros Hb. unfold multi_edges.
  assert (is_Ok (mapM_r (λ uv : V * V,
      r ← in_adj G uv.1 uv.2;
      Ok (if (r : bool) then [(b, c, get_edge_data G uv.1 uv.2 ∅)] else []))
    (product (elements b) (elements c)))) as [ls ->]; [|apply is_Ok_Ok].
  apply mapM_r_is_Ok, Forall_forall.
  intros [u v] [Hu _]%elem_of_product. simpl.
  destruct (in_adj_is_Ok G u v) as [r ->]; [|apply is_Ok_Ok].
  apply Hb. by apply elem_of_elements.
Qed.

Lemma out_edges_iter_data {N A} `{EqDecision N} (G : Graph N A) bunch t :
  t ∈ out_edges_iter G bunch → ∃ e, e ∈ g_edge G ∧ t.2 = e_data e.
Proof.
  unfold out_edges_iter. rewrite elem_of_flat_map.
  intros (n & _ & (e & He & Ht)%elem_of_flat_map).
  exists e. split; [done|].
  destruct (decide _); [|by apply elem_of_nil in Ht].
  by apply list_elem_of_singleton in Ht as ->.
Qed.

Lemma undirected_edges_iter_data {N A} `{EqDecision N} (G : Graph N A)
    seen bunch t :
  t ∈ undirected_edges_iter G seen bunch → ∃ e, e ∈ g_edge G ∧ t.2 = e_data e.
Proof.
  revert seen. induction bunch as [|n bunch IH]; intros seen; simpl.
  - by intros ?%elem_of_nil.
  - rewrite elem_of_app. intros [Ht|Ht]; [|by eapply IH].
    unfold edges_from_unseen in Ht.
    apply elem_of_flat_map in Ht as (e & He & Ht).
    exists e. split; [done|]. unfold report_edge in Ht.
    repeat (destruct (decide _); try by apply elem_of_nil in Ht);
      by apply list_elem_of_singleton in Ht as ->.
Qed.

Lemma edges_data_data {N A} `{EqDecision N} (G : Graph N A) bunch t :
  t ∈ edges_data G bunch → ∃ e, e ∈ g_edge G ∧ t.2 = e_data e.
Proof.
  unfold edges_data. destruct (is_directed G).
  - apply out_edges_iter_data.
  - apply undirected_edges_iter_data.
Qed.

Lemma sum_weights_is_Ok total (ds : list (attrs V)) :
  (∀ d, d ∈ ds → is_Ok (weight_of d)) → is_Ok (sum_weights total ds).
Proof.
  revert total. induction ds as [|d ds IH]; intros total Hds; simpl.
  - apply is_Ok_Ok.
  - destruct (Hds d) as [w ->]; [left|]. simpl.
    apply IH. intros d' Hd'. apply Hds. by right.
Qed.

Lemma default_edge_data_is_Ok G b c :
  numeric_weights G → is_Ok (default_edge_data G b c).
Proof.
  intros Hnum. unfold default_edge_data.
  destruct (sum_weights_is_Ok 0
    ((filter (λ t, crosses b c t = true) (edges_data G (elements (b ∪ c)))).*2))
    as [w ->]; [|apply is_Ok_Ok].
  intros d (t & -> & [_ Ht]%list_elem_of_filter)%list_elem_of_fmap.
  apply edges_data_data in Ht as (e & He & ->). by apply Hnum.
Qed.

Lemma quotient_blocks_is_Ok G P er nd ed cu :
  bad_partition G P = false →
  (∀ b v, b ∈ P → v ∈ b → v ∈ nodes G) →
  numeric_weights G →
  is_Ok (quotient_blocks density G P er nd ed cu).
Proof.
  intros Hbad HP Hnum.
  assert (∀ bc, bc ∈ block_pairs (block_graph density G P nd cu) →
                ∀ u, u ∈ bc.1 → u ∈ nodes G) as Hpairs.
  { intros [b c] [Hb _]%block_pairs_ends u Hu.
    rewrite nodes_block_graph in Hb.
    apply elem_of_add_all_new in Hb as [?%elem_of_nil|Hb]; [done|].
    by eapply HP. }
  assert (∀ b c, (∀ u, u ∈ b → u ∈ nodes G) →
                 is_Ok (the_edge_relation G er b c)) as Hrel.
  { intros b c Hb. destruct er; simpl;
      [apply is_Ok_Ok|by apply default_edge_relation_is_Ok]. }
  assert (∀ b c, is_Ok (the_edge_data G ed b c)) as Hdata.
  { intros b c. destruct ed; simpl;
      [apply is_Ok_Ok|by apply default_edge_data_is_Ok]. }
  unfold quotient_blocks. rewrite Hbad.
  set (H := block_graph density G P nd cu) in *.
  assert (is_Ok (if is_multigraph H
                 then multigraph_edges G (the_edge_relation G er) (block_pairs H)
                 else simple_edges (the_edge_relation G er)
                        (the_edge_data G ed) (block_pairs H)))
    as [edges ->]; [|apply is_Ok_Ok].
  destruct (is_multigraph H).
  - unfold multigraph_edges.
    match goal with |- is_Ok (_ <$> ?m) =>
      assert (is_Ok m) as [ls ->]; [|apply is_Ok_Ok] end.
    apply mapM_r_is_Ok, Forall_forall. intros bc Hbc.
    destruct (Hrel bc.1 bc.2) as [[] ->]; [by apply Hpairs| |]; simpl.
    + apply multi_edges_is_Ok. by apply Hpairs.
    + apply is_Ok_Ok.
  - unfold simple_edges.
    match goal with |- is_Ok (_ <$> ?m) =>
      assert (is_Ok m) as [ls ->]; [|apply is_Ok_Ok] end.
    apply mapM_r_is_Ok, Forall_forall. intros bc Hbc.
    destruct (Hrel bc.1 bc.2) as [[] ->]; [by apply Hpairs| |]; simpl.
    + destruct (Hdata bc.1 bc.2) as [d ->]. apply is_Ok_Ok.
    + apply is_Ok_Ok.
Qed.

(** The blocks of a valid partition are pairwise different. *)
Lemma count_blocks_pos P b v : b ∈ P → v ∈ b → 0 < count_blocks P v.
Proof.
  intros Hb Hv. unfold count_blocks.
  assert (b ∈ filter (λ b, v ∈ b) P) as Hin by by apply list_elem_of_filter.
  destruct (filter _ P); [by apply elem_of_nil in Hin|simpl; lia].
Qed.

Lemma count_blocks_cons P b v :
  count_blocks (b :: P) v
  = (if decide (v ∈ b) then 1 else 0) + count_blocks P v.
Proof. unfold count_blocks. rewrite filter_cons. by case_decide. Qed.

Lemma NoDup_blocks P :
  (∀ b, b ∈ P → ∃ v, v ∈ b ∧ count_blocks P v ≤ 1) → NoDup P.
Proof.
  induction P as [|b P IH]; intros HP; [constructor|].
  constructor.
  - intros Hb. destruct (HP b) as (v & Hv & Hc); [left|].
    rewrite count_blocks_cons, decide_True in Hc by done.
    pose proof (count_blocks_pos P b v Hb Hv). lia.
  - apply IH. intros b' Hb'. destruct (HP b') as (v & Hv & Hc); [by right|].
    exists v. split; [done|]. rewrite count_blocks_cons in Hc. lia.
Qed.

Lemma valid_partition_NoDup G P : valid_partition G P → NoDup P.
Proof.
  intros [Hne Hnodes Honce]. apply NoDup_blocks. intros b Hb.
  destruct (set_choose_L b (Hne b Hb)) as [v Hv].
  exists v. split; [done|]. rewrite Honce; [done|]. by eapply Hnodes.
Qed.
End quotient_success.

(** ** Empty blocks *)

Section empty_blocks.
Context {V : Type} `{!EqDecision V, !Countable V}.
Variable density : Graph V (attrs V) → value V.
Implicit Types (G : Graph V (attrs V)) (P : list (gset V)) (b c : gset V).

Lemma adds_empty_blocks_filter P P' :
  adds_empty_blocks P P' →
  filter (λ b, b ≠ ∅) P' = filter (λ b, b ≠ ∅) P.
Proof.
  induction 1 as [|b P P' _ IH|P P' _ IH].
  - done.
  - rewrite !filter_cons, IH. done.
  - rewrite filter_cons_False; [done|]. by intros [].
Qed.

Lemma adds_empty_blocks_count P P' v :
  adds_empty_blocks P P' → count_blocks P' v = count_blocks P v.
Proof.
  induction 1 as [|b P P' _ IH|P P' _ IH].
  - done.
  - by rewrite !count_blocks_cons, IH.
  - rewrite count_blocks_cons, IH, decide_False; [done|].
    apply not_elem_of_empty.
Qed.

Lemma adds_empty_blocks_elem_of P P' b :
  adds_empty_blocks P P' → b ∈ P' ↔ b ∈ P ∨ (b = ∅ ∧ ∅ ∈ P').
Proof.
  induction 1 as [|b' P P' _ IH|P P' _ IH].
  - rewrite !elem_of_nil. tauto.
  - rewrite !elem_of_cons, IH. split; [tauto|].
    intros [[?|?]|[-> [<-|?]]]; auto.
  - rewrite !elem_of_cons, IH. split; [tauto|].
    intros [?|[-> [?|?]]]; auto.
Qed.

Lemma adds_empty_blocks_bad_partition G P P' :
  adds_empty_blocks P P' → bad_partition G P' = bad_partition G P.
Proof.
  intros HP. unfold bad_partition.
  induction (nodes G) as [|v l IH]; simpl; [done|].
  by rewrite IH, (adds_empty_blocks_count P P' v).
Qed.

Lemma product_nil_r {A B} (l : list A) : product l (@nil B) = [].
Proof. unfold product. induction l as [|a l IH]; simpl; done. Qed.

Lemma product_empty_block b c :
  b = ∅ ∨ c = ∅ → product (elements b) (elements c) = [].
Proof.
  intros [-> | ->]; rewrite elements_empty; [done|apply product_nil_r].
Qed.

Lemma the_edge_relation_empty_block G er b c :
  b = ∅ ∨ c = ∅ → is_Ok (the_edge_relation G er b c).
Proof.
  intros Hbc. destruct er; simpl; [apply is_Ok_Ok|].
  unfold default_edge_relation. rewrite product_empty_block by done.
  apply is_Ok_Ok.
Qed.

Lemma multi_edges_empty_block G b c :
  b = ∅ ∨ c = ∅ → multi_edges G b c = Ok [].
Proof.
  intros Hbc. unfold multi_edges. by rewrite product_empty_block.
Qed.

Lemma crosses_empty_block b c (t : V * V * attrs V) :
  b = ∅ ∨ c = ∅ → crosses b c t = false.
Proof.
  intros [-> | ->]; unfold crosses;
    rewrite !(bool_decide_eq_false_2 (_ ∈ ∅)) by apply not_elem_of_empty;
    by rewrite ?andb_false_r.
Qed.

Lemma the_edge_data_empty_block G ed b c :
  b = ∅ ∨ c = ∅ → is_Ok (the_edge_data G ed b c).
Proof.
  intros Hbc. destruct ed; simpl; [apply is_Ok_Ok|].
  unfold default_edge_data. rewrite filter_none; [apply is_Ok_Ok|].
  intros t _. by rewrite crosses_empty_block.
Qed.

Lemma mapM_r_is_Ok_mono {A B} (f : A → result B) (l l' : list A) :
  (∀ x, x ∈ l' → x ∈ l ∨ is_Ok (f x)) →
  is_Ok (mapM_r f l) → is_Ok (mapM_r f l').
Proof.
  rewrite !mapM_r_is_Ok, !Forall_forall. intros Hl' Hl x Hx.
  destruct (Hl' x Hx); [by apply Hl|done].
Qed.

Lemma block_pairs_without_empty_blocks G P P' nd cu bc :
  adds_empty_blocks P P' →
  bc ∈ block_pairs (block_graph density G P' nd cu) →
  (bc.1 = ∅ ∨ bc.2 = ∅)
  ∨ bc ∈ block_pairs (block_graph density G P nd cu).
Proof.
  intros HP Hbc.
  destruct (decide (bc.1 = ∅)) as [|H1]; [by left; left|].
  destruct (decide (bc.2 = ∅)) as [|H2]; [by left; right|].
  right. revert Hbc. unfold block_pairs, is_directed.
  rewrite !g_class_block_graph, !nodes_block_graph.
  assert (filter (λ b, b ≠ ∅) (add_all_new [] P')
          = filter (λ b, b ≠ ∅) (add_all_new [] P)) as Hfilter.
  { by rewrite !filter_add_all_new, (adds_empty_blocks_filter P P'). }
  destruct (cls_directed _); intros Hbc.
  - pose proof (permutations2_filter (λ b : gset V, b ≠ ∅)
                  (add_all_new [] P')) as E'.
    pose proof (permutations2_filter (λ b : gset V, b ≠ ∅)
                  (add_all_new [] P)) as E.
    rewrite Hfilter, E in E'.
    match type of E' with ?l = _ => assert (bc ∈ l) as Hin end.
    { rewrite E'. by apply list_elem_of_filter. }
    by apply list_elem_of_filter in Hin as [_ ?].
  - pose proof (combinations2_filter (λ b : gset V, b ≠ ∅)
                  (add_all_new [] P')) as E'.
    pose proof (combinations2_filter (λ b : gset V, b ≠ ∅)
                  (add_all_new [] P)) as E.
    rewrite Hfilter, E in E'.
    match type of E' with ?l = _ => assert (bc ∈ l) as Hin end.
    { rewrite E'. by apply list_elem_of_filter. }
    by apply list_elem_of_filter in Hin as [_ ?].
Qed.

Lemma quotient_blocks_is_Ok_inv G P er nd ed cu :
  is_Ok (quotient_blocks density G P er nd ed cu) ↔
  bad_partition G P = false ∧
  is_Ok (if cls_multigraph (quotient_class G cu)
         then multigraph_edges G (the_edge_relation G er)
                (block_pairs (block_graph density G P nd cu))
         else simple_edges (the_edge_relation G er) (the_edge_data G ed)
                (block_pairs (block_graph density G P nd cu))).
Proof.
  split.
  - intros [H' (Hbad & edges & Hedges & _)%quotient_blocks_Ok].
    split; [done|by exists edges].
  - intros [Hbad [edges Hedges]]. eexists.
    apply quotient_blocks_Ok. eauto.
Qed.

Lemma fmap_is_Ok {A B} (f : A → B) (m : result A) :
  is_Ok (f <$> m) ↔ is_Ok m.
Proof.
  destruct m; simpl; split; intros [? [=]]; apply is_Ok_Ok.
Qed.

Lemma quotient_blocks_empty_blocks_is_Ok G P P' er nd ed cu :
  adds_empty_blocks P P' →
  is_Ok (quotient_blocks density G P er nd ed cu) →
  is_Ok (quotient_blocks density G P' er nd ed cu).
Proof.
  intros HP. rewrite !quotient_blocks_is_Ok_inv.
  rewrite (adds_empty_blocks_bad_partition G P P') by done.
  intros [Hbad Hedges]. split; [done|].
  destruct (cls_multigraph _).
  - unfold multigraph_edges in *. rewrite fmap_is_Ok in *.
    revert Hedges. apply mapM_r_is_Ok_mono. intros bc Hbc.
    apply (block_pairs_without_empty_blocks G P P') in Hbc as [Hbc|Hbc];
      [|by left|done].
    right. destruct (the_edge_relation_empty_block G er _ _ Hbc) as [[] ->];
      simpl; [|apply is_Ok_Ok].
    rewrite multi_edges_empty_block by done. apply is_Ok_Ok.
  - unfold simple_edges in *. rewrite fmap_is_Ok in *.
    revert Hedges. apply mapM_r_is_Ok_mono. intros bc Hbc.
    apply (block_pairs_without_empty_blocks G P P') in Hbc as [Hbc|Hbc];
      [|by left|done].
    right. destruct (the_edge_relation_empty_block G er _ _ Hbc) as [[] ->];
      simpl; [|apply is_Ok_Ok].
    destruct (the_edge_data_empty_block G ed _ _ Hbc) as [d ->].
    apply is_Ok_Ok.
Qed.
End empty_blocks.

(** ** Equivalence classes *)

Section classes.
Context `{Countable A}.
Implicit Types (l : list A) (R : A → A → bool) (blocks : list (list A)).
Implicit Types (x y h : A) (block : list A).

Lemma in_blocks_nil x : ¬ in_blocks x [].
Proof. intros (B & HB%elem_of_nil & _). done. Qed.

Lemma in_blocks_cons x block blocks :
  in_blocks x (block :: blocks) ↔ x ∈ block ∨ in_blocks x blocks.
Proof.
  unfold in_blocks. split.
  - intros (B & [->|HB]%elem_of_cons & Hx); eauto.
  - intros [Hx|(B & HB & Hx)].
    + exists block. split; [left|done].
    + exists B. split; [by right|done].
Qed.

(** The heads of the blocks after [y] has been placed are the old heads,
    and possibly [y]. *)
Lemma place_in_blocks_spec l R y blocks :
  good_blocks l R blocks → y ∈ l → R y y = true →
  ∃ blocks',
    place_in_blocks R y blocks = Ok blocks'
    ∧ good_blocks l R blocks'
    ∧ (∀ x, in_blocks x blocks' ↔ x = y ∨ in_blocks x blocks)
    ∧ (∀ block' h', block' ∈ blocks' → head block' = Some h' →
         h' = y ∨ ∃ block, block ∈ blocks ∧ head block = Some h').
Proof.
  intros Hgood Hy Hyy. induction blocks as [|block rest IH]; simpl.
  - exists [[y]]. split_and!; [done| | |].
    + simpl. split_and!; [|by intros ? ? ? ?%elem_of_nil|done].
      exists y, []. split; [done|].
      by intros x ->%list_elem_of_singleton.
    + intros x. rewrite in_blocks_cons, list_elem_of_singleton.
      pose proof (in_blocks_nil x). tauto.
    + intros block' h' ->%list_elem_of_singleton [= <-]. by left.
  - destruct Hgood as ((h & t & -> & Hblock) & Hlater & Hrest). simpl.
    destruct (R h y) eqn:Hhy.
    + exists ((h :: t ++ [y]) :: rest). split_and!; [done| | |].
      * simpl. split_and!; [|exact Hlater|done].
        exists h, (t ++ [y]). split; [done|].
        intros x. rewrite app_comm_cons, elem_of_app, list_elem_of_singleton.
        intros [Hx| ->]; [by apply Hblock|done].
      * intros x. rewrite !in_blocks_cons.
        rewrite app_comm_cons, elem_of_app, list_elem_of_singleton. tauto.
      * intros block' h' [->|Hin]%elem_of_cons Hh'; right.
        -- exists (h :: t). split; [left|done].
        -- exists block'. split; [by right|done].
    + destruct (IH Hrest) as (rest' & -> & Hgood' & Hin' & Hheads').
      exists ((h :: t) :: rest'). split_and!; [done| | |].
      * simpl. split_and!; [by exists h, t| |done].
        intros block' h0 h' Hb' [= <-] Hh'.
        destruct (Hheads' block' h' Hb' Hh') as [->|(block & Hb & Hh)];
          [done|]. by eapply Hlater.
      * intros x. rewrite !in_blocks_cons, Hin'. tauto.
      * intros block' h' [->|Hb']%elem_of_cons Hh'.
        -- right. exists (h :: t). split; [left|done].
        -- destruct (Hheads' block' h' Hb' Hh') as [->|(block & Hb & Hh)];
             [by left|right].
           exists block. split; [by right|done].
Qed.

Lemma collect_blocks_spec l R blocks ys :
  (∀ x, x ∈ l → R x x = true) →
  good_blocks l R blocks → (∀ y, y ∈ ys → y ∈ l) →
  ∃ blocks',
    collect_blocks R blocks ys = Ok blocks'
    ∧ good_blocks l R blocks'
    ∧ (∀ x, in_blocks x blocks' ↔ x ∈ ys ∨ in_blocks x blocks).
Proof.
  intros Hrefl. revert blocks. induction ys as [|y ys IH]; intros blocks Hgood Hys; simpl.
  - exists blocks. split_and!; [done..|].
    intros x. rewrite elem_of_nil. tauto.
  - destruct (place_in_blocks_spec l R y blocks Hgood) as (blocks1 & -> & Hgood1 & Hin1 & _).
    { apply Hys. left. }
    { apply Hrefl, Hys. left. }
    simpl. destruct (IH blocks1 Hgood1) as (blocks' & -> & Hgood' & Hin').
    { intros y' Hy'. apply Hys. by right. }
    exists blocks'. split_and!; [done..|].
    intros x. rewrite Hin', Hin1, elem_of_cons. tauto.
Qed.

(** In good blocks, two blocks with related heads are the same block. *)
Lemma good_blocks_related_heads l R blocks block block' h h' :
  equivalence_on l R → good_blocks l R blocks →
  block ∈ blocks → block' ∈ blocks →
  head block = Some h → head block' = Some h' →
  R h h' = true → block = block'.
Proof.
  intros HR. induction blocks as [|b0 rest IH]; [by intros _ ?%elem_of_nil|].
  intros ((h0 & t0 & -> & Hb0) & Hlater & Hrest) Hb Hb' Hh Hh' Hrel.
  assert (∀ b x, b ∈ rest → head b = Some x → x ∈ l) as Hheads.
  { clear -Hrest. induction rest as [|b1 rest IH]; [by intros ? ? ?%elem_of_nil|].
    destruct Hrest as ((h1 & t1 & -> & Hb1) & _ & Hrest).
    intros b x [->|Hb]%elem_of_cons Hx.
    - injection Hx as <-. apply Hb1. left.
    - by eapply IH. }
  apply elem_of_cons in Hb as [->|Hb]; apply elem_of_cons in Hb' as [->|Hb'].
  - done.
  - injection Hh as ->. by rewrite (Hlater block' h h' Hb' eq_refl Hh') in Hrel.
  - injection Hh' as ->.
    assert (R h' h = true) as Hrel'.
    { apply (eqv_sym l R HR); [by eapply Hheads|apply Hb0; left|done]. }
    by rewrite (Hlater block h' h Hb eq_refl Hh) in Hrel'.
  - by apply IH.
Qed.

Lemma good_blocks_head l R blocks block :
  good_blocks l R blocks → block ∈ blocks →
  ∃ h, head block = Some h ∧ h ∈ l ∧ ∀ x, x ∈ block → x ∈ l ∧ R h x = true.
Proof.
  induction blocks as [|b0 rest IH]; [by intros _ ?%elem_of_nil|].
  intros ((h0 & t0 & -> & Hb0) & _ & Hrest) [->|Hb]%elem_of_cons.
  - exists h0. split_and!; [done|apply Hb0; left|done].
  - by apply IH.
Qed.

Lemma class_of_elem_of l R x y :
  y ∈ class_of l R x ↔ y ∈ l ∧ R x y = true.
Proof.
  unfold class_of. rewrite elem_of_list_to_set, list_elem_of_filter. tauto.
Qed.

Lemma class_of_related l R x y :
  equivalence_on l R → x ∈ l → y ∈ l → R x y = true →
  class_of l R x = class_of l R y.
Proof.
  intros HR Hx Hy Hxy. apply set_eq. intros z. rewrite !class_of_elem_of.
  split; intros [Hz Hrel]; (split; [done|]).
  - apply (eqv_trans l R HR y x z); [done..| |done].
    by apply (eqv_sym l R HR).
  - by apply (eqv_trans l R HR x y z).
Qed.

(** A block of the final list is the class of its head. *)
Lemma good_block_is_class l R blocks block h :
  equivalence_on l R → good_blocks l R blocks →
  (∀ x, x ∈ l → in_blocks x blocks) →
  block ∈ blocks → head block = Some h →
  list_to_set block = class_of l R h.
Proof.
  intros HR Hgood Hall Hb Hh. apply set_eq. intros x.
  rewrite elem_of_list_to_set, class_of_elem_of.
  destruct (good_blocks_head l R blocks block Hgood Hb) as (h0 & Hh0 & Hhl & Hmem).
  rewrite Hh in Hh0. injection Hh0 as <-.
  split; [apply Hmem|].
  intros [Hx Hhx].
  destruct (Hall x Hx) as (block' & Hb' & Hx').
  destruct (good_blocks_head l R blocks block' Hgood Hb') as (h' & Hh' & Hhl' & Hmem').
  assert (R h h' = true) as Hhh'.
  { apply (eqv_trans l R HR h x h'); [done..|].
    apply (eqv_sym l R HR); [done..|]. by apply Hmem'. }
  by rewrite (good_blocks_related_heads l R blocks block block' h h').
Qed.

(** What [equivalence_classes] returns: the set of the classes of the
    elements. *)
Lemma equivalence_classes_eq l R :
  equivalence_on l R →
  equivalence_classes l R = Ok (list_to_set (class_of l R <$> l)).
Proof.
  intros HR. unfold equivalence_classes.
  destruct (collect_blocks_spec l R [] l (eqv_refl l R HR))
    as (blocks & -> & Hgood & Hin); [done..|].
  simpl. f_equal.
  assert (∀ x, x ∈ l → in_blocks x blocks) as Hall.
  { intros x Hx. apply Hin. by left. }
  apply set_eq. intros b.
  rewrite !elem_of_list_to_set, !list_elem_of_fmap. split.
  - intros (block & -> & Hb).
    destruct (good_blocks_head l R blocks block Hgood Hb) as (h & Hh & Hhl & _).
    exists h. split; [|done]. by eapply good_block_is_class.
  - intros (x & -> & Hx).
    destruct (Hall x Hx) as (block & Hb & Hxb).
    destruct (good_blocks_head l R blocks block Hgood Hb) as (h & Hh & Hhl & Hmem).
    exists block. split; [|done].
    rewrite (good_block_is_class l R blocks block h) by done.
    symmetry. apply class_of_related; [done..|]. by apply Hmem.
Qed.

Lemma equivalence_on_perm l l' R :
  l' ≡ₚ l → equivalence_on l R → equivalence_on l' R.
Proof.
  intros Hl [Hr Hs Ht]. split.
  - intros x. rewrite Hl. apply Hr.
  - intros x y. rewrite !Hl. apply Hs.
  - intros x y z. rewrite !Hl. apply Ht.
Qed.

Lemma classes_perm l l' R :
  l' ≡ₚ l →
  (list_to_set (class_of l' R <$> l') : gset (gset A))
  = list_to_set (class_of l R <$> l).
Proof.
  intros Hl. apply set_eq. intros b.
  rewrite !elem_of_list_to_set, !list_elem_of_fmap.
  assert (∀ x, class_of l' R x = class_of l R x) as Hc.
  { intros x. apply set_eq. intros y. by rewrite !class_of_elem_of, Hl. }
  split; intros (x & -> & Hx); exists x; rewrite Hc; split; try done.
  - by rewrite <-Hl.
  - by rewrite Hl.
Qed.
End classes.

(** ** The edges between two blocks, as [G.edges(b | c, data=True)] reports them *)

Lemma flat_map_app_perm {A B} (f g : A → list B) (l : list A) :
  flat_map (λ x, f x ++ g x) l ≡ₚ flat_map f l ++ flat_map g l.
Proof.
  induction l as [|x l IH]; simpl; [done|].
  rewrite IH. rewrite <-!app_assoc. f_equiv.
  rewrite !app_assoc. f_equiv. apply Permutation_app_comm.
Qed.

Lemma flat_map_swap {A B C} (f : A → B → list C) (l : list A) (k : list B) :
  flat_map (λ x, flat_map (f x) k) l ≡ₚ flat_map (λ y, flat_map (λ x, f x y) l) k.
Proof.
  induction l as [|x l IH]; simpl.
  - induction k as [|y k IHk]; simpl; done.
  - rewrite IH. symmetry. apply (flat_map_app_perm (f x)).
Qed.

Lemma flat_map_ext_elem {A B} (f g : A → list B) (l : list A) :
  (∀ x, x ∈ l → f x = g x) → flat_map f l = flat_map g l.
Proof.
  induction l as [|x l IH]; intros Hfg; simpl; [done|].
  rewrite Hfg by left. f_equal. apply IH. intros y Hy. apply Hfg. by right.
Qed.

Lemma filter_flat_map {A B} (P : B → Prop) `{∀ y, Decision (P y)}
    (f : A → list B) (l : list A) :
  filter P (flat_map f l) = flat_map (λ x, filter P (f x)) l.
Proof.
  induction l as [|x l IH]; simpl; [done|]. by rewrite filter_app, IH.
Qed.

Lemma fmap_flat_map {A B C} (g : B → C) (f : A → list B) (l : list A) :
  g <$> flat_map f l = flat_map (λ x, g <$> f x) l.
Proof.
  induction l as [|x l IH]; simpl; [done|]. by rewrite fmap_app, IH.
Qed.

Lemma fmap_filter_flat_map {A B} (P : A → Prop) `{∀ x, Decision (P x)}
    (g : A → B) (l : list A) :
  g <$> filter P l = flat_map (λ x, if decide (P x) then [g x] else []) l.
Proof.
  induction l as [|x l IH]; [done|]. cbn [flat_map].
  rewrite filter_cons. destruct (decide (P x)); [rewrite fmap_cons|];
    by rewrite IH.
Qed.

Lemma flat_map_select_NoDup {A B} `{EqDecision A} (x : A) (ys : list B)
    (l : list A) :
  NoDup l →
  flat_map (λ n, if decide (x = n) then ys else []) l
  = if decide (x ∈ l) then ys else [].
Proof.
  induction 1 as [|n l Hn Hl IH]; cbn [flat_map].
  - by rewrite decide_False by apply not_elem_of_nil.
  - rewrite IH. destruct (decide (x = n)) as [->|Hx].
    + rewrite decide_False by done. rewrite decide_True by left.
      apply app_nil_r.
    + cbn [app]. destruct (decide (x ∈ l)) as [Hin|Hin].
      * rewrite decide_True; [done|by right].
      * rewrite decide_False; [done|].
        by intros [?|?]%elem_of_cons.
Qed.

Section edges_between.
Context {V : Type} `{!EqDecision V, !Countable V}.
Context {A : Type}.
Implicit Types (G : Graph V A) (b c : gset V) (e : Edge V A).
Implicit Types (seen bunch : list V).

Lemma undirected_edges_iter_reports G seen bunch :
  undirected_edges_iter G seen bunch
  ≡ₚ flat_map (edge_reports seen bunch) (g_edge G).
Proof.
  revert seen. induction bunch as [|n bunch IH]; intros seen; simpl.
  - induction (g_edge G); simpl; done.
  - rewrite IH. unfold edges_from_unseen.
    symmetry. apply flat_map_app_perm.
Qed.

Lemma edge_reports_seen seen bunch e :
  NoDup bunch → (∀ n, n ∈ bunch → n ∉ seen) →
  e_src e ∈ seen ∨ e_dst e ∈ seen →
  edge_reports seen bunch e = [].
Proof.
  intros Hnd. revert seen.
  induction Hnd as [|n bunch Hn Hnd IH]; intros seen Hfresh Hseen;
    cbn [edge_reports]; [done|].
  assert (n ∉ seen) as Hnseen by (apply Hfresh; left).
  rewrite IH.
  - rewrite app_nil_r. unfold report_edge.
    destruct (decide (e_src e = n)) as [Hs|Hs].
    + destruct (decide (e_dst e ∈ seen)); [done|].
      destruct Hseen as [?|?]; [|done]. by subst n.
    + destruct (decide (e_dst e = n)) as [Hd|Hd]; [|done].
      destruct (decide (e_src e ∈ seen)); [done|].
      destruct Hseen as [?|?]; [done|]. by subst n.
  - intros n' Hn' [->|Hin]%elem_of_cons; [done|].
    by apply (Hfresh n'); [right|].
  - destruct Hseen; [left|right]; by right.
Qed.

Lemma edge_reports_unseen seen bunch e :
  NoDup bunch → (∀ n, n ∈ bunch → n ∉ seen) →
  e_src e ∉ seen → e_dst e ∉ seen →
  ((e_src e ∉ bunch) ∧ (e_dst e ∉ bunch) ∧ edge_reports seen bunch e = [])
  ∨ ((e_src e ∈ bunch ∨ e_dst e ∈ bunch)
     ∧ (edge_reports seen bunch e = [(e_src e, e_dst e, e_data e)]
        ∨ edge_reports seen bunch e = [(e_dst e, e_src e, e_data e)])).
Proof.
  intros Hnd. revert seen.
  induction Hnd as [|n bunch Hn Hnd IH]; intros seen Hfresh Hs Hd;
    cbn [edge_reports].
  { left. split_and!; [apply not_elem_of_nil..|done]. }
  assert (∀ n', n' ∈ bunch → n' ∉ n :: seen) as Hfresh'.
  { intros n' Hn' [->|Hin]%elem_of_cons; [done|].
    by apply (Hfresh n'); [right|]. }
  unfold report_edge.
  destruct (decide (e_src e = n)) as [Hsn|Hsn].
  - right. split; [left; subst n; left|].
    rewrite decide_False by done.
    rewrite edge_reports_seen; [|done|done|left; subst n; left].
    left. by subst n.
  - destruct (decide (e_dst e = n)) as [Hdn|Hdn].
    + right. split; [right; subst n; left|].
      rewrite decide_False by done.
      rewrite edge_reports_seen; [|done|done|right; subst n; left].
      right. by subst n.
    + cbn [app]. destruct (IH (n :: seen)) as [(Hs' & Hd' & ->)|[Hin Hrep]].
      * done.
      * by intros [?|?]%elem_of_cons.
      * by intros [?|?]%elem_of_cons.
      * left. split_and!; [|by intros [?|?]%elem_of_cons|done].
        by intros [?|?]%elem_of_cons.
      * right. split; [|done]. destruct Hin; [left|right]; by right.
Qed.

End edges_between.

Section crossing_data.
Context {V : Type} `{!EqDecision V, !Countable V}.
Implicit Types (G : Graph V (attrs V)) (b c : gset V) (e : Edge V (attrs V)).

Lemma crosses_true b c (t : V * V * attrs V) :
  crosses b c t = true ↔ (t.1.1 ∈ b ∧ t.1.2 ∈ c) ∨ (t.1.1 ∈ c ∧ t.1.2 ∈ b).
Proof.
  unfold crosses.
  rewrite orb_true_iff, !andb_true_iff, !bool_decide_eq_true. done.
Qed.

Lemma elem_of_nbunch_iter {N A} `{EqDecision N} (G : Graph N A) nbunch n :
  n ∈ nbunch_iter G nbunch ↔ n ∈ nodes G ∧ n ∈ nbunch.
Proof. unfold nbunch_iter. by rewrite list_elem_of_filter. Qed.

(** The dictionaries that the default [edge_data] adds up are those of the
    edges of [G] crossing between the two blocks, each taken once. *)
Lemma crossing_edges_data G b c :
  (∀ e, e ∈ g_edge G → e_src e ∈ nodes G ∧ e_dst e ∈ nodes G) →
  (filter (λ t, crosses b c t = true) (edges_data G (elements (b ∪ c)))).*2
  ≡ₚ e_data <$> crossing_edges G b c.
Proof.
  intros Hends. unfold crossing_edges, edges_data.
  set (bunch := nbunch_iter G (elements (b ∪ c))).
  assert (NoDup bunch) as Hnd by apply NoDup_filter, NoDup_elements.
  assert (∀ n, n ∈ bunch ↔ n ∈ nodes G ∧ (n ∈ b ∨ n ∈ c)) as Hbunch.
  { intros n. unfold bunch.
    by rewrite elem_of_nbunch_iter, elem_of_elements, elem_of_union. }
  rewrite (fmap_filter_flat_map (crossing b c) e_data).
  assert (∀ reports : Edge V (attrs V) → list (V * V * attrs V),
    (∀ e, e ∈ g_edge G →
       (filter (λ t, crosses b c t = true) (reports e)).*2
       = if decide (crossing b c e) then [e_data e] else []) →
    (filter (λ t, crosses b c t = true) (flat_map reports (g_edge G))).*2
    = flat_map (λ e, if decide (crossing b c e) then [e_data e] else [])
        (g_edge G)) as Hpointwise.
  { intros reports Hrep. rewrite filter_flat_map, fmap_flat_map.
    by apply flat_map_ext_elem. }
  destruct (is_directed G).
  - unfold out_edges_iter. rewrite flat_map_swap.
    apply reflexive_eq, Hpointwise. intros e He.
    rewrite (flat_map_ext_elem _
      (λ n, if decide (e_src e = n)
            then [(e_src e, e_dst e, e_data e)] else [])).
    2:{ intros n _. by destruct (decide (e_src e = n)) as [<-|]. }
    rewrite flat_map_select_NoDup by done.
    destruct (decide (crossing b c e)) as [Hc|Hc].
    + rewrite decide_True.
      * rewrite filter_cons_True; [done|]. by apply crosses_true.
      * apply Hbunch. split; [by apply Hends|].
        destruct Hc as [[? _]|[? _]]; tauto.
    + destruct (decide (e_src e ∈ bunch)); [|done].
      rewrite filter_cons_False; [done|].
      rewrite crosses_true. done.
  - rewrite undirected_edges_iter_reports.
    apply reflexive_eq, Hpointwise. intros e He.
    destruct (edge_reports_unseen [] bunch e Hnd)
      as [(Hs & Hd & ->)|[Hin Hrep]].
    { intros n _. apply not_elem_of_nil. }
    { apply not_elem_of_nil. }
    { apply not_elem_of_nil. }
    + rewrite decide_False; [done|]. intros Hc. apply Hs, Hbunch.
      split; [by apply Hends|]. destruct Hc as [[? _]|[? _]]; tauto.
    + destruct (decide (crossing b c e)) as [Hc|Hc].
      * destruct Hrep as [-> | ->];
          (rewrite filter_cons_True; [done|]);
          apply crosses_true; simpl; unfold crossing in Hc; tauto.
      * destruct Hrep as [-> | ->];
          (rewrite filter_cons_False; [done|]);
          rewrite crosses_true; simpl; unfold crossing in Hc; tauto.
Qed.

(** [sum] does not depend on the order of its summands. *)
Lemma sum_weights_perm total (ds ds' : list (attrs V)) :
  ds ≡ₚ ds' → sum_weights total ds = sum_weights total ds'.
Proof.
  intros Hperm. revert total.
  induction Hperm as [|d ds ds' _ IH|d d' ds|ds ds' ds'' _ IH _ IH'];
    intros total; simpl.
  - done.
  - destruct (weight_of d); simpl; [apply IH|done].
  - destruct (weight_of d) as [w|err] eqn:Hd,
      (weight_of d') as [w'|err'] eqn:Hd'; simpl; try done.
    + f_equal. lia.
    + assert (∀ (x : attrs V) err0,
                weight_of x = Err err0 → err0 = TypeError) as Herr.
      { intros x err0. unfold weight_of.
        destruct (x !! _) as [[]|]; congruence. }
      by rewrite (Herr d err), (Herr d' err').
  - by rewrite IH, IH'.
Qed.
End crossing_data.

(** ** The edges of a simple quotient *)

Section apart.
Context {N : Type} `{EqDecision N}.
Implicit Types (p q : N * N) (l : list (N * N)).

Lemma same_pair_sym directed p q : same_pair directed p q → same_pair directed q p.
Proof.
  intros [->|[Hd ->]]; [by left|]. right. split; [done|]. by destruct q.
Qed.

Lemma apart_app directed l1 l2 :
  apart directed (l1 ++ l2) ↔
  apart directed l1 ∧ apart directed l2
  ∧ ∀ p q, p ∈ l1 → q ∈ l2 → ¬ same_pair directed p q.
Proof.
  induction l1 as [|p l1 IH]; simpl.
  - split; [|tauto]. intros Hl2. split_and!; [done..|].
    by intros ? ? ?%elem_of_nil.
  - rewrite IH. setoid_rewrite elem_of_app. setoid_rewrite elem_of_cons.
    split.
    + intros (Hp & H1 & H2 & H12). split_and!; [by auto|done|done|].
      intros p' q [->|Hp'] Hq; [by auto|by apply H12].
    + intros ((Hp & H1) & H2 & H12). split_and!; [|done|done|by auto].
      intros q [Hq|Hq]; [by auto|]. apply H12; [by left|done].
Qed.

Lemma apart_filter directed (P : N * N → Prop) `{∀ p, Decision (P p)} l :
  apart directed l → apart directed (filter P l).
Proof.
  induction l as [|p l IH]; simpl; [done|]. intros [Hp Hl].
  rewrite filter_cons. case_decide; [|by apply IH].
  simpl. split; [|by apply IH].
  intros q [_ Hq]%list_elem_of_filter. by apply Hp.
Qed.

Lemma apart_elem_of directed l p q :
  apart directed l → p ∈ l → q ∈ l → same_pair directed p q → p = q.
Proof.
  induction l as [|r l IH]; simpl; [by intros _ ?%elem_of_nil|].
  intros [Hr Hl] [->|Hp]%elem_of_cons [->|Hq]%elem_of_cons Hsame.
  - done.
  - by destruct (Hr q Hq).
  - by destruct (Hr p Hp); apply same_pair_sym.
  - by apply IH.
Qed.

Lemma apart_NoDup directed l : apart directed l → NoDup l.
Proof.
  induction l as [|p l IH]; simpl; [constructor|].
  intros [Hp Hl]. constructor; [|by apply IH].
  intros Hin. apply (Hp p Hin). by left.
Qed.

Lemma length_filter_eq_NoDup {A} `{EqDecision A} (x : A) (l : list A) :
  NoDup l → length (filter (λ y, y = x) l) = if decide (x ∈ l) then 1 else 0.
Proof.
  induction 1 as [|y l Hy Hl IH]; [done|].
  rewrite filter_cons. destruct (decide (y = x)) as [->|Hyx].
  - rewrite decide_True by left. simpl. rewrite IH.
    by rewrite decide_False.
  - rewrite IH. destruct (decide (x ∈ l)) as [Hin|Hin].
    + rewrite decide_True; [done|by right].
    + rewrite decide_False; [done|]. by intros [?|?]%elem_of_cons.
Qed.

(** In a list of pairs that are apart, a pair of the list is the only one
    standing for its slot. *)
Lemma apart_count directed l l' q :
  apart directed l → (∀ p, p ∈ l' → p ∈ l) → NoDup l' → q ∈ l →
  length (filter (λ p, same_pair directed p q) l')
  = if decide (q ∈ l') then 1 else 0.
Proof.
  intros Hl Hsub Hnd Hq.
  rewrite <-(length_filter_eq_NoDup q l') by done. f_equal.
  apply filter_ext_elem. intros p Hp. split.
  - intros Hsame. apply (apart_elem_of directed l); auto.
  - intros ->. by left.
Qed.

Lemma apart_fmap_pair_l directed (x : N) (ys : list N) :
  NoDup ys → x ∉ ys → apart directed (pair x <$> ys).
Proof.
  induction 1 as [|y ys Hy Hys IH]; intros Hx; simpl; [done|].
  split.
  - intros q (y' & -> & Hy')%list_elem_of_fmap [[= ->]|[_ [= -> ->]]].
    + done.
    + apply Hx. left.
  - apply IH. intros Hin. apply Hx. by right.
Qed.

Lemma apart_combinations2 (l : list N) :
  NoDup l → apart false (combinations2 l).
Proof.
  induction 1 as [|x l Hx Hl IH]; simpl; [done|].
  apply apart_app. split_and!.
  - by apply apart_fmap_pair_l.
  - done.
  - intros p q (y & -> & Hy)%list_elem_of_fmap Hq.
    destruct q as [a b]. apply elem_of_combinations2 in Hq as [Ha Hb].
    intros [[= -> ->]|[_ [= -> ->]]]; done.
Qed.

Lemma apart_true_NoDup l : NoDup l → apart true l.
Proof.
  induction 1 as [|p l Hp Hl IH]; simpl; [done|]. split; [|done].
  intros q Hq [->|[[=] _]]. done.
Qed.

Lemma NoDup_permutations2_from (before after : list N) :
  NoDup (before ++ after) → NoDup (permutations2_from before after).
Proof.
  revert before. induction after as [|z after IH]; intros before Hnd; simpl.
  - constructor.
  - assert (NoDup ((before ++ [z]) ++ after)) as Hnd'.
    { by rewrite <-app_assoc. }
    apply NoDup_app. split_and!.
    + apply (NoDup_fmap_2 _).
      apply NoDup_app in Hnd as (Hb & Hba & Ha).
      apply NoDup_cons in Ha as [Hz Ha].
      apply NoDup_app. split_and!; [done| |done].
      intros y Hy Hy'. apply (Hba y Hy). by right.
    + intros p (y & -> & Hy)%list_elem_of_fmap
        [Hz _]%elem_of_permutations2_from.
      apply NoDup_app in Hnd as (_ & _ & Ha).
      by apply NoDup_cons in Ha as [Hza _].
    + by apply IH.
Qed.

Lemma apart_permutations2 (l : list N) : NoDup l → apart true (permutations2 l).
Proof.
  intros Hl. apply apart_true_NoDup. by apply NoDup_permutations2_from.
Qed.

(** Every two different elements form a pair of the enumeration, in one
    order at least. *)
Lemma combinations2_complete (l : list N) x y :
  x ∈ l → y ∈ l → x ≠ y →
  (x, y) ∈ combinations2 l ∨ (y, x) ∈ combinations2 l.
Proof.
  induction l as [|z l IH]; [by intros ?%elem_of_nil|].
  simpl. setoid_rewrite elem_of_app. setoid_rewrite list_elem_of_fmap.
  intros [->|Hx]%elem_of_cons [->|Hy]%elem_of_cons Hxy.
  - done.
  - left. left. eauto.
  - right. left. eauto.
  - destruct (IH Hx Hy Hxy); [left|right]; by right.
Qed.

Lemma permutations2_from_complete (before after : list N) x y :
  x ∈ after → y ∈ before ++ after → x ≠ y →
  (x, y) ∈ permutations2_from before after.
Proof.
  revert before. induction after as [|z after IH]; intros before;
    [by intros ?%elem_of_nil|].
  cbn [permutations2_from].
  intros [->|Hx]%elem_of_cons Hy Hxy; rewrite elem_of_app, list_elem_of_fmap.
  - left. exists y. split; [done|].
    revert Hy. rewrite !elem_of_app, elem_of_cons. intros [?|[?|?]]; auto.
    by destruct Hxy.
  - right. apply IH; [done| |done].
    revert Hy. rewrite !elem_of_app, !elem_of_cons, elem_of_nil. tauto.
Qed.
End apart.

Section simple_quotient.
Context {V : Type} `{!EqDecision V, !Countable V}.
Implicit Types (G : Graph V (attrs V)) (b c : gset V).
Implicit Types (H : Graph (gset V) (attrs V)).
Implicit Types (ts : list (gset V * gset V * attrs V)).

Lemma sum_weights_Ok total (ds : list (attrs V)) s :
  sum_weights total ds = Ok s ↔
  ∃ ws, Forall2 (λ d w, weight_of d = Ok w) ds ws
        ∧ s = (total + sum_list_Z ws)%Z.
Proof.
  revert total. induction ds as [|d ds IH]; intros total; simpl.
  - split.
    + intros [= <-]. exists []. split; [constructor|simpl; lia].
    + intros (ws & Hws & ->). inversion Hws. simpl. f_equal. lia.
  - rewrite bind_Ok. split.
    + intros (w & Hw & (ws & Hws & ->)%IH). exists (w :: ws).
      split; [by constructor|simpl; lia].
    + intros (ws & Hws & ->). inversion Hws as [|? w ? ws' Hw Hws']; subst.
      exists w. split; [done|]. apply IH. exists ws'.
      split; [done|simpl; lia].
Qed.

(** [d.get('weight', 1)] gives a summand exactly when the dictionary has
    that weight. *)
Lemma weight_of_weighs (d : attrs V) (w : Z) :
  weight_of d = Ok w ↔ weighs d w.
Proof.
  unfold weight_of, weighs.
  destruct (d !! KStr "weight") as [[z|s|r|g]|]; split;
    try (intros [= ->]; auto; fail);
    try (intros [[=]|[[=] _]]; done).
  - by intros [[= ->]|[[=] _]].
  - intros [[=]|[_ ->]]. done.
Qed.

Lemma weighs_agree (d : attrs V) (w w' : Z) :
  weighs d w → weighs d w' → w = w'.
Proof. unfold weighs. intros [H1|[H1 ->]] [H2|[H2 ->]]; congruence. Qed.

Lemma Forall2_weighs_agree {N} (es : list (Edge N (attrs V))) (ws ws' : list Z) :
  Forall2 (λ e w, weighs (e_data e) w) es ws →
  Forall2 (λ e w, weighs (e_data e) w) es ws' →
  ws = ws'.
Proof.
  intros Hws. revert ws'.
  induction Hws as [|e w es ws Hw _ IH]; intros ws' Hws'.
  - by apply Forall2_nil_inv_l in Hws'.
  - apply Forall2_cons_inv_l in Hws' as (w' & ws'' & Hw' & Hws'' & ->).
    f_equal; [by eapply weighs_agree|by apply IH].
Qed.

Lemma default_edge_data_Ok G b c d :
  (∀ e, e ∈ g_edge G → e_src e ∈ nodes G ∧ e_dst e ∈ nodes G) →
  default_edge_data G b c = Ok d →
  ∃ ws, Forall2 (λ e w, weighs (e_data e) w) (crossing_edges G b c) ws
        ∧ d = <[KStr "weight" := VInt (sum_list_Z ws)]> ∅.
Proof.
  intros Hends. unfold default_edge_data.
  rewrite (sum_weights_perm 0 _ _ (crossing_edges_data G b c Hends)).
  intros (s & (ws & Hws & ->)%sum_weights_Ok & [= <-])%bind_Ok.
  exists ws. split; [|done]. apply Forall2_fmap_l in Hws.
  eapply Forall2_impl; [exact Hws|]. intros e w. apply weight_of_weighs.
Qed.

Lemma simple_edges_Ok (rel : gset V → gset V → result bool)
    (data : gset V → gset V → result (attrs V)) pairs ts :
  simple_edges rel data pairs = Ok ts →
  ts.*1 = filter (λ bc, rel bc.1 bc.2 = Ok true) pairs
  ∧ Forall (λ t, data t.1.1 t.1.2 = Ok t.2) ts.
Proof.
  unfold simple_edges. intros (ls & Hls%mapM_r_Ok & ->)%fmap_Ok.
  induction Hls as [|[b c] l pairs ls Hstep _ IH]; [done|].
  destruct IH as [IH1 IH2]. cbn [concat].
  apply bind_Ok in Hstep as (r & Hr & Hstep). cbn [fst snd] in Hr, Hstep.
  destruct r.
  - apply bind_Ok in Hstep as (d & Hd & [= <-]).
    rewrite filter_cons_True by done. cbn [app].
    rewrite fmap_cons, IH1. split; [done|].
    constructor; done.
  - injection Hstep as <-. cbn [app].
    rewrite filter_cons_False; [done|]. cbn [fst snd]. by rewrite Hr.
Qed.

Lemma joins_same_pair {N A} `{EqDecision N} directed (u v : N) (e : Edge N A) :
  joins directed u v e = true ↔ same_pair directed (e_src e, e_dst e) (u, v).
Proof.
  unfold joins, same_pair. simpl.
  rewrite orb_true_iff, andb_true_iff, !bool_decide_eq_true, negb_true_iff.
  split.
  - intros [[-> ->]|[-> [-> ->]]]; auto.
  - intros [[= -> ->]|[-> [= -> ->]]]; auto.
Qed.

Lemma has_edge_false {N A} `{EqDecision N} (G : Graph N A) u v :
  has_edge G u v = false ↔
  ∀ e, e ∈ g_edge G → ¬ same_pair (is_directed G) (e_src e, e_dst e) (u, v).
Proof.
  unfold has_edge. rewrite <-not_true_iff_false, existsb_exists. split.
  - intros Hno e He Hsame. apply Hno. exists e.
    split; [by apply list_elem_of_In|by apply joins_same_pair].
  - intros Hno (e & He%list_elem_of_In & Hj%joins_same_pair).
    by apply (Hno e).
Qed.

Lemma add_edge_simple_new {N} `{EqDecision N} (H : Graph N (attrs V)) u v d :
  is_multigraph H = false → u ∈ nodes H → v ∈ nodes H →
  has_edge H u v = false →
  add_edge H u v d
  = mkGraph (g_class H) (g_node H) (g_edge H ++ [mkEdge u v 0 d]).
Proof.
  intros Hm Hu Hv Hno. unfold add_edge.
  rewrite (ensure_node_present H u) by done.
  rewrite ensure_node_present by done.
  rewrite Hm, Hno. unfold dict_update.
  by rewrite (right_id_L ∅ (∪)).
Qed.

Lemma add_edges_from_simple {N} `{EqDecision N} (H : Graph N (attrs V))
    (ts : list (N * N * attrs V)) :
  is_multigraph H = false →
  (∀ t, t ∈ ts → t.1.1 ∈ nodes H ∧ t.1.2 ∈ nodes H) →
  (∀ t, t ∈ ts → has_edge H t.1.1 t.1.2 = false) →
  apart (is_directed H) ts.*1 →
  g_edge (add_edges_from H ts)
  = g_edge H ++ ((λ t, mkEdge t.1.1 t.1.2 0 t.2) <$> ts).
Proof.
  unfold add_edges_from. revert H.
  induction ts as [|[[u v] d] ts IH]; intros H Hm Hnodes Hno Hapart; simpl.
  - by rewrite app_nil_r.
  - destruct Hapart as [Hhead Hapart].
    destruct (Hnodes (u, v, d)) as [Hu Hv]; [left|]. simpl in Hu, Hv.
    rewrite (add_edge_simple_new H u v d) by (done || (apply (Hno (u, v, d)); left)).
    rewrite IH.
    + simpl. by rewrite <-app_assoc.
    + done.
    + intros t Ht. apply Hnodes. by right.
    + intros t Ht. apply has_edge_false. simpl.
      intros e [He| ->%list_elem_of_singleton]%elem_of_app.
      * assert (has_edge H t.1.1 t.1.2 = false) as Hf by (apply Hno; by right).
        rewrite has_edge_false in Hf. by apply Hf.
      * simpl. intros Hsame. apply (Hhead (t.1.1, t.1.2)); [|done].
        apply list_elem_of_fmap. exists t. split; [|done].
        by destruct t as [[] ?].
    + done.
Qed.

Lemma length_filter_joins {N} `{EqDecision N} directed (u v : N)
    (ts : list (N * N * attrs V)) :
  length (filter (λ e, joins directed u v e = true)
            ((λ t, mkEdge t.1.1 t.1.2 0 t.2) <$> ts))
  = length (filter (λ p, same_pair directed p (u, v)) ts.*1).
Proof.
  induction ts as [|[[u' v'] d] ts IH]; [done|].
  rewrite !fmap_cons, !filter_cons. simpl.
  destruct (decide (joins directed u v (mkEdge u' v' 0 d) = true)) as [Hj|Hj].
  - rewrite decide_True; [simpl; by rewrite IH|].
    by apply joins_same_pair in Hj.
  - rewrite decide_False; [done|].
    intros Hs. apply Hj. by apply joins_same_pair.
Qed.
End simple_quotient.

(** ** Contraction: exceptions *)

Section contraction_raises.
Context {V : Type} `{!EqDecision V, !Countable V}.
Implicit Types (G : Graph V (attrs V)) (u v : V).

Lemma has_edge_true {A} (G : Graph V A) u v :
  has_edge G u v = true ↔ edge_in G u v.
Proof.
  unfold has_edge, edge_in, joins. rewrite existsb_exists. split.
  - intros (e & He%list_elem_of_In & Hj). exists e. split; [done|].
    apply orb_true_iff in Hj as [Hj|Hj].
    + left. by apply bool_decide_eq_true in Hj.
    + right. apply andb_true_iff in Hj as [Hd Hj].
      apply negb_true_iff in Hd. apply bool_decide_eq_true in Hj. tauto.
  - intros (e & He & Hj). exists e. split; [by apply list_elem_of_In|].
    apply orb_true_iff. destruct Hj as [Hj|(Hd & Hj)].
    + left. by apply bool_decide_eq_true.
    + right. apply andb_true_iff. split.
      * by apply negb_true_iff.
      * by apply bool_decide_eq_true.
Qed.

Lemma contracted_nodes_raises G u v sl :
  raises_only (λ e, e = NetworkXError ∨ e = KeyError ∨ e = TypeError)
    (contracted_nodes G u v sl).
Proof.
  unfold contracted_nodes. apply raises_only_bind.
  { unfold new_edges, in_edges_data_at, out_edges_data_at, edges_data_at.
    destruct (is_directed G), (has_node G v); simpl;
      (apply raises_only_Ok || (intros e [= <-]; tauto)). }
  intros edges _. apply raises_only_bind.
  { unfold node_attr. destruct (list_find _ _) as [[? []]|];
      (apply raises_only_Ok || (intros e [= <-]; tauto)). }
  intros v_data _. apply raises_only_bind.
  { unfold remove_node. destruct (has_node _ _);
      (apply raises_only_Ok || (intros e [= <-]; tauto)). }
  intros H' _. apply raises_only_bind.
  { unfold node_attr. destruct (list_find _ _) as [[? []]|];
      (apply raises_only_Ok || (intros e [= <-]; tauto)). }
  intros u_data _.
  destruct (u_data !! _) as [[]|];
    (apply raises_only_Ok || (intros e [= <-]; tauto)).
Qed.
End contraction_raises.

(** ** Contraction: the nodes of the result *)

Section contraction_nodes.
Context {V : Type} `{!EqDecision V, !Countable V}.
Implicit Types (G : Graph V (attrs V)) (u v w : V).

Lemma node_attr_is_Ok {N A} `{EqDecision N} (G : Graph N A) n :
  n ∈ nodes G → is_Ok (node_attr G n).
Proof.
  intros Hn. unfold node_attr.
  destruct (list_find _ _) as [[i [m a]]|] eqn:Hfind; [apply is_Ok_Ok|].
  apply list_find_None in Hfind.
  apply list_elem_of_fmap in Hn as ([m a] & -> & Hin).
  rewrite Forall_forall in Hfind. by destruct (Hfind _ Hin).
Qed.

Lemma node_attr_Ok {N A} `{EqDecision N} (G : Graph N A) n a :
  node_attr G n = Ok a → (n, a) ∈ g_node G.
Proof.
  unfold node_attr.
  destruct (list_find _ _) as [[i [m a']]|] eqn:Hfind; [|done].
  intros [= <-]. apply list_find_Some in Hfind as (Hi & Hm & _).
  simpl in Hm. subst m. by eapply list_elem_of_lookup_2.
Qed.

Lemma nodes_remove_node {N A} `{EqDecision N} (G G' : Graph N A) n :
  remove_node G n = Ok G' →
  nodes G' = filter (λ m, m ≠ n) (nodes G) ∧ g_class G' = g_class G.
Proof.
  unfold remove_node. destruct (has_node G n); [|done].
  intros [= <-]. split; [|done]. unfold nodes. simpl.
  induction (g_node G) as [|[m a] l IH]; [done|].
  rewrite fmap_cons, !filter_cons. simpl.
  destruct (decide (m ≠ n)); [rewrite fmap_cons|]; by rewrite IH.
Qed.

Lemma nodes_set_node_attr {N} `{EqDecision N} (G : Graph N (attrs V)) n k x :
  nodes (set_node_attr G n k x) = nodes G.
Proof.
  unfold nodes, set_node_attr. simpl. rewrite <-list_fmap_compose.
  apply list_fmap_ext. intros i [m a] _. simpl. by destruct (decide _).
Qed.

Lemma elem_of_out_edges_iter {N A} `{EqDecision N} (G : Graph N A) n t :
  t ∈ out_edges_iter G [n] ↔
  ∃ e, e ∈ g_edge G ∧ e_src e = n ∧ t = (n, e_dst e, e_data e).
Proof.
  unfold out_edges_iter. simpl. rewrite app_nil_r, elem_of_flat_map. split.
  - intros (e & He & Ht). exists e. destruct (decide (e_src e = n)).
    + by apply list_elem_of_singleton in Ht.
    + by apply elem_of_nil in Ht.
  - intros (e & He & Hs & ->). exists e. split; [done|].
    rewrite decide_True by done. left.
Qed.

Lemma elem_of_in_edges_iter {N A} `{EqDecision N} (G : Graph N A) n t :
  t ∈ in_edges_iter G [n] ↔
  ∃ e, e ∈ g_edge G ∧ e_dst e = n ∧ t = (e_src e, n, e_data e).
Proof.
  unfold in_edges_iter. simpl. rewrite app_nil_r, elem_of_flat_map. split.
  - intros (e & He & Ht). exists e. destruct (decide (e_dst e = n)).
    + by apply list_elem_of_singleton in Ht.
    + by apply elem_of_nil in Ht.
  - intros (e & He & Hs & ->). exists e. split; [done|].
    rewrite decide_True by done. left.
Qed.

Lemma elem_of_undirected_edges_at {N A} `{EqDecision N} (G : Graph N A) n t :
  t ∈ undirected_edges_iter G [] [n] →
  ∃ e, e ∈ g_edge G ∧ t.1.1 = n
       ∧ ((e_src e = n ∧ t.1.2 = e_dst e) ∨ (e_dst e = n ∧ t.1.2 = e_src e)).
Proof.
  simpl. rewrite app_nil_r. unfold edges_from_unseen.
  intros (e & He & Ht)%elem_of_flat_map. exists e. split; [done|].
  unfold report_edge in Ht.
  destruct (decide (e_src e = n)).
  - rewrite decide_False in Ht by apply not_elem_of_nil.
    apply list_elem_of_singleton in Ht as ->. simpl. tauto.
  - destruct (decide (e_dst e = n)); [|by apply elem_of_nil in Ht].
    rewrite decide_False in Ht by apply not_elem_of_nil.
    apply list_elem_of_singleton in Ht as ->. simpl. tauto.
Qed.

(** Without a self-loop at [v], the rerouted edges join nodes other than
    [v]. *)
Lemma new_edges_ends G u v self_loops edges t :
  (∀ e, e ∈ g_edge G → e_src e ∈ nodes G ∧ e_dst e ∈ nodes G) →
  u ∈ nodes G → u ≠ v → ¬ edge_in G v v →
  new_edges G u v self_loops = Ok edges → t ∈ edges →
  (t.1.1 ∈ nodes G ∧ t.1.1 ≠ v) ∧ (t.1.2 ∈ nodes G ∧ t.1.2 ≠ v).
Proof.
  intros Hends Hu Huv Hloop. unfold new_edges.
  assert (∀ e, e ∈ g_edge G → ¬ (e_src e = v ∧ e_dst e = v)) as Hno.
  { intros e He Hsd. apply Hloop. exists e. split; [done|]. by left. }
  unfold in_edges_data_at, out_edges_data_at, edges_data_at, edges_data.
  destruct (is_directed G), (has_node G v); simpl; try done.
  - intros [= <-]. unfold rerouted_in, rerouted_out.
    rewrite elem_of_app, !list_elem_of_fmap.
    intros [(t' & -> & [_ Ht']%list_elem_of_filter)
           |(t' & -> & [_ Ht']%list_elem_of_filter)]; simpl.
    + apply elem_of_in_edges_iter in Ht' as (e & He & Hd & ->). simpl.
      destruct (Hends e He). split_and!; try done.
      intros Hs. by apply (Hno e).
    + apply elem_of_out_edges_iter in Ht' as (e & He & Hs & ->). simpl.
      destruct (Hends e He). split_and!; try done.
      intros Hd. by apply (Hno e).
  - intros [= <-]. unfold rerouted_out. rewrite list_elem_of_fmap.
    intros (t' & -> & [_ Ht']%list_elem_of_filter). simpl.
    unfold nbunch_iter in Ht'. rewrite filter_cons, filter_nil in Ht'.
    destruct (decide (v ∈ nodes G)) as [Hv'|Hv'];
      [|by apply elem_of_nil in Ht'].
    apply elem_of_undirected_edges_at in Ht' as (e & He & _ & Hcase).
    destruct (Hends e He). split_and!; try done.
    + destruct Hcase as [[_ ->]|[_ ->]]; done.
    + destruct Hcase as [[Hs ->]|[Hd ->]]; intros Heq; by apply (Hno e).
Qed.

Lemma new_edges_is_Ok G u v self_loops :
  v ∈ nodes G → is_Ok (new_edges G u v self_loops).
Proof.
  intros Hv. unfold new_edges, in_edges_data_at, out_edges_data_at, edges_data_at.
  rewrite (proj2 (bool_decide_eq_true _) Hv : has_node G v = true).
  destruct (is_directed G); simpl; apply is_Ok_Ok.
Qed.

(** The nodes of the graph returned by [contracted_nodes] when [v] has no
    self-loop: those of [G] other than [v]. *)
Lemma contracted_nodes_nodes G u v self_loops H :
  (∀ e, e ∈ g_edge G → e_src e ∈ nodes G ∧ e_dst e ∈ nodes G) →
  u ∈ nodes G → u ≠ v → ¬ edge_in G v v →
  contracted_nodes G u v self_loops = Ok H →
  nodes H = filter (λ n, n ≠ v) (nodes G).
Proof.
  intros Hends Hu Huv Hloop. unfold contracted_nodes, copy.
  intros (edges & Hedges & (v_data & _ & (H1 & HH1 & HH)%bind_Ok)%bind_Ok)%bind_Ok.
  apply nodes_remove_node in HH1 as [Hn1 _].
  assert (g_node (add_edges_from H1 edges) = g_node H1) as Hg.
  { apply g_node_add_edges_from_present. intros t Ht.
    destruct (new_edges_ends G u v self_loops edges t) as [[? ?] [? ?]];
      try done.
    rewrite Hn1. split; by apply list_elem_of_filter. }
  apply bind_Ok in HH as (u_data & _ & HH).
  assert (nodes H = nodes (add_edges_from H1 edges)) as ->.
  { destruct (u_data !! _) as [[]|]; try done;
      injection HH as <-; apply nodes_set_node_attr. }
  unfold nodes at 1. by rewrite Hg.
Qed.

Lemma filter_all {A} (P : A → Prop) `{∀ x, Decision (P x)} (l : list A) :
  (∀ x, x ∈ l → P x) → filter P l = l.
Proof.
  induction l as [|x l IH]; intros Hl; [done|].
  rewrite filter_cons_True by (apply Hl; left).
  f_equal. apply IH. intros y Hy. apply Hl. by right.
Qed.

Lemma length_filter_ne_NoDup {A} `{EqDecision A} (x : A) (l : list A) :
  NoDup l → x ∈ l → S (length (filter (λ y, y ≠ x) l)) = length l.
Proof.
  induction 1 as [|y l Hy Hl IH]; [by intros ?%elem_of_nil|].
  rewrite filter_cons. intros [->|Hx]%elem_of_cons.
  - rewrite decide_False by (by intros []). simpl. f_equal.
    rewrite filter_all; [done|]. by intros z Hz ->.
  - rewrite decide_True by (by intros ->). simpl. f_equal. by apply IH.
Qed.

(** The claim about the nodes of the result holds when [v] has no
    self-loop. *)
Lemma contracted_nodes_node_count G u v self_loops H :
  NoDup (nodes G) →
  (∀ e, e ∈ g_edge G → e_src e ∈ nodes G ∧ e_dst e ∈ nodes G) →
  u ∈ nodes G → v ∈ nodes G → u ≠ v → ¬ edge_in G v v →
  contracted_nodes G u v self_loops = Ok H →
  S (number_of_nodes H) = number_of_nodes G ∧ (v ∉ nodes H) ∧ u ∈ nodes H.
Proof.
  intros Hnd Hends Hu Hv Huv Hloop HH.
  rewrite !number_of_nodes_length.
  rewrite (contracted_nodes_nodes G u v self_loops H) by done.
  split_and!.
  - by apply length_filter_ne_NoDup.
  - by intros [? _]%list_elem_of_filter.
  - by apply list_elem_of_filter.
Qed.

(** [contracted_nodes] returns a graph for nodes of [G], unless the
    surviving node carries a [contraction] attribute that is not a
    dictionary. *)
Lemma contracted_nodes_is_Ok G u v self_loops :
  (∀ e, e ∈ g_edge G → e_src e ∈ nodes G ∧ e_dst e ∈ nodes G) →
  u ∈ nodes G → v ∈ nodes G → u ≠ v → ¬ edge_in G v v →
  is_Ok (contracted_nodes G u v self_loops)
  ∨ contracted_nodes G u v self_loops = Err TypeError.
Proof.
  intros Hends Hu Hv Huv Hloop. unfold contracted_nodes, copy.
  destruct (new_edges_is_Ok G u v self_loops Hv) as [edges Hedges].
  rewrite Hedges. simpl.
  destruct (node_attr_is_Ok G v Hv) as [v_data ->]. simpl.
  destruct (remove_node G v) as [H1|] eqn:HH1.
  2:{ unfold remove_node in HH1.
      by rewrite (proj2 (bool_decide_eq_true _) Hv : has_node G v = true) in HH1. }
  simpl. apply nodes_remove_node in HH1 as [Hn1 _].
  assert (g_node (add_edges_from H1 edges) = g_node H1) as Hg.
  { apply g_node_add_edges_from_present. intros t Ht.
    destruct (new_edges_ends G u v self_loops edges t) as [[? ?] [? ?]];
      try done.
    rewrite Hn1. split; by apply list_elem_of_filter. }
  destruct (node_attr_is_Ok (add_edges_from H1 edges) u) as [u_data ->].
  { unfold nodes. rewrite Hg. fold (nodes H1). rewrite Hn1.
    by apply list_elem_of_filter. }
  simpl. destruct (u_data !! _) as [[]|]; (by right) || (left; apply is_Ok_Ok).
Qed.
End contraction_nodes.

(** ** The store: computations that only allocate *)

Section store_basic.
Context {V : Type} `{!EqDecision V, !Countable V}.
Implicit Types (σ τ : store V).

Lemma bind_st_eq {A B} (m : M V A) (k : A → M V B) σ r σ' :
  bind_st m k σ = (r, σ') ↔
  (∃ a σ1, m σ = (Ok a, σ1) ∧ k a σ1 = (r, σ'))
  ∨ (∃ e, m σ = (Err e, σ') ∧ r = Err e).
Proof.
  unfold bind_st. destruct (m σ) as [[a|e] σ1]; split.
  - intros Hk. left. eauto.
  - intros [(a' & σ1' & [= <- <-] & Hk)|(e & [=] & _)]. done.
  - intros [= <- <-]. right. eauto.
  - intros [(a' & σ1' & [=] & _)|(e' & [= <- <-] & ->)]. done.
Qed.

Lemma bind_st_Ok {A B} (m : M V A) (k : A → M V B) σ b σ' :
  bind_st m k σ = (Ok b, σ') ↔
  ∃ a σ1, m σ = (Ok a, σ1) ∧ k a σ1 = (Ok b, σ').
Proof.
  rewrite bind_st_eq. split; [|by left].
  intros [?|(e & _ & [=])]. done.
Qed.

Lemma alloc_fresh (o : object V) σ :
  ∃ l, alloc o σ = (Ok l, <[l := o]> σ) ∧ σ !! l = None.
Proof.
  exists (fresh (dom σ)). split; [done|].
  apply not_elem_of_dom, is_fresh.
Qed.

Lemma alloc_only_ret {A} (a : A) : alloc_only (V:=V) (ret_st a).
Proof. by intros σ. Qed.

Lemma alloc_only_raise {A} (e : error) : alloc_only (V:=V) (raise (A:=A) e).
Proof. by intros σ. Qed.

Lemma alloc_only_lift {A} (r : result A) : alloc_only (V:=V) (lift r).
Proof. by intros σ. Qed.

Lemma alloc_only_read_dict l : alloc_only (V:=V) (read_dict l).
Proof. intros σ. unfold read_dict. by destruct (σ !! l) as [[]|]. Qed.

Lemma alloc_only_read_graph l : alloc_only (V:=V) (read_graph l).
Proof. intros σ. unfold read_graph. by destruct (σ !! l) as [[]|]. Qed.

Lemma alloc_only_read_arg (a : dict_arg V) : alloc_only (read_arg a).
Proof. destruct a; [apply alloc_only_read_dict|apply alloc_only_ret]. Qed.

Lemma alloc_only_alloc (o : object V) : alloc_only (alloc o).
Proof.
  intros σ. destruct (alloc_fresh o σ) as (l & -> & Hl). simpl.
  by apply insert_subseteq.
Qed.

Lemma alloc_only_bind {A B} (m : M V A) (k : A → M V B) :
  alloc_only m → (∀ a, alloc_only (k a)) → alloc_only (bind_st m k).
Proof.
  intros Hm Hk σ. unfold bind_st. specialize (Hm σ).
  destruct (m σ) as [[a|e] σ1]; simpl in *; [|done].
  etrans; [exact Hm|apply Hk].
Qed.

Lemma alloc_only_mapM_st {A B} (f : A → M V B) (l : list A) :
  (∀ x, alloc_only (f x)) → alloc_only (mapM_st f l).
Proof.
  intros Hf. induction l as [|x l IH]; simpl.
  - apply alloc_only_ret.
  - apply alloc_only_bind; [done|]. intros y.
    apply alloc_only_bind; [done|]. intros ys. apply alloc_only_ret.
Qed.

Lemma alloc_only_foldM_st {A B} (f : B → A → M V B) (b : B) (l : list A) :
  (∀ b x, alloc_only (f b x)) → alloc_only (foldM_st f b l).
Proof.
  intros Hf. revert b. induction l as [|x l IH]; intros b; simpl.
  - apply alloc_only_ret.
  - apply alloc_only_bind; [done|]. intros b'. apply IH.
Qed.

Lemma alloc_only_run {A} (m : M V A) σ r σ' :
  alloc_only m → m σ = (r, σ') → σ ⊆ σ'.
Proof. intros Hm Heq. specialize (Hm σ). by rewrite Heq in Hm. Qed.

(** The steps of a list comprehension, each with the store it started in
    and the store it ended in. *)
Lemma mapM_st_trace {A B} (f : A → M V B) (l : list A) σ ys σ' :
  (∀ x, alloc_only (f x)) →
  mapM_st f l σ = (Ok ys, σ') →
  σ ⊆ σ'
  ∧ Forall2 (λ x y, ∃ σ1 σ2, σ ⊆ σ1 ∧ σ2 ⊆ σ' ∧ f x σ1 = (Ok y, σ2)) l ys.
Proof.
  intros Hf. revert σ ys. induction l as [|x l IH]; intros σ ys; simpl.
  - intros [= <- <-]. split; [done|constructor].
  - intros (y & σ1 & Hy & (ys' & σ2 & Hys & [= <- <-])%bind_st_Ok)%bind_st_Ok.
    destruct (IH _ _ Hys) as [H12 Hall].
    pose proof (alloc_only_run _ _ _ _ (Hf x) Hy) as H01.
    split; [by etrans|]. constructor.
    + exists σ, σ1. done.
    + eapply Forall2_impl; [exact Hall|].
      intros x' y' (σa & σb & Ha & Hb & Hfx). exists σa, σb.
      split_and!; [by etrans|done..].
Qed.

Lemma subseteq_None σ σ' (l : loc) : σ ⊆ σ' → σ' !! l = None → σ !! l = None.
Proof.
  intros Hsub Hl. destruct (σ !! l) as [o|] eqn:Ho; [|done].
  by rewrite (lookup_weaken _ _ _ _ Ho Hsub) in Hl.
Qed.

Lemma fresh_value_weaken σ σ' (x : hvalue V) :
  σ ⊆ σ' → fresh_value σ' x → fresh_value σ x.
Proof. intros Hsub. destruct x; simpl; eauto using subseteq_None. Qed.
End store_basic.

(** ** The store: deep copies *)

Section store_copy.
Context {V : Type} `{!EqDecision V, !Countable V}.
Implicit Types (σ τ : store V) (cp : hvalue V → M V (hvalue V)).

Lemma read_dict_Ok l σ d σ' :
  read_dict l σ = (Ok d, σ') → σ' = σ ∧ σ !! l = Some (ODict d).
Proof.
  unfold read_dict. destruct (σ !! l) as [[]|]; try done.
  by intros [= <- <-].
Qed.

Lemma read_graph_Ok l σ (g : Graph V loc) σ' :
  read_graph l σ = (Ok g, σ') → σ' = σ ∧ σ !! l = Some (OGraph g).
Proof.
  unfold read_graph. destruct (σ !! l) as [[]|]; try done.
  by intros [= <- <-].
Qed.

Lemma alloc_Ok (o : object V) σ l σ' :
  alloc o σ = (Ok l, σ') → σ !! l = None ∧ σ' = <[l := o]> σ.
Proof.
  destruct (alloc_fresh o σ) as (l' & -> & Hl'). by intros [= <- <-].
Qed.

Lemma alloc_only_copy_dict_with cp l :
  (∀ x, alloc_only (cp x)) → alloc_only (copy_dict_with cp l).
Proof.
  intros Hcp. unfold copy_dict_with.
  apply alloc_only_bind; [apply alloc_only_read_dict|]. intros d.
  apply alloc_only_bind; [|intros; apply alloc_only_alloc].
  apply alloc_only_mapM_st. intros kv.
  apply alloc_only_bind; [done|]. intros x. apply alloc_only_ret.
Qed.

Lemma alloc_only_copy_graph_with cp g :
  (∀ x, alloc_only (cp x)) → alloc_only (copy_graph_with cp g).
Proof.
  intros Hcp. unfold copy_graph_with.
  apply alloc_only_bind; [apply alloc_only_read_graph|]. intros gr.
  apply alloc_only_bind.
  { apply alloc_only_mapM_st. intros na.
    apply alloc_only_bind; [by apply alloc_only_copy_dict_with|].
    intros l'. apply alloc_only_ret. }
  intros ns. apply alloc_only_bind; [|intros; apply alloc_only_alloc].
  apply alloc_only_mapM_st. intros e.
  apply alloc_only_bind; [by apply alloc_only_copy_dict_with|].
  intros l'. apply alloc_only_ret.
Qed.

(** The copy of a dictionary is a new dictionary whose values refer to new
    objects. *)
Lemma copy_dict_with_spec cp l σ l' σ' :
  good_copier cp →
  copy_dict_with cp l σ = (Ok l', σ') →
  σ ⊆ σ' ∧ σ !! l' = None
  ∧ ∃ d', σ' !! l' = Some (ODict d')
          ∧ ∀ k x, d' !! k = Some x → fresh_value σ x.
Proof.
  intros [Hcp Hfresh] Hrun.
  pose proof (alloc_only_run _ _ _ _ (alloc_only_copy_dict_with cp l Hcp) Hrun)
    as Hsub.
  unfold copy_dict_with in Hrun.
  apply bind_st_Ok in Hrun as (d & σ1 & [-> _]%read_dict_Ok & Hrun).
  apply bind_st_Ok in Hrun as (entries & σ2 & Hentries & Halloc).
  apply alloc_Ok in Halloc as [Hl' ->].
  apply mapM_st_trace in Hentries as [H12 Hall].
  2:{ intros kv. apply alloc_only_bind; [done|]. intros x. apply alloc_only_ret. }
  split_and!; [done|exact (subseteq_None _ _ _ H12 Hl')|].
  eexists. split; [apply lookup_insert_eq|].
  intros k x Hk. apply elem_of_list_to_map_2 in Hk.
  apply list_elem_of_lookup in Hk as [i Hi].
  destruct (Forall2_lookup_r _ _ _ _ _ Hall Hi)
    as (kv & _ & (σa & σb & Ha & _ & Hkv)).
  apply bind_st_Ok in Hkv as (x' & σc & Hx' & [= <- <- <-]).
  eapply fresh_value_weaken; [exact Ha|]. by eapply Hfresh.
Qed.

(** The copy of a graph is a new graph whose attribute dictionaries are
    new, different for nodes and for edges, and refer to new objects. *)
Lemma copy_graph_with_spec cp g σ H σ' :
  good_copier cp →
  copy_graph_with cp g σ = (Ok H, σ') →
  σ ⊆ σ' ∧ σ !! H = None
  ∧ ∃ h, σ' !! H = Some (OGraph h)
         ∧ owned σ σ' h ∧ apart_locs h ∧ closed σ σ' h.
Proof.
  intros Hgood Hrun. pose proof Hgood as [Hcp Hfresh].
  pose proof (alloc_only_run _ _ _ _ (alloc_only_copy_graph_with cp g Hcp) Hrun)
    as Hsub.
  unfold copy_graph_with in Hrun.
  apply bind_st_Ok in Hrun as (gr & σ0 & [-> _]%read_graph_Ok & Hrun).
  apply bind_st_Ok in Hrun as (ns & σ1 & Hns & Hrun).
  apply bind_st_Ok in Hrun as (es & σ2 & Hes & Halloc).
  apply alloc_Ok in Halloc as [HH ->].
  apply mapM_st_trace in Hns as [H01 Hnodes].
  2:{ intros na. apply alloc_only_bind; [by apply alloc_only_copy_dict_with|].
      intros l'. apply alloc_only_ret. }
  apply mapM_st_trace in Hes as [H12 Hedges].
  2:{ intros e. apply alloc_only_bind; [by apply alloc_only_copy_dict_with|].
      intros l'. apply alloc_only_ret. }
  (* what is known of the dictionary of a node, and of an edge *)
  assert (∀ n l, (n, l) ∈ ns →
            σ !! l = None
            ∧ ∃ d, σ1 !! l = Some (ODict d)
                   ∧ ∀ k x, d !! k = Some x → fresh_value σ x) as Hn.
  { intros n l [i Hi]%list_elem_of_lookup.
    destruct (Forall2_lookup_r _ _ _ _ _ Hnodes Hi)
      as (na & _ & (σa & σb & Ha & Hb & Hna)).
    apply bind_st_Ok in Hna as (l' & σc & Hcopy & [= <- <- <-]).
    apply (copy_dict_with_spec cp) in Hcopy as (_ & Hl' & d & Hd & Hfr);
      [|done].
    split; [exact (subseteq_None _ _ _ Ha Hl')|].
    exists d. split; [exact (lookup_weaken _ _ _ _ Hd Hb)|].
    intros k x Hk. eapply fresh_value_weaken; [exact Ha|]. by eapply Hfr. }
  assert (∀ e, e ∈ es → σ1 !! e_data e = None ∧ is_Some (σ2 !! e_data e))
    as He.
  { intros e [i Hi]%list_elem_of_lookup.
    destruct (Forall2_lookup_r _ _ _ _ _ Hedges Hi)
      as (e0 & _ & (σa & σb & Ha & Hb & He0)).
    apply bind_st_Ok in He0 as (l' & σc & Hcopy & [= <- <-]). simpl.
    apply (copy_dict_with_spec cp) in Hcopy as (_ & Hl' & d & Hd & _);
      [|done].
    split; [exact (subseteq_None _ _ _ Ha Hl')|].
    exists (ODict d). exact (lookup_weaken _ _ _ _ Hd Hb). }
  split_and!; [done|exact (subseteq_None _ _ _ (transitivity H01 H12) HH)|].
  eexists. split; [apply lookup_insert_eq|]. split_and!.
  - split; simpl.
    + intros n l Hin. destruct (Hn n l Hin) as (Hl & d & Hd & _).
      split; [done|]. exists (ODict d).
      rewrite lookup_insert_ne.
      * exact (lookup_weaken _ _ _ _ Hd H12).
      * intros <-. rewrite (lookup_weaken _ _ _ _ Hd H12) in HH. done.
    + intros e Hin. destruct (He e Hin) as [Hl [o Ho]].
      split; [exact (subseteq_None _ _ _ H01 Hl)|]. exists o.
      rewrite lookup_insert_ne; [done|].
      intros Heq. rewrite <-Heq in Ho. by rewrite Ho in HH.
  - intros n l e Hnl Hin ->. simpl in *.
    destruct (Hn n _ Hnl) as (_ & d & Hd & _).
    destruct (He e Hin) as [Hnone _]. by rewrite Hd in Hnone.
  - intros n l d k c Hnl Hd Hk. simpl in *.
    destruct (Hn n l Hnl) as (_ & d' & Hd' & Hfr).
    rewrite lookup_insert_ne in Hd.
    2:{ intros <-. rewrite (lookup_weaken _ _ _ _ Hd' H12) in HH. done. }
    rewrite (lookup_weaken _ _ _ _ Hd' H12) in Hd. injection Hd as <-.
    apply (Hfr k (HDict c) Hk).
Qed.

Lemma good_copier_deepcopy_value fuel : good_copier (deepcopy_value (V:=V) fuel).
Proof.
  induction fuel as [|fuel IH].
  - split; [intros x; apply alloc_only_raise|]. by intros x σ x' σ' [=].
  - pose proof IH as [Hcp _]. split.
    + intros [z|s|l|g]; simpl; try apply alloc_only_ret.
      * apply alloc_only_bind; [by apply alloc_only_copy_dict_with|].
        intros l'. apply alloc_only_ret.
      * apply alloc_only_bind; [by apply alloc_only_copy_graph_with|].
        intros l'. apply alloc_only_ret.
    + intros [z|s|l|g] σ x' σ'; simpl.
      * by intros [= <- <-].
      * by intros [= <- <-].
      * intros (l' & σ1 & Hcopy & [= <- <-])%bind_st_Ok. simpl.
        by apply (copy_dict_with_spec _ _ _ _ _ IH) in Hcopy as (_ & ? & _).
      * intros (l' & σ1 & Hcopy & [= <- <-])%bind_st_Ok. simpl.
        by apply (copy_graph_with_spec _ _ _ _ _ IH) in Hcopy as (_ & ? & _).
Qed.

Lemma copy_st_spec G σ H σ' :
  copy_st G σ = (Ok H, σ') →
  σ ⊆ σ' ∧ σ !! H = None
  ∧ ∃ h, σ' !! H = Some (OGraph h)
         ∧ owned σ σ' h ∧ apart_locs h ∧ closed σ σ' h.
Proof. apply copy_graph_with_spec, good_copier_deepcopy_value. Qed.

Lemma alloc_only_copy_st G : alloc_only (copy_st (V:=V) G).
Proof.
  apply alloc_only_copy_graph_with, good_copier_deepcopy_value.
Qed.
End store_copy.

(** ** The store: updates of a graph that owns its dictionaries *)

Section store_steps.
Context {V : Type} `{!EqDecision V, !Countable V}.
Context {N : Type} `{EqDecision N}.
Implicit Types (σ τ : store V) (h : Graph N loc) (o : object V).

Lemma frame_insert τ σ l o : τ ⊆ σ → τ !! l = None → τ ⊆ <[l := o]> σ.
Proof. intros Hsub Hl. by apply insert_subseteq_r. Qed.

Lemma is_Some_insert σ l l' o :
  is_Some (σ !! l') → is_Some (<[l := o]> σ !! l').
Proof.
  intros Hl'. destruct (decide (l = l')) as [->|Hne].
  - rewrite lookup_insert_eq. by eexists.
  - by rewrite lookup_insert_ne.
Qed.

Lemma owned_insert τ σ h l o : owned τ σ h → owned τ (<[l := o]> σ) h.
Proof.
  intros [Hn He]. split.
  - intros n l' Hin. destruct (Hn n l' Hin). split; [done|].
    by apply is_Some_insert.
  - intros e Hin. destruct (He e Hin). split; [done|].
    by apply is_Some_insert.
Qed.

Lemma owned_weaken τ τ' σ h : τ ⊆ τ' → owned τ' σ h → owned τ σ h.
Proof.
  intros Hsub [Hn He]. split.
  - intros n l Hin. destruct (Hn n l Hin). split; [|done].
    by eapply subseteq_None.
  - intros e Hin. destruct (He e Hin). split; [|done].
    by eapply subseteq_None.
Qed.

Lemma closed_weaken τ τ' σ h : τ ⊆ τ' → closed τ' σ h → closed τ σ h.
Proof.
  intros Hsub Hc n l d k c Hin Hd Hk.
  eapply subseteq_None; [done|]. by eapply Hc.
Qed.

(** A new node with a new dictionary. *)
Lemma owned_new_node τ σ h n l o :
  τ ⊆ σ → σ !! l = None → owned τ σ h →
  owned τ (<[l := o]> σ)
    (mkGraph (g_class h) (g_node h ++ [(n, l)]) (g_edge h)).
Proof.
  intros Hsub Hl Hown. apply (owned_insert _ _ _ l o) in Hown as [Hn He].
  split; simpl; [|done].
  intros n' l' [Hin|[= -> ->]%list_elem_of_singleton]%elem_of_app.
  - by apply (Hn n').
  - split; [by eapply subseteq_None|]. rewrite lookup_insert_eq. by eexists.
Qed.

Lemma apart_new_node σ τ h n l :
  σ !! l = None → owned τ σ h → apart_locs h →
  apart_locs (mkGraph (g_class h) (g_node h ++ [(n, l)]) (g_edge h)).
Proof.
  intros Hl [_ He] Hap n' l' e. simpl.
  intros [Hin|[= -> ->]%list_elem_of_singleton]%elem_of_app Hine.
  - by eapply Hap.
  - intros ->. destruct (He e Hine) as [_ [o Ho]]. by rewrite Hl in Ho.
Qed.

Lemma closed_new_node τ σ h n l :
  σ !! l = None → owned τ σ h → closed τ σ h →
  closed τ (<[l := ODict ∅]> σ)
    (mkGraph (g_class h) (g_node h ++ [(n, l)]) (g_edge h)).
Proof.
  intros Hl [Hn _] Hc n' l' d k c. simpl.
  intros [Hin|[= -> ->]%list_elem_of_singleton]%elem_of_app.
  - rewrite lookup_insert_ne.
    + by apply (Hc n').
    + intros <-. destruct (Hn n' l Hin) as [_ [o Ho]]. by rewrite Hl in Ho.
  - rewrite lookup_insert_eq. intros [= <-]. by rewrite lookup_empty.
Qed.

(** A new edge with a new dictionary. *)
Lemma owned_new_edge τ σ h e o :
  τ ⊆ σ → σ !! e_data e = None → owned τ σ h →
  owned τ (<[e_data e := o]> σ)
    (mkGraph (g_class h) (g_node h) (g_edge h ++ [e])).
Proof.
  intros Hsub Hl Hown.
  apply (owned_insert _ _ _ (e_data e) o) in Hown as [Hn He].
  split; simpl; [done|].
  intros e' [Hin| ->%list_elem_of_singleton]%elem_of_app.
  - by apply He.
  - split; [by eapply subseteq_None|]. rewrite lookup_insert_eq. by eexists.
Qed.

Lemma apart_new_edge σ τ h e :
  σ !! e_data e = None → owned τ σ h → apart_locs h →
  apart_locs (mkGraph (g_class h) (g_node h) (g_edge h ++ [e])).
Proof.
  intros Hl [Hn _] Hap n' l' e'. simpl.
  intros Hin [Hine| ->%list_elem_of_singleton]%elem_of_app.
  - by eapply Hap.
  - intros ->. destruct (Hn n' _ Hin) as [_ [o Ho]]. by rewrite Hl in Ho.
Qed.

(** An update of an object that is not the dictionary of a node. *)
Lemma closed_insert_other τ σ h l o :
  (∀ n, (n, l) ∉ g_node h) → closed τ σ h → closed τ (<[l := o]> σ) h.
Proof.
  intros Hl Hc n' l' d k c Hin.
  rewrite lookup_insert_ne; [by apply (Hc n')|].
  intros <-. by apply (Hl n').
Qed.

(** An update of an object by something that is not a dictionary. *)
Lemma closed_insert_graph τ σ h l o :
  (∀ d, o ≠ ODict d) → closed τ σ h → closed τ (<[l := o]> σ) h.
Proof.
  intros Ho Hc n' l' d k c Hin.
  destruct (decide (l = l')) as [->|Hne].
  - rewrite lookup_insert_eq. intros [= ->]. by destruct (Ho d).
  - rewrite lookup_insert_ne by done. by apply (Hc n').
Qed.

Lemma closed_same_nodes τ σ h h' :
  g_node h' = g_node h → closed τ σ h → closed τ σ h'.
Proof. intros Heq Hc n l d k c. rewrite Heq. by apply Hc. Qed.

Lemma owned_mono τ σ σ' h : σ ⊆ σ' → owned τ σ h → owned τ σ' h.
Proof.
  intros Hsub [Hn He]. split.
  - intros n l Hin. destruct (Hn n l Hin) as [? [o Ho]]. split; [done|].
    exists o. by eapply lookup_weaken.
  - intros e Hin. destruct (He e Hin) as [? [o Ho]]. split; [done|].
    exists o. by eapply lookup_weaken.
Qed.

Lemma closed_mono τ σ σ' h :
  σ ⊆ σ' → owned τ σ h → closed τ σ h → closed τ σ' h.
Proof.
  intros Hsub [Hn _] Hc n l d k c Hin Hl.
  destruct (Hn n l Hin) as [_ [o Ho]].
  pose proof (lookup_weaken _ _ _ _ Ho Hsub) as Ho'.
  rewrite Hl in Ho'. injection Ho' as <-. by apply (Hc n l).
Qed.

Lemma owned_remove_node τ σ h h' n :
  remove_node h n = Ok h' → owned τ σ h → owned τ σ h'.
Proof.
  unfold remove_node. destruct (has_node h n); [|done].
  intros [= <-] [Hn He]. split; simpl.
  - intros n' l [_ Hin]%list_elem_of_filter. by apply (Hn n').
  - intros e [_ Hin]%list_elem_of_filter. by apply He.
Qed.

Lemma apart_remove_node h h' n :
  remove_node h n = Ok h' → apart_locs h → apart_locs h'.
Proof.
  unfold remove_node. destruct (has_node h n); [|done].
  intros [= <-] Hap n' l e. simpl.
  intros [_ Hin]%list_elem_of_filter [_ Hine]%list_elem_of_filter.
  by eapply Hap.
Qed.

Lemma closed_remove_node τ σ h h' n :
  remove_node h n = Ok h' → closed τ σ h → closed τ σ h'.
Proof.
  unfold remove_node. destruct (has_node h n); [|done].
  intros [= <-] Hc n' l d k c. simpl.
  intros [_ Hin]%list_elem_of_filter. by apply (Hc n').
Qed.

Lemma node_attr_elem_of h n l : node_attr h n = Ok l → (n, l) ∈ g_node h.
Proof.
  unfold node_attr.
  destruct (list_find _ _) as [[i [m a']]|] eqn:Hfind; [|done].
  intros [= <-]. apply list_find_Some in Hfind as (Hi & Hm & _).
  simpl in Hm. subst m. by eapply list_elem_of_lookup_2.
Qed.

(** *** The invariant of the graph under construction *)

Lemma kept_mono s τ σ σ' h : σ ⊆ σ' → kept s τ σ h → kept s τ σ' h.
Proof.
  intros Hsub (Hown & Hap & Hc). split; [by eapply owned_mono|].
  split; [done|]. intros Hs. by eapply closed_mono; [| |apply Hc].
Qed.

Lemma kept_insert_graph s τ σ h l o :
  (∀ d, o ≠ ODict d) → kept s τ σ h → kept s τ (<[l := o]> σ) h.
Proof.
  intros Ho (Hown & Hap & Hc). split; [by apply owned_insert|].
  split; [done|]. intros Hs. by apply closed_insert_graph; [|apply Hc].
Qed.

Lemma kept_new_node s τ σ h n l :
  τ ⊆ σ → σ !! l = None → kept s τ σ h →
  kept s τ (<[l := ODict ∅]> σ)
    (mkGraph (g_class h) (g_node h ++ [(n, l)]) (g_edge h)).
Proof.
  intros Hsub Hl (Hown & Hap & Hc). split; [by apply owned_new_node|].
  split; [by eapply apart_new_node|].
  intros Hs. by apply closed_new_node; [| |apply Hc].
Qed.

Lemma kept_new_node_any τ σ h n l o :
  τ ⊆ σ → σ !! l = None → kept false τ σ h →
  kept false τ (<[l := o]> σ)
    (mkGraph (g_class h) (g_node h ++ [(n, l)]) (g_edge h)).
Proof.
  intros Hsub Hl (Hown & Hap & _). split; [by apply owned_new_node|].
  split; [by eapply apart_new_node|done].
Qed.

Lemma kept_update_node τ σ h l o :
  kept false τ σ h → kept false τ (<[l := o]> σ) h.
Proof.
  intros (Hown & Hap & _). split; [by apply owned_insert|]. by split.
Qed.

Lemma kept_new_edge s τ σ h e o :
  τ ⊆ σ → σ !! e_data e = None → kept s τ σ h →
  kept s τ (<[e_data e := o]> σ)
    (mkGraph (g_class h) (g_node h) (g_edge h ++ [e])).
Proof.
  intros Hsub Hl (Hown & Hap & Hc). split; [by apply owned_new_edge|].
  split; [by eapply apart_new_edge|].
  intros Hs. apply (closed_same_nodes _ _ h); [done|].
  apply closed_insert_other; [|by apply Hc].
  intros n Hin. destruct Hown as [Hn _].
  destruct (Hn n _ Hin) as [_ [o' Ho']]. by rewrite Hl in Ho'.
Qed.

Lemma kept_update_edge s τ σ h e o :
  e ∈ g_edge h → kept s τ σ h → kept s τ (<[e_data e := o]> σ) h.
Proof.
  intros Hin (Hown & Hap & Hc). split; [by apply owned_insert|].
  split; [done|]. intros Hs. apply closed_insert_other; [|by apply Hc].
  intros n Hn. by apply (Hap n (e_data e) e).
Qed.

Lemma kept_remove_node s τ σ h h' n :
  remove_node h n = Ok h' → kept s τ σ h → kept s τ σ h'.
Proof.
  intros Hrm (Hown & Hap & Hc). split; [by eapply owned_remove_node|].
  split; [by eapply apart_remove_node|].
  intros Hs. by eapply closed_remove_node; [|apply Hc].
Qed.

Lemma kept_empty_graph s τ σ cls : kept s τ σ (empty_graph (N:=N) cls).
Proof.
  split; [split|split].
  - intros n l Hin. by apply elem_of_nil in Hin.
  - intros e Hin. by apply elem_of_nil in Hin.
  - intros n l e Hin. by apply elem_of_nil in Hin.
  - intros _ n l d k c Hin. by apply elem_of_nil in Hin.
Qed.
End store_steps.

(** ** The store: rules for computations that leave the caller's objects *)

Section store_rules.
Context {V : Type} `{!EqDecision V, !Countable V}.
Implicit Types (σ τ : store V).

Lemma preserves_bind τ {A B} P (Q : A → store V → Prop)
    (R : B → store V → Prop) (m : M V A) (k : A → M V B) :
  preserves τ P m Q → (∀ a, preserves τ (Q a) (k a) R) →
  preserves τ P (bind_st m k) R.
Proof.
  intros Hm Hk σ Hsub HP. destruct (Hm σ Hsub HP) as [H1 H2].
  unfold bind_st. destruct (m σ) as [[a|e] σ1]; simpl in *.
  - apply Hk; [done|]. by apply H2.
  - split; [done|]. by intros a.
Qed.

Lemma preserves_conseq τ {A} (P P' : store V → Prop)
    (Q Q' : A → store V → Prop) (m : M V A) :
  preserves τ P' m Q' →
  (∀ σ, τ ⊆ σ → P σ → P' σ) → (∀ a σ, τ ⊆ σ → Q' a σ → Q a σ) →
  preserves τ P m Q.
Proof.
  intros Hm HP HQ σ Hsub HPσ. destruct (Hm σ Hsub (HP σ Hsub HPσ)) as [H1 H2].
  split; [done|]. intros a Ha. apply HQ; [done|]. by apply H2.
Qed.

Lemma preserves_pre τ {A} (φ : Prop) P (m : M V A) Q :
  (∀ σ, τ ⊆ σ → P σ → φ) → (φ → preserves τ P m Q) → preserves τ P m Q.
Proof. intros Hφ Hm σ Hsub HP. apply Hm; [by eapply Hφ|done|done]. Qed.

Lemma preserves_ret τ {A} P (a : A) (Q : A → store V → Prop) :
  (∀ σ, τ ⊆ σ → P σ → Q a σ) → preserves τ P (ret_st a) Q.
Proof.
  intros HQ σ Hsub HP. split; [done|]. simpl. intros a' [= <-]. by apply HQ.
Qed.

Lemma preserves_raise τ {A} P e (Q : A → store V → Prop) :
  preserves τ P (raise e) Q.
Proof. intros σ Hsub HP. split; [done|]. by intros a. Qed.

Lemma preserves_lift τ {A} P (r : result A) (Q : A → store V → Prop) :
  (∀ a σ, r = Ok a → τ ⊆ σ → P σ → Q a σ) → preserves τ P (lift r) Q.
Proof.
  intros HQ σ Hsub HP. split; [done|]. simpl. intros a ->. by apply HQ.
Qed.

Lemma preserves_read_dict τ P l (Q : hattrs V → store V → Prop) :
  (∀ d σ, σ !! l = Some (ODict d) → τ ⊆ σ → P σ → Q d σ) →
  preserves τ P (read_dict l) Q.
Proof.
  intros HQ σ Hsub HP. unfold read_dict.
  destruct (σ !! l) as [[d| | |]|] eqn:Hl; simpl; (split; [done|]); try done.
  intros a [= <-]. by apply HQ.
Qed.

Lemma preserves_read_graph τ P l (Q : Graph V loc → store V → Prop) :
  (∀ g σ, σ !! l = Some (OGraph g) → τ ⊆ σ → P σ → Q g σ) →
  preserves τ P (read_graph l) Q.
Proof.
  intros HQ σ Hsub HP. unfold read_graph.
  destruct (σ !! l) as [[| g | |]|] eqn:Hl; simpl; (split; [done|]); try done.
  intros a [= <-]. by apply HQ.
Qed.

Lemma preserves_read_arg τ P (a : dict_arg V) :
  preserves τ P (read_arg a) (λ _, P).
Proof.
  destruct a as [l|d]; simpl.
  - by apply preserves_read_dict.
  - by apply preserves_ret.
Qed.

Lemma preserves_alloc τ P o (Q : loc → store V → Prop) :
  (∀ l σ, τ ⊆ σ → σ !! l = None → P σ → Q l (<[l := o]> σ)) →
  preserves τ P (alloc o) Q.
Proof.
  intros HQ σ Hsub HP. destruct (alloc_fresh o σ) as (l & -> & Hl). simpl.
  split.
  - apply insert_subseteq_r; [|done]. by eapply subseteq_None.
  - intros a [= <-]. by apply HQ.
Qed.

Lemma preserves_write τ P l o (Q : unit → store V → Prop) :
  τ !! l = None → (∀ σ, τ ⊆ σ → P σ → Q () (<[l := o]> σ)) →
  preserves τ P (write l o) Q.
Proof.
  intros Hl HQ σ Hsub HP. simpl. split.
  - by apply insert_subseteq_r.
  - intros [] _. by apply HQ.
Qed.

Lemma preserves_alloc_only τ {A} P (m : M V A) :
  alloc_only m → (∀ σ σ', τ ⊆ σ → σ ⊆ σ' → P σ → P σ') →
  preserves τ P m (λ _, P).
Proof.
  intros Hm HP σ Hsub HPσ. split.
  - by etrans; [|apply Hm].
  - intros a _. eapply HP; [done|apply Hm|done].
Qed.

Lemma preserves_foldM τ {A B} (I : B → store V → Prop) (f : B → A → M V B)
    (l : list A) b :
  (∀ b x, x ∈ l → preserves τ (I b) (f b x) I) →
  preserves τ (I b) (foldM_st f b l) I.
Proof.
  revert b. induction l as [|x l IH]; intros b Hf; simpl.
  - by apply preserves_ret.
  - eapply preserves_bind.
    + apply Hf. by left.
    + intros b'. apply IH. intros b'' y Hy. apply Hf. by right.
Qed.

Lemma preserves_frame τ {A} P (m : M V A) Q σ :
  preserves τ P m Q → τ ⊆ σ → P σ → τ ⊆ (m σ).2.
Proof. intros Hm Hsub HP. by apply Hm. Qed.
End store_rules.

(** ** The store: the graph methods keep the invariant *)

Section store_graph_ops.
Context {V : Type} `{!EqDecision V, !Countable V}.
Context {N : Type} `{EqDecision N}.
Implicit Types (σ τ : store V) (h : Graph N loc).

Lemma preserves_weaken τ {A} (P P' : store V → Prop) (m : M V A) Q :
  (∀ σ, τ ⊆ σ → P σ → P' σ) → preserves τ P' m Q → preserves τ P m Q.
Proof. intros HP Hm. by eapply preserves_conseq; [apply Hm| |]. Qed.

Lemma ensure_node_st_kept s τ h n :
  preserves τ (λ σ, kept s τ σ h) (ensure_node_st h n)
    (λ h' σ, kept s τ σ h').
Proof.
  unfold ensure_node_st. destruct (has_node h n).
  - by apply preserves_ret.
  - eapply preserves_bind.
    + apply (preserves_alloc _ _ _
        (λ l σ, kept s τ σ
           (mkGraph (g_class h) (g_node h ++ [(n, l)]) (g_edge h)))).
      intros l σ Hsub Hl Hk. by apply kept_new_node.
    + intros l. by apply preserves_ret.
Qed.

Lemma add_node_st_kept τ h n (ndict : hattrs V) :
  preserves τ (λ σ, kept false τ σ h) (add_node_st h n ndict)
    (λ h' σ, kept false τ σ h').
Proof.
  unfold add_node_st. destruct (node_attr h n) as [l|e] eqn:Hattr.
  - apply node_attr_elem_of in Hattr.
    apply (preserves_pre _ (τ !! l = None)).
    { intros σ _ ([Hn _] & _). by destruct (Hn n l Hattr). }
    intros Hl.
    eapply preserves_bind;
      [apply (preserves_read_dict _ _ _ (λ _ σ, kept false τ σ h)); auto|].
    intros d. eapply preserves_bind.
    + apply (preserves_write _ _ _ _ (λ _ σ, kept false τ σ h)); [done|].
      intros σ Hsub Hk. by apply kept_update_node.
    + intros []. by apply preserves_ret.
  - eapply preserves_bind.
    + apply (preserves_alloc _ _ _
        (λ l σ, kept false τ σ
           (mkGraph (g_class h) (g_node h ++ [(n, l)]) (g_edge h)))).
      intros l σ Hsub Hl Hk. by apply kept_new_node_any.
    + intros l. by apply preserves_ret.
Qed.

Lemma add_edge_st_kept s τ h u v (dd : dict_arg V) :
  preserves τ (λ σ, kept s τ σ h) (add_edge_st h u v dd)
    (λ h' σ, kept s τ σ h').
Proof.
  unfold add_edge_st.
  eapply preserves_bind; [apply ensure_node_st_kept|]. intros h1.
  eapply preserves_bind; [apply ensure_node_st_kept|]. intros h2.
  eapply preserves_bind; [apply preserves_read_arg|]. intros d.
  destruct (is_multigraph h2).
  - eapply preserves_bind.
    + apply (preserves_alloc _ _ _
        (λ l σ, kept s τ σ
           (mkGraph (g_class h2) (g_node h2)
              (g_edge h2 ++ [mkEdge u v (new_edge_key h2 u v) l])))).
      intros l σ Hsub Hl Hk.
      by apply (kept_new_edge s τ σ h2 (mkEdge u v (new_edge_key h2 u v) l)).
    + intros l. by apply preserves_ret.
  - destruct (list_find _ (g_edge h2)) as [[i e]|] eqn:Hfind.
    + apply list_find_Some in Hfind as (Hi & _ & _).
      apply list_elem_of_lookup_2 in Hi.
      apply (preserves_pre _ (τ !! e_data e = None)).
      { intros σ _ ([_ He] & _). by destruct (He e Hi). }
      intros Hl.
      eapply preserves_bind;
        [apply (preserves_read_dict _ _ _ (λ _ σ, kept s τ σ h2)); auto|].
      intros old. eapply preserves_bind.
      * apply (preserves_write _ _ _ _ (λ _ σ, kept s τ σ h2)); [done|].
        intros σ Hsub Hk. by apply kept_update_edge.
      * intros []. by apply preserves_ret.
    + eapply preserves_bind.
      * apply (preserves_alloc _ _ _
          (λ l σ, kept s τ σ
             (mkGraph (g_class h2) (g_node h2)
                (g_edge h2 ++ [mkEdge u v 0 l])))).
        intros l σ Hsub Hl Hk.
        by apply (kept_new_edge s τ σ h2 (mkEdge u v 0 l)).
      * intros l. by apply preserves_ret.
Qed.

Lemma add_edges_from_st_kept s τ h (triples : list (N * N * dict_arg V)) :
  preserves τ (λ σ, kept s τ σ h) (add_edges_from_st h triples)
    (λ h' σ, kept s τ σ h').
Proof.
  unfold add_edges_from_st.
  apply (preserves_foldM τ (λ h σ, kept s τ σ h)).
  intros h' t _. apply add_edge_st_kept.
Qed.
End store_graph_ops.

(** ** The store: the minors leave the caller's objects as they are *)

Section store_minors_frame.
Context {V : Type} `{!EqDecision V, !Countable V}.
Variable density_st : Graph V loc → hvalue V.
Implicit Types (σ τ : store V) (g : Graph V loc).

Lemma preserves_bind_lift τ {A B} P (r : result A) (k : A → M V B) R :
  (∀ a, r = Ok a → preserves τ P (k a) R) →
  preserves τ P (bind_st (lift r) k) R.
Proof.
  intros Hk. destruct r as [a|e].
  - intros σ Hsub HP. unfold bind_st, lift. by apply (Hk a).
  - intros σ Hsub HP. unfold bind_st, lift. split; [done|]. by intros b.
Qed.

Lemma preserves_bind_read_graph τ {B} P l (k : Graph V loc → M V B) R :
  (∀ g, preserves τ (λ σ, σ !! l = Some (OGraph g) ∧ P σ) (k g) R) →
  preserves τ P (bind_st (read_graph l) k) R.
Proof.
  intros Hk. eapply preserves_bind; [|exact Hk].
  by apply preserves_read_graph.
Qed.

Lemma preserves_bind_read_dict τ {B} P l (k : hattrs V → M V B) R :
  (∀ d, preserves τ (λ σ, σ !! l = Some (ODict d) ∧ P σ) (k d) R) →
  preserves τ P (bind_st (read_dict l) k) R.
Proof.
  intros Hk. eapply preserves_bind; [|exact Hk].
  by apply preserves_read_dict.
Qed.

Lemma preserves_bind_write τ {B} P l o (k : unit → M V B) R :
  τ !! l = None →
  preserves τ (λ σ', ∃ σ, τ ⊆ σ ∧ P σ ∧ σ' = <[l := o]> σ) (k ()) R →
  preserves τ P (bind_st (write l o) k) R.
Proof.
  intros Hl Hk.
  eapply (preserves_bind _ _
    (λ _ σ', ∃ σ, τ ⊆ σ ∧ P σ ∧ σ' = <[l := o]> σ)); [|intros []; exact Hk].
  apply preserves_write; [done|]. intros σ Hsub HP. by exists σ.
Qed.

Lemma preserves_bind_alloc τ {B} P o (k : loc → M V B) R :
  (∀ l, τ !! l = None →
        preserves τ (λ σ', ∃ σ, τ ⊆ σ ∧ σ !! l = None ∧ P σ
                                ∧ σ' = <[l := o]> σ) (k l) R) →
  preserves τ P (bind_st (alloc o) k) R.
Proof.
  intros Hk.
  eapply (preserves_bind _ _
    (λ l σ', τ !! l = None
             ∧ ∃ σ, τ ⊆ σ ∧ σ !! l = None ∧ P σ ∧ σ' = <[l := o]> σ)).
  - apply preserves_alloc. intros l σ Hsub Hl HP.
    split; [by eapply subseteq_None|]. by exists σ.
  - intros l. apply (preserves_pre _ (τ !! l = None)); [by intros σ _ [? _]|].
    intros Hl. eapply preserves_weaken; [|by apply Hk].
    by intros σ _ [_ ?].
Qed.

Lemma preserves_true τ {A} P (m : M V A) :
  alloc_only m → preserves τ P m (λ _ _, True).
Proof.
  intros Hm σ Hsub _. split; [|done]. by etrans; [|apply Hm].
Qed.

(** *** The helpers of [quotient_graph] allocate only *)

Lemma alloc_only_the_node_data_st g node_data b :
  alloc_only (the_node_data_st density_st g node_data b).
Proof.
  destruct node_data as [f|]; simpl; [apply alloc_only_ret|].
  apply alloc_only_bind; [apply alloc_only_alloc|].
  intros s. apply alloc_only_ret.
Qed.

Lemma alloc_only_the_edge_data_st g edge_data b c :
  alloc_only (the_edge_data_st g edge_data b c).
Proof.
  destruct edge_data as [f|]; simpl; [apply alloc_only_ret|].
  apply alloc_only_bind; [|intros total; apply alloc_only_ret].
  apply alloc_only_foldM_st. intros total l.
  apply alloc_only_bind; [apply alloc_only_read_dict|]. intros d.
  apply alloc_only_bind; [apply alloc_only_lift|]. intros w.
  apply alloc_only_ret.
Qed.

Lemma alloc_only_pair_edges_st g multigraph edge_data b c :
  alloc_only (pair_edges_st g multigraph edge_data b c).
Proof.
  destruct multigraph; simpl; [apply alloc_only_lift|].
  apply alloc_only_bind; [apply alloc_only_the_edge_data_st|].
  intros d. apply alloc_only_ret.
Qed.

Lemma alloc_only_relabel_nodes_st (h : Graph (gset V) loc) labels :
  alloc_only (relabel_nodes_st h labels).
Proof.
  apply alloc_only_bind.
  { apply alloc_only_mapM_st. intros na.
    apply alloc_only_bind; [apply alloc_only_read_dict|]. intros d.
    apply alloc_only_bind; [apply alloc_only_alloc|]. intros l.
    apply alloc_only_ret. }
  intros ns. apply alloc_only_bind.
  { apply alloc_only_mapM_st. intros e.
    apply alloc_only_bind; [apply alloc_only_read_dict|]. intros d.
    apply alloc_only_bind; [apply alloc_only_alloc|]. intros l.
    apply alloc_only_ret. }
  intros es. apply alloc_only_alloc.
Qed.
End store_minors_frame.

(** ** The store: what the three calls leave in place *)

Section store_frame.
Context {V : Type} `{!EqDecision V, !Countable V}.
Variable density_st : Graph V loc → hvalue V.
Implicit Types (σ τ : store V) (g : Graph V loc).

Lemma quotient_graph_st_preserves τ G partition edge_relation node_data
    edge_data relabel create_using :
  preserves τ (λ _, True)
    (quotient_graph_st density_st G partition edge_relation node_data
       edge_data relabel create_using)
    (λ _ _, True).
Proof.
  unfold quotient_graph_st.
  apply preserves_bind_read_graph. intros g.
  apply (preserves_weaken _ _ (λ _, True)); [done|].
  apply preserves_bind_lift. intros blocks _.
  destruct (bad_partition g blocks); [apply preserves_raise|].
  apply preserves_bind_alloc. intros H HH.
  apply (preserves_weaken _ _
    (λ σ, kept false τ σ
            (empty_graph (N:=gset V) (quotient_class g create_using)))).
  { intros σ' _ _. apply kept_empty_graph. }
  eapply preserves_bind.
  { apply (preserves_foldM τ (λ h σ, kept false τ σ h)). intros h b _.
    eapply preserves_bind.
    - apply preserves_alloc_only; [apply alloc_only_the_node_data_st|].
      intros σ σ' _ Hsub. by apply kept_mono.
    - intros ndict. apply add_node_st_kept. }
  intros h. apply preserves_bind_write; [done|].
  apply (preserves_weaken _ _ (λ σ, kept false τ σ h)).
  { intros σ' _ (σ & _ & Hk & ->). by apply kept_insert_graph. }
  eapply preserves_bind.
  { apply (preserves_foldM τ (λ h σ, kept false τ σ h)). intros h' bc _.
    apply preserves_bind_lift. intros r _. destruct r.
    - eapply preserves_bind.
      + apply preserves_alloc_only; [apply alloc_only_pair_edges_st|].
        intros σ σ' _ Hsub. by apply kept_mono.
      + intros edges. apply add_edges_from_st_kept.
    - by apply preserves_ret. }
  intros h2. apply preserves_bind_write; [done|].
  destruct relabel.
  - apply preserves_true, alloc_only_relabel_nodes_st.
  - by apply preserves_ret.
Qed.

Lemma copy_st_preserves τ G :
  preserves τ (λ σ, σ = τ) (copy_st G)
    (λ H σ, τ !! H = None ∧ ∃ h, σ !! H = Some (OGraph h) ∧ kept true τ σ h).
Proof.
  intros σ _ ->. destruct (copy_st G τ) as [r σ'] eqn:Hcopy. simpl. split.
  - by eapply alloc_only_run; [apply alloc_only_copy_st|].
  - intros H ->. apply copy_st_spec in Hcopy as (_ & HH & h & Hh & ? & ? & ?).
    split; [done|]. exists h. split; [done|]. by split; [|split].
Qed.

Lemma contracted_nodes_st_preserves τ G u v self_loops :
  preserves τ (λ σ, σ = τ) (contracted_nodes_st G u v self_loops)
    (λ _ _, True).
Proof.
  unfold contracted_nodes_st.
  eapply preserves_bind; [apply copy_st_preserves|]. intros H.
  apply (preserves_pre _ (τ !! H = None)); [by intros σ _ [? _]|]. intros HH.
  apply preserves_bind_read_graph. intros g.
  apply preserves_bind_lift. intros edges _.
  apply preserves_bind_read_graph. intros h.
  apply (preserves_weaken _ _ (λ σ, kept true τ σ h)).
  { intros σ _ (Hh & _ & _ & h' & Hh' & Hk). rewrite Hh in Hh'.
    by injection Hh' as ->. }
  apply preserves_bind_lift. intros v_data _.
  apply preserves_bind_lift. intros h1 Hrm.
  apply (preserves_weaken _ _ (λ σ, kept true τ σ h1)).
  { intros σ _ Hk. by eapply kept_remove_node. }
  apply preserves_bind_write; [done|].
  apply (preserves_weaken _ _ (λ σ, kept true τ σ h1)).
  { intros σ' _ (σ & _ & Hk & ->). by apply kept_insert_graph. }
  eapply preserves_bind; [apply add_edges_from_st_kept|]. intros h2.
  apply preserves_bind_write; [done|].
  apply (preserves_weaken _ _ (λ σ, kept true τ σ h2)).
  { intros σ' _ (σ & _ & Hk & ->). by apply kept_insert_graph. }
  apply preserves_bind_lift. intros u_data Hu%node_attr_elem_of.
  apply (preserves_pre _ (τ !! u_data = None)).
  { intros σ _ ([Hn _] & _). by destruct (Hn u u_data Hu). }
  intros Hud. apply preserves_bind_read_dict. intros ud.
  destruct (ud !! KStr "contraction") as [[z|s|record|G']|] eqn:Hrec;
    try apply preserves_raise.
  - apply (preserves_pre _ (τ !! record = None)).
    { intros σ _ (Hd & _ & _ & Hc).
      by apply (Hc eq_refl u u_data ud (KStr "contraction") record). }
    intros Hr. apply preserves_bind_read_dict. intros old.
    apply preserves_bind_write; [done|]. by apply preserves_ret.
  - apply preserves_bind_alloc. intros record _.
    apply preserves_bind_write; [done|]. by apply preserves_ret.
Qed.

Lemma contracted_edge_st_preserves τ G edge self_loops :
  preserves τ (λ σ, σ = τ) (contracted_edge_st G edge self_loops)
    (λ _ _, True).
Proof.
  unfold contracted_edge_st.
  apply preserves_bind_read_graph. intros g.
  destruct (negb _); [apply preserves_raise|].
  eapply preserves_weaken; [|apply contracted_nodes_st_preserves].
  by intros σ _ [_ ?].
Qed.

(** The objects of the store are the same after a call. *)
Lemma quotient_graph_st_frame σ G partition edge_relation node_data edge_data
    relabel create_using :
  σ ⊆ (quotient_graph_st density_st G partition edge_relation node_data
         edge_data relabel create_using σ).2.
Proof. by eapply preserves_frame; [apply quotient_graph_st_preserves|..]. Qed.

Lemma contracted_nodes_st_frame σ G u v self_loops :
  σ ⊆ (contracted_nodes_st G u v self_loops σ).2.
Proof. by eapply preserves_frame; [apply contracted_nodes_st_preserves|..]. Qed.

Lemma contracted_edge_st_frame σ G edge self_loops :
  σ ⊆ (contracted_edge_st G edge self_loops σ).2.
Proof. by eapply preserves_frame; [apply contracted_edge_st_preserves|..]. Qed.
End store_frame.

(** * The properties of the design document *)

Section claims_quotient_check.
Context {V : Type} `{!EqDecision V, !Countable V}.
Variable density : Graph V (attrs V) → value V.
Implicit Types (G : Graph V (attrs V)) (P : list (gset V)).

(** C3: on an explicit list of blocks, [quotient_graph] raises the
    invalid-partition exception exactly when some node of [G] lies in no
    block or in more than one block, whatever the other arguments are; the
    exception is the whole outcome, no graph comes with it, and a call that
    returns a graph has passed the check. *)
Theorem quotient_graph_invalid_partition_iff G P er nd ed relabel cu :
  (quotient_graph density G (inr P) er nd ed relabel cu = Err NetworkXException
     ↔ ∃ v, v ∈ nodes G ∧ (count_blocks P v = 0 ∨ 1 < count_blocks P v))
  ∧ (is_Ok (quotient_graph density G (inr P) er nd ed relabel cu) →
     ∀ v, v ∈ nodes G → count_blocks P v = 1).
Proof.
  assert (∀ e, quotient_graph density G (inr P) er nd ed relabel cu = Err e
               ↔ quotient_blocks density G P er nd ed cu = Err e) as Herr.
  { intros e. unfold quotient_graph. simpl.
    destruct (quotient_blocks density G P er nd ed cu); simpl; split; congruence. }
  split.
  - rewrite Herr. split.
    + intros [[_ Hbad]|[_ [?|?]]]%quotient_blocks_raises; [|done..].
      apply bad_partition_true in Hbad as (v & Hv & Hc).
      exists v. split; [done|lia].
    + intros (v & Hv & Hc).
      assert (bad_partition G P = true) as Hbad.
      { apply bad_partition_true. exists v. split; [done|lia]. }
      unfold quotient_blocks. by rewrite Hbad.
  - intros [H' HH'] v Hv. unfold quotient_graph in HH'. simpl in HH'.
    apply bind_Ok in HH' as (H'' & HH'' & _).
    apply quotient_blocks_Ok in HH'' as [Hbad _].
    by eapply bad_partition_false.
Qed.
End claims_quotient_check.

Section claims_contraction.
Context {V : Type} `{!EqDecision V, !Countable V}.
Implicit Types (G : Graph V (attrs V)) (u v : V).

(** C5: [contracted_edge] raises its missing-edge exception exactly when
    [(u, v)] is not an edge of [G], in that direction when [G] is
    directed, and on an edge it returns just what [contracted_nodes]
    returns for [u] and [v]. *)
Theorem contracted_edge_iff G u v self_loops :
  (contracted_edge G (u, v) self_loops = Err ValueError ↔ ¬ edge_in G u v)
  ∧ (edge_in G u v →
     contracted_edge G (u, v) self_loops = contracted_nodes G u v self_loops).
Proof.
  unfold contracted_edge. simpl. rewrite <-has_edge_true.
  destruct (has_edge G u v); simpl.
  - split; [|done]. split; [|done].
    intros [[=]|[[=]|[=]]]%contracted_nodes_raises.
  - split; [|done]. split; [done|]. done.
Qed.
End claims_contraction.

Section claims_quotient_nodes.
Context {V : Type} `{!EqDecision V, !Countable V}.
Variable density : Graph V (attrs V) → value V.
Implicit Types (G : Graph V (attrs V)) (P : list (gset V)).

(** C9: for a partition of the nodes of [G] (non-empty blocks of nodes,
    every node in exactly one block) the graph that [quotient_graph]
    returns has as many nodes as the partition has blocks; the call does
    return a graph whenever the weights of [G] are numbers. *)
Theorem quotient_graph_node_count G P er nd ed relabel cu :
  valid_partition G P →
  (∀ H, quotient_graph density G (inr P) er nd ed relabel cu = Ok H →
        number_of_nodes H = length P)
  ∧ (numeric_weights G →
     is_Ok (quotient_graph density G (inr P) er nd ed relabel cu)).
Proof.
  intros HP. split.
  - intros H' HH'. unfold quotient_graph in HH'. simpl in HH'.
    apply bind_Ok in HH' as (H0 & HH0 & [= <-]).
    apply quotient_blocks_nodes in HH0 as (_ & _ & Hn).
    assert (number_of_nodes H0 = length P) as Hlen.
    { rewrite number_of_nodes_length, Hn.
      rewrite add_all_new_NoDup; [done|]. simpl.
      by eapply valid_partition_NoDup. }
    destruct relabel; [|done].
    unfold relabel_nodes, map_nodes, number_of_nodes in *. simpl.
    by rewrite length_map.
  - intros Hnum. unfold quotient_graph. simpl.
    destruct (quotient_blocks_is_Ok density G P er nd ed cu) as [H0 ->].
    + apply bad_partition_false. apply HP.
    + apply HP.
    + done.
    + apply is_Ok_Ok.
Qed.
End claims_quotient_nodes.

(** Membership in an explicit list, case by case. *)
Ltac list_cases H :=
  repeat (apply elem_of_cons in H as [->|H]); [..|by apply elem_of_nil in H].

Lemma valid_partition_path6 : valid_partition Examples.path6 Examples.pairs6.
Proof.
  split.
  - intros b Hb. list_cases Hb; by vm_compute.
  - intros b v Hb Hv. list_cases Hb;
      apply elem_of_elements in Hv; vm_compute in Hv; list_cases Hv;
      apply elem_of_list_lookup_2 with 0 || idtac; vm_compute;
      repeat constructor.
  - intros v Hv. vm_compute in Hv. list_cases Hv; by vm_compute.
Defined.

Lemma quotient_graph_node_count_witness :
  valid_partition Examples.path6 Examples.pairs6
  ∧ ((∀ H, quotient_graph Examples.no_density Examples.path6
             (inr Examples.pairs6) None None None false None = Ok H →
           number_of_nodes H = length Examples.pairs6)
     ∧ (numeric_weights Examples.path6 →
        is_Ok (quotient_graph Examples.no_density Examples.path6
                 (inr Examples.pairs6) None None None false None))).
Proof.
  split; [exact valid_partition_path6|].
  exact (quotient_graph_node_count Examples.no_density Examples.path6
           Examples.pairs6 None None None false None valid_partition_path6).
Defined.

Section claims_blockmodel.
Context {V : Type} `{!EqDecision V, !Countable V}.
Variable density : Graph V (attrs V) → value V.
Implicit Types (G : Graph V (attrs V)) (P : list (gset V)).

(** C7, as amended: [blockmodel] returns what [quotient_graph] returns
    with relabeling, for an undirected multigraph template when
    [multigraph] is set, whatever the variant of [G], and for no template
    otherwise; the graph returned is then an undirected multigraph in the
    first case and of the class of [G] in the second. *)
Theorem blockmodel_is_quotient_graph G P (multigraph : bool) :
  blockmodel density G P multigraph
  = quotient_graph density G (inr P) None None None true
      (if multigraph then Some ClsMultiGraph else None)
  ∧ (∀ H, blockmodel density G P multigraph = Ok H →
          g_class H = if multigraph then ClsMultiGraph else g_class G).
Proof.
  split; [by destruct multigraph|].
  intros H' HH'.
  assert (∃ cu H0, quotient_blocks density G P None None None cu = Ok H0
                   ∧ g_class H' = g_class H0
                   ∧ quotient_class G cu
                     = if multigraph then ClsMultiGraph else g_class G)
    as (cu & H0 & HH0 & -> & <-).
  { unfold blockmodel, quotient_graph in HH'. simpl in HH'.
    destruct multigraph;
      apply bind_Ok in HH' as (H0 & HH0 & [= <-]); eauto. }
  by apply quotient_blocks_nodes in HH0 as (-> & _).
Qed.
End claims_blockmodel.

(** C7, refuted as stated: for the directed graph [0 → 1], split into its
    two nodes, [blockmodel] with [multigraph] set does not return what
    [quotient_graph] returns for the directed multigraph template: its
    result is undirected. *)
Lemma blockmodel_directed_counterexample :
  is_directed Examples.arrow = true
  ∧ blockmodel Examples.no_density Examples.arrow Examples.singletons true
    ≠ quotient_graph Examples.no_density Examples.arrow
        (inr Examples.singletons) None None None true
        (Some (documented_template Examples.arrow true))
  ∧ is_directed
      <$> blockmodel Examples.no_density Examples.arrow Examples.singletons true
    = Ok false.
Proof.
  split_and!.
  - reflexivity.
  - intros Heq.
    apply (f_equal (λ r, match r with
                         | Ok H => is_directed H
                         | Err _ => false
                         end)) in Heq.
    vm_compute in Heq. discriminate.
  - vm_compute. reflexivity.
Qed.

Section claims_empty_blocks.
Context {V : Type} `{!EqDecision V, !Countable V}.
Variable density : Graph V (attrs V) → value V.
Implicit Types (G : Graph V (attrs V)) (P : list (gset V)).

(** C10: when every node of [G] lies in exactly one block of [P], a list
    [P'] made from [P] by inserting empty blocks still passes the check of
    [quotient_graph], and the call on [P'] returns a graph whenever the
    call on [P] does.  The nodes of that graph are the blocks of [P'],
    each once: the empty block is among them as soon as [P'] contains it,
    however often [P'] lists it. *)
Theorem quotient_graph_empty_blocks G P P' er nd ed cu :
  adds_empty_blocks P P' →
  (∀ v, v ∈ nodes G → count_blocks P v = 1) →
  quotient_graph density G (inr P') er nd ed false cu ≠ Err NetworkXException
  ∧ (is_Ok (quotient_graph density G (inr P) er nd ed false cu) →
     is_Ok (quotient_graph density G (inr P') er nd ed false cu))
  ∧ (∀ H', quotient_graph density G (inr P') er nd ed false cu = Ok H' →
       NoDup (nodes H')
       ∧ (∀ b, b ∈ nodes H' ↔ b ∈ P')
       ∧ (∅ ∈ P' → ∅ ∈ nodes H')).
Proof.
  intros HP Honce.
  assert (∀ Q, quotient_graph density G (inr Q) er nd ed false cu
               = quotient_blocks density G Q er nd ed cu) as Hq.
  { intros Q. unfold quotient_graph. simpl.
    by destruct (quotient_blocks density G Q er nd ed cu). }
  rewrite !Hq. split_and!.
  - intros [[_ Hbad]|[_ [?|?]]]%quotient_blocks_raises; [|done..].
    rewrite (adds_empty_blocks_bad_partition G P P') in Hbad by done.
    apply bad_partition_true in Hbad as (v & Hv & Hc).
    by apply Hc, Honce.
  - by apply quotient_blocks_empty_blocks_is_Ok.
  - change (qnode false) with (gset V). intros H' HH'.
    apply quotient_blocks_nodes in HH' as (_ & _ & ->).
    assert (∀ b, b ∈ add_all_new [] P' ↔ b ∈ P') as Hin.
    { intros b. rewrite elem_of_add_all_new, elem_of_nil. tauto. }
    split_and!.
    + apply NoDup_add_all_new. constructor.
    + done.
    + intros H0. by apply Hin.
Qed.
End claims_empty_blocks.

Lemma quotient_graph_empty_blocks_witness :
  adds_empty_blocks Examples.pairs6 (∅ :: Examples.pairs6 ++ [∅; ∅])
  ∧ quotient_graph Examples.no_density Examples.path6
      (inr (∅ :: Examples.pairs6 ++ [∅; ∅])) None None None false None
    ≠ Err NetworkXException.
Proof.
  assert (adds_empty_blocks Examples.pairs6 (∅ :: Examples.pairs6 ++ [∅; ∅]))
    as Hadds by (repeat constructor).
  split; [exact Hadds|].
  exact (proj1 (quotient_graph_empty_blocks Examples.no_density Examples.path6
                  Examples.pairs6 _ None None None None Hadds
                  (vp_once _ _ valid_partition_path6))).
Defined.

Section claims_classes.
Context `{Countable A}.
Implicit Types (l : list A) (R : A → A → bool).

(** C8: for a relation that is reflexive, symmetric and transitive on the
    given elements, [equivalence_classes] returns a set of blocks such that
    every element lies in exactly one block and every member of a block is
    one of the elements; an element listed several times is a member once,
    and the same set of blocks is returned for every reordering of the
    elements. *)
Theorem equivalence_classes_partition l R :
  equivalence_on l R →
  ∃ classes : gset (gset A),
    equivalence_classes l R = Ok classes
    ∧ (∀ x, x ∈ l →
         ∃ b, b ∈ classes ∧ x ∈ b ∧ ∀ b', b' ∈ classes → x ∈ b' → b' = b)
    ∧ (∀ b x, b ∈ classes → x ∈ b → x ∈ l)
    ∧ (∀ l', l' ≡ₚ l → equivalence_classes l' R = Ok classes).
Proof.
  intros HR. exists (list_to_set (class_of l R <$> l)). split_and!.
  - by apply equivalence_classes_eq.
  - intros x Hx. exists (class_of l R x). split_and!.
    + apply elem_of_list_to_set, list_elem_of_fmap. eauto.
    + apply class_of_elem_of. split; [done|]. by apply (eqv_refl l R HR).
    + intros b' (z & -> & Hz)%elem_of_list_to_set%list_elem_of_fmap
        [_ Hzx]%class_of_elem_of.
      by apply class_of_related.
  - intros b x (z & -> & Hz)%elem_of_list_to_set%list_elem_of_fmap
      [Hx _]%class_of_elem_of. done.
  - intros l' Hl'. rewrite equivalence_classes_eq.
    + f_equal. by apply classes_perm.
    + by apply (equivalence_on_perm l).
Qed.
End claims_classes.

Lemma equivalence_on_mod3 (l : list nat) :
  equivalence_on l (λ x y, x mod 3 =? y mod 3).
Proof.
  split.
  - intros x _. apply Nat.eqb_refl.
  - intros x y _ _ Hxy%Nat.eqb_eq. by apply Nat.eqb_eq.
  - intros x y z _ _ _ Hxy%Nat.eqb_eq Hyz%Nat.eqb_eq. apply Nat.eqb_eq. congruence.
Defined.

Lemma equivalence_classes_partition_witness :
  ∃ classes : gset (gset nat),
    equivalence_classes [0; 1; 2; 3; 4; 5; 3] (λ x y, x mod 3 =? y mod 3)
    = Ok classes
    ∧ (∀ x, x ∈ [0; 1; 2; 3; 4; 5; 3] →
         ∃ b, b ∈ classes ∧ x ∈ b ∧ ∀ b', b' ∈ classes → x ∈ b' → b' = b)
    ∧ (∀ b x, b ∈ classes → x ∈ b → x ∈ [0; 1; 2; 3; 4; 5; 3])
    ∧ (∀ l', l' ≡ₚ [0; 1; 2; 3; 4; 5; 3] →
         equivalence_classes l' (λ x y, x mod 3 =? y mod 3) = Ok classes).
Proof.
  exact (equivalence_classes_partition [0; 1; 2; 3; 4; 5; 3]
           (λ x y, x mod 3 =? y mod 3)
           (equivalence_on_mod3 [0; 1; 2; 3; 4; 5; 3])).
Defined.

(** C4, at an input where it fails: in the graph with nodes [0] and [1]
    and a self-loop at [1], merging [1] into [0] returns a graph that still
    has both nodes, for either value of the flag: the self-loop is reported
    as the edge [(1, 1)], rerouted to [(0, 1)], and adding that edge brings
    node [1] back. *)
Theorem contracted_nodes_self_loop_keeps_node :
  nodes Examples.looped = [0; 1]
  ∧ nodes <$> contracted_nodes Examples.looped 0 1 true = Ok [0; 1]
  ∧ nodes <$> contracted_nodes Examples.looped 0 1 false = Ok [0; 1].
Proof. split_and!; vm_compute; reflexivity. Qed.

(** C1, at an input where it fails: the multigraph with two parallel edges
    between [0] and [1], of weights 5 and 7, split into its two nodes, has
    a multigraph quotient with a single edge between the two blocks, and the
    attribute dictionary of that edge is not the one of an original edge:
    it maps the keys [0] and [1] of the parallel edges to their
    dictionaries. *)
Theorem quotient_graph_parallel_edges_merged :
  number_of_edges Examples.doubled = 2
  ∧ (λ H, (λ e, (e_src e, e_dst e, e_data e)) <$> g_edge H)
      <$> quotient_graph Examples.no_density Examples.doubled
            (inr Examples.singletons) None None None false None
    = Ok [({[0]}, {[1]},
           <[KInt 0 := VDict (Examples.weight 5)]>
             (<[KInt 1 := VDict (Examples.weight 7)]> ∅))].
Proof. split; vm_compute; reflexivity. Qed.

Section claims_simple_quotient.
Context {V : Type} `{!EqDecision V, !Countable V}.
Variable density : Graph V (attrs V) → value V.
Implicit Types (G : Graph V (attrs V)) (P : list (gset V)) (b c : gset V).

Lemma g_edge_block_graph G P nd cu : g_edge (block_graph density G P nd cu) = [].
Proof. unfold block_graph. by rewrite g_edge_add_nodes_from. Qed.

Lemma apart_block_pairs G P nd cu :
  apart (is_directed (block_graph density G P nd cu))
    (block_pairs (block_graph density G P nd cu)).
Proof.
  assert (NoDup (nodes (block_graph density G P nd cu))) as Hnd.
  { rewrite nodes_block_graph. apply NoDup_add_all_new. constructor. }
  unfold block_pairs. destruct (is_directed _).
  - by apply apart_permutations2.
  - by apply apart_combinations2.
Qed.

Lemma block_pairs_complete {A} (H : Graph (gset V) A) b c :
  b ∈ nodes H → c ∈ nodes H → b ≠ c →
  (b, c) ∈ block_pairs H ∨ (is_directed H = false ∧ (c, b) ∈ block_pairs H).
Proof.
  intros Hb Hc Hbc. unfold block_pairs. destruct (is_directed H).
  - left. by apply permutations2_from_complete.
  - destruct (combinations2_complete (nodes H) b c); auto.
Qed.

(** C2: when the quotient is a simple graph, every enumerated pair of
    blocks has exactly one edge of the quotient between its blocks if the
    pair is adjacent and none otherwise; every edge of the quotient joins
    an adjacent pair and carries [edge_data(b, c)] when that function is
    given, and otherwise the single attribute [weight], the sum, over the
    edges of [G] crossing between the two blocks, of the number under the
    [weight] attribute of the edge, an edge without that attribute
    counting for one.  The enumerated pairs are all
    pairs of different nodes of the quotient, in one order at least. *)
Theorem quotient_graph_simple_edges G P er nd ed cu H :
  (∀ e, e ∈ g_edge G → e_src e ∈ nodes G ∧ e_dst e ∈ nodes G) →
  cls_multigraph (quotient_class G cu) = false →
  quotient_graph density G (inr P) er nd ed false cu = Ok H →
  (∀ b c, (b, c) ∈ block_pairs H →
     length (filter (λ e, joins (is_directed H) b c e = true) (g_edge H))
     = if decide (the_edge_relation G er b c = Ok true) then 1 else 0)
  ∧ (∀ e, e ∈ g_edge H →
       (e_src e, e_dst e) ∈ block_pairs H
       ∧ the_edge_relation G er (e_src e) (e_dst e) = Ok true
       ∧ match ed with
         | Some f => e_data e = f (e_src e) (e_dst e)
         | None =>
             ∃ ws,
               Forall2 (λ e' w, weighs (e_data e') w)
                 (crossing_edges G (e_src e) (e_dst e)) ws
               ∧ e_data e = <[KStr "weight" := VInt (sum_list_Z ws)]> ∅
         end)
  ∧ (∀ b c, b ∈ nodes H → c ∈ nodes H → b ≠ c →
       (b, c) ∈ block_pairs H
       ∨ (is_directed H = false ∧ (c, b) ∈ block_pairs H)).
Proof.
  intros Hends Hsimple HH. change (qnode false) with (gset V) in *.
  unfold quotient_graph in HH. simpl in HH.
  apply bind_Ok in HH as (H0 & HH0 & [= <-]).
  apply quotient_blocks_Ok in HH0 as (_ & ts & Hts & ->).
  rewrite Hsimple in Hts.
  set (BG := block_graph density G P nd cu) in *.
  destruct (simple_edges_Ok _ _ _ _ Hts) as [Hpairs Hdata].
  assert (∀ t, t ∈ ts → t.1.1 ∈ nodes BG ∧ t.1.2 ∈ nodes BG) as Hnodes.
  { intros t Ht. apply block_pairs_ends. by eapply simple_edges_ends. }
  assert (is_multigraph BG = false) as Hm.
  { unfold is_multigraph, BG. by rewrite g_class_block_graph. }
  assert (apart (is_directed BG) ts.*1) as Hapart.
  { rewrite Hpairs. apply (apart_filter _ _), apart_block_pairs. }
  assert (g_edge (add_edges_from BG ts)
          = (λ t, mkEdge t.1.1 t.1.2 0 t.2) <$> ts) as Hedges.
  { rewrite add_edges_from_simple; try done.
    - unfold BG. by rewrite g_edge_block_graph.
    - intros t Ht. apply has_edge_false. unfold BG.
      rewrite g_edge_block_graph. by intros e ?%elem_of_nil. }
  assert (is_directed (add_edges_from BG ts) = is_directed BG) as Hdir.
  { unfold is_directed. by rewrite g_class_add_edges_from. }
  assert (nodes (add_edges_from BG ts) = nodes BG) as Hn.
  { unfold nodes. by rewrite g_node_add_edges_from_present. }
  assert (block_pairs (add_edges_from BG ts) = block_pairs BG) as Hbp.
  { unfold block_pairs. by rewrite Hdir, Hn. }
  rewrite Hbp, Hdir, Hedges, Hn. split_and!.
  - intros b c Hbc. rewrite length_filter_joins.
    rewrite (apart_count _ (block_pairs BG)).
    + rewrite Hpairs. destruct (decide (the_edge_relation G er b c = Ok true)).
      * rewrite decide_True; [done|]. by apply list_elem_of_filter.
      * rewrite decide_False; [done|]. by intros [? _]%list_elem_of_filter.
    + apply apart_block_pairs.
    + intros p. rewrite Hpairs. by intros [_ ?]%list_elem_of_filter.
    + by eapply apart_NoDup.
    + done.
  - intros e (t & -> & Ht)%list_elem_of_fmap. simpl.
    assert ((t.1.1, t.1.2) ∈ ts.*1) as Hin.
    { apply list_elem_of_fmap. exists t. split; [by destruct t as [[] ?]|done]. }
    rewrite Hpairs in Hin. apply list_elem_of_filter in Hin as [Hadj Hin].
    split_and!; [done..|].
    rewrite Forall_forall in Hdata. specialize (Hdata t Ht).
    destruct ed as [f|]; simpl in Hdata.
    + by injection Hdata.
    + by apply default_edge_data_Ok.
  - intros b c. apply block_pairs_complete.
Qed.
End claims_simple_quotient.

(** Membership in an explicit list, by position. *)
Ltac list_member := vm_compute; repeat (first [left | right]).

Lemma ends_are_nodes_true {N A} `{EqDecision N} (G : Graph N A) :
  ends_are_nodes G = true →
  ∀ e, e ∈ g_edge G → e_src e ∈ nodes G ∧ e_dst e ∈ nodes G.
Proof.
  unfold ends_are_nodes. rewrite forallb_forall. intros Hall e He.
  specialize (Hall e (proj1 (list_elem_of_In _ _) He)).
  apply andb_true_iff in Hall as [Hs Hd].
  unfold has_node in Hs, Hd.
  apply bool_decide_eq_true in Hs. apply bool_decide_eq_true in Hd. done.
Defined.

Lemma square_simple_quotient_eq :
  quotient_graph Examples.no_density Examples.square
    (inr Examples.square_halves) None (Some Examples.no_data) None false None
  = Ok Examples.square_simple_quotient.
Proof. by_evaluation. Defined.

Lemma quotient_graph_simple_edges_witness :
  quotient_graph Examples.no_density Examples.square
    (inr Examples.square_halves) None (Some Examples.no_data) None false None
  = Ok Examples.square_simple_quotient
  ∧ length (filter (λ e, joins (is_directed Examples.square_simple_quotient)
                           {[0; 1]} {[2; 3]} e = true)
              (g_edge Examples.square_simple_quotient)) = 1
  ∧ ∀ e, e ∈ g_edge Examples.square_simple_quotient →
      e_data e = <[KStr "weight" := VInt 12]> ∅.
Proof.
  split; [exact square_simple_quotient_eq|].
  assert (ends_are_nodes Examples.square = true) as Hends by by_evaluation.
  destruct (quotient_graph_simple_edges Examples.no_density Examples.square
              Examples.square_halves None (Some Examples.no_data) None None
              Examples.square_simple_quotient
              (ends_are_nodes_true Examples.square Hends) eq_refl
              square_simple_quotient_eq)
    as (Hcount & Hdata & _).
  split.
  - rewrite (Hcount {[0; 1]} {[2; 3]}).
    + vm_compute. reflexivity.
    + list_member.
  - intros e He. destruct (Hdata e He) as (_ & _ & ws & Hws & ->).
    assert (Forall2 (λ e' w, weighs (e_data e') w)
              (crossing_edges Examples.square (e_src e) (e_dst e))
              [5; 7]%Z) as Hws'.
    { clear Hws. unfold Examples.square_simple_quotient in He.
      simpl in He. list_cases He.
      match goal with
      | |- Forall2 _ ?l _ =>
          assert (l = [mkEdge 1 2 0 (Examples.weight 5);
                       mkEdge 3 0 0 (Examples.weight 7)]) as ->
            by by_evaluation
      end.
      repeat constructor; left; by_evaluation. }
    by rewrite (Forall2_weighs_agree _ _ _ Hws Hws').
Defined.

Section claims_frame.
Context {V : Type} `{!EqDecision V, !Countable V}.
Variable density_st : Graph V loc → hvalue V.
Implicit Types (σ : store V) (g : Graph V loc).

Lemma dict_at_frame σ σ' l :
  σ ⊆ σ' → is_Some (σ !! l) → dict_at σ' l = dict_at σ l.
Proof.
  intros Hsub [o Ho]. unfold dict_at.
  by rewrite (lookup_weaken _ _ _ _ Ho Hsub), Ho.
Qed.

Lemma contents_frame σ σ' g :
  dicts_exist σ g → σ ⊆ σ' → contents σ' g = contents σ g.
Proof.
  intros [Hn He] Hsub. unfold contents. f_equal; [f_equal|].
  - apply list_fmap_ext. intros i [n l] Hi%list_elem_of_lookup_2. simpl.
    f_equal. apply dict_at_frame; [done|]. by apply (Hn n).
  - apply list_fmap_ext. intros i e Hi%list_elem_of_lookup_2.
    f_equal. apply dict_at_frame; [done|]. by apply He.
Qed.

Lemma untouched_frame σ σ' G g :
  input_graph σ G g → σ ⊆ σ' → untouched σ G g σ'.
Proof.
  intros [HG Hd] Hsub. split; [by eapply lookup_weaken|].
  split; [by apply contents_frame|done].
Qed.

(** An invalid partition is reported with the store as the caller left
    it: no object has been made. *)
Lemma quotient_graph_st_invalid_partition σ G g blocks edge_relation
    node_data edge_data relabel create_using :
  σ !! G = Some (OGraph g) → bad_partition g blocks = true →
  quotient_graph_st density_st G (inr blocks) edge_relation node_data
    edge_data relabel create_using σ
  = (Err NetworkXException, σ).
Proof.
  intros HG Hbad. unfold quotient_graph_st, bind_st, read_graph, lift.
  by rewrite HG, Hbad.
Qed.

(** C6: a call of [quotient_graph], [contracted_nodes] or
    [contracted_edge] on the graph object [G], whether it returns or
    raises, ends in a store in which [G] is the graph it was, with the
    same nodes and edges, each with the attribute map it had, and in
    which every object that existed before the call is unchanged. *)
Theorem minors_leave_input σ G g :
  input_graph σ G g →
  (∀ partition edge_relation node_data edge_data relabel create_using,
     untouched σ G g
       (quotient_graph_st density_st G partition edge_relation node_data
          edge_data relabel create_using σ).2)
  ∧ (∀ u v self_loops,
       untouched σ G g (contracted_nodes_st G u v self_loops σ).2)
  ∧ (∀ edge self_loops,
       untouched σ G g (contracted_edge_st G edge self_loops σ).2).
Proof.
  intros Hin. split_and!; intros; apply untouched_frame; try done.
  - apply quotient_graph_st_frame.
  - apply contracted_nodes_st_frame.
  - apply contracted_edge_st_frame.
Qed.
End claims_frame.

Lemma input_graph_edge_store :
  input_graph Examples.edge_store 0 Examples.edge12.
Proof.
  split; [by vm_compute|]. split.
  - intros n l Hin. simpl in Hin.
    repeat (apply elem_of_cons in Hin as [[= -> ->]|Hin]);
      [..|by apply elem_of_nil in Hin]; vm_compute; by eexists.
  - intros e Hin. simpl in Hin. list_cases Hin; vm_compute; by eexists.
Defined.

Lemma minors_leave_input_witness :
  input_graph Examples.edge_store 0 Examples.edge12
  ∧ (∀ u v self_loops,
       untouched Examples.edge_store 0 Examples.edge12
         (contracted_nodes_st 0 u v self_loops Examples.edge_store).2).
Proof.
  split; [exact input_graph_edge_store|].
  exact (proj1 (proj2 (minors_leave_input Examples.no_density_st
                         Examples.edge_store 0 Examples.edge12
                         input_graph_edge_store))).
Defined.

(** The calls do return on the example store: the contraction of [1] into
    [2], which has a record of contractions already, and the quotient of
    the graph by its nodes. *)
Lemma contracted_nodes_st_returns :
  is_Ok (contracted_nodes_st 0 2 1 true Examples.edge_store).1
  ∧ is_Ok (contracted_nodes_st 0 1 2 false Examples.edge_store).1.
Proof. split; vm_compute; by eexists. Qed.

Lemma quotient_graph_st_returns :
  is_Ok (quotient_graph_st Examples.no_density_st 0 (inr [{[1]}; {[2]}])
           None None None false None Examples.edge_store).1.
Proof. vm_compute. by eexists. Qed.

(** On the example store, the graphs that the calls on objects build are,
    read back by value, the graphs that the calls on values return, and
    the exceptions are the same. *)
Lemma contracted_nodes_st_agrees :
  node_graph_at 5 Examples.edge_store 0 = Some Examples.edge12_value
  ∧ (∀ u v self_loops, u ∈ [1; 2; 3] → v ∈ [1; 2; 3] →
       (let r := contracted_nodes_st 0 u v self_loops Examples.edge_store in
        (λ H, node_graph_at 5 r.2 H) <$> r.1)
       = (Some <$> contracted_nodes Examples.edge12_value u v self_loops)).
Proof.
  split; [by_evaluation|].
  intros u v self_loops Hu Hv.
  list_cases Hu; list_cases Hv; destruct self_loops; by_evaluation.
Qed.

Lemma contracted_edge_st_agrees :
  ∀ u v self_loops, u ∈ [1; 2; 3] → v ∈ [1; 2; 3] →
    (let r := contracted_edge_st 0 (u, v) self_loops Examples.edge_store in
     (λ H, node_graph_at 5 r.2 H) <$> r.1)
    = (Some <$> contracted_edge Examples.edge12_value (u, v) self_loops).
Proof.
  intros u v self_loops Hu Hv.
  list_cases Hu; list_cases Hv; destruct self_loops; by_evaluation.
Qed.

Lemma quotient_graph_st_agrees :
  ∀ blocks create_using,
    blocks ∈ [[{[1]}; {[2]}]; [{[1; 2]}]; [{[2]}; {[1]}; ∅]; [{[1]}];
              [{[1]}; {[1; 2]}]] →
    create_using ∈ [None; Some ClsDiGraph; Some ClsMultiGraph] →
    (let r := quotient_graph_st Examples.no_density_st 0 (inr blocks)
                None None None false create_using Examples.edge_store in
     (λ H, block_graph_at 5 r.2 H) <$> r.1)
    = (Some <$> quotient_graph Examples.no_density Examples.edge12_value
                  (inr blocks) None None None false create_using).
Proof.
  intros blocks create_using Hb Hc.
  list_cases Hb; list_cases Hc; by_evaluation.
Qed.

(** * Further properties of the functions *)

(** ** [equivalence_classes] on any relation *)

Section classes_any_relation.
Context `{Countable A}.
Implicit Types (l : list A) (R : A → A → bool) (blocks : list (list A)).

Lemma place_in_blocks_any R y blocks :
  Forall (led_by R) blocks →
  ∃ blocks',
    place_in_blocks R y blocks = Ok blocks'
    ∧ Forall (led_by R) blocks'
    ∧ ∀ x, in_blocks x blocks' ↔ x = y ∨ in_blocks x blocks.
Proof.
  induction blocks as [|block rest IH]; intros Hled.
  - exists [[y]]. split; [done|]. split.
    + constructor; [|done]. exists y, []. split; [done|].
      by intros z ?%elem_of_nil.
    + intros x. rewrite in_blocks_cons, list_elem_of_singleton. tauto.
  - apply Forall_cons in Hled as [(h & t & -> & Ht) Hrest]. simpl.
    destruct (R h y) eqn:Hhy.
    + eexists. split; [done|]. split.
      * constructor; [|done]. exists h, (t ++ [y]). split; [done|].
        intros z [Hz| ->%list_elem_of_singleton]%elem_of_app; [by apply Ht|done].
      * intros x. rewrite !in_blocks_cons.
        change ((h :: t) ++ [y]) with (h :: (t ++ [y])).
        rewrite !elem_of_cons, elem_of_app, list_elem_of_singleton. tauto.
    + destruct (IH Hrest) as (rest' & -> & Hled' & Hin). simpl.
      eexists. split; [done|]. split.
      * constructor; [|done]. by exists h, t.
      * intros x. rewrite !in_blocks_cons, Hin. tauto.
Qed.

Lemma collect_blocks_any R blocks ys :
  Forall (led_by R) blocks →
  ∃ blocks',
    collect_blocks R blocks ys = Ok blocks'
    ∧ Forall (led_by R) blocks'
    ∧ ∀ x, in_blocks x blocks' ↔ x ∈ ys ∨ in_blocks x blocks.
Proof.
  revert blocks. induction ys as [|y ys IH]; intros blocks Hled.
  - exists blocks. split; [done|]. split; [done|].
    intros x. rewrite elem_of_nil. tauto.
  - destruct (place_in_blocks_any R y blocks Hled) as (blocks1 & Hp & Hled1 & Hin1).
    destruct (IH blocks1 Hled1) as (blocks' & Hc & Hled' & Hin').
    exists blocks'. simpl. rewrite Hp. simpl. split; [done|]. split; [done|].
    intros x. rewrite Hin', Hin1, elem_of_cons. tauto.
Qed.

(** X1: whatever the relation is, [equivalence_classes] returns a set of
    blocks; the members of the blocks are exactly the given elements, and
    every block has a member to which each of its other members is
    related, so that no block is empty. *)
Theorem equivalence_classes_any_relation l R :
  ∃ classes : gset (gset A),
    equivalence_classes l R = Ok classes
    ∧ (∀ x, x ∈ l ↔ ∃ b, b ∈ classes ∧ x ∈ b)
    ∧ (∀ b, b ∈ classes →
         ∃ h, h ∈ b ∧ ∀ y, y ∈ b → y = h ∨ R h y = true).
Proof.
  destruct (collect_blocks_any R [] l) as (blocks & Hc & Hled & Hin);
    [constructor|].
  exists (list_to_set (list_to_set <$> blocks)).
  unfold equivalence_classes. rewrite Hc. simpl. split; [done|]. split.
  - intros x. split.
    + intros Hx.
      destruct (proj2 (Hin x) (or_introl Hx)) as (block & Hblock & Hxb).
      exists (list_to_set block). split.
      * apply elem_of_list_to_set, list_elem_of_fmap. eauto.
      * by apply elem_of_list_to_set.
    + intros (b & (block & -> & Hblock)%elem_of_list_to_set%list_elem_of_fmap
              & Hxb%elem_of_list_to_set).
      destruct (proj1 (Hin x)) as [?|Hnil]; [by exists block|done|].
      by apply in_blocks_nil in Hnil.
  - intros b (block & -> & Hblock)%elem_of_list_to_set%list_elem_of_fmap.
    rewrite Forall_forall in Hled.
    destruct (Hled block) as (h & t & -> & Ht); [done|].
    exists h. split; [apply elem_of_list_to_set; by left|].
    intros y [->|Hy]%elem_of_list_to_set%elem_of_cons; [by left|].
    right. by apply Ht.
Qed.

(** X2: for a relation that is reflexive, symmetric and transitive on the
    given elements, two elements lie in a common block of the result
    exactly when they are related. *)
Theorem equivalence_classes_related l R :
  equivalence_on l R →
  ∃ classes : gset (gset A),
    equivalence_classes l R = Ok classes
    ∧ ∀ x y, x ∈ l → y ∈ l →
        (∃ b, b ∈ classes ∧ x ∈ b ∧ y ∈ b) ↔ R x y = true.
Proof.
  intros HR. exists (list_to_set (class_of l R <$> l)).
  split; [by apply equivalence_classes_eq|].
  intros x y Hx Hy. split.
  - intros (b & (z & -> & Hz)%elem_of_list_to_set%list_elem_of_fmap
            & [_ Hzx]%class_of_elem_of & [_ Hzy]%class_of_elem_of).
    apply (eqv_trans l R HR x z y); [done..| |done].
    by apply (eqv_sym l R HR).
  - intros Hxy. exists (class_of l R x). split_and!.
    + apply elem_of_list_to_set, list_elem_of_fmap. eauto.
    + apply class_of_elem_of. split; [done|]. by apply (eqv_refl l R HR).
    + by apply class_of_elem_of.
Qed.
End classes_any_relation.

Lemma equivalence_classes_related_witness :
  ∃ classes : gset (gset nat),
    equivalence_classes [0; 1; 2; 3; 4; 5; 3] (λ x y, x mod 3 =? y mod 3)
    = Ok classes
    ∧ ∀ x y, x ∈ [0; 1; 2; 3; 4; 5; 3] → y ∈ [0; 1; 2; 3; 4; 5; 3] →
        (∃ b, b ∈ classes ∧ x ∈ b ∧ y ∈ b) ↔ (x mod 3 =? y mod 3) = true.
Proof.
  exact (equivalence_classes_related [0; 1; 2; 3; 4; 5; 3]
           (λ x y, x mod 3 =? y mod 3)
           (equivalence_on_mod3 [0; 1; 2; 3; 4; 5; 3])).
Defined.

(** ** The edge relation through the graph updates *)

Section has_edge_structure.
Context {N A : Type} `{EqDecision N}.
Implicit Types (G : Graph N A) (e : Edge N A) (u v x y : N).

Lemma has_edge_joins G x y :
  has_edge G x y = true ↔
  ∃ e, e ∈ g_edge G ∧ joins (is_directed G) x y e = true.
Proof.
  unfold has_edge. rewrite existsb_exists. split.
  - intros (e & He%list_elem_of_In & Hj). eauto.
  - intros (e & He%list_elem_of_In & Hj). eauto.
Qed.

Lemma has_edge_same_pair G x y :
  has_edge G x y = true ↔
  ∃ e, e ∈ g_edge G ∧ same_pair (is_directed G) (e_src e, e_dst e) (x, y).
Proof.
  rewrite has_edge_joins. by setoid_rewrite joins_same_pair.
Qed.

Lemma has_edge_sym G x y :
  is_directed G = false → has_edge G x y = true → has_edge G y x = true.
Proof.
  intros Hd. rewrite !has_edge_same_pair, Hd.
  intros (e & He & [Heq|[_ Heq]]); exists e; (split; [done|]);
    simpl in *; [right|left]; by simplify_eq.
Qed.

Lemma same_pair_trans directed (p q r : N * N) :
  same_pair directed p q → same_pair directed q r → same_pair directed p r.
Proof.
  destruct p, q, r. unfold same_pair. simpl.
  intros [?|[? ?]] [?|[? ?]]; simplify_eq; auto.
Qed.

Lemma incident_false n e :
  incident n e = false ↔ e_src e ≠ n ∧ e_dst e ≠ n.
Proof.
  unfold incident. rewrite orb_false_iff, !bool_decide_eq_false. tauto.
Qed.

Lemma has_edge_remove_node G G' v x y :
  remove_node G v = Ok G' →
  has_edge G' x y = true ↔ has_edge G x y = true ∧ x ≠ v ∧ y ≠ v.
Proof.
  unfold remove_node. destruct (has_node G v); [|done]. intros [= <-].
  rewrite !has_edge_same_pair. unfold is_directed. simpl. split.
  - intros (e & [[Hs Hd]%incident_false He]%list_elem_of_filter & Hp). split.
    + by exists e.
    + destruct Hp as [Hp|[_ Hp]]; simpl in Hp; by simplify_eq.
  - intros [(e & He & Hp) [Hx Hy]]. exists e. split; [|done].
    apply list_elem_of_filter. split; [|done]. apply incident_false.
    destruct Hp as [Hp|[_ Hp]]; simpl in Hp; by simplify_eq.
Qed.
End has_edge_structure.

Section has_edge_updates.
Context {V : Type} `{!EqDecision V, !Countable V}.
Context {N : Type} `{EqDecision N}.
Implicit Types (G : Graph N (attrs V)) (u v x y a b : N) (d : attrs V).

Lemma has_edge_ensure_node G n x y :
  has_edge (ensure_node G n) x y = has_edge G x y.
Proof. unfold ensure_node. by destruct (has_node G n). Qed.

Lemma has_edge_add_edge G a b d x y :
  has_edge (add_edge G a b d) x y = true ↔
  has_edge G x y = true ∨ same_pair (is_directed G) (a, b) (x, y).
Proof.
  assert (∀ z w, has_edge (ensure_node (ensure_node G a) b) z w
                 = has_edge G z w) as Hsame.
  { intros z w. by rewrite !has_edge_ensure_node. }
  assert (is_directed (ensure_node (ensure_node G a) b) = is_directed G)
    as Hdir.
  { unfold is_directed. by rewrite !g_class_ensure_node. }
  rewrite <-(Hsame x y). unfold add_edge.
  set (G1 := ensure_node (ensure_node G a) b) in *. clearbody G1.
  rewrite <-Hdir.
  assert (∀ k d', has_edge
            (mkGraph (g_class G1) (g_node G1) (g_edge G1 ++ [mkEdge a b k d']))
            x y = true
          ↔ has_edge G1 x y = true ∨ same_pair (is_directed G1) (a, b) (x, y))
    as Happ.
  { intros k d'. rewrite !has_edge_same_pair. unfold is_directed. simpl. split.
    - intros (e & [He| ->%list_elem_of_singleton]%elem_of_app & Hp);
        [left; eauto|by right].
    - intros [(e & He & Hp)|Hp].
      + exists e. split; [|done]. apply elem_of_app. by left.
      + eexists. split; [apply elem_of_app; right; by left|done]. }
  destruct (is_multigraph G1); [apply Happ|].
  destruct (has_edge G1 a b) eqn:Hab; [|apply Happ].
  split.
  - intros (e & (e0 & -> & He0)%list_elem_of_fmap & Hp)%has_edge_same_pair.
    left. apply has_edge_same_pair. exists e0. split; [done|].
    unfold is_directed in *. simpl in Hp. by destruct (joins _ a b e0).
  - intros Hor.
    assert (has_edge G1 x y = true) as (e & He & Hp)%has_edge_same_pair.
    { destruct Hor as [?|Hp]; [done|].
      apply has_edge_same_pair in Hab as (e & He & Hab).
      apply has_edge_same_pair. exists e. split; [done|].
      by eapply same_pair_trans. }
    apply has_edge_same_pair. eexists. split.
    + apply list_elem_of_fmap. by exists e.
    + unfold is_directed in *. simpl. by destruct (joins _ a b e).
Qed.

Lemma has_edge_add_edges_from G (ts : list (N * N * attrs V)) x y :
  has_edge (add_edges_from G ts) x y = true ↔
  has_edge G x y = true
  ∨ ∃ t, t ∈ ts ∧ same_pair (is_directed G) (t.1.1, t.1.2) (x, y).
Proof.
  unfold add_edges_from. revert G. induction ts as [|t ts IH]; intros G.
  - simpl. split; [by left|]. intros [?|(t & ?%elem_of_nil & _)]; done.
  - simpl. rewrite IH, has_edge_add_edge.
    assert (is_directed (add_edge G t.1.1 t.1.2 t.2) = is_directed G) as ->.
    { unfold is_directed. by rewrite g_class_add_edge. }
    split.
    + intros [[?|?]|(t' & Ht' & ?)]; [by left|right..].
      * exists t. split; [by left|done].
      * exists t'. split; [by right|done].
    + intros [?|(t' & [->|Ht']%elem_of_cons & ?)]; [by left; left|by left; right|].
      right. by exists t'.
Qed.

Lemma has_edge_set_node_attr G n k w x y :
  has_edge (set_node_attr G n k w) x y = has_edge G x y.
Proof. done. Qed.
End has_edge_updates.

(** ** Contraction: the edges of the result *)

Section contraction_edges.
Context {V : Type} `{!EqDecision V, !Countable V}.
Implicit Types (G H : Graph V (attrs V)) (u v w x y a b : V).

Lemma nbunch_iter_node {N A} `{EqDecision N} (G : Graph N A) (n : N) :
  has_node G n = true → nbunch_iter G [n] = [n].
Proof.
  intros Hn%bool_decide_eq_true. unfold nbunch_iter.
  by rewrite filter_cons_True.
Qed.

Lemma undirected_edges_at_pairs {N A} `{EqDecision N} (G : Graph N A)
    (n w : N) :
  (∃ t, t ∈ undirected_edges_iter G [] [n] ∧ t.1.2 = w) ↔
  ∃ e, e ∈ g_edge G
       ∧ ((e_src e = n ∧ e_dst e = w) ∨ (e_dst e = n ∧ e_src e = w)).
Proof.
  simpl. rewrite app_nil_r. unfold edges_from_unseen. split.
  - intros (t & (e & He & Ht)%elem_of_flat_map & <-). exists e.
    split; [done|]. unfold report_edge in Ht.
    destruct (decide (e_src e = n)) as [Hs|Hs].
    + destruct (decide (e_dst e ∈ [])); [by apply elem_of_nil in Ht|].
      apply list_elem_of_singleton in Ht as ->. by left.
    + destruct (decide (e_dst e = n)); [|by apply elem_of_nil in Ht].
      destruct (decide (e_src e ∈ [])); [by apply elem_of_nil in Ht|].
      apply list_elem_of_singleton in Ht as ->. by right.
  - intros (e & He & Hends).
    assert (∃ t, t ∈ report_edge [] n e ∧ t.1.2 = w) as (t & Ht & Hw).
    { unfold report_edge. destruct (decide (e_src e = n)) as [Hs|Hs].
      - rewrite decide_False by (by intros ?%elem_of_nil).
        exists (n, e_dst e, e_data e). split; [by left|]. simpl.
        destruct Hends as [[_ ?]|[? ?]]; congruence.
      - destruct Hends as [[? _]|[Hd <-]]; [done|].
        rewrite decide_True by done.
        rewrite decide_False by (by intros ?%elem_of_nil).
        exists (n, e_src e, e_data e). split; [by left|done]. }
    exists t. split; [|done]. apply elem_of_flat_map. eauto.
Qed.

Lemma has_edge_directed {N A} `{EqDecision N} (G : Graph N A) (x y : N) :
  is_directed G = true →
  has_edge G x y = true ↔ ∃ e, e ∈ g_edge G ∧ e_src e = x ∧ e_dst e = y.
Proof.
  intros Hd. rewrite has_edge_same_pair, Hd. split.
  - intros (e & He & [[= ? ?]|[[=] _]]). eauto.
  - intros (e & He & <- & <-). exists e. split; [done|by left].
Qed.

Lemma has_edge_undirected {N A} `{EqDecision N} (G : Graph N A) (x y : N) :
  is_directed G = false →
  has_edge G x y = true ↔
  ∃ e, e ∈ g_edge G
       ∧ ((e_src e = x ∧ e_dst e = y) ∨ (e_dst e = x ∧ e_src e = y)).
Proof.
  intros Hd. rewrite has_edge_same_pair, Hd. split.
  - intros (e & He & [[= ? ?]|[_ [= ? ?]]]); exists e; (split; [done|]); auto.
  - intros (e & He & [[<- <-]|[<- <-]]); exists e; (split; [done|]);
      [by left|by right].
Qed.

(** The pairs of nodes that the generator [new_edges] yields. *)
Lemma new_edges_pairs {A} (G : Graph V A) u v self_loops es a b :
  new_edges G u v self_loops = Ok es →
  (∃ t, t ∈ es ∧ t.1 = (a, b)) ↔
  (a = u ∧ has_edge G v b = true ∧ keeps self_loops u b = true)
  ∨ (is_directed G = true ∧ b = u ∧ has_edge G a v = true
     ∧ keeps self_loops u a = true).
Proof.
  unfold new_edges, in_edges_data_at, out_edges_data_at, edges_data_at,
    edges_data.
  destruct (has_node G v) eqn:Hv; [|by destruct (is_directed G)].
  destruct (is_directed G) eqn:Hd; simpl; intros [= <-].
  - unfold rerouted_in, rerouted_out.
    setoid_rewrite elem_of_app. setoid_rewrite list_elem_of_fmap.
    setoid_rewrite list_elem_of_filter.
    setoid_rewrite elem_of_in_edges_iter.
    setoid_rewrite elem_of_out_edges_iter.
    rewrite !has_edge_directed by done. split.
    + intros (t & [(t0 & -> & Hk & e & He & Hdst & ->)
                  |(t0 & -> & Hk & e & He & Hsrc & ->)] & [= <- <-]); simpl in *.
      * right. split; [done|]. split; [done|]. split; [|done]. eauto.
      * left. split; [done|]. split; [|done]. eauto.
    + intros [(-> & (e & He & Hs & Hdst) & Hk)
             |(_ & -> & (e & He & Hs & Hdst) & Hk)].
      * exists (u, b, e_data e). split; [|done]. right.
        exists (v, e_dst e, e_data e). simpl. rewrite Hdst.
        split; [done|]. split; [done|]. exists e. by rewrite Hdst.
      * exists (a, u, e_data e). split; [|done]. left.
        exists (e_src e, v, e_data e). simpl. rewrite Hs.
        split; [done|]. split; [done|]. exists e. by rewrite Hs.
  - rewrite nbunch_iter_node by done. unfold rerouted_out.
    setoid_rewrite list_elem_of_fmap. setoid_rewrite list_elem_of_filter.
    rewrite has_edge_undirected by done. split.
    + intros (t & (t0 & -> & Hk & Ht0) & [= <- <-]). left.
      split; [done|]. split; [|done].
      apply (undirected_edges_at_pairs G v). eauto.
    + intros [(-> & Hex & Hk)|([=] & _)].
      apply (undirected_edges_at_pairs G v) in Hex as (t0 & Ht0 & <-).
      exists (u, t0.1.2, t0.2). split; [|done]. by exists t0.
Qed.

(** The edge relation of the graph that [contracted_nodes] returns. *)
Lemma contracted_nodes_has_edge G u v self_loops H x y :
  contracted_nodes G u v self_loops = Ok H →
  has_edge H x y = true ↔
  (has_edge G x y = true ∧ x ≠ v ∧ y ≠ v)
  ∨ (x = u ∧ has_edge G v y = true ∧ keeps self_loops u y = true)
  ∨ (y = u ∧ has_edge G x v = true ∧ keeps self_loops u x = true).
Proof.
  unfold contracted_nodes, copy.
  intros (es & Hes & (v_data & _ & (G1 & HG1 & Hrest)%bind_Ok)%bind_Ok)%bind_Ok.
  apply bind_Ok in Hrest as (u_data & _ & Hrest).
  assert (is_directed G1 = is_directed G) as Hdir.
  { unfold is_directed. by destruct (nodes_remove_node _ _ _ HG1) as [_ ->]. }
  assert (has_edge H x y = has_edge (add_edges_from G1 es) x y) as ->.
  { destruct (u_data !! _) as [[]|]; simplify_eq; done. }
  rewrite has_edge_add_edges_from, (has_edge_remove_node G G1 v) by done.
  rewrite Hdir. split.
  - intros [?|(t & Ht & Hp)]; [by left|]. right.
    assert (∃ t', t' ∈ es ∧ t'.1 = (t.1.1, t.1.2)) as Hex.
    { exists t. split; [done|]. by destruct t as [[] ?]. }
    apply (new_edges_pairs G u v self_loops es) in Hex; [|done].
    destruct Hp as [[= Ha Hb]|[Hd [= Ha Hb]]]; simpl in *;
      rewrite Ha, Hb in Hex.
    + destruct Hex as [(? & ? & ?)|(_ & ? & ? & ?)]; [by left|by right].
    + destruct Hex as [(Hu & He & Hk)|(Hd' & _)]; [|congruence].
      right. split; [done|]. split; [|done]. by apply has_edge_sym.
  - intros [?|Hnew]; [by left|]. right.
    destruct Hnew as [(-> & He & Hk)|(-> & He & Hk)].
    + destruct (proj2 (new_edges_pairs G u v self_loops es u y Hes))
        as (t & Ht & Heq); [by left|].
      exists t. split; [done|]. left. by destruct t as [[] ?]; simplify_eq.
    + destruct (is_directed G) eqn:Hd.
      * destruct (proj2 (new_edges_pairs G u v self_loops es x u Hes))
          as (t & Ht & Heq); [by right|].
        exists t. split; [done|]. left. by destruct t as [[] ?]; simplify_eq.
      * destruct (proj2 (new_edges_pairs G u v self_loops es u x Hes))
          as (t & Ht & Heq).
        { left. split; [done|]. split; [|done]. by apply has_edge_sym. }
        exists t. split; [done|]. right. split; [done|].
        by destruct t as [[] ?]; simplify_eq.
Qed.
End contraction_edges.

(** ** Node attributes through the graph updates *)

Section attr_of.
Context {N A : Type} `{EqDecision N}.
Implicit Types (l : list (N * A)) (n m v : N).

Lemma attr_of_cons (p : N * A) l n :
  attr_of (p :: l) n = if decide (p.1 = n) then Ok p.2 else attr_of l n.
Proof.
  unfold attr_of. simpl. destruct (decide (p.1 = n)); [by destruct p|].
  by destruct (list_find _ l) as [[i [m a]]|].
Qed.

Lemma attr_of_app l1 l2 n :
  attr_of (l1 ++ l2) n
  = match attr_of l1 n with Ok a => Ok a | Err _ => attr_of l2 n end.
Proof.
  induction l1 as [|p l1 IH]; [done|].
  rewrite <-app_comm_cons, !attr_of_cons. by destruct (decide (p.1 = n)).
Qed.

Lemma attr_of_is_Ok l n : is_Ok (attr_of l n) ↔ n ∈ l.*1.
Proof.
  induction l as [|p l IH].
  - split; [by intros [a [=]]|by intros ?%elem_of_nil].
  - rewrite attr_of_cons, fmap_cons, elem_of_cons.
    destruct (decide (p.1 = n)) as [<-|Hne].
    + split; [by left|]. intros _. apply is_Ok_Ok.
    + rewrite IH. split; [by right|]. by intros [?|?].
Qed.

Lemma attr_of_Err l n : n ∉ l.*1 → attr_of l n = Err KeyError.
Proof.
  induction l as [|p l IH]; [done|].
  rewrite attr_of_cons, fmap_cons, not_elem_of_cons. intros [Hne Hn].
  rewrite decide_False by done. by apply IH.
Qed.

Lemma attr_of_filter_ne l v n :
  n ≠ v → attr_of (filter (λ p, p.1 ≠ v) l) n = attr_of l n.
Proof.
  intros Hne. induction l as [|p l IH]; [done|].
  rewrite filter_cons, attr_of_cons. destruct (decide (p.1 ≠ v)) as [Hp|Hp].
  - by rewrite attr_of_cons, IH.
  - rewrite IH. apply dec_stable in Hp. rewrite decide_False; [done|congruence].
Qed.

Lemma attr_of_update (f : A → A) l n m :
  attr_of (map (λ p, if decide (p.1 = n) then (p.1, f p.2) else p) l) m
  = if decide (m = n) then f <$> attr_of l n else attr_of l m.
Proof.
  induction l as [|p l IH]; [by destruct (decide (m = n))|].
  simpl. rewrite !attr_of_cons, IH.
  destruct (decide (p.1 = n)) as [Hp|Hp]; simpl.
  - destruct (decide (m = n)) as [->|Hm].
    + by rewrite decide_True.
    + destruct (decide (p.1 = m)); [congruence|done].
  - destruct (decide (m = n)) as [->|Hm]; [by rewrite decide_False|done].
Qed.

Lemma attr_of_fmap_const (a : A) (names : list N) n :
  n ∈ names → attr_of ((λ m, (m, a)) <$> names) n = Ok a.
Proof.
  induction names as [|m names IH]; [by intros ?%elem_of_nil|].
  rewrite fmap_cons, attr_of_cons. simpl.
  destruct (decide (m = n)); [done|]. intros [?|?]%elem_of_cons; [done|auto].
Qed.
End attr_of.

Section node_attr_updates.
Context {V : Type} `{!EqDecision V, !Countable V}.
Context {N : Type} `{EqDecision N}.
Implicit Types (G : Graph N (attrs V)) (u v n m : N).

Lemma node_attr_attr_of {A} (G : Graph N A) n :
  node_attr G n = attr_of (g_node G) n.
Proof. done. Qed.

Lemma node_attr_remove_node {A} (G G' : Graph N A) v n :
  remove_node G v = Ok G' → n ≠ v → node_attr G' n = node_attr G n.
Proof.
  unfold remove_node. destruct (has_node G v); [|done]. intros [= <-] Hne.
  by apply attr_of_filter_ne.
Qed.

Lemma node_attr_set_node_attr G n k x m :
  node_attr (set_node_attr G n k x) m
  = if decide (m = n) then (λ d, <[k := x]> d) <$> node_attr G n
    else node_attr G m.
Proof. apply (attr_of_update (λ d, <[k := x]> d)). Qed.

(** Adding edges appends the end points that are new, without
    attributes. *)
Lemma g_node_ensure_node_app G n :
  ∃ names, g_node (ensure_node G n)
           = g_node G ++ ((λ m, (m, ∅ : attrs V)) <$> names)
           ∧ ∀ m, m ∈ names → m = n.
Proof.
  unfold ensure_node. destruct (has_node G n).
  - exists []. split; [by rewrite app_nil_r|]. by intros m ?%elem_of_nil.
  - exists [n]. split; [done|]. by intros m ?%list_elem_of_singleton.
Qed.

Lemma g_node_add_edges_from_app G (ts : list (N * N * attrs V)) :
  ∃ names, g_node (add_edges_from G ts)
           = g_node G ++ ((λ m, (m, ∅ : attrs V)) <$> names)
           ∧ ∀ m, m ∈ names → ∃ t, t ∈ ts ∧ (m = t.1.1 ∨ m = t.1.2).
Proof.
  unfold add_edges_from. revert G. induction ts as [|t ts IH]; intros G.
  - exists []. split; [by rewrite app_nil_r|]. by intros m ?%elem_of_nil.
  - simpl. destruct (IH (add_edge G t.1.1 t.1.2 t.2)) as (names & -> & Hn).
    rewrite g_node_add_edge.
    destruct (g_node_ensure_node_app (ensure_node G t.1.1) t.1.2)
      as (n2 & -> & Hn2).
    destruct (g_node_ensure_node_app G t.1.1) as (n1 & -> & Hn1).
    exists (n1 ++ n2 ++ names). split.
    + by rewrite !fmap_app, !app_assoc.
    + intros m [Hm|[Hm|Hm]%elem_of_app]%elem_of_app.
      * exists t. split; [by left|]. left. by apply Hn1.
      * exists t. split; [by left|]. right. by apply Hn2.
      * destruct (Hn m Hm) as (t' & Ht' & Hends). exists t'.
        split; [by right|done].
Qed.

Lemma node_attr_add_edges_from_old G (ts : list (N * N * attrs V)) n :
  n ∈ nodes G → node_attr (add_edges_from G ts) n = node_attr G n.
Proof.
  intros Hn. destruct (g_node_add_edges_from_app G ts) as (names & Heq & _).
  rewrite !node_attr_attr_of, Heq, attr_of_app.
  apply attr_of_is_Ok in Hn as [a Ha]. by rewrite Ha.
Qed.

Lemma node_attr_add_edges_from_new G (ts : list (N * N * attrs V)) n :
  n ∉ nodes G → n ∈ nodes (add_edges_from G ts) →
  node_attr (add_edges_from G ts) n = Ok ∅.
Proof.
  intros Hn Hin.
  destruct (g_node_add_edges_from_app G ts) as (names & Heq & _).
  unfold nodes in Hin. rewrite Heq, fmap_app, elem_of_app in Hin.
  destruct Hin as [?|Hin]; [done|].
  rewrite node_attr_attr_of, Heq, attr_of_app, (attr_of_Err (g_node G)) by done.
  apply attr_of_fmap_const. rewrite <-list_fmap_compose in Hin.
  by rewrite list_fmap_id in Hin.
Qed.
End node_attr_updates.

(** ** Contraction: further properties *)

Section contraction_properties.
Context {V : Type} `{!EqDecision V, !Countable V}.
Implicit Types (G H : Graph V (attrs V)) (u v w x y : V).

Lemma keeps_true self_loops u w :
  keeps self_loops u w = true ↔ self_loops = true ∨ w ≠ u.
Proof.
  unfold keeps. rewrite orb_true_iff, bool_decide_eq_true. done.
Qed.

(** X3: the edges of the graph that [contracted_nodes] returns.  Two
    nodes are joined in it exactly when they are joined in [G] and neither
    is [v], or one of them is [u] and the other was joined to [v] in [G];
    an edge between [v] and [u] itself counts only when [self_loops] is
    set.  Directions are kept in a directed graph. *)
Theorem contracted_nodes_edges G u v self_loops H :
  contracted_nodes G u v self_loops = Ok H →
  ∀ x y, has_edge H x y = true ↔
    (has_edge G x y = true ∧ x ≠ v ∧ y ≠ v)
    ∨ (x = u ∧ has_edge G v y = true ∧ (self_loops = true ∨ y ≠ u))
    ∨ (y = u ∧ has_edge G x v = true ∧ (self_loops = true ∨ x ≠ u)).
Proof.
  intros HH x y. rewrite <-!keeps_true.
  by apply contracted_nodes_has_edge.
Qed.

(** X4: with [self_loops] set, an edge between [u] and [v] becomes a
    self-loop at [u]; without it, the graph returned has no self-loop that
    [G] does not have. *)
Theorem contracted_nodes_self_loops G u v self_loops H :
  contracted_nodes G u v self_loops = Ok H →
  (self_loops = true → has_edge G u v = true ∨ has_edge G v u = true →
   has_edge H u u = true)
  ∧ (self_loops = false → ∀ x, has_edge H x x = true →
     has_edge G x x = true ∧ x ≠ v).
Proof.
  intros HH. split.
  - intros -> Huv. apply (contracted_nodes_has_edge _ _ _ _ _ _ _ HH).
    right. destruct Huv as [?|?]; [right|left]; by rewrite keeps_true; auto.
  - intros -> x [(? & ? & _)|[(-> & _ & Hk)|(-> & _ & Hk)]]
      %(contracted_nodes_has_edge _ _ _ _ _ _ _ HH); [done|..];
      by apply keeps_true in Hk as [?|?].
Qed.

(** X5: [contracted_edge] with [self_loops] set returns a graph with a
    self-loop at the first end point of the edge; without it, every
    self-loop of the graph returned is a self-loop of [G]. *)
Theorem contracted_edge_self_loops G u v self_loops H :
  contracted_edge G (u, v) self_loops = Ok H →
  (self_loops = true → has_edge H u u = true)
  ∧ (self_loops = false → ∀ x, has_edge H x x = true → has_edge G x x = true).
Proof.
  unfold contracted_edge. simpl.
  destruct (has_edge G u v) eqn:Huv; [|done]. simpl. intros HH. split.
  - intros ->. apply (contracted_nodes_has_edge _ _ _ _ _ _ _ HH).
    right. right. by rewrite keeps_true; auto.
  - intros -> x [(? & ? & _)|[(-> & _ & Hk)|(-> & _ & Hk)]]
      %(contracted_nodes_has_edge _ _ _ _ _ _ _ HH); [done|..];
      by apply keeps_true in Hk as [?|?].
Qed.

Lemma g_class_contracted_nodes G u v self_loops H :
  contracted_nodes G u v self_loops = Ok H → g_class H = g_class G.
Proof.
  unfold contracted_nodes, copy.
  intros (es & Hes & (v_data & _ & (G1 & HG1 & Hrest)%bind_Ok)%bind_Ok)%bind_Ok.
  apply bind_Ok in Hrest as (u_data & _ & Hrest).
  destruct (nodes_remove_node _ _ _ HG1) as [_ <-].
  rewrite <-(g_class_add_edges_from G1 es).
  destruct (u_data !! _) as [[]|]; by simplify_eq.
Qed.

(** X6: when [v] has no self-loop, the nodes of the graph returned are
    those of [G] without [v], in the same order, and the graph has the
    class of [G]; it has one node less when [G] lists every node once. *)
Theorem contracted_nodes_keeps_nodes G u v self_loops H :
  (∀ e, e ∈ g_edge G → e_src e ∈ nodes G ∧ e_dst e ∈ nodes G) →
  u ∈ nodes G → u ≠ v → has_edge G v v = false →
  contracted_nodes G u v self_loops = Ok H →
  nodes H = filter (λ n, n ≠ v) (nodes G)
  ∧ g_class H = g_class G
  ∧ (NoDup (nodes G) → S (number_of_nodes H) = number_of_nodes G).
Proof.
  intros Hends Hu Huv Hloop HH.
  assert (¬ edge_in G v v) as Hloop'.
  { rewrite <-has_edge_true. by rewrite Hloop. }
  assert (v ∈ nodes G) as Hv.
  { unfold contracted_nodes, copy in HH.
    apply bind_Ok in HH as (es & _ & (v_data & Hvd & _)%bind_Ok).
    apply node_attr_Ok in Hvd. apply list_elem_of_fmap. by exists (v, v_data). }
  split_and!.
  - exact (contracted_nodes_nodes G u v self_loops H Hends Hu Huv Hloop' HH).
  - exact (g_class_contracted_nodes G u v self_loops H HH).
  - intros Hnd.
    by destruct (contracted_nodes_node_count G u v self_loops H) as [? _].
Qed.

(** X7: the attributes after a contraction of two different nodes.  The
    node [u] keeps its attributes and its contraction record gains the
    entry of [v], which holds the attributes that [v] had; every other
    node keeps its attributes. *)
Theorem contracted_nodes_attributes G u v self_loops H du dv :
  u ≠ v → node_attr G u = Ok du → node_attr G v = Ok dv →
  contracted_nodes G u v self_loops = Ok H →
  node_attr H u
  = Ok (<[KStr "contraction" :=
           VDict (<[KNode v := VDict dv]> (contraction_record du))]> du)
  ∧ ∀ n, n ∈ nodes G → n ≠ u → n ≠ v → node_attr H n = node_attr G n.
Proof.
  intros Huv Hdu Hdv. unfold contracted_nodes, copy.
  intros (es & Hes & (v_data & Hvd & (G1 & HG1 & Hrest)%bind_Ok)%bind_Ok)%bind_Ok.
  apply bind_Ok in Hrest as (u_data & Hud & Hrest).
  rewrite Hdv in Hvd. injection Hvd as <-.
  assert (∀ n, n ∈ nodes G → n ≠ v →
            node_attr (add_edges_from G1 es) n = node_attr G n) as Hold.
  { intros n Hn Hnv. rewrite node_attr_add_edges_from_old.
    - by eapply node_attr_remove_node.
    - destruct (nodes_remove_node _ _ _ HG1) as [-> _].
      by apply list_elem_of_filter. }
  assert (u ∈ nodes G) as Hu.
  { apply (attr_of_is_Ok (g_node G)). rewrite <-node_attr_attr_of, Hdu.
    apply is_Ok_Ok. }
  rewrite Hold, Hdu in Hud by done. injection Hud as <-.
  unfold contraction_record.
  destruct (du !! KStr "contraction") as [[z|s|record|g]|] eqn:Hrec;
    simplify_eq; split.
  - by rewrite node_attr_set_node_attr, decide_True, Hold, Hdu.
  - intros n Hn Hnu Hnv.
    by rewrite node_attr_set_node_attr, decide_False, Hold.
  - by rewrite node_attr_set_node_attr, decide_True, Hold, Hdu.
  - intros n Hn Hnu Hnv.
    by rewrite node_attr_set_node_attr, decide_False, Hold.
Qed.
Lemma new_edges_same_node_ends {A} (G : Graph V A) u self_loops es :
  new_edges G u u self_loops = Ok es →
  (∃ t, t ∈ es) ↔
  ∃ w, (has_edge G u w = true ∨ has_edge G w u = true)
       ∧ (self_loops = true ∨ w ≠ u).
Proof.
  intros Hes. split.
  - intros (t & Ht).
    destruct (proj1 (new_edges_pairs G u u self_loops es t.1.1 t.1.2 Hes))
      as [(_ & He & Hk)|(_ & _ & He & Hk)].
    + exists t. split; [done|]. by destruct t as [[] ?].
    + exists t.1.2. rewrite <-keeps_true. auto.
    + exists t.1.1. rewrite <-keeps_true. auto.
  - intros (w & [He|He] & Hk%keeps_true).
    + destruct (proj2 (new_edges_pairs G u u self_loops es u w Hes))
        as (t & Ht & _); [by left|]. by exists t.
    + destruct (is_directed G) eqn:Hd.
      * destruct (proj2 (new_edges_pairs G u u self_loops es w u Hes))
          as (t & Ht & _); [by right|]. by exists t.
      * destruct (proj2 (new_edges_pairs G u u self_loops es u w Hes))
          as (t & Ht & _); [|by exists t].
        left. split; [done|]. split; [|done]. by apply has_edge_sym.
Qed.

Lemma new_edges_ends_at {A} (G : Graph V A) u v self_loops es t :
  new_edges G u v self_loops = Ok es → t ∈ es → t.1.1 = u ∨ t.1.2 = u.
Proof.
  intros Hes Ht.
  destruct (proj1 (new_edges_pairs G u v self_loops es t.1.1 t.1.2 Hes))
    as [(? & _)|(_ & ? & _)]; [|by left|by right].
  exists t. split; [done|]. by destruct t as [[] ?].
Qed.

(** X8: the degenerate call with [v = u].  It returns a graph exactly
    when [u] is a node with an edge that is rerouted: an edge to another
    node, or a self-loop when [self_loops] is set; otherwise taking the
    attributes of [u] after its removal raises.  In the graph returned
    the attributes of [u] are gone: the node has nothing but a
    contraction record that holds them under [u]. *)
Theorem contracted_nodes_same_node G u self_loops :
  (is_Ok (contracted_nodes G u u self_loops) ↔
   u ∈ nodes G
   ∧ ∃ w, (has_edge G u w = true ∨ has_edge G w u = true)
          ∧ (self_loops = true ∨ w ≠ u))
  ∧ ∀ H du, node_attr G u = Ok du →
      contracted_nodes G u u self_loops = Ok H →
      node_attr H u
      = Ok (<[KStr "contraction" := VDict (<[KNode u := VDict du]> ∅)]> ∅).
Proof.
  assert (∀ es G1, new_edges G u u self_loops = Ok es →
            remove_node G u = Ok G1 →
            (u ∉ nodes G1)
            ∧ (u ∈ nodes (add_edges_from G1 es) ↔ ∃ t, t ∈ es)) as Hnodes.
  { intros es G1 Hes HG1.
    assert (u ∉ nodes G1) as Hu1.
    { destruct (nodes_remove_node _ _ _ HG1) as [-> _].
      by intros [? _]%list_elem_of_filter. }
    split; [done|].
    rewrite nodes_add_edges_from, elem_of_add_all_new, elem_of_flat_map.
    split.
    - intros [?|(t & Ht & _)]; [done|by exists t].
    - intros (t & Ht). right. exists t. split; [done|].
      destruct (new_edges_ends_at G u u self_loops es t Hes Ht) as [<-|<-].
      + by left.
      + right. by left. }
  split.
  - unfold contracted_nodes, copy. split.
    + intros [H (es & Hes & (v_data & Hvd & (G1 & HG1 & Hrest)%bind_Ok)%bind_Ok)%bind_Ok].
      apply bind_Ok in Hrest as (u_data & Hud & _).
      split.
      * apply (attr_of_is_Ok (g_node G)). rewrite <-node_attr_attr_of, Hvd.
        apply is_Ok_Ok.
      * apply (new_edges_same_node_ends G u self_loops es Hes).
        apply (Hnodes es G1 Hes HG1).
        apply (attr_of_is_Ok (g_node (add_edges_from G1 es))).
        rewrite <-node_attr_attr_of, Hud. apply is_Ok_Ok.
    + intros [Hu Hw].
      destruct (new_edges_is_Ok G u u self_loops Hu) as [es Hes].
      rewrite Hes. simpl.
      destruct (node_attr_is_Ok G u Hu) as [du ->]. simpl.
      assert (is_Ok (remove_node G u)) as [G1 HG1].
      { unfold remove_node.
        rewrite (proj2 (has_node_true G u) Hu). apply is_Ok_Ok. }
      rewrite HG1. simpl.
      destruct (Hnodes es G1 Hes HG1) as [Hu1 Hin].
      rewrite node_attr_add_edges_from_new; [simpl; apply is_Ok_Ok|done|].
      apply Hin. by apply (new_edges_same_node_ends G u self_loops es Hes).
  - intros H du Hdu. unfold contracted_nodes, copy.
    intros (es & Hes & (v_data & Hvd & (G1 & HG1 & Hrest)%bind_Ok)%bind_Ok)%bind_Ok.
    apply bind_Ok in Hrest as (u_data & Hud & Hrest).
    rewrite Hdu in Hvd. injection Hvd as <-.
    destruct (Hnodes es G1 Hes HG1) as [Hu1 Hin].
    assert (u ∈ nodes (add_edges_from G1 es)) as Hu2.
    { apply (attr_of_is_Ok (g_node (add_edges_from G1 es))).
      rewrite <-node_attr_attr_of, Hud. apply is_Ok_Ok. }
    rewrite node_attr_add_edges_from_new in Hud by done.
    injection Hud as <-. rewrite lookup_empty in Hrest. injection Hrest as <-.
    rewrite node_attr_set_node_attr, decide_True by done.
    by rewrite node_attr_add_edges_from_new.
Qed.
End contraction_properties.

Lemma cycle5_contracted_eq :
  contracted_nodes Examples.cycle5 0 1 false = Ok Examples.cycle5_contracted.
Proof. by_evaluation. Defined.

Lemma contracted_nodes_edges_witness :
  contracted_nodes Examples.cycle5 0 1 false = Ok Examples.cycle5_contracted
  ∧ ∀ x y, has_edge Examples.cycle5_contracted x y = true ↔
      (has_edge Examples.cycle5 x y = true ∧ x ≠ 1 ∧ y ≠ 1)
      ∨ (x = 0 ∧ has_edge Examples.cycle5 1 y = true ∧ (false = true ∨ y ≠ 0))
      ∨ (y = 0 ∧ has_edge Examples.cycle5 x 1 = true ∧ (false = true ∨ x ≠ 0)).
Proof.
  split; [exact cycle5_contracted_eq|].
  exact (contracted_nodes_edges Examples.cycle5 0 1 false
           Examples.cycle5_contracted cycle5_contracted_eq).
Defined.

Lemma contracted_nodes_self_loops_witness :
  contracted_nodes Examples.cycle5 0 1 false = Ok Examples.cycle5_contracted
  ∧ (false = false → ∀ x, has_edge Examples.cycle5_contracted x x = true →
     has_edge Examples.cycle5 x x = true ∧ x ≠ 1).
Proof.
  split; [exact cycle5_contracted_eq|].
  exact (proj2 (contracted_nodes_self_loops Examples.cycle5 0 1 false
                  Examples.cycle5_contracted cycle5_contracted_eq)).
Defined.

Lemma cycle5_contracted_edge_eq :
  contracted_edge Examples.cycle5 (0, 1) false = Ok Examples.cycle5_contracted.
Proof. by_evaluation. Defined.

Lemma contracted_edge_self_loops_witness :
  contracted_edge Examples.cycle5 (0, 1) false = Ok Examples.cycle5_contracted
  ∧ (false = false → ∀ x, has_edge Examples.cycle5_contracted x x = true →
     has_edge Examples.cycle5 x x = true).
Proof.
  split; [exact cycle5_contracted_edge_eq|].
  exact (proj2 (contracted_edge_self_loops Examples.cycle5 0 1 false
                  Examples.cycle5_contracted cycle5_contracted_edge_eq)).
Defined.

Lemma cycle5_ends :
  ∀ e, e ∈ g_edge Examples.cycle5 →
       e_src e ∈ nodes Examples.cycle5 ∧ e_dst e ∈ nodes Examples.cycle5.
Proof. apply ends_are_nodes_true. by_evaluation. Defined.

Lemma contracted_nodes_keeps_nodes_witness :
  contracted_nodes Examples.cycle5 0 1 false = Ok Examples.cycle5_contracted
  ∧ nodes Examples.cycle5_contracted
    = filter (λ n, n ≠ 1) (nodes Examples.cycle5).
Proof.
  split; [exact cycle5_contracted_eq|].
  refine (proj1 (contracted_nodes_keeps_nodes Examples.cycle5 0 1 false
                   Examples.cycle5_contracted cycle5_ends _ _ _
                   cycle5_contracted_eq)).
  - by left.
  - done.
  - by_evaluation.
Defined.

Lemma contracted_nodes_attributes_witness :
  node_attr Examples.cycle5_contracted 0
  = Ok (<[KStr "contraction" :=
           VDict (<[KNode 1 := VDict ∅]> (contraction_record ∅))]> ∅).
Proof.
  refine (proj1 (contracted_nodes_attributes Examples.cycle5 0 1 false
                   Examples.cycle5_contracted ∅ ∅ _ _ _
                   cycle5_contracted_eq)).
  - done.
  - by_evaluation.
  - by_evaluation.
Defined.

(** ** The quotient: the blocks that its edges join *)

Section pairs_distinct.
Context {A : Type}.
Implicit Types (l before after : list A) (x y : A).

Lemma combinations2_distinct l x y :
  NoDup l → (x, y) ∈ combinations2 l → x ≠ y.
Proof.
  induction 1 as [|z l Hz Hl IH]; [by intros ?%elem_of_nil|].
  simpl. intros [(w & [= -> ->] & Hw)%list_elem_of_fmap|?]%elem_of_app.
  - by intros ->.
  - by apply IH.
Qed.

Lemma permutations2_from_distinct before after x y :
  NoDup (before ++ after) → (x, y) ∈ permutations2_from before after → x ≠ y.
Proof.
  revert before. induction after as [|z after IH]; intros before Hnd;
    [by intros ?%elem_of_nil|].
  simpl. intros [(w & [= -> ->] & Hw)%list_elem_of_fmap|Hin]%elem_of_app.
  - apply NoDup_app in Hnd as (_ & Hdisj & [Hz _]%NoDup_cons).
    intros ->. apply elem_of_app in Hw as [Hw|Hw]; [|done].
    apply (Hdisj _ Hw). by left.
  - apply (IH (before ++ [z])); [|done]. by rewrite <-app_assoc.
Qed.

Lemma permutations2_distinct l x y :
  NoDup l → (x, y) ∈ permutations2 l → x ≠ y.
Proof. apply (permutations2_from_distinct []). Qed.
End pairs_distinct.

Lemma any_r_Ok_true {A} (f : A → result bool) (l : list A) :
  any_r f l = Ok true → ∃ x, x ∈ l ∧ f x = Ok true.
Proof.
  induction l as [|x l IH]; [done|]. simpl.
  intros ([] & Hx & Hr)%bind_Ok.
  - exists x. split; [by left|done].
  - destruct (IH Hr) as (y & Hy & Hfy). exists y. split; [by right|done].
Qed.

Lemma any_r_Ok_false {A} (f : A → result bool) (l : list A) :
  any_r f l = Ok false → ∀ x, x ∈ l → f x = Ok false.
Proof.
  induction l as [|x l IH]; [by intros _ y ?%elem_of_nil|]. simpl.
  intros ([] & Hx & Hr)%bind_Ok; [done|].
  intros y [->|Hy]%elem_of_cons; [done|by apply IH].
Qed.

Section adj.
Context {N A : Type} `{EqDecision N}.
Implicit Types (G : Graph N A) (u v : N).

Lemma elem_of_neighbors G u v :
  v ∈ neighbors G u ↔ has_edge G u v = true.
Proof.
  unfold neighbors. rewrite elem_of_remove_dups, elem_of_flat_map.
  rewrite has_edge_joins. unfold joins.
  split; intros (e & He & Hv); exists e; (split; [done|]).
  - apply elem_of_app in Hv as [Hv|Hv].
    + destruct (decide (e_src e = u)); [|by apply elem_of_nil in Hv].
      apply list_elem_of_singleton in Hv. apply orb_true_iff. left.
      by apply bool_decide_eq_true.
    + destruct (negb (is_directed G)) eqn:Hd; [|by apply elem_of_nil in Hv].
      simpl in Hv. destruct (bool_decide (e_dst e = u)) eqn:Hu;
        [|by apply elem_of_nil in Hv].
      apply bool_decide_eq_true in Hu. apply list_elem_of_singleton in Hv.
      apply orb_true_iff. right. simpl. by apply bool_decide_eq_true.
  - apply elem_of_app. apply orb_true_iff in Hv as [[Hs Hd]%bool_decide_eq_true|Hv].
    + left. rewrite decide_True by done. by apply list_elem_of_singleton.
    + right. apply andb_true_iff in Hv as [-> [Hs Hd]%bool_decide_eq_true].
      simpl. rewrite bool_decide_eq_true_2 by done.
      by apply list_elem_of_singleton.
Qed.

Lemma in_adj_Ok G u v r :
  in_adj G u v = Ok r → u ∈ nodes G ∧ r = has_edge G u v.
Proof.
  unfold in_adj, adj. destruct (has_node G u) eqn:Hu; [|done]. simpl.
  intros [= <-]. split; [by apply bool_decide_eq_true in Hu|].
  destruct (has_edge G u v) eqn:He.
  - by apply bool_decide_eq_true, elem_of_neighbors.
  - apply bool_decide_eq_false. rewrite elem_of_neighbors. by rewrite He.
Qed.
End adj.

Section quotient_edges.
Context {V : Type} `{!EqDecision V, !Countable V}.
Variable density : Graph V (attrs V) → value V.
Implicit Types (G : Graph V (attrs V)) (P : list (gset V)) (b c : gset V).

Lemma block_pairs_distinct {A} (H : Graph (gset V) A) b c :
  NoDup (nodes H) → (b, c) ∈ block_pairs H → b ≠ c.
Proof.
  unfold block_pairs. destruct (is_directed H).
  - apply permutations2_distinct.
  - apply combinations2_distinct.
Qed.

Lemma has_edge_no_edges {N A} `{EqDecision N} (G : Graph N A) (x y : N) :
  g_edge G = [] → has_edge G x y = false.
Proof. unfold has_edge. by intros ->. Qed.

Lemma has_edge_elem_of {N A} `{EqDecision N} (G : Graph N A) (e : Edge N A) :
  e ∈ g_edge G → has_edge G (e_src e) (e_dst e) = true.
Proof.
  intros He. apply has_edge_same_pair. exists e. split; [done|by left].
Qed.


Lemma multi_edges_Ok G b c ms :
  multi_edges G b c = Ok ms ↔
  ∃ lss,
    Forall2 (λ uv ls, ∃ r : bool, in_adj G uv.1 uv.2 = Ok r
                       ∧ ls = if r then [(b, c, get_edge_data G uv.1 uv.2 ∅)]
                              else [])
      (product (elements b) (elements c)) lss
    ∧ ms = concat lss.
Proof.
  unfold multi_edges. rewrite fmap_Ok. setoid_rewrite mapM_r_Ok.
  split; intros (lss & Hall & ->); exists lss; (split; [|done]);
    (eapply Forall2_impl; [exact Hall|]); intros uv ls; simpl.
  - intros (r & Hr & [= <-])%bind_Ok. eauto.
  - intros (r & -> & ->). done.
Qed.

Lemma multigraph_edges_Ok G rel pairs ts :
  multigraph_edges G rel pairs = Ok ts ↔
  ∃ lss,
    Forall2 (λ bc ls, ∃ r : bool, rel bc.1 bc.2 = Ok r
                       ∧ if r then multi_edges G bc.1 bc.2 = Ok ls
                         else ls = [])
      pairs lss
    ∧ ts = concat lss.
Proof.
  unfold multigraph_edges. rewrite fmap_Ok. setoid_rewrite mapM_r_Ok.
  split; intros (lss & Hall & ->); exists lss; (split; [|done]);
    (eapply Forall2_impl; [exact Hall|]); intros bc ls; simpl.
  - intros (r & Hr & Hls)%bind_Ok. exists r. split; [done|].
    destruct r; [done|]. by injection Hls as <-.
  - intros (r & -> & Hls). simpl. destruct r; [done|]. by rewrite Hls.
Qed.

Lemma simple_edges_rel_is_Ok (rel : gset V → gset V → result bool)
    (data : gset V → gset V → result (attrs V)) pairs ts bc :
  simple_edges rel data pairs = Ok ts → bc ∈ pairs →
  ∃ r, rel bc.1 bc.2 = Ok r.
Proof.
  unfold simple_edges. intros (lss & Hall%mapM_r_Ok & _)%fmap_Ok Hbc.
  apply list_elem_of_lookup in Hbc as [i Hi].
  destruct (Forall2_lookup_l _ _ _ _ _ Hall Hi) as (ls & _ & Hls).
  simpl in Hls. apply bind_Ok in Hls as (r & Hr & _). eauto.
Qed.

Lemma multigraph_edges_rel_is_Ok G rel pairs ts bc :
  multigraph_edges G rel pairs = Ok ts → bc ∈ pairs →
  ∃ r, rel bc.1 bc.2 = Ok r.
Proof.
  intros (lss & Hall & _)%multigraph_edges_Ok Hbc.
  apply list_elem_of_lookup in Hbc as [i Hi].
  destruct (Forall2_lookup_l _ _ _ _ _ Hall Hi) as (ls & _ & r & Hr & _).
  eauto.
Qed.

Lemma multigraph_edges_elem_of G rel pairs ts t :
  multigraph_edges G rel pairs = Ok ts → t ∈ ts →
  (t.1.1, t.1.2) ∈ pairs ∧ rel t.1.1 t.1.2 = Ok true.
Proof.
  intros (lss & Hall & ->)%multigraph_edges_Ok (ls & Hls & Ht)%concat_elem_of.
  apply list_elem_of_lookup in Hls as [i Hi].
  destruct (Forall2_lookup_r _ _ _ _ _ Hall Hi) as (bc & Hbc & r & Hr & Hm).
  destruct r; [|subst ls; by apply elem_of_nil in Ht].
  destruct (multi_edges_ends _ _ _ _ _ Hm Ht) as [-> ->].
  split; [|done]. destruct bc. by eapply list_elem_of_lookup_2.
Qed.

(** The pairs of blocks that the edges of the quotient join. *)
Lemma quotient_blocks_has_edge G P er nd ed cu H b c :
  quotient_blocks density G P er nd ed cu = Ok H →
  has_edge H b c = true →
  b ∈ P ∧ c ∈ P ∧ b ≠ c
  ∧ ∃ b' c', (b', c') ∈ block_pairs (block_graph density G P nd cu)
             ∧ the_edge_relation G er b' c' = Ok true
             ∧ same_pair (cls_directed (quotient_class G cu)) (b', c') (b, c).
Proof.
  intros (_ & ts & Hts & ->)%quotient_blocks_Ok.
  set (BG := block_graph density G P nd cu) in *.
  rewrite has_edge_add_edges_from.
  rewrite (has_edge_no_edges BG) by apply g_edge_block_graph.
  intros [[=]|(t & Ht & Hp)].
  unfold is_directed in Hp. unfold BG in Hp. rewrite g_class_block_graph in Hp.
  assert ((t.1.1, t.1.2) ∈ block_pairs BG
          ∧ the_edge_relation G er t.1.1 t.1.2 = Ok true) as [Hpair Hrel].
  { destruct (cls_multigraph (quotient_class G cu)).
    - by eapply multigraph_edges_elem_of.
    - destruct (simple_edges_Ok _ _ _ _ Hts) as [Hpairs _].
      assert ((t.1.1, t.1.2) ∈ ts.*1) as Hin.
      { apply list_elem_of_fmap. exists t. split; [by destruct t as [[] ?]|done]. }
      rewrite Hpairs in Hin. by apply list_elem_of_filter in Hin as [? ?]. }
  assert (NoDup (nodes BG)) as Hnd.
  { unfold BG. rewrite nodes_block_graph. apply NoDup_add_all_new. constructor. }
  pose proof (block_pairs_distinct BG _ _ Hnd Hpair) as Hne.
  destruct (block_pairs_ends BG _ _ Hpair) as [Hb Hc].
  unfold BG in Hb, Hc. rewrite nodes_block_graph in Hb, Hc.
  apply elem_of_add_all_new in Hb as [?%elem_of_nil|Hb]; [done|].
  apply elem_of_add_all_new in Hc as [?%elem_of_nil|Hc]; [done|].
  assert (b ∈ P ∧ c ∈ P ∧ b ≠ c) as (? & ? & ?).
  { destruct Hp as [[= <- <-]|[_ [= Hb' Hc']]]; simpl in *; [done|].
    rewrite Hb' in Hb, Hne. rewrite Hc' in Hc, Hne. done. }
  split_and!; [done..|]. exists t.1.1, t.1.2. done.
Qed.

(** X9: the graph that [quotient_graph] returns has the class of
    [create_using], or of [G] when there is none, and each of its edges
    joins two different blocks of the partition: it has no self-loop,
    whatever the relation on the blocks is. *)
Theorem quotient_graph_joins_blocks G P er nd ed cu H :
  quotient_graph density G (inr P) er nd ed false cu = Ok H →
  g_class H = quotient_class G cu
  ∧ ∀ e, e ∈ g_edge H →
      e_src e ∈ P ∧ e_dst e ∈ P ∧ e_src e ≠ e_dst e.
Proof.
  change (qnode false) with (gset V). unfold quotient_graph. simpl.
  intros (H0 & HH0 & [= <-])%bind_Ok. split.
  - by apply quotient_blocks_nodes in HH0 as (-> & _).
  - intros e He%has_edge_elem_of.
    by destruct (quotient_blocks_has_edge _ _ _ _ _ _ _ _ _ HH0 He)
      as (? & ? & ? & _).
Qed.

Lemma default_edge_relation_Ok {A} (G : Graph V A) b c (r : bool) :
  default_edge_relation G b c = Ok r →
  r = true ↔ ∃ u v, u ∈ b ∧ v ∈ c ∧ has_edge G u v = true.
Proof.
  unfold default_edge_relation. intros Hany. destruct r.
  - split; [intros _|done].
    apply any_r_Ok_true in Hany as ([u v] & [Hu Hv]%elem_of_product & Hadj).
    exists u, v. apply elem_of_elements in Hu, Hv. simpl in Hadj.
    apply in_adj_Ok in Hadj as [_ Heq]. by rewrite <-Heq.
  - split; [done|]. intros (u & v & Hu & Hv & He).
    assert (in_adj G u v = Ok false) as [_ Hf]%in_adj_Ok.
    { apply (any_r_Ok_false _ _ Hany (u, v)), elem_of_product.
      by rewrite !elem_of_elements. }
    congruence.
Qed.

Lemma multi_edges_nonempty G b c ms :
  multi_edges G b c = Ok ms →
  (∃ u v, u ∈ b ∧ v ∈ c ∧ has_edge G u v = true) →
  ∃ t, t ∈ ms.
Proof.
  intros (lss & Hall & ->)%multi_edges_Ok (u & v & Hu & Hv & He).
  assert ((u, v) ∈ product (elements b) (elements c)) as [i Hi]%list_elem_of_lookup.
  { apply elem_of_product. by rewrite !elem_of_elements. }
  destruct (Forall2_lookup_l _ _ _ _ _ Hall Hi) as (ls & Hls & r & Hr & ->).
  simpl in Hr. apply in_adj_Ok in Hr as [_ ->]. rewrite He in Hls.
  eexists. apply concat_elem_of. eexists. split.
  - by eapply list_elem_of_lookup_2.
  - by left.
Qed.

Lemma quotient_blocks_default_has_edge G P nd ed cu H b c :
  quotient_blocks density G P None nd ed cu = Ok H →
  (b, c) ∈ block_pairs (block_graph density G P nd cu) →
  (∃ u v, u ∈ b ∧ v ∈ c ∧ has_edge G u v = true) →
  has_edge H b c = true.
Proof.
  intros (_ & ts & Hts & ->)%quotient_blocks_Ok Hbc Hadj.
  apply has_edge_add_edges_from. right.
  assert (∃ t, t ∈ ts ∧ t.1 = (b, c)) as (t & Ht & Heq).
  { destruct (cls_multigraph (quotient_class G cu)).
    - destruct (multigraph_edges_rel_is_Ok _ _ _ _ (b, c) Hts Hbc) as [r Hr].
      simpl in Hr. pose proof Hr as Hr'.
      apply default_edge_relation_Ok in Hr'. apply Hr' in Hadj as ->.
      apply multigraph_edges_Ok in Hts as (lss & Hall & ->).
      apply list_elem_of_lookup in Hbc as [i Hi].
      destruct (Forall2_lookup_l _ _ _ _ _ Hall Hi) as (ls & Hls & r & Hr2 & Hm).
      simpl in *. rewrite Hr in Hr2. injection Hr2 as <-.
      destruct (multi_edges_nonempty G b c ls Hm) as [t Ht].
      { by apply Hr'. }
      exists t. split.
      + apply concat_elem_of. exists ls. split; [|done].
        by eapply list_elem_of_lookup_2.
      + destruct (multi_edges_ends _ _ _ _ _ Hm Ht) as [<- <-].
        by destruct t as [[] ?].
    - destruct (simple_edges_rel_is_Ok _ _ _ _ (b, c) Hts Hbc) as [r Hr].
      simpl in Hr. pose proof Hr as Hr'.
      apply default_edge_relation_Ok in Hr'. apply Hr' in Hadj as ->.
      destruct (simple_edges_Ok _ _ _ _ Hts) as [Hpairs _].
      assert ((b, c) ∈ ts.*1) as (t & Heq & Ht)%list_elem_of_fmap.
      { rewrite Hpairs. by apply list_elem_of_filter. }
      by exists t. }
  exists t. split; [done|]. left. by rewrite (surjective_pairing t.1), Heq.
Qed.

(** The edges of the quotient under the default edge relation, before any
    relabelling. *)
Lemma quotient_blocks_default_edges G P nd ed H0 b c :
  quotient_blocks density G P None nd ed None = Ok H0 →
  has_edge H0 b c = true ↔
    b ∈ P ∧ c ∈ P ∧ b ≠ c
    ∧ ∃ u v, u ∈ b ∧ v ∈ c ∧ has_edge G u v = true.
Proof.
  intros HH0. split.
  - intros Hbc.
    destruct (quotient_blocks_has_edge _ _ _ _ _ _ _ _ _ HH0 Hbc)
      as (Hb & Hc & Hne & b' & c' & _ & Hrel & Hp).
    split_and!; [done..|].
    simpl in Hrel. apply default_edge_relation_Ok in Hrel.
    destruct (proj1 Hrel eq_refl) as (u & v & Hu & Hv & He).
    destruct Hp as [[= -> ->]|[Hd [= -> ->]]]; simpl in *.
    + by exists u, v.
    + exists v, u. split_and!; [done..|]. by apply has_edge_sym.
  - intros (Hb & Hc & Hne & u & v & Hu & Hv & He).
    set (BG := block_graph density G P nd None).
    assert (b ∈ nodes BG ∧ c ∈ nodes BG) as [Hb' Hc'].
    { unfold BG. rewrite nodes_block_graph, !elem_of_add_all_new. auto. }
    destruct (block_pairs_complete BG b c Hb' Hc' Hne) as [Hbc|[Hd Hcb]].
    + eapply quotient_blocks_default_has_edge; eauto.
    + assert (is_directed H0 = false) as Hd0.
      { apply quotient_blocks_nodes in HH0 as (Hcls & _).
        unfold is_directed in *. rewrite Hcls.
        unfold BG in Hd. by rewrite g_class_block_graph in Hd. }
      apply has_edge_sym; [done|].
      eapply quotient_blocks_default_has_edge; eauto.
      exists v, u. split_and!; [done..|]. apply has_edge_sym; [|done].
      unfold BG, is_directed in Hd. by rewrite g_class_block_graph in Hd.
Qed.

(** X10: with the default edge relation and the class of [G], two blocks
    are joined in the quotient exactly when they are different blocks of
    the partition and some node of the first is joined in [G] to some
    node of the second; in a directed graph, from the first to the
    second. *)
Theorem quotient_graph_default_edges G P nd ed H :
  quotient_graph density G (inr P) None nd ed false None = Ok H →
  ∀ b c, has_edge H b c = true ↔
    b ∈ P ∧ c ∈ P ∧ b ≠ c
    ∧ ∃ u v, u ∈ b ∧ v ∈ c ∧ has_edge G u v = true.
Proof.
  change (qnode false) with (gset V). unfold quotient_graph. simpl.
  intros (H0 & HH0 & [= <-])%bind_Ok b c.
  exact (quotient_blocks_default_edges G P nd ed H0 b c HH0).
Qed.
End quotient_edges.

Lemma path6_quotient_eq :
  quotient_graph Examples.no_density Examples.path6 (inr Examples.pairs6)
    None (Some Examples.no_data) None false None
  = Ok Examples.path6_quotient.
Proof. by_evaluation. Defined.

Lemma quotient_graph_joins_blocks_witness :
  g_class Examples.path6_quotient
  = quotient_class Examples.path6 None
  ∧ ∀ e, e ∈ g_edge Examples.path6_quotient →
      e_src e ∈ Examples.pairs6 ∧ e_dst e ∈ Examples.pairs6
      ∧ e_src e ≠ e_dst e.
Proof.
  exact (quotient_graph_joins_blocks Examples.no_density Examples.path6
           Examples.pairs6 None (Some Examples.no_data) None None
           Examples.path6_quotient path6_quotient_eq).
Defined.

Lemma quotient_graph_default_edges_witness :
  quotient_graph Examples.no_density Examples.path6 (inr Examples.pairs6)
    None (Some Examples.no_data) None false None
  = Ok Examples.path6_quotient
  ∧ ∀ b c, has_edge Examples.path6_quotient b c = true ↔
      b ∈ Examples.pairs6 ∧ c ∈ Examples.pairs6 ∧ b ≠ c
      ∧ ∃ u v, u ∈ b ∧ v ∈ c ∧ has_edge Examples.path6 u v = true.
Proof.
  split; [exact path6_quotient_eq|].
  exact (quotient_graph_default_edges Examples.no_density Examples.path6
           Examples.pairs6 (Some Examples.no_data) None
           Examples.path6_quotient path6_quotient_eq).
Defined.

(** ** The quotient: labels, node data and relations *)

Section labels.
Context {V : Type} `{!EqDecision V, !Countable V}.
Implicit Types (P : list (gset V)) (b c : gset V).

Lemma foldl_labels_notin (l : list (nat * gset V)) (m : gmap (gset V) nat) b :
  b ∉ l.*2 → foldl (λ m ib, <[ib.2 := ib.1]> m) m l !! b = m !! b.
Proof.
  revert m. induction l as [|[i c] l IH]; intros m; [done|].
  rewrite fmap_cons, not_elem_of_cons. simpl. intros [Hne Hb].
  rewrite IH by done. by rewrite lookup_insert_ne.
Qed.

Lemma foldl_labels_lookup (l : list (nat * gset V)) (m : gmap (gset V) nat)
    i b :
  NoDup l.*2 → (i, b) ∈ l →
  foldl (λ m ib, <[ib.2 := ib.1]> m) m l !! b = Some i.
Proof.
  revert m. induction l as [|[j c] l IH]; intros m; [by intros _ ?%elem_of_nil|].
  rewrite fmap_cons, NoDup_cons. simpl.
  intros [Hc Hnd] [[= -> ->]|Hin]%elem_of_cons.
  - rewrite foldl_labels_notin by done. apply lookup_insert_eq.
  - by apply IH.
Qed.

Lemma block_labels_lookup P i b :
  NoDup P → P !! i = Some b → block_labels P !! b = Some i.
Proof.
  intros Hnd Hi. unfold block_labels. apply foldl_labels_lookup.
  - assert ((imap pair P).*2 = P) as ->; [|done].
    apply list_eq. intros j.
    rewrite list_lookup_fmap, list_lookup_imap. by destruct (P !! j).
  - apply list_elem_of_lookup. exists i.
    rewrite list_lookup_imap, Hi. done.
Qed.
End labels.

Section renaming.
Context {N N' A : Type} `{EqDecision N, EqDecision N'}.
Implicit Types (G : Graph N A) (f : N → N').

Lemma attr_of_rename f (l : list (N * A)) n :
  (∀ m, m ∈ l.*1 → f m = f n → m = n) →
  attr_of (map (λ p, (f p.1, p.2)) l) (f n) = attr_of l n.
Proof.
  induction l as [|p l IH]; [done|]. intros Hinj. simpl.
  rewrite !attr_of_cons. simpl. destruct (decide (p.1 = n)) as [->|Hne].
  - by rewrite decide_True.
  - rewrite decide_False.
    + apply IH. intros m Hm. apply Hinj. by right.
    + intros Heq. apply Hne, Hinj; [by left|done].
Qed.

Lemma has_edge_rename f G x y :
  (∀ m n, m ∈ nodes G → n ∈ nodes G → f m = f n → m = n) →
  (∀ e, e ∈ g_edge G → e_src e ∈ nodes G ∧ e_dst e ∈ nodes G) →
  x ∈ nodes G → y ∈ nodes G →
  has_edge (map_nodes f G) (f x) (f y) = has_edge G x y.
Proof.
  intros Hinj Hends Hx Hy.
  assert (∀ e, e ∈ g_edge G →
            joins (is_directed G) (f x) (f y)
              (mkEdge (f (e_src e)) (f (e_dst e)) (e_key e) (e_data e))
            = joins (is_directed G) x y e) as Hj.
  { intros e [Hs Hd]%Hends. unfold joins. simpl.
    f_equal; [|f_equal]; apply bool_decide_ext;
      split; intros [? ?]; split; (congruence || by apply Hinj). }
  unfold has_edge, map_nodes, is_directed. simpl.
  induction (g_edge G) as [|e es IH]; [done|]. simpl.
  rewrite IH.
  - f_equal. apply Hj. by left.
  - intros e' He'. apply Hends. by right.
  - intros e' He'. apply Hj. by right.
Qed.
End renaming.

Lemma attr_of_fmap_fun {N A} `{EqDecision N} (g : N → A) (names : list N) n :
  n ∈ names → attr_of ((λ m, (m, g m)) <$> names) n = Ok (g n).
Proof.
  induction names as [|m names IH]; [by intros ?%elem_of_nil|].
  rewrite fmap_cons, attr_of_cons. simpl.
  destruct (decide (m = n)) as [->|]; [done|].
  intros [?|?]%elem_of_cons; [done|auto].
Qed.

Lemma length_omap_all {A B} (f : A → option B) (l : list A) :
  (∀ x, x ∈ l → is_Some (f x)) → length (omap f l) = length l.
Proof.
  induction l as [|x l IH]; [done|]. intros Hall. simpl.
  destruct (Hall x) as [y ->]; [by left|]. simpl. f_equal.
  apply IH. intros z Hz. apply Hall. by right.
Qed.

Lemma nodes_map_nodes {N N' A} (f : N → N') (G : Graph N A) :
  nodes (map_nodes f G) = f <$> nodes G.
Proof.
  unfold nodes, map_nodes. simpl.
  induction (g_node G) as [|p l IH]; [done|].
  cbn. f_equal. exact IH.
Qed.

Section quotient_nodes_data.
Context {V : Type} `{!EqDecision V, !Countable V}.
Variable density : Graph V (attrs V) → value V.
Implicit Types (G : Graph V (attrs V)) (P : list (gset V)) (b c : gset V).

Lemma g_node_add_nodes_from_new {N} `{EqDecision N}
    (G : Graph N (attrs V)) (ps : list (N * attrs V)) :
  NoDup (nodes G ++ ps.*1) →
  g_node (add_nodes_from G ps) = g_node G ++ ps.
Proof.
  unfold add_nodes_from. revert G. induction ps as [|[n d] ps IH]; intros G Hnd.
  - by rewrite app_nil_r.
  - simpl. rewrite fmap_cons in Hnd. simpl in Hnd.
    assert (has_node G n = false) as Hn.
    { apply has_node_false. intros Hn.
      apply NoDup_app in Hnd as (_ & Hdisj & _). apply (Hdisj n Hn). by left. }
    assert (add_node G n d
            = mkGraph (g_class G) (g_node G ++ [(n, d)]) (g_edge G)) as ->.
    { unfold add_node. rewrite Hn. unfold dict_update.
      by rewrite (right_id_L ∅ (∪)). }
    rewrite IH; simpl.
    + by rewrite <-app_assoc.
    + unfold nodes. simpl. rewrite fmap_app. simpl.
      by rewrite <-app_assoc.
Qed.

Lemma g_node_block_graph G P nd cu :
  NoDup P →
  g_node (block_graph density G P nd cu)
  = (λ b, (b, default (default_node_data density G) nd b)) <$> P.
Proof.
  intros Hnd. unfold block_graph. rewrite g_node_add_nodes_from_new; [done|].
  simpl. rewrite <-list_fmap_compose. by rewrite list_fmap_id.
Qed.

Lemma default_node_data_counts G b :
  (∀ v, v ∈ b → v ∈ nodes G) →
  default_node_data density G b !! KStr "nnodes"
  = Some (VInt (Z.of_nat (size b)))
  ∧ default_node_data density G b !! KStr "nedges"
    = Some (VInt (Z.of_nat
         (length (filter (λ e, e_src e ∈ b ∧ e_dst e ∈ b) (g_edge G))))).
Proof.
  intros Hb.
  assert (nbunch_iter G (elements b) = elements b) as Hbunch.
  { unfold nbunch_iter. apply filter_all. intros v Hv%elem_of_elements. auto. }
  unfold default_node_data, subgraph, number_of_nodes, number_of_edges.
  rewrite Hbunch. simpl. split.
  - rewrite lookup_insert_ne, lookup_insert_eq by done. do 3 f_equal.
    apply length_omap_all. intros v Hv%elem_of_elements%Hb.
    by destruct (node_attr_is_Ok G v Hv) as [a ->].
  - rewrite !lookup_insert_ne, lookup_insert_eq by done. do 4 f_equal.
    apply filter_ext_elem. intros e _. by rewrite !elem_of_elements.
Qed.

(** X12: the attributes of the nodes of the quotient, for a list of
    different blocks.  A block carries what [node_data] returns for it.
    With the default [node_data] it carries the subgraph of [G] on the
    block and, when the block consists of nodes of [G], the number of
    members of the block as [nnodes] and the number of edges of [G]
    inside the block as [nedges]. *)
Theorem quotient_graph_node_data G P er nd ed cu
    (H : Graph (gset V) (attrs V)) b :
  NoDup P → b ∈ P →
  quotient_graph density G (inr P) er nd ed false cu = Ok H →
  match nd with
  | Some f => node_attr H b = Ok (f b)
  | None =>
      ∃ d, node_attr H b = Ok d
           ∧ d !! KStr "graph" = Some (VGraph (subgraph G (elements b)))
           ∧ ((∀ v, v ∈ b → v ∈ nodes G) →
              d !! KStr "nnodes" = Some (VInt (Z.of_nat (size b)))
              ∧ d !! KStr "nedges"
                = Some (VInt (Z.of_nat
                     (length (filter (λ e, e_src e ∈ b ∧ e_dst e ∈ b)
                                (g_edge G))))))
  end.
Proof.
  intros Hnd Hb. unfold quotient_graph. simpl.
  intros (H0 & HH0 & [= <-])%bind_Ok.
  apply quotient_blocks_nodes in HH0 as (_ & Hnodes & _).
  assert (node_attr H0 b = Ok (default (default_node_data density G) nd b))
    as Hattr.
  { rewrite node_attr_attr_of, Hnodes, g_node_block_graph by done.
    by apply (attr_of_fmap_fun (default (default_node_data density G) nd)). }
  destruct nd as [f|]; [done|]. simpl in Hattr.
  exists (default_node_data density G b). split; [done|]. split.
  - unfold default_node_data. by rewrite lookup_insert_eq.
  - apply default_node_data_counts.
Qed.

(** X11: with [relabel] set and a list of different blocks, the nodes of
    the graph returned are the numbers from [0], in the order of the
    blocks, and the graph is the quotient on the blocks with every block
    replaced by its position: the node at a position has the attributes
    of the block at that position, and two positions are joined exactly
    when the blocks are. *)
Theorem quotient_graph_relabel G P er nd ed cu (H : Graph nat (attrs V)) :
  NoDup P →
  quotient_graph density G (inr P) er nd ed true cu = Ok H →
  nodes H = seq 0 (length P)
  ∧ ∃ H0 : Graph (gset V) (attrs V),
      quotient_graph density G (inr P) er nd ed false cu = Ok H0
      ∧ (∀ i b, P !! i = Some b → node_attr H i = node_attr H0 b)
      ∧ (∀ i j b c, P !! i = Some b → P !! j = Some c →
           has_edge H i j = has_edge H0 b c).
Proof.
  intros Hnd. unfold quotient_graph. simpl.
  intros (H0 & HH0 & [= <-])%bind_Ok.
  pose proof HH0 as (_ & _ & Hnodes)%quotient_blocks_nodes.
  rewrite add_all_new_NoDup in Hnodes by done. simpl in Hnodes.
  set (f := λ b : gset V, default 0 (block_labels P !! b)).
  assert (∀ i b, P !! i = Some b → f b = i) as Hf.
  { intros i b Hi. unfold f. by rewrite (block_labels_lookup P i b). }
  assert (∀ m n, m ∈ nodes H0 → n ∈ nodes H0 → f m = f n → m = n) as Hinj.
  { rewrite Hnodes. intros m n [i Hi]%list_elem_of_lookup [j Hj]%list_elem_of_lookup.
    rewrite (Hf i m Hi), (Hf j n Hj). intros ->. congruence. }
  split.
  - unfold relabel_nodes. fold f. rewrite nodes_map_nodes, Hnodes.
    apply list_eq. intros i. rewrite list_lookup_fmap.
    destruct (P !! i) as [b|] eqn:Hi; simpl.
    + rewrite (Hf i b Hi). symmetry. apply lookup_seq. split; [done|].
      by eapply lookup_lt_Some.
    + symmetry. apply lookup_seq_ge. by apply lookup_ge_None.
  - exists H0. rewrite HH0. split; [done|]. split.
    + intros i b Hi. rewrite <-(Hf i b Hi). unfold relabel_nodes.
      rewrite !node_attr_attr_of. apply (attr_of_rename f).
      intros m Hm. apply Hinj; [done|]. rewrite Hnodes.
      by eapply list_elem_of_lookup_2.
    + intros i j b c Hi Hj. rewrite <-(Hf i b Hi), <-(Hf j c Hj).
      apply has_edge_rename; [done| |rewrite Hnodes..].
      * intros e He%has_edge_elem_of.
        destruct (quotient_blocks_has_edge density _ _ _ _ _ _ _ _ _ HH0 He)
          as (? & ? & _). by rewrite Hnodes.
      * by eapply list_elem_of_lookup_2.
      * by eapply list_elem_of_lookup_2.
Qed.
End quotient_nodes_data.

Lemma NoDup_pairs6 : NoDup Examples.pairs6.
Proof. exact (valid_partition_NoDup _ _ valid_partition_path6). Defined.

Lemma quotient_graph_node_data_witness :
  node_attr Examples.path6_quotient {[0; 1]}
  = Ok (Examples.no_data {[0; 1]}).
Proof.
  refine (quotient_graph_node_data Examples.no_density Examples.path6
            Examples.pairs6 None (Some Examples.no_data) None None
            Examples.path6_quotient {[0; 1]} NoDup_pairs6 _
            path6_quotient_eq).
  by left.
Defined.

Lemma path6_relabelled_eq :
  quotient_graph Examples.no_density Examples.path6 (inr Examples.pairs6)
    None (Some Examples.no_data) None true None
  = Ok Examples.path6_relabelled.
Proof. by_evaluation. Defined.

Lemma quotient_graph_relabel_witness :
  nodes Examples.path6_relabelled = seq 0 (length Examples.pairs6).
Proof.
  exact (proj1 (quotient_graph_relabel Examples.no_density Examples.path6
                  Examples.pairs6 None (Some Examples.no_data) None None
                  Examples.path6_relabelled NoDup_pairs6
                  path6_relabelled_eq)).
Defined.

Section quotient_by_relation.
Context {V : Type} `{!EqDecision V, !Countable V}.
Variable density : Graph V (attrs V) → value V.
Implicit Types (G : Graph V (attrs V)) (P : list (gset V)) (b c : gset V).

Lemma classes_count_blocks (l : list V) (R : V → V → bool) v :
  equivalence_on l R → v ∈ l →
  count_blocks
    (elements (list_to_set (class_of l R <$> l) : gset (gset V))) v = 1.
Proof.
  intros HR Hv. unfold count_blocks.
  set (classes := list_to_set (class_of l R <$> l) : gset (gset V)).
  rewrite (filter_ext_elem _ (λ b, b = class_of l R v)).
  - rewrite length_filter_eq_NoDup by apply NoDup_elements.
    rewrite decide_True; [done|].
    apply elem_of_elements, elem_of_list_to_set, list_elem_of_fmap. eauto.
  - intros b (z & -> & Hz)%elem_of_elements%elem_of_list_to_set%list_elem_of_fmap.
    rewrite class_of_elem_of. split.
    + intros [_ Hzv]. by apply class_of_related.
    + intros Heq. apply class_of_elem_of. rewrite Heq.
      apply class_of_elem_of. split; [done|]. by apply (eqv_refl l R HR).
Qed.

(** X13: [quotient_graph] with a relation in place of the blocks.  When
    the relation is reflexive, symmetric and transitive on the nodes of
    [G], the blocks that [equivalence_classes] returns pass the check of
    the partition; the nodes of the graph returned are the classes of the
    nodes, each once, and the call returns a graph whenever the weights of
    [G] are numbers. *)
Theorem quotient_graph_by_relation G (R : V → V → bool) er nd ed cu :
  equivalence_on (nodes G) R →
  quotient_graph density G (inl R) er nd ed false cu ≠ Err NetworkXException
  ∧ (numeric_weights G →
     is_Ok (quotient_graph density G (inl R) er nd ed false cu))
  ∧ ∀ H : Graph (gset V) (attrs V),
      quotient_graph density G (inl R) er nd ed false cu = Ok H →
      NoDup (nodes H)
      ∧ ∀ b, b ∈ nodes H ↔ ∃ x, x ∈ nodes G ∧ b = class_of (nodes G) R x.
Proof.
  intros HR. unfold quotient_graph.
  rewrite (equivalence_classes_eq (nodes G) R HR). simpl.
  set (classes := list_to_set (class_of (nodes G) R <$> nodes G)
                  : gset (gset V)).
  assert (bad_partition G (elements classes) = false) as Hgood.
  { apply bad_partition_false. intros v Hv. by apply classes_count_blocks. }
  assert (∀ b, b ∈ elements classes ↔
               ∃ x, x ∈ nodes G ∧ b = class_of (nodes G) R x) as Hin.
  { intros b. unfold classes.
    rewrite elem_of_elements, elem_of_list_to_set, list_elem_of_fmap.
    split; intros (x & ? & ?); eauto. }
  split_and!.
  - destruct (quotient_blocks density G (elements classes) er nd ed cu)
      as [H0|e] eqn:HH0; [done|]. simpl. intros [= ->].
    apply quotient_blocks_raises in HH0 as [[_ Hbad]|[_ [?|?]]]; [|done..].
    congruence.
  - intros Hnum.
    destruct (quotient_blocks_is_Ok density G (elements classes) er nd ed cu)
      as [H0 ->]; [done| |done|apply is_Ok_Ok].
    intros b v (x & Hx & ->)%Hin [Hv _]%class_of_elem_of. done.
  - intros H (H0 & HH0 & [= <-])%bind_Ok.
    apply quotient_blocks_nodes in HH0 as (_ & _ & ->). split.
    + apply NoDup_add_all_new. constructor.
    + intros b. rewrite elem_of_add_all_new, elem_of_nil, <-Hin. tauto.
Qed.
End quotient_by_relation.

Lemma equivalence_on_halves (l : list nat) :
  equivalence_on l (λ x y, x / 2 =? y / 2).
Proof.
  split.
  - intros x _. apply Nat.eqb_refl.
  - intros x y _ _ Hxy%Nat.eqb_eq. by apply Nat.eqb_eq.
  - intros x y z _ _ _ Hxy%Nat.eqb_eq Hyz%Nat.eqb_eq. apply Nat.eqb_eq.
    congruence.
Defined.

Lemma quotient_graph_by_relation_witness :
  quotient_graph Examples.no_density Examples.path6
    (inl (λ x y, x / 2 =? y / 2)) None None None false None
  ≠ Err NetworkXException
  ∧ ∃ H : Graph (gset nat) (attrs nat),
      quotient_graph Examples.no_density Examples.path6
        (inl (λ x y, x / 2 =? y / 2)) None None None false None = Ok H.
Proof.
  split.
  - exact (proj1 (quotient_graph_by_relation Examples.no_density
                    Examples.path6 (λ x y, x / 2 =? y / 2) None None None None
                    (equivalence_on_halves (nodes Examples.path6)))).
  - apply (proj1 (proj2 (quotient_graph_by_relation Examples.no_density
                    Examples.path6 (λ x y, x / 2 =? y / 2) None None None None
                    (equivalence_on_halves (nodes Examples.path6))))).
    intros e He. simpl in He. list_cases He; by eexists.
Defined.

(** ** The quotient: exceptions *)

Lemma mapM_r_Err {A B} (f : A → result B) (l : list A) e :
  mapM_r f l = Err e → ∃ x, x ∈ l ∧ f x = Err e.
Proof.
  induction l as [|x l IH]; [done|]. simpl.
  intros [Hx|(y & _ & [Hl|(ys & _ & [=])]%bind_Err)]%bind_Err.
  - exists x. split; [by left|done].
  - destruct (IH Hl) as (z & Hz & Hfz). exists z. split; [by right|done].
Qed.

Lemma any_r_Err {A} (f : A → result bool) (l : list A) e :
  any_r f l = Err e → ∃ x, x ∈ l ∧ f x = Err e.
Proof.
  induction l as [|x l IH]; [done|]. simpl.
  intros [Hx|([] & _ & Hl)]%bind_Err; [|done|].
  - exists x. split; [by left|done].
  - destruct (IH Hl) as (z & Hz & Hfz). exists z. split; [by right|done].
Qed.

Lemma in_adj_Err {N A} `{EqDecision N} (G : Graph N A) (u v : N) e :
  in_adj G u v = Err e → e = KeyError ∧ u ∉ nodes G.
Proof.
  unfold in_adj, adj. destruct (has_node G u) eqn:Hu; [done|].
  simpl. intros [= <-]. split; [done|]. by apply bool_decide_eq_false in Hu.
Qed.

Section quotient_errors.
Context {V : Type} `{!EqDecision V, !Countable V}.
Variable density : Graph V (attrs V) → value V.
Implicit Types (G : Graph V (attrs V)) (P : list (gset V)) (b c : gset V).

Lemma sum_weights_Err total (ds : list (attrs V)) e :
  sum_weights total ds = Err e → ∃ d, d ∈ ds ∧ weight_of d = Err e.
Proof.
  revert total. induction ds as [|d ds IH]; intros total; [done|]. simpl.
  intros [Hd|(w & _ & Hrest)]%bind_Err.
  - exists d. split; [by left|done].
  - destruct (IH _ Hrest) as (d' & Hd' & Hw). exists d'. split; [by right|done].
Qed.

Lemma weight_of_Err (d : attrs V) e : weight_of d = Err e → e = TypeError.
Proof.
  unfold weight_of. destruct (d !! KStr "weight") as [[]|]; congruence.
Qed.

Lemma default_edge_relation_Err {A} (G : Graph V A) b c e :
  default_edge_relation G b c = Err e →
  e = KeyError ∧ ∃ u, u ∈ b ∧ u ∉ nodes G.
Proof.
  intros ([u v] & [Hu _]%elem_of_product & [-> Hn]%in_adj_Err)%any_r_Err.
  split; [done|]. exists u. by apply elem_of_elements in Hu.
Qed.

Lemma multi_edges_Err G b c e :
  multi_edges G b c = Err e → e = KeyError ∧ ∃ u, u ∈ b ∧ u ∉ nodes G.
Proof.
  unfold multi_edges. rewrite fmap_Err.
  intros ([u v] & [Hu _]%elem_of_product & Hf)%mapM_r_Err. simpl in Hf.
  apply bind_Err in Hf as [[-> Hn]%in_adj_Err|(r & _ & [=])].
  split; [done|]. exists u. by apply elem_of_elements in Hu.
Qed.

Lemma default_edge_data_Err G b c e :
  default_edge_data G b c = Err e →
  e = TypeError ∧ ∃ e', e' ∈ g_edge G ∧ weight_of (e_data e') = Err TypeError.
Proof.
  unfold default_edge_data.
  intros [(d & Hd & Hw)%sum_weights_Err|(w & _ & [=])]%bind_Err.
  pose proof (weight_of_Err _ _ Hw) as ->. split; [done|].
  apply list_elem_of_fmap in Hd as (t & -> & [_ Ht]%list_elem_of_filter).
  apply edges_data_data in Ht as (e' & He' & Heq). exists e'.
  split; [done|]. by rewrite <-Heq.
Qed.

(** X14: the exceptions of [quotient_graph] on an explicit list of
    blocks, each with its cause.  The invalid-partition exception means
    that some node of [G] is not in exactly one block.  A [KeyError] comes
    from looking up the neighbours of a member of a block that is not a
    node of [G], which only the default edge relation and the multigraph
    mode do.  A [TypeError] comes from the default [edge_data] adding up a
    weight of [G] that is not a number.  There is no other exception. *)
Theorem quotient_graph_errors G P er nd ed relabel cu e :
  quotient_graph density G (inr P) er nd ed relabel cu = Err e →
  (e = NetworkXException ∧ ∃ v, v ∈ nodes G ∧ count_blocks P v ≠ 1)
  ∨ (e = KeyError
     ∧ (er = None ∨ cls_multigraph (quotient_class G cu) = true)
     ∧ ∃ b u, b ∈ P ∧ u ∈ b ∧ u ∉ nodes G)
  ∨ (e = TypeError ∧ ed = None
     ∧ cls_multigraph (quotient_class G cu) = false
     ∧ ∃ e', e' ∈ g_edge G ∧ weight_of (e_data e') = Err TypeError).
Proof.
  unfold quotient_graph. simpl.
  intros [HH0|(H0 & _ & [=])]%bind_Err. revert HH0.
  unfold quotient_blocks.
  destruct (bad_partition G P) eqn:Hbad.
  { intros [= <-]. left. split; [done|]. by apply bad_partition_true. }
  set (BG := block_graph density G P nd cu).
  assert (∀ b c, (b, c) ∈ block_pairs BG → b ∈ P) as HP.
  { intros b c [Hb _]%block_pairs_ends. unfold BG in Hb.
    rewrite nodes_block_graph in Hb.
    by apply elem_of_add_all_new in Hb as [?%elem_of_nil|?]. }
  assert (∀ b c, (b, c) ∈ block_pairs BG →
            the_edge_relation G er b c = Err e →
            e = KeyError ∧ er = None ∧ ∃ b u, b ∈ P ∧ u ∈ b ∧ u ∉ nodes G)
    as Hrel.
  { intros b c Hbc. destruct er as [r|]; [done|]. simpl.
    intros [-> (u & Hu & Hn)]%default_edge_relation_Err.
    split; [done|]. split; [done|]. exists b, u. eauto. }
  assert (is_multigraph BG = cls_multigraph (quotient_class G cu)) as ->.
  { unfold is_multigraph, BG. by rewrite g_class_block_graph. }
  destruct (cls_multigraph (quotient_class G cu)) eqn:Hm.
  - intros [Hedges|(ts & _ & [=])]%bind_Err. right. left.
    unfold multigraph_edges in Hedges. rewrite fmap_Err in Hedges.
    apply mapM_r_Err in Hedges as ([b c] & Hbc & Hf). simpl in Hf.
    apply bind_Err in Hf as [Hr|(r & _ & Hf)].
    + destruct (Hrel b c Hbc Hr) as (-> & _ & ?). auto.
    + destruct r; [|done].
      apply multi_edges_Err in Hf as [-> (u & Hu & Hn)].
      split; [done|]. split; [by right|]. exists b, u. eauto.
  - intros [Hedges|(ts & _ & [=])]%bind_Err.
    unfold simple_edges in Hedges. rewrite fmap_Err in Hedges.
    apply mapM_r_Err in Hedges as ([b c] & Hbc & Hf). simpl in Hf.
    apply bind_Err in Hf as [Hr|(r & _ & Hf)].
    + right. left. destruct (Hrel b c Hbc Hr) as (-> & -> & ?). auto.
    + destruct r; [|done]. right. right.
      apply bind_Err in Hf as [Hd|(d & _ & [=])].
      destruct ed as [f|]; [done|]. simpl in Hd.
      apply default_edge_data_Err in Hd as [-> ?]. done.
Qed.
End quotient_errors.

Lemma quotient_graph_errors_witness :
  quotient_graph Examples.no_density Examples.path6
    (inr Examples.stray_blocks) None None None false None
  = Err KeyError
  ∧ ∃ b u, b ∈ Examples.stray_blocks ∧ u ∈ b ∧ u ∉ nodes Examples.path6.
Proof.
  assert (quotient_graph Examples.no_density Examples.path6
            (inr Examples.stray_blocks) None None None false None
          = Err KeyError) as Herr by by_evaluation.
  split; [exact Herr|].
  destruct (quotient_graph_errors Examples.no_density Examples.path6
              Examples.stray_blocks None None None false None KeyError Herr)
    as [[Heq _]|[(_ & _ & Hex)|(Heq & _)]]; [discriminate Heq|exact Hex|
                                             discriminate Heq].
Defined.

(** ** Contraction in a multigraph *)

Section contraction_multigraph.
Context {V : Type} `{!EqDecision V, !Countable V}.
Implicit Types (G H : Graph V (attrs V)) (u v w x y : V).

Lemma g_edge_add_edges_from_multi {N} `{EqDecision N}
    (G : Graph N (attrs V)) (ts : list (N * N * attrs V)) :
  is_multigraph G = true →
  (λ e, (e_src e, e_dst e, e_data e)) <$> g_edge (add_edges_from G ts)
  = ((λ e, (e_src e, e_dst e, e_data e)) <$> g_edge G) ++ ts.
Proof.
  unfold add_edges_from. revert G. induction ts as [|[[a b] d] ts IH];
    intros G Hm; [by rewrite app_nil_r|].
  simpl. rewrite IH.
  - unfold add_edge.
    assert (is_multigraph (ensure_node (ensure_node G a) b) = true) as ->.
    { unfold is_multigraph. by rewrite !g_class_ensure_node. }
    simpl. rewrite !g_edge_ensure_node, fmap_app. simpl.
    unfold dict_update. rewrite (right_id_L ∅ (∪)). by rewrite <-app_assoc.
  - unfold is_multigraph. by rewrite g_class_add_edge.
Qed.

Lemma contracted_nodes_multi_edges G u v self_loops H :
  is_multigraph G = true →
  contracted_nodes G u v self_loops = Ok H →
  ∃ es, new_edges G u v self_loops = Ok es
        ∧ (λ e, (e_src e, e_dst e, e_data e)) <$> g_edge H
          = ((λ e, (e_src e, e_dst e, e_data e))
               <$> filter (λ e, incident v e = false) (g_edge G)) ++ es.
Proof.
  intros Hm. unfold contracted_nodes, copy.
  intros (es & Hes & (v_data & _ & (G1 & HG1 & Hrest)%bind_Ok)%bind_Ok)%bind_Ok.
  apply bind_Ok in Hrest as (u_data & _ & Hrest).
  exists es. split; [done|].
  assert (g_edge H = g_edge (add_edges_from G1 es)) as ->.
  { destruct (u_data !! _) as [[]|]; by simplify_eq. }
  rewrite g_edge_add_edges_from_multi.
  - unfold remove_node in HG1. destruct (has_node G v); [|done].
    by injection HG1 as <-.
  - unfold is_multigraph in *.
    by destruct (nodes_remove_node _ _ _ HG1) as [_ ->].
Qed.

Lemma joins_undirected_at {N A} `{EqDecision N} (u v : N) (e : Edge N A) :
  joins false u v e = true ↔
  (e_src e = u ∧ e_dst e = v) ∨ (e_src e = v ∧ e_dst e = u).
Proof.
  unfold joins. simpl. rewrite orb_true_iff, !bool_decide_eq_true. done.
Qed.

(** X15: contraction in a multigraph keeps the edges with their
    attributes.  The attribute dictionaries of the edges of the graph
    returned are, up to order, those of the edges of [G], all of them when
    [self_loops] is set, so that the number of edges is the same, and
    otherwise all but those of the edges between [u] and [v].  In a
    directed multigraph this needs [v] to have no self-loop, which would be
    taken twice, as an edge into [v] and as an edge out of [v]. *)
Theorem contracted_nodes_multigraph_edges G u v self_loops H :
  is_multigraph G = true →
  (is_directed G = true → has_edge G v v = false) →
  contracted_nodes G u v self_loops = Ok H →
  e_data <$> g_edge H
  ≡ₚ e_data <$> filter (λ e, self_loops = true ∨ joins false u v e = false)
                  (g_edge G)
  ∧ (self_loops = true → number_of_edges H = number_of_edges G).
Proof.
  intros Hm Hloop HH.
  assert (e_data <$> g_edge H
          ≡ₚ e_data <$> filter (λ e, self_loops = true
                                      ∨ joins false u v e = false)
                          (g_edge G)) as Hperm; last first.
  { split; [done|]. intros ->. apply Permutation_length in Hperm.
    rewrite !length_fmap in Hperm. unfold number_of_edges. rewrite Hperm.
    f_equal. apply filter_all. intros e _. by left. }
  destruct (contracted_nodes_multi_edges G u v self_loops H Hm HH)
    as (es & Hes & Hedges).
  apply (f_equal (fmap snd)) in Hedges.
  rewrite <-list_fmap_compose, fmap_app, <-list_fmap_compose in Hedges.
  change (snd ∘ _) with (@e_data V (attrs V)) in Hedges.
  rewrite Hedges. clear Hedges HH H.
  rewrite !fmap_filter_flat_map.
  unfold new_edges, in_edges_data_at, out_edges_data_at, edges_data_at,
    edges_data in Hes.
  destruct (has_node G v) eqn:Hv; [|by destruct (is_directed G)].
  destruct (is_directed G) eqn:Hd; simpl in Hes; injection Hes as <-.
  - specialize (Hloop eq_refl).
    unfold rerouted_in, rerouted_out, in_edges_iter, out_edges_iter.
    simpl. rewrite !app_nil_r, fmap_app, <-!list_fmap_compose.
    rewrite !filter_flat_map, !fmap_flat_map.
    rewrite <-!flat_map_app_perm.
    erewrite flat_map_ext_elem; [done|].
    intros e He. simpl.
    assert (¬ (e_src e = v ∧ e_dst e = v)) as Hnl.
    { intros [Hs Ht]. apply not_true_iff_false in Hloop. apply Hloop.
      apply has_edge_directed; [done|]. eauto. }
    unfold incident, keeps.
    destruct (decide (e_src e = v)) as [Hs|Hs];
      destruct (decide (e_dst e = v)) as [Ht|Ht]; [tauto|..].
    all: unfold joins; rewrite ?filter_cons, ?filter_nil; simpl;
      destruct self_loops; simpl;
      repeat (case_bool_decide || case_decide); simpl in *;
      try done; exfalso; try intuition congruence.
  - clear Hloop. rewrite nbunch_iter_node by done. unfold rerouted_out.
    simpl. rewrite app_nil_r. unfold edges_from_unseen.
    rewrite <-list_fmap_compose, filter_flat_map, fmap_flat_map.
    rewrite <-flat_map_app_perm.
    erewrite flat_map_ext_elem; [done|].
    intros e He. simpl. unfold report_edge, incident, keeps, joins.
    destruct (decide (e_src e = v)) as [Hs|Hs];
      destruct (decide (e_dst e = v)) as [Ht|Ht].
    all: repeat match goal with
         | |- context [decide (?x ∈ [])] =>
             rewrite (decide_False (P := x ∈ [])) by apply not_elem_of_nil
         end.
    all: rewrite ?filter_cons, ?filter_nil; simpl;
      destruct self_loops; simpl;
      repeat (case_bool_decide || case_decide); simpl in *;
      try done; exfalso; try intuition congruence.
Qed.
End contraction_multigraph.

Lemma doubled_contracted_eq :
  contracted_nodes Examples.doubled 0 1 true = Ok Examples.doubled_contracted.
Proof. by_evaluation. Defined.

Lemma contracted_nodes_multigraph_edges_witness :
  contracted_nodes Examples.doubled 0 1 true = Ok Examples.doubled_contracted
  ∧ (true = true →
     number_of_edges Examples.doubled_contracted
     = number_of_edges Examples.doubled).
Proof.
  split; [exact doubled_contracted_eq|].
  refine (proj2 (contracted_nodes_multigraph_edges Examples.doubled 0 1 true
                   Examples.doubled_contracted _ _ doubled_contracted_eq)).
  - reflexivity.
  - intros Hd. discriminate Hd.
Defined.

(** ** The store: the graph returned is new *)

Section store_results.
Context {V : Type} `{!EqDecision V, !Countable V}.
Variable density_st : Graph V loc → hvalue V.
Implicit Types (σ τ : store V) (g : Graph V loc).

Lemma contracted_nodes_st_result τ G u v self_loops :
  preserves τ (λ σ, σ = τ) (contracted_nodes_st G u v self_loops)
    (λ H σ, τ !! H = None
            ∧ ∃ h, σ !! H = Some (OGraph h) ∧ owned τ σ h).
Proof.
  unfold contracted_nodes_st.
  eapply preserves_bind; [apply copy_st_preserves|]. intros H.
  apply (preserves_pre _ (τ !! H = None)); [by intros σ _ [? _]|]. intros HH.
  apply preserves_bind_read_graph. intros g.
  apply preserves_bind_lift. intros edges _.
  apply preserves_bind_read_graph. intros h.
  apply (preserves_weaken _ _ (λ σ, kept true τ σ h)).
  { intros σ _ (Hh & _ & _ & h' & Hh' & Hk). rewrite Hh in Hh'.
    by injection Hh' as ->. }
  apply preserves_bind_lift. intros v_data _.
  apply preserves_bind_lift. intros h1 Hrm.
  apply (preserves_weaken _ _ (λ σ, kept true τ σ h1)).
  { intros σ _ Hk. by eapply kept_remove_node. }
  apply preserves_bind_write; [done|].
  apply (preserves_weaken _ _ (λ σ, kept true τ σ h1)).
  { intros σ' _ (σ & _ & Hk & ->). by apply kept_insert_graph. }
  eapply preserves_bind; [apply add_edges_from_st_kept|]. intros h2.
  apply preserves_bind_write; [done|].
  apply (preserves_weaken _ _
    (λ σ, σ !! H = Some (OGraph h2) ∧ kept true τ σ h2)).
  { intros σ' _ (σ & _ & Hk & ->). split; [apply lookup_insert_eq|].
    by apply kept_insert_graph. }
  apply preserves_bind_lift. intros u_data Hu%node_attr_elem_of.
  apply (preserves_pre _ (τ !! u_data = None)).
  { intros σ _ (_ & [Hn _] & _). by destruct (Hn u u_data Hu). }
  intros Hud. apply preserves_bind_read_dict. intros ud.
  destruct (ud !! KStr "contraction") as [[z|s|record|G']|] eqn:Hrec;
    try apply preserves_raise.
  - apply (preserves_pre _ (τ !! record = None)).
    { intros σ _ (Hd & _ & _ & _ & Hc).
      by apply (Hc eq_refl u u_data ud (KStr "contraction") record). }
    intros Hr. apply preserves_bind_read_dict. intros old.
    apply preserves_bind_write; [done|]. apply preserves_ret.
    intros σ' _ (σ & _ & (Hrd & _ & HH' & Hown & _) & ->).
    split; [done|]. exists h2. split; [|by apply owned_insert].
    rewrite lookup_insert_ne; [done|]. intros ->. congruence.
  - apply preserves_bind_alloc. intros record _.
    apply preserves_bind_write; [done|]. apply preserves_ret.
    intros σ2 _ (σ1 & _ & (σ & _ & Hfresh & (Hrd & HH' & Hown & _) & ->) & ->).
    split; [done|]. exists h2. split; [|by do 2 apply owned_insert].
    rewrite !lookup_insert_ne; [done|..]; intros ->; congruence.
Qed.

(** X16: on the store of objects, the graph that [contracted_nodes]
    returns is a new object, and so is the attribute dictionary of each of
    its nodes and edges: none of them existed before the call.  This is
    about the dictionaries of the nodes and edges themselves, not about
    dictionaries held as values inside them. *)
Theorem contracted_nodes_st_new_graph σ G u v self_loops H σ' :
  contracted_nodes_st G u v self_loops σ = (Ok H, σ') →
  σ !! H = None ∧ ∃ h, σ' !! H = Some (OGraph h) ∧ owned σ σ' h.
Proof.
  intros Hrun.
  destruct (contracted_nodes_st_result σ G u v self_loops σ) as [_ Hpost];
    [done..|].
  rewrite Hrun in Hpost. simpl in Hpost. by apply Hpost.
Qed.

Lemma relabel_nodes_st_spec (h : Graph (gset V) loc) labels σ L σ' :
  relabel_nodes_st h labels σ = (Ok L, σ') →
  σ ⊆ σ' ∧ σ !! L = None
  ∧ ∃ k, σ' !! L = Some (OIntGraph k) ∧ owned σ σ' k.
Proof.
  unfold relabel_nodes_st.
  intros (ns & σ1 & Hns & (es & σ2 & Hes & Halloc)%bind_st_Ok)%bind_st_Ok.
  apply alloc_Ok in Halloc as (HL & ->).
  apply mapM_st_trace in Hns as [H01 Hns].
  2:{ intros na. apply alloc_only_bind; [apply alloc_only_read_dict|].
      intros d. apply alloc_only_bind; [apply alloc_only_alloc|].
      intros l. apply alloc_only_ret. }
  apply mapM_st_trace in Hes as [H12 Hes].
  2:{ intros e. apply alloc_only_bind; [apply alloc_only_read_dict|].
      intros d. apply alloc_only_bind; [apply alloc_only_alloc|].
      intros l. apply alloc_only_ret. }
  assert (σ ⊆ σ2) as H02 by by etrans.
  assert (σ2 ⊆ <[L := OIntGraph (mkGraph (g_class h) ns es)]> σ2) as H2L.
  { by apply insert_subseteq. }
  split; [by etrans|]. split; [by eapply subseteq_None|].
  eexists. split; [apply lookup_insert_eq|]. split; simpl.
  - intros n l [i Hi]%list_elem_of_lookup.
    destruct (Forall2_lookup_r _ _ _ _ _ Hns Hi)
      as (na & _ & σa & σb & Ha & Hb & Hf).
    apply bind_st_Ok in Hf as (d & σa' & Hrd & Hf).
    apply read_dict_Ok in Hrd as [-> _].
    apply bind_st_Ok in Hf as (l' & σc & Hal & [= <- <- <-]).
    apply alloc_Ok in Hal as (Hl' & ->). split.
    + by eapply subseteq_None.
    + exists (ODict d). eapply lookup_weaken; [apply lookup_insert_eq|].
      etrans; [exact Hb|]. by etrans.
  - intros e [i Hi]%list_elem_of_lookup.
    destruct (Forall2_lookup_r _ _ _ _ _ Hes Hi)
      as (e0 & _ & σa & σb & Ha & Hb & Hf).
    apply bind_st_Ok in Hf as (d & σa' & Hrd & Hf).
    apply read_dict_Ok in Hrd as [-> _].
    apply bind_st_Ok in Hf as (l' & σc & Hal & [= <- <-]).
    apply alloc_Ok in Hal as (Hl' & ->). simpl. split.
    + eapply subseteq_None; [|exact Hl']. by etrans; [exact H01|].
    + exists (ODict d). eapply lookup_weaken; [apply lookup_insert_eq|].
      by etrans; [exact Hb|].
Qed.

Lemma relabel_nodes_st_preserves τ (h : Graph (gset V) loc) labels P :
  preserves τ P (relabel_nodes_st h labels)
    (λ L σ, τ !! L = None ∧ ∃ k, σ !! L = Some (OIntGraph k) ∧ owned τ σ k).
Proof.
  intros σ Hsub _.
  destruct (relabel_nodes_st h labels σ) as [r σ'] eqn:Hrun. simpl. split.
  - etrans; [exact Hsub|].
    by eapply alloc_only_run; [apply alloc_only_relabel_nodes_st|].
  - intros L ->. apply relabel_nodes_st_spec in Hrun as (_ & HL & k & Hk & Hown).
    split; [by eapply subseteq_None|]. exists k. split; [done|].
    by eapply owned_weaken.
Qed.

Lemma quotient_graph_st_result τ G partition edge_relation node_data
    edge_data relabel create_using :
  preserves τ (λ _, True)
    (quotient_graph_st density_st G partition edge_relation node_data
       edge_data relabel create_using)
    (λ H σ, τ !! H = None
            ∧ if relabel
              then ∃ k, σ !! H = Some (OIntGraph k) ∧ owned τ σ k
              else ∃ h, σ !! H = Some (OBlockGraph h) ∧ owned τ σ h).
Proof.
  unfold quotient_graph_st.
  apply preserves_bind_read_graph. intros g.
  apply (preserves_weaken _ _ (λ _, True)); [done|].
  apply preserves_bind_lift. intros blocks _.
  destruct (bad_partition g blocks); [apply preserves_raise|].
  apply preserves_bind_alloc. intros H HH.
  apply (preserves_weaken _ _
    (λ σ, kept false τ σ
            (empty_graph (N:=gset V) (quotient_class g create_using)))).
  { intros σ' _ _. apply kept_empty_graph. }
  eapply preserves_bind.
  { apply (preserves_foldM τ (λ h σ, kept false τ σ h)). intros h b _.
    eapply preserves_bind.
    - apply preserves_alloc_only; [apply alloc_only_the_node_data_st|].
      intros σ σ' _ Hsub. by apply kept_mono.
    - intros ndict. apply add_node_st_kept. }
  intros h. apply preserves_bind_write; [done|].
  apply (preserves_weaken _ _ (λ σ, kept false τ σ h)).
  { intros σ' _ (σ & _ & Hk & ->). by apply kept_insert_graph. }
  eapply preserves_bind.
  { apply (preserves_foldM τ (λ h σ, kept false τ σ h)). intros h' bc _.
    apply preserves_bind_lift. intros r _. destruct r.
    - eapply preserves_bind.
      + apply preserves_alloc_only; [apply alloc_only_pair_edges_st|].
        intros σ σ' _ Hsub. by apply kept_mono.
      + intros edges. apply add_edges_from_st_kept.
    - by apply preserves_ret. }
  intros h2. apply preserves_bind_write; [done|].
  destruct relabel.
  - apply relabel_nodes_st_preserves.
  - apply preserves_ret. intros σ' _ (σ & _ & (Hown & _) & ->).
    split; [done|]. exists h2. split; [apply lookup_insert_eq|].
    by apply owned_insert.
Qed.

(** X17: on the store of objects, the graph that [quotient_graph]
    returns is a new object, a graph on blocks or, with [relabel], on
    numbers, and the attribute dictionary of each of its nodes and edges
    is a new object as well. *)
Theorem quotient_graph_st_new_graph σ G partition edge_relation node_data
    edge_data relabel create_using H σ' :
  quotient_graph_st density_st G partition edge_relation node_data
    edge_data relabel create_using σ = (Ok H, σ') →
  σ !! H = None
  ∧ if relabel
    then ∃ k, σ' !! H = Some (OIntGraph k) ∧ owned σ σ' k
    else ∃ h, σ' !! H = Some (OBlockGraph h) ∧ owned σ σ' h.
Proof.
  intros Hrun.
  destruct (quotient_graph_st_result σ G partition edge_relation node_data
              edge_data relabel create_using σ) as [_ Hpost]; [done..|].
  rewrite Hrun in Hpost. simpl in Hpost. by apply Hpost.
Qed.
End store_results.

Lemma contracted_nodes_st_new_graph_witness :
  ∃ H σ', contracted_nodes_st 0 1 2 false Examples.edge_store = (Ok H, σ')
          ∧ Examples.edge_store !! H = None.
Proof.
  destruct (contracted_nodes_st 0 1 2 false Examples.edge_store)
    as [r σ'] eqn:Hrun.
  destruct contracted_nodes_st_returns as [_ [H HH]].
  rewrite Hrun in HH. simpl in HH. subst r. exists H, σ'.
  split; [reflexivity|].
  exact (proj1 (contracted_nodes_st_new_graph Examples.edge_store 0 1 2 false
                  H σ' Hrun)).
Defined.

Lemma quotient_graph_st_new_graph_witness :
  ∃ H σ', quotient_graph_st Examples.no_density_st 0 (inr [{[1]}; {[2]}])
            None None None false None Examples.edge_store = (Ok H, σ')
          ∧ Examples.edge_store !! H = None.
Proof.
  destruct (quotient_graph_st Examples.no_density_st 0 (inr [{[1]}; {[2]}])
              None None None false None Examples.edge_store)
    as [r σ'] eqn:Hrun.
  destruct quotient_graph_st_returns as [H HH].
  rewrite Hrun in HH. simpl in HH. subst r. exists H, σ'.
  split; [reflexivity|].
  exact (proj1 (quotient_graph_st_new_graph Examples.no_density_st
                  Examples.edge_store 0 (inr [{[1]}; {[2]}])
                  None None None false None H σ' Hrun)).
Defined.

(** ** The multigraph quotient of a simple graph *)

Lemma NoDup_product {A B} (l : list A) (k : list B) :
  NoDup l → NoDup k → NoDup (product l k).
Proof.
  intros Hl Hk. unfold product. induction Hl as [|x l Hx Hl IH]; [constructor|].
  simpl. apply NoDup_app. split_and!.
  - apply NoDup_fmap_2; [|done]. by intros y z [= ->].
  - intros [a b'] (y & [= -> ->] & Hy)%list_elem_of_fmap
      (z & Hz & (w & [= -> ->] & Hw)%list_elem_of_fmap)%elem_of_flat_map.
    done.
  - done.
Qed.

Lemma filter_at_most_one {A} (P : A → Prop) `{∀ x, Decision (P x)}
    (l : list A) :
  (∀ i j x y, l !! i = Some x → l !! j = Some y → P x → P y → i = j) →
  filter P l = [] ∨ ∃ x, filter P l = [x].
Proof.
  induction l as [|x l IH]; intros Huniq; [by left|].
  rewrite filter_cons. destruct (decide (P x)) as [Hx|Hx].
  - right. exists x. f_equal. apply filter_none. intros y Hy HPy.
    apply list_elem_of_lookup in Hy as [j Hj].
    by specialize (Huniq 0 (S j) x y eq_refl Hj Hx HPy).
  - apply IH. intros i j y z Hi Hj Hy Hz.
    by specialize (Huniq (S i) (S j) y z Hi Hj Hy Hz) as [= ->].
Qed.

Lemma flat_map_nil {A B} (f : A → list B) (l : list A) :
  (∀ x, x ∈ l → f x = []) → flat_map f l = [].
Proof.
  induction l as [|x l IH]; [done|]. intros Hf. simpl.
  rewrite (Hf x) by by left. apply IH. intros y Hy. apply Hf. by right.
Qed.

Section simple_graph_edges.
Context {V : Type} `{!EqDecision V, !Countable V}.
Implicit Types (G : Graph V (attrs V)) (b c : gset V) (u v : V).

(** In a simple graph, the data of the edge between two nodes. *)
Lemma get_edge_data_simple G u v :
  wf_graph G → is_multigraph G = false →
  (if has_edge G u v then [get_edge_data G u v ∅] else [])
  = e_data <$> filter (λ e, joins (is_directed G) u v e = true) (g_edge G).
Proof.
  intros Hwf Hm. unfold get_edge_data. rewrite Hm.
  destruct (filter_at_most_one (λ e, joins (is_directed G) u v e = true)
              (g_edge G)) as [Hnil|[e He]].
  - intros i j e1 e2 Hi Hj H1%joins_same_pair H2%joins_same_pair.
    apply (wf_slots G Hwf i j e1 e2 Hi Hj). split.
    + apply joins_same_pair. eapply same_pair_trans; [exact H2|].
      by apply same_pair_sym.
    + rewrite !(wf_simple G Hwf Hm); [done|by eapply list_elem_of_lookup_2..].
  - rewrite Hnil. simpl.
    destruct (has_edge G u v) eqn:Hh; [|done].
    apply has_edge_joins in Hh as (e & He & Hj).
    assert (e ∈ filter (λ e, joins (is_directed G) u v e = true) (g_edge G))
      as Hin by by apply list_elem_of_filter.
    rewrite Hnil in Hin. by apply elem_of_nil in Hin.
  - rewrite He. simpl.
    assert (e ∈ filter (λ e, joins (is_directed G) u v e = true) (g_edge G))
      as [Hj Hin]%list_elem_of_filter by (rewrite He; by left).
    assert (has_edge G u v = true) as ->; [|done].
    apply has_edge_joins. eauto.
Qed.

Lemma joins_true {N A} `{EqDecision N} directed (u v : N) (e : Edge N A) :
  joins directed u v e = true ↔
  (e_src e = u ∧ e_dst e = v) ∨ (directed = false ∧ e_src e = v ∧ e_dst e = u).
Proof.
  unfold joins. rewrite orb_true_iff, andb_true_iff, negb_true_iff.
  by rewrite !bool_decide_eq_true.
Qed.

(** In a simple graph, the adjacent pairs of nodes between two blocks
    without a common node stand for the edges between the blocks. *)
Lemma adjacent_pairs_edges G b c :
  wf_graph G → is_multigraph G = false →
  (∀ x, x ∈ nodes G → ¬ (x ∈ b ∧ x ∈ c)) →
  flat_map (λ uv, if has_edge G uv.1 uv.2
                  then [get_edge_data G uv.1 uv.2 ∅] else [])
    (product (elements b) (elements c))
  ≡ₚ e_data <$> filter (runs_between (is_directed G) b c) (g_edge G).
Proof.
  intros Hwf Hm Hdisj.
  rewrite (flat_map_ext_elem _
    (λ uv, flat_map (λ e, if decide (joins (is_directed G) uv.1 uv.2 e = true)
                          then [e_data e] else []) (g_edge G))).
  2:{ intros uv _. rewrite get_edge_data_simple by done.
      apply fmap_filter_flat_map. }
  rewrite flat_map_swap, fmap_filter_flat_map.
  erewrite flat_map_ext_elem; [done|].
  intros e He. simpl.
  destruct (wf_ends G Hwf e He) as [Hs Hd].
  assert (NoDup (product (elements b) (elements c))) as Hnd.
  { apply NoDup_product; apply NoDup_elements. }
  destruct (decide (runs_between (is_directed G) b c e)) as [Hbt|Hbt].
  - destruct (decide (e_src e ∈ b ∧ e_dst e ∈ c)) as [[Hsb Hdc]|Hn].
    + rewrite (flat_map_ext_elem _
        (λ uv, if decide ((e_src e, e_dst e) = uv) then [e_data e] else [])).
      * rewrite flat_map_select_NoDup by done. rewrite decide_True; [done|].
        apply elem_of_product. by rewrite !elem_of_elements.
      * intros [u v] [Hu Hv]%elem_of_product. simpl.
        apply elem_of_elements in Hu, Hv.
        destruct (decide (joins _ u v e = true)) as [Hj|Hj].
        -- apply joins_true in Hj as [[<- <-]|(_ & <- & <-)].
           ++ by rewrite decide_True.
           ++ destruct (Hdisj _ Hd). done.
        -- rewrite decide_False; [done|]. intros [= <- <-]. apply Hj.
           apply joins_true. by left.
    + destruct Hbt as [?|(Hdir & Hsc & Hdb)]; [done|].
      rewrite (flat_map_ext_elem _
        (λ uv, if decide ((e_dst e, e_src e) = uv) then [e_data e] else [])).
      * rewrite flat_map_select_NoDup by done. rewrite decide_True; [done|].
        apply elem_of_product. by rewrite !elem_of_elements.
      * intros [u v] [Hu Hv]%elem_of_product. simpl.
        apply elem_of_elements in Hu, Hv.
        destruct (decide (joins _ u v e = true)) as [Hj|Hj].
        -- apply joins_true in Hj as [[<- <-]|(_ & <- & <-)].
           ++ destruct Hn. done.
           ++ by rewrite decide_True.
        -- rewrite decide_False; [done|]. intros [= <- <-]. apply Hj.
           apply joins_true. right. done.
  - apply flat_map_nil. intros [u v] [Hu Hv]%elem_of_product. simpl.
    apply elem_of_elements in Hu, Hv.
    destruct (decide (joins _ u v e = true)) as [Hj|Hj]; [|done].
    destruct Hbt. apply joins_true in Hj as [[<- <-]|(Hdir & <- & <-)].
    + by left.
    + right. done.
Qed.
End simple_graph_edges.

Section multigraph_quotient.
Context {V : Type} `{!EqDecision V, !Countable V}.
Variable density : Graph V (attrs V) → value V.
Implicit Types (G : Graph V (attrs V)) (P : list (gset V)) (b c : gset V).

Lemma flat_map_fmap {A B C} (f : B → list C) (g : A → B) (l : list A) :
  flat_map f (g <$> l) = flat_map (λ x, f (g x)) l.
Proof. induction l as [|x l IH]; [done|]. simpl. f_equal. exact IH. Qed.

Lemma flat_map_flat_map {A B C} (f : B → list C) (g : A → list B)
    (l : list A) :
  flat_map f (flat_map g l) = flat_map (λ x, flat_map f (g x)) l.
Proof.
  induction l as [|x l IH]; [done|]. simpl. by rewrite flat_map_app, IH.
Qed.

Lemma multi_edges_closed G b c ms :
  multi_edges G b c = Ok ms →
  ms = (λ d, (b, c, d)) <$> pair_data G (b, c).
Proof.
  intros (lss & Hlss & ->)%multi_edges_Ok. unfold pair_data. simpl.
  induction Hlss as [|uv ls uvs lss (r & Hr & ->) _ IH]; [done|].
  simpl. rewrite fmap_app, IH. f_equal.
  apply in_adj_Ok in Hr as [_ ->]. by destruct (has_edge _ _ _).
Qed.

Lemma multigraph_edges_closed G pairs ts :
  multigraph_edges G (default_edge_relation G) pairs = Ok ts →
  ts = flat_map (λ bc, (λ d, (bc.1, bc.2, d)) <$> pair_data G bc) pairs.
Proof.
  intros (lss & Hlss & ->)%multigraph_edges_Ok.
  induction Hlss as [|[b c] ls bcs lss (r & Hr & Hls) _ IH]; [done|].
  simpl in *. rewrite IH. f_equal.
  destruct r.
  - by apply multi_edges_closed.
  - subst ls. unfold pair_data. rewrite flat_map_nil; [done|].
    intros [u v] [Hu Hv]%elem_of_product. simpl.
    apply elem_of_elements in Hu, Hv.
    destruct (has_edge G u v) eqn:Hh; [|done].
    pose proof (default_edge_relation_Ok G b c false Hr) as [_ Hex].
    discriminate Hex. eauto.
Qed.

Lemma flat_map_guard {A} (Q : Prop) `{Decision Q} (l : list A) :
  flat_map (λ d, if decide Q then [d] else []) l = if decide Q then l else [].
Proof.
  destruct (decide Q); induction l as [|x l IH]; simpl; [done| |done..].
  by rewrite IH.
Qed.

Lemma blocks_share_no_node G P b c x :
  bad_partition G P = false → b ∈ P → c ∈ P → b ≠ c → x ∈ nodes G →
  ¬ (x ∈ b ∧ x ∈ c).
Proof.
  intros Hbad Hb Hc Hne Hx [Hxb Hxc].
  pose proof (proj1 (bad_partition_false G P) Hbad x Hx) as Hcount.
  unfold count_blocks in Hcount.
  assert (b ∈ filter (λ b, x ∈ b) P) as Hb' by by apply list_elem_of_filter.
  assert (c ∈ filter (λ b, x ∈ b) P) as Hc' by by apply list_elem_of_filter.
  destruct (filter _ P) as [|a [|a' l]]; try done.
  apply list_elem_of_singleton in Hb', Hc'. congruence.
Qed.

(** The edges of a multigraph quotient of a simple graph, before any
    relabelling. *)
Lemma quotient_blocks_multigraph_edges G P nd ed cu H b c :
  wf_graph G → is_multigraph G = false →
  cls_multigraph (quotient_class G cu) = true →
  (is_directed G = true → cls_directed (quotient_class G cu) = true) →
  quotient_blocks density G P None nd ed cu = Ok H →
  b ∈ P → c ∈ P → b ≠ c →
  e_data <$> filter (λ e, joins (is_directed H) b c e = true) (g_edge H)
  ≡ₚ e_data <$> filter (runs_between (is_directed G) b c) (g_edge G).
Proof.
  intros Hwf Hsimple Hmulti Hdir HH0 Hb Hc Hne.
  apply quotient_blocks_Ok in HH0 as (Hbad & ts & Hts & ->).
  rewrite Hmulti in Hts. simpl in Hts.
  set (BG := block_graph density G P nd cu) in *.
  assert (g_class BG = quotient_class G cu) as Hcls
    by apply g_class_block_graph.
  assert (is_directed (add_edges_from BG ts) = is_directed BG) as ->.
  { unfold is_directed. by rewrite g_class_add_edges_from. }
  assert (is_directed G = true → is_directed BG = true) as Hdir'.
  { unfold is_directed at 2. by rewrite Hcls. }
  pose proof (g_edge_add_edges_from_multi BG ts) as Hedges.
  unfold is_multigraph in Hedges. rewrite Hcls in Hedges.
  specialize (Hedges Hmulti).
  unfold BG in Hedges at 2. rewrite g_edge_block_graph in Hedges.
  simpl in Hedges.
  rewrite (fmap_filter_flat_map (λ e, joins _ b c e = true)).
  trans (flat_map (λ t, if decide (same_pair (is_directed BG)
                                      (t.1.1, t.1.2) (b, c))
                        then [t.2] else []) ts).
  { clear Hts. revert Hedges.
    generalize (g_edge (add_edges_from BG ts)). intros es <-.
    rewrite flat_map_fmap.
    match goal with |- ?l ≡ₚ ?r => replace l with r; [done|] end.
    apply flat_map_ext_elem. intros e _. simpl.
    destruct (decide (joins _ b c e = true)) as [Hj|Hj];
      destruct (decide (same_pair _ _ _)) as [Hs|Hs]; try done.
    - destruct Hs. by apply joins_same_pair.
    - destruct Hj. by apply joins_same_pair. }
  rewrite (multigraph_edges_closed _ _ _ Hts), flat_map_flat_map.
  assert (b ∈ nodes BG ∧ c ∈ nodes BG) as [Hb' Hc'].
  { unfold BG. rewrite nodes_block_graph, !elem_of_add_all_new. auto. }
  assert (∃ p0, p0 ∈ block_pairs BG ∧ same_pair (is_directed BG) p0 (b, c))
    as (p0 & Hp0 & Hsame).
  { destruct (block_pairs_complete BG b c Hb' Hc' Hne) as [Hbc|[Hd Hcb]].
    - exists (b, c). split; [done|by left].
    - exists (c, b). split; [done|]. by right. }
  rewrite (flat_map_ext_elem _
    (λ bc, if decide (p0 = bc) then pair_data G p0 else [])).
  2:{ intros bc Hbc. rewrite flat_map_fmap. simpl.
      rewrite (flat_map_guard (same_pair _ (bc.1, bc.2) (b, c))).
      rewrite <-surjective_pairing.
      destruct (decide (p0 = bc)) as [<-|Hp].
      - by rewrite decide_True.
      - rewrite decide_False; [done|]. intros Hs. apply Hp.
        apply (apart_elem_of (is_directed BG) (block_pairs BG)); [|done..|].
        + apply apart_block_pairs.
        + eapply same_pair_trans; [exact Hsame|]. by apply same_pair_sym. }
  rewrite flat_map_select_NoDup.
  2:{ apply (apart_NoDup (is_directed BG)), apart_block_pairs. }
  rewrite decide_True by done.
  assert (∀ x, x ∈ nodes G → ¬ (x ∈ b ∧ x ∈ c)) as Hdisj.
  { intros x. by apply (blocks_share_no_node G P). }
  destruct Hsame as [->|[Hd ->]]; simpl.
  - by apply adjacent_pairs_edges.
  - unfold pair_data. simpl. rewrite adjacent_pairs_edges; [|done..|].
    2:{ intros x Hx [??]. by apply (Hdisj x). }
    assert (is_directed G = false) as ->.
    { destruct (is_directed G); [|done]. by rewrite Hdir' in Hd. }
    erewrite filter_ext_elem; [done|].
    intros e _. unfold runs_between. tauto.
Qed.

(** X18: the multigraph quotient of a simple graph.  When [G] is a simple
    graph with one edge at most between two nodes and the quotient is a
    multigraph, taken with the default edge relation, the edges of the
    quotient from a block [b] to another block [c] carry, up to order, the
    attribute dictionaries of the edges of [G] from a node of [b] to a
    node of [c]: one edge of the quotient for each such edge of [G].  A
    directed [G] needs a directed quotient for this. *)
Theorem quotient_graph_multigraph_edges G P nd ed cu H b c :
  wf_graph G → is_multigraph G = false →
  cls_multigraph (quotient_class G cu) = true →
  (is_directed G = true → cls_directed (quotient_class G cu) = true) →
  quotient_graph density G (inr P) None nd ed false cu = Ok H →
  b ∈ P → c ∈ P → b ≠ c →
  e_data <$> filter (λ e, joins (is_directed H) b c e = true) (g_edge H)
  ≡ₚ e_data <$> filter (runs_between (is_directed G) b c) (g_edge G).
Proof.
  change (qnode false) with (gset V). unfold quotient_graph. simpl.
  intros Hwf Hsimple Hmulti Hdir (H0 & HH0 & [= <-])%bind_Ok Hb Hc Hne.
  exact (quotient_blocks_multigraph_edges G P nd ed cu H0 b c
           Hwf Hsimple Hmulti Hdir HH0 Hb Hc Hne).
Qed.
End multigraph_quotient.

Lemma wf_graph_square : wf_graph Examples.square.
Proof.
  split.
  - apply (bool_decide_unpack _). vm_compute. exact I.
  - apply ends_are_nodes_true. by_evaluation.
  - intros i j e1 e2 Hi Hj [Hs _]. unfold Examples.square in Hi, Hj.
    destruct i as [|[|[|[|i]]]]; destruct j as [|[|[|[|j]]]];
      simpl in Hi, Hj; simplify_eq; try done; vm_compute in Hs; done.
  - intros _ e He. unfold Examples.square in He. simpl in He.
    list_cases He; reflexivity.
Qed.

Lemma square_quotient_eq :
  quotient_graph Examples.no_density Examples.square
    (inr Examples.square_halves) None (Some Examples.no_data) None false
    (Some ClsMultiGraph)
  = Ok Examples.square_quotient.
Proof. by_evaluation. Defined.

Lemma quotient_graph_multigraph_edges_witness :
  quotient_graph Examples.no_density Examples.square
    (inr Examples.square_halves) None (Some Examples.no_data) None false
    (Some ClsMultiGraph)
  = Ok Examples.square_quotient
  ∧ e_data <$> filter (λ e, joins (is_directed Examples.square_quotient)
                              {[0; 1]} {[2; 3]} e = true)
                 (g_edge Examples.square_quotient)
    ≡ₚ e_data <$> filter (runs_between (is_directed Examples.square)
                            ({[0; 1]} : gset nat) {[2; 3]})
                    (g_edge Examples.square).
Proof.
  split; [exact square_quotient_eq|].
  refine (quotient_graph_multigraph_edges Examples.no_density Examples.square
            Examples.square_halves (Some Examples.no_data) None
            (Some ClsMultiGraph) Examples.square_quotient {[0; 1]} {[2; 3]}
            wf_graph_square eq_refl eq_refl _ square_quotient_eq _ _ _).
  - intros Hd. discriminate Hd.
  - list_member.
  - list_member.
  - intros Heq. assert (0 ∈ ({[2; 3]} : gset nat)) as Hin.
    { rewrite <-Heq. set_solver. }
    set_solver.
Defined.

(** ** The block model of a simple graph *)

Lemma filter_fmap_agree {A B} (P : A → Prop) (Q : B → Prop)
    `{!∀ x, Decision (P x), !∀ y, Decision (Q y)} (r : A → B) (l : list A) :
  (∀ x, x ∈ l → Q (r x) ↔ P x) → filter Q (r <$> l) = r <$> filter P l.
Proof.
  induction l as [|x l IH]; intros HPQ; [done|].
  rewrite fmap_cons, !filter_cons, IH by (intros y Hy; apply HPQ; by right).
  destruct (decide (P x)) as [HP|HP].
  - rewrite decide_True; [done|]. by apply HPQ; [left|].
  - rewrite decide_False; [done|]. intros HQ. apply HP. by apply HPQ; [left|].
Qed.

Section renaming_data.
Context {V : Type} `{!EqDecision V, !Countable V}.
Context {N N' : Type} `{!EqDecision N, !EqDecision N'}.
Implicit Types (G : Graph N (attrs V)) (f : N → N').

Lemma joins_rename f G directed x y (e : Edge N (attrs V)) :
  (∀ m n, m ∈ nodes G → n ∈ nodes G → f m = f n → m = n) →
  e_src e ∈ nodes G → e_dst e ∈ nodes G → x ∈ nodes G → y ∈ nodes G →
  joins directed (f x) (f y)
    (mkEdge (f (e_src e)) (f (e_dst e)) (e_key e) (e_data e))
  = joins directed x y e.
Proof.
  intros Hinj Hs Hd Hx Hy. unfold joins. simpl.
  f_equal; [|f_equal]; apply bool_decide_ext;
    split; intros [? ?]; split; (congruence || by apply Hinj).
Qed.

Lemma get_edge_data_rename f G x y d :
  (∀ m n, m ∈ nodes G → n ∈ nodes G → f m = f n → m = n) →
  (∀ e, e ∈ g_edge G → e_src e ∈ nodes G ∧ e_dst e ∈ nodes G) →
  x ∈ nodes G → y ∈ nodes G →
  get_edge_data (map_nodes f G) (f x) (f y) d = get_edge_data G x y d.
Proof.
  intros Hinj Hends Hx Hy.
  set (r := λ e : Edge N (attrs V),
              mkEdge (f (e_src e)) (f (e_dst e)) (e_key e) (e_data e)).
  unfold get_edge_data.
  change (g_edge (map_nodes f G)) with (r <$> g_edge G).
  change (is_directed (map_nodes f G)) with (is_directed G).
  change (is_multigraph (map_nodes f G)) with (is_multigraph G).
  rewrite (filter_fmap_agree
             (λ e, joins (is_directed G) x y e = true) _ r).
  2:{ intros e [Hs Hd]%Hends. unfold r. by rewrite (joins_rename f G). }
  destruct (filter _ (g_edge G)) as [|e es]; [done|].
  rewrite fmap_cons. destruct (is_multigraph G); [|done].
  by rewrite <-fmap_cons, <-list_fmap_compose.
Qed.

Lemma get_edge_data_first G u v d :
  is_multigraph G = false → has_edge G u v = true →
  ∃ e, e ∈ g_edge G ∧ joins (is_directed G) u v e = true
       ∧ get_edge_data G u v d = e_data e.
Proof.
  intros Hm (e & He & Hj)%has_edge_joins. unfold get_edge_data. rewrite Hm.
  assert (e ∈ filter (λ e, joins (is_directed G) u v e = true) (g_edge G))
    as Hin by by apply list_elem_of_filter.
  destruct (filter _ (g_edge G)) as [|e' es] eqn:Hf.
  - by apply elem_of_nil in Hin.
  - assert (e' ∈ filter (λ e, joins (is_directed G) u v e = true) (g_edge G))
      as [Hj' He']%list_elem_of_filter by (rewrite Hf; by left).
    by exists e'.
Qed.
End renaming_data.

Section block_models.
Context {V : Type} `{!EqDecision V, !Countable V}.
Variable density : Graph V (attrs V) → value V.
Implicit Types (G : Graph V (attrs V)) (P : list (gset V)) (b c : gset V).

(** The default edge data on the edges of a simple quotient. *)
Lemma quotient_blocks_edge_weight G P er nd cu H0 e :
  (∀ e, e ∈ g_edge G → e_src e ∈ nodes G ∧ e_dst e ∈ nodes G) →
  cls_multigraph (quotient_class G cu) = false →
  quotient_blocks density G P er nd None cu = Ok H0 →
  e ∈ g_edge H0 →
  ∃ ws, Forall2 (λ e' w, weighs (e_data e') w)
          (crossing_edges G (e_src e) (e_dst e)) ws
        ∧ e_data e = <[KStr "weight" := VInt (sum_list_Z ws)]> ∅.
Proof.
  intros Hends Hsimple (_ & ts & Hts & ->)%quotient_blocks_Ok.
  rewrite Hsimple in Hts.
  set (BG := block_graph density G P nd cu) in *.
  destruct (simple_edges_Ok _ _ _ _ Hts) as [Hpairs Hdata].
  rewrite add_edges_from_simple.
  - unfold BG at 1. rewrite g_edge_block_graph. simpl.
    intros (t & -> & Ht)%list_elem_of_fmap. simpl.
    rewrite Forall_forall in Hdata. specialize (Hdata t Ht).
    simpl in Hdata. by apply default_edge_data_Ok.
  - unfold is_multigraph, BG. by rewrite g_class_block_graph.
  - intros t Ht. apply block_pairs_ends. by eapply simple_edges_ends.
  - intros t Ht. apply has_edge_false. unfold BG.
    rewrite g_edge_block_graph. by intros e' ?%elem_of_nil.
  - rewrite Hpairs. apply (apart_filter _ _), apart_block_pairs.
Qed.

(** The labels of [relabel_nodes] on a list of different blocks: every
    block is sent to its position, so that different nodes of the quotient
    get different labels. *)
Lemma quotient_blocks_labels G P er nd ed cu H0 :
  NoDup P →
  quotient_blocks density G P er nd ed cu = Ok H0 →
  nodes H0 = P
  ∧ (∀ i b, P !! i = Some b → default 0 (block_labels P !! b) = i)
  ∧ (∀ m n, m ∈ nodes H0 → n ∈ nodes H0 →
       default 0 (block_labels P !! m) = default 0 (block_labels P !! n) →
       m = n)
  ∧ (∀ e, e ∈ g_edge H0 → e_src e ∈ nodes H0 ∧ e_dst e ∈ nodes H0).
Proof.
  intros Hnd HH0.
  pose proof HH0 as (_ & _ & Hnodes)%quotient_blocks_nodes.
  rewrite add_all_new_NoDup in Hnodes by done. simpl in Hnodes.
  assert (∀ i b, P !! i = Some b → default 0 (block_labels P !! b) = i)
    as Hf.
  { intros i b Hi. by rewrite (block_labels_lookup P i b). }
  split_and!; [done..| |].
  - rewrite Hnodes.
    intros m n [i Hi]%list_elem_of_lookup [j Hj]%list_elem_of_lookup.
    rewrite (Hf i m Hi), (Hf j n Hj). intros ->. congruence.
  - intros e He%has_edge_elem_of.
    destruct (quotient_blocks_has_edge density _ _ _ _ _ _ _ _ _ HH0 He)
      as (? & ? & _). by rewrite Hnodes.
Qed.

(** X19: [blockmodel] without the multigraph flag, on a simple graph and
    a list of different blocks.  The nodes of the block model are the
    positions of the blocks.  Two positions are joined exactly when they
    are different and a node of the one block is joined in [G] to a node
    of the other; the edge then carries the single attribute [weight],
    the sum, over the edges of [G] that cross between the two blocks, of
    the number under the [weight] attribute of the edge, an edge without
    that attribute counting for one. *)
Theorem blockmodel_simple G P H :
  (∀ e, e ∈ g_edge G → e_src e ∈ nodes G ∧ e_dst e ∈ nodes G) →
  is_multigraph G = false →
  NoDup P →
  blockmodel density G P false = Ok H →
  nodes H = seq 0 (length P)
  ∧ ∀ i j b c, P !! i = Some b → P !! j = Some c →
      (has_edge H i j = true ↔
         i ≠ j ∧ ∃ u v, u ∈ b ∧ v ∈ c ∧ has_edge G u v = true)
      ∧ (has_edge H i j = true →
         ∃ ws, Forall2 (λ e w, weighs (e_data e) w)
                 (crossing_edges G b c) ws
               ∧ get_edge_data H i j ∅
                 = <[KStr "weight" := VInt (sum_list_Z ws)]> ∅).
Proof.
  intros Hends Hsimple Hnd. unfold blockmodel, quotient_graph. simpl.
  intros (H0 & HH0 & [= <-])%bind_Ok.
  pose proof HH0 as (Hcls & _)%quotient_blocks_nodes.
  destruct (quotient_blocks_labels G P _ _ _ _ H0 Hnd HH0)
    as (Hnodes & Hf & Hinj & Hends0).
  unfold relabel_nodes.
  set (f := λ b : gset V, default 0 (block_labels P !! b)).
  change (∀ i b, P !! i = Some b → f b = i) in Hf.
  change (∀ m n, m ∈ nodes H0 → n ∈ nodes H0 → f m = f n → m = n) in Hinj.
  split.
  - rewrite nodes_map_nodes, Hnodes.
    apply list_eq. intros i. rewrite list_lookup_fmap.
    destruct (P !! i) as [b|] eqn:Hi; simpl.
    + rewrite (Hf i b Hi). symmetry. apply lookup_seq. split; [done|].
      by eapply lookup_lt_Some.
    + symmetry. apply lookup_seq_ge. by apply lookup_ge_None.
  - intros i j b c Hi Hj.
    assert (b ∈ nodes H0 ∧ c ∈ nodes H0) as [Hb Hc].
    { rewrite Hnodes. split; by eapply list_elem_of_lookup_2. }
    rewrite <-(Hf i b Hi), <-(Hf j c Hj).
    rewrite has_edge_rename, get_edge_data_rename by done.
    rewrite (quotient_blocks_default_edges density G P None None H0 b c HH0).
    rewrite Hnodes in Hb, Hc. split.
    + split.
      * intros (_ & _ & Hne & Hex). split; [|done]. intros Heq.
        apply Hne, Hinj; [by rewrite Hnodes..|done].
      * intros [Hne Hex]. split_and!; [done..| |done]. by intros ->.
    + intros (_ & _ & Hne & Hex).
      assert (has_edge H0 b c = true) as Hh.
      { by apply (quotient_blocks_default_edges density G P None None). }
      destruct (get_edge_data_first H0 b c ∅) as (e & He & Hj' & ->);
        [|done|].
      { unfold is_multigraph. by rewrite Hcls. }
      destruct (quotient_blocks_edge_weight G P None None None H0 e)
        as (ws & Hws & Hd); [done..|].
      exists ws. split; [|done].
      assert (crossing_edges G b c = crossing_edges G (e_src e) (e_dst e))
        as ->; [|done].
      apply joins_true in Hj' as [[<- <-]|(_ & <- & <-)]; [done|].
      unfold crossing_edges. apply filter_ext_elem.
      intros e' _. unfold crossing. tauto.
Qed.

(** X20: [blockmodel] with the multigraph flag, on a simple undirected
    graph and a list of different blocks.  The edges of the block model
    between two different positions carry, up to order, the attribute
    dictionaries of the edges of [G] that cross between the two blocks:
    one edge of the block model for each such edge of [G]. *)
Theorem blockmodel_multigraph G P H i j b c :
  wf_graph G → is_multigraph G = false → is_directed G = false →
  NoDup P →
  blockmodel density G P true = Ok H →
  P !! i = Some b → P !! j = Some c → i ≠ j →
  e_data <$> filter (λ e, joins (is_directed H) i j e = true) (g_edge H)
  ≡ₚ e_data <$> crossing_edges G b c.
Proof.
  intros Hwf Hsimple Hund Hnd. unfold blockmodel, quotient_graph. simpl.
  intros (H0 & HH0 & [= <-])%bind_Ok Hi Hj Hne.
  destruct (quotient_blocks_labels G P _ _ _ _ H0 Hnd HH0)
    as (Hnodes & Hf & Hinj & Hends0).
  unfold relabel_nodes.
  set (f := λ b : gset V, default 0 (block_labels P !! b)).
  change (∀ i b, P !! i = Some b → f b = i) in Hf.
  change (∀ m n, m ∈ nodes H0 → n ∈ nodes H0 → f m = f n → m = n) in Hinj.
  set (r := λ e : Edge (gset V) (attrs V),
              mkEdge (f (e_src e)) (f (e_dst e)) (e_key e) (e_data e)).
  change (g_edge (map_nodes f H0)) with (r <$> g_edge H0).
  change (is_directed (map_nodes f H0)) with (is_directed H0).
  assert (b ∈ P ∧ c ∈ P) as [Hb Hc].
  { split; by eapply list_elem_of_lookup_2. }
  rewrite <-(Hf i b Hi), <-(Hf j c Hj).
  rewrite (filter_fmap_agree
             (λ e, joins (is_directed H0) b c e = true) _ r).
  2:{ intros e [Hs Hd]%Hends0. unfold r.
      rewrite (joins_rename f H0); [done..|by rewrite Hnodes|by rewrite Hnodes]. }
  rewrite <-list_fmap_compose.
  trans (e_data <$> filter (λ e, joins (is_directed H0) b c e = true)
                      (g_edge H0)); [done|].
  rewrite (quotient_blocks_multigraph_edges density G P None None
             (Some ClsMultiGraph) H0 b c); try done.
  - rewrite Hund. unfold crossing_edges.
    erewrite filter_ext_elem; [done|].
    intros e _. unfold runs_between, crossing. tauto.
  - by rewrite Hund.
  - intros ->. apply Hne. by eapply NoDup_lookup.
Qed.
End block_models.

Lemma NoDup_square_halves : NoDup Examples.square_halves.
Proof. apply (bool_decide_unpack _). vm_compute. exact I. Qed.

Lemma square_blockmodel_eq :
  blockmodel Examples.no_density Examples.square Examples.square_halves false
  = Ok Examples.square_blockmodel.
Proof. by_evaluation. Defined.

Lemma blockmodel_simple_witness :
  blockmodel Examples.no_density Examples.square Examples.square_halves false
  = Ok Examples.square_blockmodel
  ∧ get_edge_data Examples.square_blockmodel 0 1 ∅
    = <[KStr "weight" := VInt 12]> ∅.
Proof.
  split; [exact square_blockmodel_eq|].
  destruct (blockmodel_simple Examples.no_density Examples.square
              Examples.square_halves Examples.square_blockmodel
              (wf_ends _ wf_graph_square) eq_refl NoDup_square_halves
              square_blockmodel_eq) as [_ Hedges].
  destruct (Hedges 0 1 {[0; 1]} {[2; 3]} eq_refl eq_refl) as [_ Hweight].
  destruct Hweight as (ws & Hws & ->); [by_evaluation|].
  assert (Forall2 (λ e w, weighs (e_data e) w)
            (crossing_edges Examples.square {[0; 1]} {[2; 3]})
            [5; 7]%Z) as Hws'.
  { assert (crossing_edges Examples.square {[0; 1]} {[2; 3]}
            = [mkEdge 1 2 0 (Examples.weight 5);
               mkEdge 3 0 0 (Examples.weight 7)]) as -> by by_evaluation.
    repeat constructor; left; by_evaluation. }
  by rewrite (Forall2_weighs_agree _ _ _ Hws Hws').
Defined.

Lemma square_multi_blockmodel_eq :
  blockmodel Examples.no_density Examples.square Examples.square_halves true
  = Ok Examples.square_multi_blockmodel.
Proof. by_evaluation. Defined.

Lemma blockmodel_multigraph_witness :
  blockmodel Examples.no_density Examples.square Examples.square_halves true
  = Ok Examples.square_multi_blockmodel
  ∧ e_data <$> filter (λ e, joins (is_directed
                                     Examples.square_multi_blockmodel)
                              0 1 e = true)
                 (g_edge Examples.square_multi_blockmodel)
    ≡ₚ e_data <$> crossing_edges Examples.square {[0; 1]} {[2; 3]}.
Proof.
  split; [exact square_multi_blockmodel_eq|].
  refine (blockmodel_multigraph Examples.no_density Examples.square
            Examples.square_halves Examples.square_multi_blockmodel
            0 1 {[0; 1]} {[2; 3]} wf_graph_square eq_refl eq_refl
            NoDup_square_halves square_multi_blockmodel_eq eq_refl eq_refl _).
  intros Heq. discriminate Heq.
Defined.

(** ** Contraction: the calls that return *)

Section contraction_outcome.
Context {V : Type} `{!EqDecision V, !Countable V}.
Implicit Types (G H : Graph V (attrs V)) (u v w x y : V).

(** The generator [new_edges] yields an edge exactly when [v] has an
    incident edge that passes the test on [self_loops]. *)
Lemma new_edges_nonempty {A} (G : Graph V A) u v self_loops es :
  new_edges G u v self_loops = Ok es →
  (∃ t, t ∈ es) ↔
  ∃ w, (has_edge G v w = true ∨ has_edge G w v = true)
       ∧ (self_loops = true ∨ w ≠ u).
Proof.
  intros Hes. split.
  - intros (t & Ht).
    destruct (proj1 (new_edges_pairs G u v self_loops es t.1.1 t.1.2 Hes))
      as [(_ & He & Hk)|(_ & _ & He & Hk)].
    + exists t. split; [done|]. by destruct t as [[] ?].
    + exists t.1.2. rewrite <-keeps_true. auto.
    + exists t.1.1. rewrite <-keeps_true. auto.
  - intros (w & [He|He] & Hk%keeps_true).
    + destruct (proj2 (new_edges_pairs G u v self_loops es u w Hes))
        as (t & Ht & _); [by left|]. by exists t.
    + destruct (is_directed G) eqn:Hd.
      * destruct (proj2 (new_edges_pairs G u v self_loops es w u Hes))
          as (t & Ht & _); [by right|]. by exists t.
      * destruct (proj2 (new_edges_pairs G u v self_loops es u w Hes))
          as (t & Ht & _); [|by exists t].
        left. split; [done|]. split; [|done]. by apply has_edge_sym.
Qed.

(** X21: when [contracted_nodes] returns, for [u] and [v] different.
    The call returns a graph exactly when [v] is a node of [G] and either
    [u] is a node whose [contraction] attribute, if it has one, is a
    dictionary, or [u] is no node of [G] but [v] has an edge that is
    rerouted: [add_edges_from] then creates [u].  In all other cases the
    call raises. *)
Theorem contracted_nodes_outcome G u v self_loops :
  u ≠ v →
  (is_Ok (contracted_nodes G u v self_loops) ↔
   v ∈ nodes G
   ∧ ((∃ d, node_attr G u = Ok d
            ∧ ∀ a : value V, d !! KStr "contraction" = Some a →
                ∃ r, a = VDict r)
      ∨ ((u ∉ nodes G)
         ∧ ∃ w, (has_edge G v w = true ∨ has_edge G w v = true)
                ∧ (self_loops = true ∨ w ≠ u)))).
Proof.
  intros Huv. unfold contracted_nodes, copy.
  assert (∀ G1, remove_node G v = Ok G1 →
            ∀ n, n ∈ nodes G1 ↔ n ∈ nodes G ∧ n ≠ v) as Hn1.
  { intros G1 [-> _]%nodes_remove_node n. rewrite list_elem_of_filter. tauto. }
  assert (∀ es G1, new_edges G u v self_loops = Ok es →
            remove_node G v = Ok G1 → u ∉ nodes G →
            u ∈ nodes (add_edges_from G1 es) ↔ ∃ t, t ∈ es) as Hnew.
  { intros es G1 Hes HG1 Hu.
    rewrite nodes_add_edges_from, elem_of_add_all_new, elem_of_flat_map.
    split.
    - intros [[? _]%(Hn1 G1 HG1)|(t & Ht & _)]; [done|by exists t].
    - intros (t & Ht). right. exists t. split; [done|].
      destruct (new_edges_ends_at G u v self_loops es t Hes Ht) as [<-|<-].
      + by left.
      + right. by left. }
  split.
  - intros [H (es & Hes & (v_data & Hvd & (G1 & HG1 & Hrest)%bind_Ok)%bind_Ok)%bind_Ok].
    apply bind_Ok in Hrest as (u_data & Hud & Hrest).
    split.
    { apply (attr_of_is_Ok (g_node G)). rewrite <-node_attr_attr_of, Hvd.
      apply is_Ok_Ok. }
    destruct (decide (u ∈ nodes G)) as [Hu|Hu].
    + left. exists u_data.
      rewrite node_attr_add_edges_from_old in Hud by by apply (Hn1 G1 HG1).
      rewrite (node_attr_remove_node G G1 v u HG1 Huv) in Hud.
      split; [done|]. intros a Ha. rewrite Ha in Hrest.
      destruct a; try done. eauto.
    + right. split; [done|].
      apply (new_edges_nonempty G u v self_loops es Hes).
      apply (Hnew es G1 Hes HG1 Hu).
      apply (attr_of_is_Ok (g_node (add_edges_from G1 es))).
      rewrite <-node_attr_attr_of, Hud. apply is_Ok_Ok.
  - intros [Hv Hcase].
    destruct (new_edges_is_Ok G u v self_loops Hv) as [es Hes].
    rewrite Hes. simpl.
    destruct (node_attr_is_Ok G v Hv) as [dv ->]. simpl.
    assert (is_Ok (remove_node G v)) as [G1 HG1].
    { unfold remove_node.
      rewrite (proj2 (has_node_true G v) Hv). apply is_Ok_Ok. }
    rewrite HG1. simpl.
    destruct Hcase as [(d & Hd & Hrec)|(Hu & Hw)].
    + assert (u ∈ nodes G) as Hu.
      { apply (attr_of_is_Ok (g_node G)). rewrite <-node_attr_attr_of, Hd.
        apply is_Ok_Ok. }
      rewrite node_attr_add_edges_from_old by by apply (Hn1 G1 HG1).
      rewrite (node_attr_remove_node G G1 v u HG1 Huv), Hd. simpl.
      destruct (d !! KStr "contraction") as [a|] eqn:Ha; [|apply is_Ok_Ok].
      destruct (Hrec a eq_refl) as [r ->]. apply is_Ok_Ok.
    + rewrite node_attr_add_edges_from_new.
      * simpl. rewrite lookup_empty. apply is_Ok_Ok.
      * intros [? _]%(Hn1 G1 HG1). done.
      * apply (Hnew es G1 Hes HG1 Hu).
        by apply (new_edges_nonempty G u v self_loops es Hes).
Qed.
End contraction_outcome.

Lemma contracted_nodes_outcome_witness :
  is_Ok (contracted_nodes Examples.cycle5 7 1 false).
Proof.
  apply (contracted_nodes_outcome Examples.cycle5 7 1 false);
    [intros Heq; discriminate Heq|].
  split; [list_member|]. right. split.
  - apply (bool_decide_unpack _). vm_compute. exact I.
  - exists 2. split; [left; by_evaluation|]. right. intros Heq.
    discriminate Heq.
Defined.
